(** * wsl-mcp: session command protocol, pollers and output cleaner

    A shallow embedding of the TypeScript sources
      - [session/manager.ts]   (SessionManager: createSession, getSession,
                                getOrCreateSession, listSessions, closeSession,
                                closeAllSessions, executeCommand, handleOutput,
                                handleExit)
      - [utils/output.ts]      (cleanOutput, cleanMarkers, cleanCommandEcho,
                                cleanPrompt, fullCleanOutput; it follows
                                [utils/errors.ts] in the same source file)
      - [utils/errors.ts]      (the error codes and the error factories,
                                withErrorHandling, withRetry, safeExecute)
      - [polling/types.ts], [polling/output-poller.ts]
                               (OutputPoller: startProcess, poll, stopProcess,
                                getActiveProcesses, getAllProcesses,
                                cleanupCompleted, the output listener and the
                                completion handler)
      - [polling/log-tailer.ts]    (parseLogLine, detectLogLevel; LogTailer:
                                startTailing, getLogs, getIncrementalLogs,
                                stopTailing, getActiveTails, cleanupStopped)
      - [transfer/manager.ts]  (FileTransferManager: uploadFile, downloadFile,
                                listDirectory, parseLsOutput)
      - [backends/wsl.ts], [backends/docker.ts]
                               (getDistributions, getSystemInfo: what they
                                read off the output of their commands)
      - [index.ts], [server.ts]    (the configuration the server gives the
                                session manager)
    followed by the properties the specification states about them, and by
    further properties of the same code.

    JavaScript strings are sequences of UTF-16 code units; they are modelled
    as [list N], one element per code unit, so that [length], [slice] and the
    character classes of the regular expressions count what the code counts. *)

From Stdlib Require Import ZArith NArith List Bool Ascii String DecimalString Lia.
From stdpp Require Import base option list gmap.

Set Default Proof Using "Type".

(* ===================================================================== *)
(** ** JavaScript strings *)
(* ===================================================================== *)

Module Js.

Abbreviation jsstr := (list N).

(** Code unit of an ASCII character, and the code units of an ASCII literal. *)
Definition ch (a : ascii) : N := N_of_ascii a.
Arguments ch a%_char.

Fixpoint lit (s : string) : list N :=
  match s with
  | EmptyString => []
  | String a s' => N_of_ascii a :: lit s'
  end.
Arguments lit s%_string.

Definition LF : N := 10.
Definition CR : N := 13.
Definition ESC : N := 27.
Definition BEL : N := 7.
Definition BS : N := 8.

(** ECMAScript WhiteSpace and LineTerminator code points: what [trim],
    [trimEnd] and the class [\s] recognise. *)
Definition isWhiteSpace (c : N) : bool :=
  ((9 <=? c) && (c <=? 13) || (c =? 32) || (c =? 160) || (c =? 5760)
   || (8192 <=? c) && (c <=? 8202) || (c =? 8232) || (c =? 8233)
   || (c =? 8239) || (c =? 8287) || (c =? 12288) || (c =? 65279))%N.

(** [.] without the [s] flag: anything but a line terminator. *)
Definition isLineTerminator (c : N) : bool :=
  ((c =? 10) || (c =? 13) || (c =? 8232) || (c =? 8233))%N.

Definition isDigit (c : N) : bool := ((48 <=? c) && (c <=? 57))%N.
Definition isUpper (c : N) : bool := ((65 <=? c) && (c <=? 90))%N.
Definition isLower (c : N) : bool := ((97 <=? c) && (c <=? 122))%N.
(** [\w] *)
Definition isWord (c : N) : bool :=
  isUpper c || isLower c || isDigit c || (c =? ch "_")%N.

Fixpoint trimStart (s : list N) : list N :=
  match s with
  | [] => []
  | c :: s' => if isWhiteSpace c then trimStart s' else s
  end.

Fixpoint trimEnd (s : list N) : list N :=
  match s with
  | [] => []
  | c :: s' =>
      match trimEnd s' with
      | [] => if isWhiteSpace c then [] else [c]
      | t => c :: t
      end
  end.

Definition trim (s : list N) : list N := trimEnd (trimStart s).

(** [s.split(sep)] for a one-code-unit separator: never the empty list. *)
Fixpoint split (sep : N) (s : list N) : list (list N) :=
  match s with
  | [] => [[]]
  | c :: s' =>
      if (c =? sep)%N then [] :: split sep s'
      else match split sep s' with
           | l :: ls => (c :: l) :: ls
           | [] => [[c]]
           end
  end.

(** [ls.join(sep)] *)
Fixpoint join (sep : list N) (ls : list (list N)) : list N :=
  match ls with
  | [] => []
  | l :: ls' =>
      match ls' with
      | [] => l
      | _ :: _ => l ++ sep ++ join sep ls'
      end
  end.

Fixpoint startsWith (t s : list N) : bool :=
  match t with
  | [] => true
  | a :: t' =>
      match s with
      | [] => false
      | b :: s' => (a =? b)%N && startsWith t' s'
      end
  end.

(** [s.includes(t)] *)
Fixpoint includes (s t : list N) : bool :=
  startsWith t s
  || match s with
     | [] => false
     | _ :: s' => includes s' t
     end.

(** [s.lastIndexOf(t)], with [-1] for no occurrence; [i] is the index of the
    head of [s] in the whole string. *)
Fixpoint lastIndexOfFrom (i : Z) (s t : list N) : Z :=
  let later := match s with
               | [] => (-1)%Z
               | _ :: s' => lastIndexOfFrom (i + 1) s' t
               end in
  if (0 <=? later)%Z then later
  else if startsWith t s then i else (-1)%Z.

Definition lastIndexOf (s t : list N) : Z := lastIndexOfFrom 0 s t.

Definition len (s : list N) : Z := Z.of_nat (length s).

(** [s.slice(start)]: a negative start counts from the end; [-0] is [0]. *)
Definition sliceFrom (start : Z) (s : list N) : list N :=
  let k := if (start <? 0)%Z then Z.max (len s + start) 0
           else Z.min start (len s) in
  drop (Z.to_nat k) s.

(** [s.slice(0, n)] for [n >= 0]. *)
Definition sliceTo (n : nat) (s : list N) : list N := take n s.

(** [s.substring(a, b)]: both ends clamped to [0, length], swapped when
    [a > b]. *)
Definition substring (a b : Z) (s : list N) : list N :=
  let clamp x := Z.min (Z.max x 0) (len s) in
  let lo := Z.min (clamp a) (clamp b) in
  let hi := Z.max (clamp a) (clamp b) in
  take (Z.to_nat (hi - lo)) (drop (Z.to_nat lo) s).

(** [toLowerCase] on the ASCII letters; code units outside [A-Z] are kept
    (the Unicode case tables belong to the runtime, not to the repository).
    The sources lower-case a text only to search it for the keywords of
    [detectLogLevel], and a word of [\w] characters.  Outside ASCII only
    U+0130 and U+212A lower-case to ASCII letters, [i] and [k]; no keyword has
    a [k], and the one keyword with an [i] is found only where [warn] is: on
    these uses the sources give what this definition gives. *)
Definition lowerChar (c : N) : N := if isUpper c then (c + 32)%N else c.
Definition toLowerCase (s : list N) : list N := map lowerChar s.

(** A text given line by line: the lines joined by line feeds. *)
Definition unlines (ls : list (list N)) : list N := join [LF] ls.

(** Decimal rendering of an integer, as a template literal does. *)
Definition showZ (z : Z) : list N := lit (NilZero.string_of_int (Z.to_int z)).

(** [parseInt(ds, 10)] on a string of decimal digits.  A JavaScript number
    is a double: [parseInt] gives this integer when it is below [2^53], and
    a double near it (or [Infinity]) above, which this definition does not
    follow; what is stated of its value is stated below [2^53]. *)
Definition parseDigits (ds : list N) : Z :=
  fold_left (fun acc c => (10 * acc + (Z.of_N c - 48))%Z) ds 0%Z.

(** A number where the sources may hold none: an integer, [NaN], or
    [undefined]. *)
Inductive Num : Type :=
| Number (n : Z)
| NaN
| Undefined.

(** A number in a template literal. *)
Definition showNum (l : Num) : list N :=
  match l with
  | Number n => showZ n
  | NaN => lit "NaN"
  | Undefined => lit "undefined"
  end.

(** [x >= l] and [x < l]: a comparison with [NaN] or [undefined] is
    false. *)
Definition geNum (x : Z) (l : Num) : bool :=
  match l with
  | Number n => (n <=? x)%Z
  | _ => false
  end.
Definition ltNum (x : Z) (l : Num) : bool :=
  match l with
  | Number n => (x <? n)%Z
  | _ => false
  end.

End Js.
Import Js.

(* ===================================================================== *)
(** ** Regular expressions

    A backtracking matcher for the fragment of ECMAScript regular
    expressions the sources use: character classes, sequence, ordered
    alternation, the greedy star of a character class (every [*], [+] and
    [{n,}] of the sources repeats a single class), capturing groups, the
    anchors [^] and [$] (no [m] flag) and negative lookahead.  The matcher is
    in continuation-passing style, so alternatives are retried in the order
    the ECMAScript semantics prescribes. *)
(* ===================================================================== *)

Module Re.

Inductive regex : Type :=
| Eps
| Chr (p : N -> bool)
| Seq (r1 r2 : regex)
| Alt (r1 r2 : regex)
| Star (p : N -> bool)
| Group (r : regex)
| Bol
| Eol
| NotAhead (r : regex).

(** The state of a match: the input still to read and the captures closed so
    far, in the order of their groups. *)
Definition answer : Type := option (list N * list (list N)).

Fixpoint rmatch (n0 : nat) (r : regex)
    (k : list N -> list (list N) -> answer)
    (s : list N) (caps : list (list N)) {struct r} : answer :=
  match r with
  | Eps => k s caps
  | Chr p =>
      match s with
      | c :: s' => if p c then k s' caps else None
      | [] => None
      end
  | Seq r1 r2 => rmatch n0 r1 (rmatch n0 r2 k) s caps
  | Alt r1 r2 =>
      match rmatch n0 r1 k s caps with
      | Some a => Some a
      | None => rmatch n0 r2 k s caps
      end
  | Star p =>
      (fix star (s : list N) : answer :=
         match s with
         | c :: s' =>
             if p c then
               match star s' with
               | Some a => Some a
               | None => k s caps
               end
             else k s caps
         | [] => k s caps
         end) s
  | Group r1 =>
      rmatch n0 r1
        (fun s' caps' => k s' (caps' ++ [take (length s - length s') s]))
        s caps
  | Bol => if (length s =? n0)%nat then k s caps else None
  | Eol => match s with [] => k s caps | _ :: _ => None end
  | NotAhead r1 =>
      match rmatch n0 r1 (fun s' caps' => Some (s', caps')) s caps with
      | Some _ => None
      | None => k s caps
      end
  end.

(** One attempt at the current position: the rest of the input after the
    match, and the captures. *)
Definition matchHere (n0 : nat) (r : regex) (s : list N) : answer :=
  rmatch n0 r (fun s' caps => Some (s', caps)) s [].

(** [s.match(r)] without the [g] flag: the leftmost match.  The result is the
    matched text followed by the captures (index 0, 1, 2, ... of the match
    array). *)
Fixpoint searchFrom (n0 : nat) (r : regex) (s : list N)
    : option (list (list N)) :=
  match matchHere n0 r s with
  | Some (rest, caps) => Some (take (length s - length rest) s :: caps)
  | None =>
      match s with
      | [] => None
      | _ :: s' => searchFrom n0 r s'
      end
  end.

Definition exec (r : regex) (s : list N) : option (list (list N)) :=
  searchFrom (length s) r s.

(** [r.test(s)], also the truth value of [s.match(r)]. *)
Definition test (r : regex) (s : list N) : bool :=
  match exec r s with Some _ => true | None => false end.

(** [s.replace(r, repl)] with the [g] flag and a replacement without [$]
    patterns.  [skip] counts the code units of the current match still to
    drop; an empty match lets one code unit through, as [lastIndex] advances
    by one. *)
Fixpoint replaceGo (n0 : nat) (r : regex) (repl : list N)
    (skip : nat) (s : list N) {struct s} : list N :=
  match skip with
  | S m =>
      match s with
      | [] => []
      | _ :: s' => replaceGo n0 r repl m s'
      end
  | O =>
      match matchHere n0 r s with
      | Some (rest, _) =>
          repl ++
          match s with
          | [] => []
          | c :: s' =>
              match (length s - length rest)%nat with
              | O => c :: replaceGo n0 r repl 0 s'
              | S m => replaceGo n0 r repl m s'
              end
          end
      | None =>
          match s with
          | [] => []
          | c :: s' => c :: replaceGo n0 r repl 0 s'
          end
      end
  end.

Definition replaceAll (r : regex) (repl : list N) (s : list N) : list N :=
  replaceGo (length s) r repl 0 s.

(** Builders for the notation of the sources. *)
Definition isC (a : ascii) : N -> bool := fun c => (c =? N_of_ascii a)%N.
Arguments isC a%_char.
Definition code (n : N) : N -> bool := fun c => (c =? n)%N.
Definition oneOf (s : string) : N -> bool :=
  fun c => existsb (N.eqb c) (lit s).
Arguments oneOf s%_string.
Definition orC (p q : N -> bool) : N -> bool := fun c => p c || q c.
Definition notC (p : N -> bool) : N -> bool := fun c => negb (p c).
Definition dot : N -> bool := notC isLineTerminator.

Fixpoint seqs (rs : list regex) : regex :=
  match rs with
  | [] => Eps
  | r :: rs' =>
      match rs' with
      | [] => r
      | _ :: _ => Seq r (seqs rs')
      end
  end.

(** [p+], [r?], and a literal text. *)
Definition plus (p : N -> bool) : regex := Seq (Chr p) (Star p).
Definition opt (r : regex) : regex := Alt r Eps.
Definition text (s : list N) : regex := seqs (map (fun c => Chr (code c)) s).
Fixpoint times (n : nat) (p : N -> bool) : regex :=
  match n with
  | O => Eps
  | S O => Chr p
  | S m => Seq (Chr p) (times m p)
  end.

End Re.
Import Re.

(* ===================================================================== *)
(** ** Output cleaner ([utils/output.ts]) *)
(* ===================================================================== *)

Module Output.

(** The patterns of [cleanOutput], in the order of the source. *)
Definition csiParams : N -> bool := orC isDigit (isC ";").
Definition reSgr : regex :=                       (* /\x1b\[[0-9;]*m/g *)
  seqs [Chr (code ESC); Chr (isC "["); Star csiParams; Chr (isC "m")].
Definition reCursor : regex :=                    (* /\x1b\[[0-9;]*[ABCDHfJK]/g *)
  seqs [Chr (code ESC); Chr (isC "["); Star csiParams; Chr (oneOf "ABCDHfJK")].
Definition reOsc : regex :=                       (* /\x1b\][^\x07\x1b]*(\x07|\x1b\\)/g *)
  seqs [Chr (code ESC); Chr (isC "]"); Star (notC (orC (code BEL) (code ESC)));
        Group (Alt (Chr (code BEL)) (Seq (Chr (code ESC)) (Chr (code 92))))].
Definition reCharset : regex :=                   (* /\x1b[()[\]#+.][A-Za-z0-9]?/g *)
  seqs [Chr (code ESC); Chr (oneOf "()[]#+.");
        opt (Chr (orC isUpper (orC isLower isDigit)))].
Definition reKeypad : regex :=                    (* /\x1b[><=]/g *)
  seqs [Chr (code ESC); Chr (oneOf "><=")].
Definition reCsi : regex :=                       (* /\x1b\[[0-9;]*[a-zA-Z]/g *)
  seqs [Chr (code ESC); Chr (isC "["); Star csiParams; Chr (orC isLower isUpper)].
Definition rePrivate : regex :=                   (* /\[\?[0-9]+[hl]/g *)
  seqs [Chr (isC "["); Chr (isC "?"); plus isDigit; Chr (oneOf "hl")].
Definition rePrivateRest : regex :=               (* /\?[0-9]+[hl]/g *)
  seqs [Chr (isC "?"); plus isDigit; Chr (oneOf "hl")].
Definition reCrLf : regex := seqs [Chr (code CR); Chr (code LF)].  (* /\r\n/g *)
Definition reCr : regex := Chr (code CR).                         (* /\r/g *)
Definition reBs : regex := Chr (code BS).                         (* /[\x08]/g *)
Definition reBel : regex := Chr (code BEL).                       (* /[\x07]/g *)
Definition reLoneEsc : regex :=                   (* /\x1b(?!\[)/g *)
  Seq (Chr (code ESC)) (NotAhead (Chr (isC "["))).
Definition reBlankRun : regex :=                  (* /\n{3,}/g *)
  Seq (times 3 (code LF)) (Star (code LF)).

(** [cleanOutput(output)] *)
Definition cleanOutput (output : list N) : list N :=
  let result := output in
  let result := replaceAll reSgr [] result in
  let result := replaceAll reCursor [] result in
  let result := replaceAll reOsc [] result in
  let result := replaceAll reCharset [] result in
  let result := replaceAll reKeypad [] result in
  let result := replaceAll reCsi [] result in
  let result := replaceAll rePrivate [] result in
  let result := replaceAll rePrivateRest [] result in
  let result := replaceAll reCrLf [LF] result in
  let result := replaceAll reCr [LF] result in
  let result := replaceAll reBs [] result in
  let result := replaceAll reBel [] result in
  let result := replaceAll reLoneEsc [] result in
  let result := replaceAll reBlankRun [LF; LF] result in
  let result := join [LF] (map trimEnd (split LF result)) in
  trim result.

(** [lines.filter(keep).join('\n')] over [output.split('\n')]: the shape
    shared by [cleanMarkers] and [cleanPrompt], whose callbacks have no
    state. *)
Definition filterLines (keep : list N -> bool) (output : list N) : list N :=
  join [LF] (List.filter keep (split LF output)).

Definition isEmpty (s : list N) : bool :=
  match s with [] => true | _ :: _ => false end.

(** The callback of [cleanCommandEcho] reads and sets the flag
    [commandEchoSkipped]; the filter threads it through the lines. *)
Fixpoint echoFilter (commandFirstWord : list N) (commandEchoSkipped : bool)
    (lines : list (list N)) : list (list N) :=
  match lines with
  | [] => []
  | line :: rest =>
      let trimmed := trim line in
      if isEmpty trimmed then
        echoFilter commandFirstWord commandEchoSkipped rest
      else if negb commandEchoSkipped && negb (isEmpty commandFirstWord)
              && includes trimmed commandFirstWord then
        echoFilter commandFirstWord true rest
      else line :: echoFilter commandFirstWord commandEchoSkipped rest
  end.

(** [command.split(' ')[0]] *)
Definition firstWord (command : list N) : list N :=
  match split (ch " ") command with
  | w :: _ => w
  | [] => []
  end.

(** [cleanCommandEcho(output, command)] *)
Definition cleanCommandEcho (output command : list N) : list N :=
  let lines := split LF output in
  let commandFirstWord := firstWord command in
  join [LF] (echoFilter commandFirstWord false lines).

(** The patterns of [cleanPrompt]. *)
Definition ws : N -> bool := isWhiteSpace.
Definition rePromptEnv : regex :=                 (* /^\(.+\)\s*[@$#]/ *)
  seqs [Bol; Chr (isC "("); plus dot; Chr (isC ")"); Star ws; Chr (oneOf "@$#")].
Definition rePromptEnvTight : regex :=            (* /^\(.+\)[@$#]/ *)
  seqs [Bol; Chr (isC "("); plus dot; Chr (isC ")"); Chr (oneOf "@$#")].
Definition rePromptBracket : regex :=             (* /^\[.+\][@$#]/ *)
  seqs [Bol; Chr (isC "["); plus dot; Chr (isC "]"); Chr (oneOf "@$#")].
Definition rePromptBare : regex :=                (* /^[$#>]\s*$/ *)
  seqs [Bol; Chr (oneOf "$#>"); Star ws; Eol].
Definition rePromptArrow : regex :=               (* /^❯\s*$/ , U+276F *)
  seqs [Bol; Chr (code 10095); Star ws; Eol].
Definition rePromptTilde : regex :=               (* /^~\s*$/ *)
  seqs [Bol; Chr (isC "~"); Star ws; Eol].
Definition rePromptPercent : regex :=             (* /^%\s*$/ *)
  seqs [Bol; Chr (isC "%"); Star ws; Eol].
Definition rePromptUserHome : regex :=            (* /^user@.*:\~?\$?\s*$/ *)
  seqs [Bol; text (lit "user@"); Star dot; Chr (isC ":"); opt (Chr (isC "~"));
        opt (Chr (isC "$")); Star ws; Eol].
Definition rePromptUserPath : regex :=            (* /^user@.*:\S+\$?\s*$/ *)
  seqs [Bol; text (lit "user@"); Star dot; Chr (isC ":"); plus (notC ws);
        opt (Chr (isC "$")); Star ws; Eol].
Definition rePromptEnvEcho : regex :=             (* /^\(.*\).*@.*:.*\$echo/ *)
  seqs [Bol; Chr (isC "("); Star dot; Chr (isC ")"); Star dot; Chr (isC "@");
        Star dot; Chr (isC ":"); Star dot; text (lit "$echo")].
Definition rePromptEcho : regex :=                (* /^.*@.*:.*\$echo/ *)
  seqs [Bol; Star dot; Chr (isC "@"); Star dot; Chr (isC ":"); Star dot;
        text (lit "$echo")].

(** The callback of [cleanPrompt]: [true] when the line is kept. *)
Definition keepPrompt (line : list N) : bool :=
  let trimmed := trim line in
  if test rePromptEnv trimmed then false
  else if test rePromptEnvTight trimmed then false
  else if test rePromptBracket trimmed then false
  else if test rePromptBare trimmed then false
  else if test rePromptArrow trimmed then false
  else if test rePromptTilde trimmed then false
  else if test rePromptPercent trimmed then false
  else if test rePromptUserHome trimmed then false
  else if test rePromptUserPath trimmed then false
  else if test rePromptEnvEcho trimmed then false
  else if test rePromptEcho trimmed then false
  else if includes trimmed (lit "echo'===") then false
  else if includes trimmed (lit "echo " ++ [34%N] ++ lit "===") then false
  else true.

(** [cleanPrompt(output)] *)
Definition cleanPrompt (output : list N) : list N := filterLines keepPrompt output.

Record Markers : Type := {
  startMarker : list N;
  endMarker : list N;
  exitMarker : list N
}.

Definition reMarkerEcho : regex :=                (* /^echo\s+[QUOTES].*===/ , both quote signs *)
  seqs [Bol; text (lit "echo"); plus ws; Chr (orC (isC "'") (code 34));
        Star dot; text (lit "===")].

(** The callback of [cleanMarkers]. *)
Definition keepMarker (markers : Markers) (line : list N) : bool :=
  let trimmed := trim line in
  if includes trimmed (startMarker markers) then false
  else if includes trimmed (endMarker markers) then false
  else if includes trimmed (exitMarker markers) then false
  else if test reMarkerEcho trimmed then false
  else true.

(** [cleanMarkers(output, markers)] *)
Definition cleanMarkers (output : list N) (markers : Markers) : list N :=
  filterLines (keepMarker markers) output.

(** [fullCleanOutput(output, command, markers)] *)
Definition fullCleanOutput (output command : list N) (markers : option Markers)
    : list N :=
  let result := output in
  let result := cleanOutput result in
  let result := match markers with
                | Some m => cleanMarkers result m
                | None => result
                end in
  let result := cleanCommandEcho result command in
  let result := cleanPrompt result in
  let result := trim result in
  result.

End Output.
Import Output.

(* ===================================================================== *)
(** ** Errors ([utils/errors.ts]) *)
(* ===================================================================== *)

Module Errors.

Inductive ErrorCode : Type :=
| SESSION_NOT_FOUND | SESSION_ALREADY_EXISTS | SESSION_BUSY | SESSION_CLOSED
| MAX_SESSIONS_REACHED | SESSION_CREATE_FAILED
| COMMAND_TIMEOUT | COMMAND_FAILED | COMMAND_EMPTY
| PROCESS_NOT_FOUND | PROCESS_ALREADY_RUNNING | PROCESS_START_FAILED
| FILE_NOT_FOUND | FILE_READ_ERROR | FILE_WRITE_ERROR
| BACKEND_NOT_AVAILABLE | BACKEND_ERROR | WSL_NOT_AVAILABLE | DOCKER_NOT_AVAILABLE
| INVALID_PARAMETER | INTERNAL_ERROR | UNKNOWN_ERROR.

(** A thrown value: a [TerminalError] with its code, or a plain [Error]. *)
Inductive Exn : Type :=
| TerminalError (code : ErrorCode) (message : list N)
| PlainError (message : list N).

Definition message (e : Exn) : list N :=
  match e with
  | TerminalError _ m => m
  | PlainError m => m
  end.

Definition sessionAlreadyExists (sessionId : list N) : Exn :=
  TerminalError SESSION_ALREADY_EXISTS (lit "Session already exists: " ++ sessionId).
Definition sessionBusy (sessionId : list N) : Exn :=
  TerminalError SESSION_BUSY (lit "Session is busy: " ++ sessionId).
Definition sessionClosed (sessionId : list N) : Exn :=
  TerminalError SESSION_CLOSED (lit "Session is closed: " ++ sessionId).
Definition maxSessionsReached (maxSessions : Num) : Exn :=
  TerminalError MAX_SESSIONS_REACHED
    (lit "Maximum number of sessions reached: " ++ showNum maxSessions).
Definition sessionCreateFailed (reason : list N) : Exn :=
  TerminalError SESSION_CREATE_FAILED (lit "Failed to create session: " ++ reason).
Definition commandEmpty : Exn :=
  TerminalError COMMAND_EMPTY (lit "Command cannot be empty").

End Errors.
Import Errors.

(* ===================================================================== *)
(** ** Session manager ([session/types.ts], [session/manager.ts]) *)
(* ===================================================================== *)

Module Manager.

Inductive SessionStatus : Type := initializing | ready | busy | error | closed.

Definition SessionStatus_eqb (a b : SessionStatus) : bool :=
  match a, b with
  | initializing, initializing | ready, ready | busy, busy
  | error, error | closed, closed => true
  | _, _ => false
  end.

(** The pseudo-terminal handle of the backend, as far as the manager drives
    it: what was written to it, and whether [kill] was called. *)
Record Pty : Type := {
  ptyShell : list N;
  ptyCwd : list N;
  ptyCols : Z;
  ptyRows : Z;
  written : list (list N);
  killed : bool
}.

Record TerminalSession : Type := {
  id : list N;
  name : list N;
  ptyProcess : Pty;
  outputBuffer : list N;
  maxBufferSize : Z;
  status : SessionStatus;
  lastCommand : list N;
  createdAt : Z;
  lastActivityAt : Z;
  cwd : list N;
  env : list (list N * list N);
  error_ : option (list N)
}.

Record SessionOptions : Type := {
  optId : option (list N);
  optCwd : option (list N);
  optEnv : option (list (list N * list N));
  optShell : option (list N);
  optCols : option Z;
  optRows : option Z;
  optName : option (list N)
}.

Definition noOptions : SessionOptions :=
  {| optId := None; optCwd := None; optEnv := None; optShell := None;
     optCols := None; optRows := None; optName := None |}.

Record CommandContext : Type := {
  sessionId : list N;
  command : list N;
  timeout : option Z
}.

Record CommandResult : Type := {
  resSessionId : list N;
  resCommand : list N;
  output : list N;
  exitCode : option Z;
  success : bool;
  duration : Z;
  timedOut : bool;
  resError : option (list N)
}.

(** [this.config].  Its type says every field is set, but the constructor
    below keeps an [undefined] (or a [NaN]) it is given for [maxSessions] and
    [defaultTimeout], the two keys the server passes. *)
Record SessionManagerConfig : Type := {
  maxSessions : Num;
  defaultTimeout : Num;
  sessionExpiry : Z;
  cfgMaxBufferSize : Z;
  markerPrefix : list N
}.

Definition DEFAULT_CONFIG : SessionManagerConfig :=
  {| maxSessions := Number 10;
     defaultTimeout := Number 30000;
     sessionExpiry := 3600000;
     cfgMaxBufferSize := 1024 * 1024;
     markerPrefix := lit "__WSL_MCP_MARKER__" |}.

(** The [config] given to the constructor: [None] is a key that is absent;
    a key that is present holds its value, [undefined] included. *)
Record GivenConfig : Type := {
  givenMaxSessions : option Num;
  givenDefaultTimeout : option Num;
  givenSessionExpiry : option Z;
  givenMaxBufferSize : option Z;
  givenMarkerPrefix : option (list N)
}.

(** [{ ...DEFAULT_CONFIG, ...config }] of the constructor (source line 51):
    every key present in [config] replaces the default, whatever it holds. *)
Definition spreadConfig (given : option GivenConfig) : SessionManagerConfig :=
  match given with
  | None => DEFAULT_CONFIG
  | Some c =>
      {| maxSessions := default (maxSessions DEFAULT_CONFIG) (givenMaxSessions c);
         defaultTimeout := default (defaultTimeout DEFAULT_CONFIG) (givenDefaultTimeout c);
         sessionExpiry := default (sessionExpiry DEFAULT_CONFIG) (givenSessionExpiry c);
         cfgMaxBufferSize :=
           default (cfgMaxBufferSize DEFAULT_CONFIG) (givenMaxBufferSize c);
         markerPrefix := default (markerPrefix DEFAULT_CONFIG) (givenMarkerPrefix c) |}
  end.

(** The backend collaborator: its defaults, and how [createPty] answers. *)
Inductive PtyAnswer : Type :=
| PtyCreated
| PtyRejected (message : list N)     (* rejects with an [Error] *)
| PtyRejectedOther.                  (* rejects with something else *)

Record Backend : Type := {
  getDefaultShell : list N;
  getDefaultCwd : list N;
  createPtyAnswer : PtyAnswer
}.

(** What a reference that was never allocated would read. *)
Definition blankSession : TerminalSession :=
  {| id := []; name := [];
     ptyProcess := {| ptyShell := []; ptyCwd := []; ptyCols := 0; ptyRows := 0;
                      written := []; killed := false |};
     outputBuffer := []; maxBufferSize := 0; status := initializing;
     lastCommand := []; createdAt := 0; lastActivityAt := 0; cwd := [];
     env := []; error_ := None |}.

Global Instance TerminalSession_inhabited : Inhabited TerminalSession :=
  populate blankSession.

(** The state the manager's code runs on.  Session objects live in [heap]
    and are shared by reference: the [Map] of the manager, the callbacks
    registered on a pty and the local variable [session] of a call in flight
    all name the same object, which stays reachable from the callbacks and
    from the call after it has left the [Map]. *)
Record World : Type := {
  now : Z;                                (* Date.now() *)
  config : SessionManagerConfig;
  backend : Backend;
  heap : gmap nat TerminalSession;
  nextRef : nat;
  sessions : gmap (list N) nat;           (* this.sessions *)
  uuidSource : nat -> list N;             (* successive results of uuidv4() *)
  uuidCount : nat
}.

(** Field updates. *)
Definition withBuffer (b : list N) (s : TerminalSession) : TerminalSession :=
  {| id := id s; name := name s; ptyProcess := ptyProcess s; outputBuffer := b;
     maxBufferSize := maxBufferSize s; status := status s;
     lastCommand := lastCommand s; createdAt := createdAt s;
     lastActivityAt := lastActivityAt s; cwd := cwd s; env := env s;
     error_ := error_ s |}.
Definition withStatus (st : SessionStatus) (s : TerminalSession) : TerminalSession :=
  {| id := id s; name := name s; ptyProcess := ptyProcess s;
     outputBuffer := outputBuffer s; maxBufferSize := maxBufferSize s;
     status := st; lastCommand := lastCommand s; createdAt := createdAt s;
     lastActivityAt := lastActivityAt s; cwd := cwd s; env := env s;
     error_ := error_ s |}.
Definition withLastCommand (c : list N) (s : TerminalSession) : TerminalSession :=
  {| id := id s; name := name s; ptyProcess := ptyProcess s;
     outputBuffer := outputBuffer s; maxBufferSize := maxBufferSize s;
     status := status s; lastCommand := c; createdAt := createdAt s;
     lastActivityAt := lastActivityAt s; cwd := cwd s; env := env s;
     error_ := error_ s |}.
Definition withLastActivityAt (t : Z) (s : TerminalSession) : TerminalSession :=
  {| id := id s; name := name s; ptyProcess := ptyProcess s;
     outputBuffer := outputBuffer s; maxBufferSize := maxBufferSize s;
     status := status s; lastCommand := lastCommand s; createdAt := createdAt s;
     lastActivityAt := t; cwd := cwd s; env := env s; error_ := error_ s |}.
Definition withError (e : list N) (s : TerminalSession) : TerminalSession :=
  {| id := id s; name := name s; ptyProcess := ptyProcess s;
     outputBuffer := outputBuffer s; maxBufferSize := maxBufferSize s;
     status := status s; lastCommand := lastCommand s; createdAt := createdAt s;
     lastActivityAt := lastActivityAt s; cwd := cwd s; env := env s;
     error_ := Some e |}.
Definition withPty (p : Pty) (s : TerminalSession) : TerminalSession :=
  {| id := id s; name := name s; ptyProcess := p;
     outputBuffer := outputBuffer s; maxBufferSize := maxBufferSize s;
     status := status s; lastCommand := lastCommand s; createdAt := createdAt s;
     lastActivityAt := lastActivityAt s; cwd := cwd s; env := env s;
     error_ := error_ s |}.

Definition ptyWrite (data : list N) (p : Pty) : Pty :=
  {| ptyShell := ptyShell p; ptyCwd := ptyCwd p; ptyCols := ptyCols p;
     ptyRows := ptyRows p; written := written p ++ [data]; killed := killed p |}.
Definition ptyKill (p : Pty) : Pty :=
  {| ptyShell := ptyShell p; ptyCwd := ptyCwd p; ptyCols := ptyCols p;
     ptyRows := ptyRows p; written := written p; killed := true |}.

Definition withNow (t : Z) (w : World) : World :=
  {| now := t; config := config w; backend := backend w; heap := heap w;
     nextRef := nextRef w; sessions := sessions w;
     uuidSource := uuidSource w; uuidCount := uuidCount w |}.
Definition withHeap (h : gmap nat TerminalSession) (w : World) : World :=
  {| now := now w; config := config w; backend := backend w; heap := h;
     nextRef := nextRef w; sessions := sessions w;
     uuidSource := uuidSource w; uuidCount := uuidCount w |}.
Definition withSessions (m : gmap (list N) nat) (w : World) : World :=
  {| now := now w; config := config w; backend := backend w; heap := heap w;
     nextRef := nextRef w; sessions := m;
     uuidSource := uuidSource w; uuidCount := uuidCount w |}.

(** The object behind reference [r]. *)
Definition object (w : World) (r : nat) : TerminalSession := heap w !!! r.

(** [session.field = v] on the object behind reference [r]. *)
Definition update (r : nat) (f : TerminalSession -> TerminalSession) (w : World)
    : World :=
  withHeap (<[r := f (object w r)]> (heap w)) w.

(** [handleOutput(session, data)] *)
Definition handleOutput (r : nat) (data : list N) (w : World) : World :=
  let w := update r (fun s => withBuffer (outputBuffer s ++ data) s) w in
  let w := update r (withLastActivityAt (now w)) w in
  let session := object w r in
  if (maxBufferSize session <? len (outputBuffer session))%Z then
    update r (withBuffer (sliceFrom (- maxBufferSize session) (outputBuffer session))) w
  else w.

(** [handleExit(session, exitCode)] *)
Definition handleExit (r : nat) (exitCode : Z) (w : World) : World :=
  let w := update r (withStatus closed) w in
  let w := update r (withError (lit "Process exited with code " ++ showZ exitCode)) w in
  withSessions (delete (id (object w r)) (sessions w)) w.

(** [closeSession(id)]: it has no suspension point, so it runs as one step. *)
Definition closeSession (sid : list N) (w : World) : World :=
  match sessions w !! sid with
  | None => w
  | Some r =>
      let w := update r (fun s => withPty (ptyKill (ptyProcess s)) s) w in
      let w := update r (withStatus closed) w in
      withSessions (delete sid (sessions w)) w
  end.

(** [getSession(id)]: the reference stored under the id, if any. *)
Definition getSession (sid : list N) (w : World) : option nat := sessions w !! sid.

Record SessionListItem : Type := {
  itemId : list N;
  itemName : list N;
  itemStatus : SessionStatus;
  itemCreatedAt : Z;
  itemLastActivityAt : Z;
  itemCwd : list N;
  itemLastCommand : list N
}.

Definition listItem (session : TerminalSession) : SessionListItem :=
  {| itemId := id session;
     itemName := name session;
     itemStatus := status session;
     itemCreatedAt := createdAt session;
     itemLastActivityAt := lastActivityAt session;
     itemCwd := cwd session;
     itemLastCommand := lastCommand session |}.

(** [listSessions()].  The [Map] of the source lists its values in the order
    they were stored; the map of the model records no such order, and what is
    proved of the list does not depend on it. *)
Definition listSessions (w : World) : list SessionListItem :=
  (fun kv => listItem (object w (snd kv))) <$> map_to_list (sessions w).

(** [closeAllSessions()]: each [closeSession(id)] runs to its end when it is
    called, having no suspension point, so [Promise.all] finds every promise
    settled.  The calls are made key after key. *)
Definition closeAllSessions (w : World) : World :=
  fold_left (fun w sid => closeSession sid w) (fst <$> map_to_list (sessions w)) w.

(** The interrupt [stopProcess] of the poller sends to the pty of a session:
    [getSession(id)] and, when the session is there, [write('\x03')]. *)
Definition interrupt (sid : list N) (w : World) : World :=
  match sessions w !! sid with
  | None => w
  | Some r => update r (fun s => withPty (ptyWrite [3%N] (ptyProcess s)) s) w
  end.

(** What the rest of the system does to the sessions while a call is
    suspended: the data and exit callbacks of the ptys, the [closeSession]
    calls of other callers and the interrupts of [stopProcess].  Callbacks
    exist only for session objects already allocated.  (An [executeCommand]
    of another caller never works on the session object of a call in flight:
    it is refused while the object is [busy], and an object that was closed
    has left the [Map].) *)
Inductive Event : Type :=
| PtyData (r : nat) (data : list N)
| PtyExit (r : nat) (exitCode : Z)
| CloseSession (sid : list N)
| Interrupt (sid : list N).

Definition applyEvent (w : World) (e : Event) : World :=
  match e with
  | PtyData r data => if (r <? nextRef w)%nat then handleOutput r data w else w
  | PtyExit r c => if (r <? nextRef w)%nat then handleExit r c w else w
  | CloseSession sid => closeSession sid w
  | Interrupt sid => interrupt sid w
  end.

(** One suspension: a timer never fires early, it may fire [lateness]
    milliseconds late, and the events run before the call resumes. *)
Record Tick : Type := { lateness : N; events : list Event }.

Definition Schedule : Type := list Tick.

End Manager.
Import Manager.

(* ===================================================================== *)
(** ** Asynchronous calls

    An [async] method runs without interruption between two [await]s.  A
    call is a function of the world and of the schedule of what happens at
    its suspensions; it ends by returning, by throwing, or by the loop of
    [executeCommand] running out of the iterations granted to it
    ([Diverged], shown below never to happen). *)
(* ===================================================================== *)

Module Async.

Inductive Outcome (A : Type) : Type :=
| Returned (a : A)
| Thrown (e : Exn)
| Diverged.
Arguments Returned {A} a.
Arguments Thrown {A} e.
Arguments Diverged {A}.

Definition Async (A : Type) : Type :=
  World -> Schedule -> Outcome A * World * Schedule.

Definition ret {A : Type} (a : A) : Async A := fun w sched => (Returned a, w, sched).

Definition bind {A B : Type} (c : Async A) (k : A -> Async B) : Async B :=
  fun w sched =>
    match c w sched with
    | (Returned a, w', sched') => k a w' sched'
    | (Thrown e, w', sched') => (Thrown e, w', sched')
    | (Diverged, w', sched') => (Diverged, w', sched')
    end.

Definition throw {A : Type} (e : Exn) : Async A := fun w sched => (Thrown e, w, sched).
Definition diverge {A : Type} : Async A := fun w sched => (Diverged, w, sched).
Definition getWorld : Async World := fun w sched => (Returned w, w, sched).
Definition modify (f : World -> World) : Async unit :=
  fun w sched => (Returned tt, f w, sched).

(** [Date.now()] *)
Definition dateNow : Async Z := fun w sched => (Returned (now w), w, sched).

(** The object behind a reference. *)
Definition deref (r : nat) : Async TerminalSession :=
  fun w sched => (Returned (object w r), w, sched).

(** The world a call finds when it resumes from a suspension of [ms]
    milliseconds: the clock has advanced, and the events of the tick ran. *)
Definition wake (ms : Z) (w : World) (sched : Schedule) : World :=
  match sched with
  | [] => withNow (now w + ms) w
  | t :: _ =>
      fold_left applyEvent (events t)
        (withNow (now w + ms + Z.of_N (lateness t)) w)
  end.

(** A suspension of at least [ms] milliseconds; it uses up one tick. *)
Definition suspend (ms : Z) : Async unit :=
  fun w sched => (Returned tt, wake ms w sched, tail sched).

(** The delay of [setTimeout(callback, ms)]: the runtime sets a delay above
    [2^31 - 1] or below 1 to 1. *)
Definition TIMEOUT_MAX : Z := 2147483647.
Definition timerDelay (ms : Z) : Z :=
  if (1 <=? ms)%Z && (ms <=? TIMEOUT_MAX)%Z then ms else 1%Z.

(** [await sleep(ms)], where [sleep] is
    [new Promise(resolve => setTimeout(resolve, ms))] *)
Definition sleep (ms : Z) : Async unit := suspend (timerDelay ms).

(** [try { c } catch (error) { handler(error) }] *)
Definition tryCatch {A : Type} (c : Async A) (handler : Exn -> Async A) : Async A :=
  fun w sched =>
    match c w sched with
    | (Thrown e, w', sched') => handler e w' sched'
    | run => run
    end.

End Async.
Import Async.

Notation "x <- c ;; k" := (bind c (fun x => k))
  (at level 100, c at next level, right associativity).
Notation "c ;;; k" := (bind c (fun _ => k))
  (at level 100, right associativity).

(* ===================================================================== *)
(** ** SessionManager *)
(* ===================================================================== *)

Module SessionManager.

(** [a || b] on strings and numbers: the empty string and [0] are falsy. *)
Definition orStr (a : option (list N)) (b : list N) : list N :=
  match a with
  | Some s => if isEmpty s then b else s
  | None => b
  end.
Definition orNum (a : option Z) (b : Z) : Z :=
  match a with
  | Some n => if (n =? 0)%Z then b else n
  | None => b
  end.
(** [a || b] where [b] may be no number: it is then the result as it is. *)
Definition orLimit (a : option Z) (b : Num) : Num :=
  match a with
  | Some n => if (n =? 0)%Z then b else Number n
  | None => b
  end.

(** [uuidv4()] *)
Definition uuidv4 : Async (list N) :=
  fun w sched =>
    (Returned (uuidSource w (uuidCount w)),
     {| now := now w; config := config w; backend := backend w; heap := heap w;
        nextRef := nextRef w; sessions := sessions w;
        uuidSource := uuidSource w; uuidCount := S (uuidCount w) |},
     sched).

(** [new] of a session object: the next free reference. *)
Definition allocate (s : TerminalSession) : Async nat :=
  fun w sched =>
    let r := nextRef w in
    (Returned r,
     {| now := now w; config := config w; backend := backend w;
        heap := <[r := s]> (heap w);
        nextRef := S r; sessions := sessions w;
        uuidSource := uuidSource w; uuidCount := uuidCount w |},
     sched).

(** [await this.backend.createPty(...)], with the [catch] of [createSession]. *)
Definition createPty (shell cwd : list N) (cols rows : Z) : Async Pty :=
  w <- getWorld ;;
  suspend 0 ;;;
  match createPtyAnswer (backend w) with
  | PtyCreated =>
      ret {| ptyShell := shell; ptyCwd := cwd; ptyCols := cols; ptyRows := rows;
             written := []; killed := false |}
  | PtyRejected msg => throw (sessionCreateFailed msg)
  | PtyRejectedOther => throw (sessionCreateFailed (lit "Unknown error"))
  end.

(** [createSession(options)] *)
Definition createSession (options : option SessionOptions) : Async nat :=
  w <- getWorld ;;
  if geNum (Z.of_nat (size (sessions w))) (maxSessions (config w)) then
    throw (maxSessionsReached (maxSessions (config w)))
  else
    sessionId <- match options ≫= optId with
                 | Some i => if isEmpty i then uuidv4 else ret i
                 | None => uuidv4
                 end ;;
    if bool_decide (is_Some (sessions w !! sessionId)) then
      throw (sessionAlreadyExists sessionId)
    else
      ptyProcess <- createPty
                      (orStr (options ≫= optShell) (getDefaultShell (backend w)))
                      (orStr (options ≫= optCwd) (getDefaultCwd (backend w)))
                      (orNum (options ≫= optCols) 160)
                      (orNum (options ≫= optRows) 40) ;;
      t <- dateNow ;;
      r <- allocate
             {| id := sessionId;
                name := orStr (options ≫= optName)
                          (lit "session-" ++ sliceTo 8 sessionId);
                ptyProcess := ptyProcess;
                outputBuffer := [];
                maxBufferSize := cfgMaxBufferSize (config w);
                status := initializing;
                lastCommand := [];
                createdAt := t;
                lastActivityAt := t;
                cwd := orStr (options ≫= optCwd) (getDefaultCwd (backend w));
                env := default [] (options ≫= optEnv);
                error_ := None |} ;;
      sleep 500 ;;;
      modify (update r (withStatus ready)) ;;;
      modify (fun w => withSessions (<[sessionId := r]> (sessions w)) w) ;;;
      ret r.

(** [{ ...options, id }] *)
Definition withId (options : option SessionOptions) (i : list N) : SessionOptions :=
  let o := default noOptions options in
  {| optId := Some i; optCwd := optCwd o; optEnv := optEnv o;
     optShell := optShell o; optCols := optCols o; optRows := optRows o;
     optName := optName o |}.

(** [getOrCreateSession(id, options)] *)
Definition getOrCreateSession (sid : list N) (options : option SessionOptions)
    : Async nat :=
  w <- getWorld ;;
  match sessions w !! sid with
  | Some r => ret r
  | None => createSession (Some (withId options sid))
  end.

(** The three sentinel tokens of one command. *)
Definition markersAt (timestamp : Z) : Markers :=
  {| startMarker := lit "===START" ++ showZ timestamp ++ lit "===";
     endMarker := lit "===END" ++ showZ timestamp ++ lit "===";
     exitMarker := lit "===EXIT" ++ showZ timestamp ++ lit "===" |}.

(** [session.ptyProcess.write(data)] *)
Definition write (r : nat) (data : list N) : Async unit :=
  modify (update r (fun s => withPty (ptyWrite data (ptyProcess s)) s)).

(** The polling loop of [executeCommand]: [true] when the end marker was seen
    in the buffer, [false] when the timeout elapsed first.  [fuel] bounds the
    number of tests of the loop condition. *)
Fixpoint waitForEnd (fuel : nat) (r : nat) (endMarker : list N)
    (startTimeWait : Z) (timeout : Num) : Async bool :=
  match fuel with
  | O => diverge
  | S fuel' =>
      t <- dateNow ;;
      if ltNum (t - startTimeWait) timeout then
        session <- deref r ;;
        let output := outputBuffer session in
        if includes output endMarker then
          sleep 200 ;;; ret true
        else
          sleep 100 ;;; waitForEnd fuel' r endMarker startTimeWait timeout
      else ret false
  end.

(** Every round of the loop sleeps at least 100 ms: this many tests of the
    condition are enough.  With a timeout that is no number the first test
    ends the loop. *)
Definition waitFuel (timeout : Num) : nat :=
  match timeout with
  | Number t => Z.to_nat (t / 100) + 2
  | _ => 2
  end.

(** [new RegExp(`${exitMarker}(\\d+)`)]: the markers hold no metacharacter. *)
Definition exitMarkerPattern (exitMarker : list N) : regex :=
  Seq (text exitMarker) (Group (plus isDigit)).

(** The exit code read from the buffer (source lines 282-287). *)
Definition extractExitCode (output exitMarker : list N) : Z :=
  match exec (exitMarkerPattern exitMarker) output with
  | Some (_ :: digits :: _) => parseDigits digits
  | _ => 0
  end.

(** The four cleaning stages, in the order of the source (lines 290-303). *)
Definition extractOutput (output : list N) (startIdx endIdx : Z) (m : Markers)
    (command : list N) : list N :=
  let result := substring (startIdx + len (startMarker m)) endIdx output in
  let result := cleanOutput result in
  let result := cleanMarkers result m in
  let result := cleanCommandEcho result command in
  cleanPrompt result.

(** What a call of [executeCommand] holds in its local variables when it
    enters the polling loop. *)
Record InFlight : Type := {
  session : nat;            (* the object [session] refers to *)
  markers : Markers;
  startTime : Z;
  timeoutMs : Num;
  startTimeWait : Z
}.

(** [executeCommand], from the validation of the command to the last write of
    a marker (source lines 188-232). *)
Definition accept (context : CommandContext) : Async InFlight :=
  if isEmpty (command context) || isEmpty (trim (command context)) then
    throw commandEmpty
  else
    r <- getOrCreateSession (sessionId context) None ;;
    session <- deref r ;;
    if SessionStatus_eqb (status session) busy then
      throw (sessionBusy (orStr (Some (sessionId context)) (lit "default")))
    else if SessionStatus_eqb (status session) closed then
      throw (sessionClosed (orStr (Some (sessionId context)) (lit "default")))
    else
      modify (update r (withStatus busy)) ;;;
      modify (update r (withLastCommand (command context))) ;;;
      t <- dateNow ;;
      modify (update r (withLastActivityAt t)) ;;;
      startTime <- dateNow ;;
      w <- getWorld ;;
      let timeout := orLimit (timeout context) (defaultTimeout (config w)) in
      modify (update r (withBuffer [])) ;;;
      sleep 100 ;;;
      timestamp <- dateNow ;;
      let m := markersAt timestamp in
      write r (lit "echo '" ++ startMarker m ++ lit "'" ++ [LF]) ;;;
      sleep 50 ;;;
      write r (command context ++ [LF]) ;;;
      sleep 50 ;;;
      write r (lit "echo '" ++ exitMarker m ++ lit "'$?" ++ [LF]) ;;;
      sleep 50 ;;;
      write r (lit "echo '" ++ endMarker m ++ lit "'" ++ [LF]) ;;;
      startTimeWait <- dateNow ;;
      ret {| session := r; markers := m; startTime := startTime;
             timeoutMs := timeout; startTimeWait := startTimeWait |}.

(** The timeout path (source lines 247-259). *)
Definition timedOutResult (context : CommandContext) (c : InFlight)
    : Async CommandResult :=
  modify (update (session c) (withStatus ready)) ;;;
  session <- deref (session c) ;;
  t <- dateNow ;;
  ret {| resSessionId := id session;
         resCommand := command context;
         output := [];
         exitCode := None;
         success := false;
         duration := t - startTime c;
         timedOut := true;
         resError := Some (lit "Command timeout after " ++ showNum (timeoutMs c)
                           ++ lit "ms") |}.

(** The path on which the end marker was seen (source lines 261-313). *)
Definition parsedResult (context : CommandContext) (c : InFlight)
    : Async CommandResult :=
  modify (update (session c) (withStatus ready)) ;;;
  session <- deref (session c) ;;
  let m := markers c in
  let output := outputBuffer session in
  let startIdx := lastIndexOf output (startMarker m) in
  let endIdx := lastIndexOf output (endMarker m) in
  if (startIdx =? -1)%Z || (endIdx =? -1)%Z || (endIdx <=? startIdx)%Z then
    t <- dateNow ;;
    ret {| resSessionId := id session;
           resCommand := command context;
           output := cleanOutput output;
           exitCode := Some 0%Z;
           success := true;
           duration := t - startTime c;
           timedOut := false;
           resError := None |}
  else
    let exitCode := extractExitCode output (exitMarker m) in
    let result := extractOutput output startIdx endIdx m (command context) in
    t <- dateNow ;;
    ret {| resSessionId := id session;
           resCommand := command context;
           output := result;
           exitCode := Some exitCode;
           success := (exitCode =? 0)%Z;
           duration := t - startTime c;
           timedOut := false;
           resError := None |}.

(** [executeCommand(context)] *)
Definition executeCommand (context : CommandContext) : Async CommandResult :=
  c <- accept context ;;
  foundEnd <- waitForEnd (waitFuel (timeoutMs c)) (session c)
                (endMarker (markers c)) (startTimeWait c) (timeoutMs c) ;;
  if negb foundEnd then timedOutResult context c
  else parsedResult context c.

End SessionManager.
Import SessionManager.

(* ===================================================================== *)
(** ** Background process poller ([polling/types.ts],
       [polling/output-poller.ts]) *)
(* ===================================================================== *)

Module Poller.

Inductive PollingStatus : Type := running | paused | completed | error | stopped.

Record BackgroundProcess : Type := {
  id : list N;
  sessionId : list N;
  command : list N;
  status : PollingStatus;
  outputBuffer : list N;
  readPosition : Z;
  createdAt : Z;
  lastUpdatedAt : Z;
  exitCode : option Z;
  error_ : option (list N);
  interval : Z
}.

Record PollResult : Type := {
  processId : list N;
  resSessionId : list N;
  output : list N;
  hasNewContent : bool;
  isComplete : bool;
  resExitCode : option Z;
  timestamp : Z;
  resStatus : PollingStatus;
  resError : option (list N)
}.

(** The record [startProcess] creates (source lines 62-72). *)
Definition newProcess (processId sid cmd : list N) (now interval : Z)
    : BackgroundProcess :=
  {| id := processId; sessionId := sid; command := cmd; status := running;
     outputBuffer := []; readPosition := 0; createdAt := now;
     lastUpdatedAt := now; exitCode := None; error_ := None;
     interval := interval |}.

(** [outputListener(data)] of [executeBackgroundCommand], for the
    [config.maxBufferSize] of the call. *)
Definition outputListener (maxBufferSize : Z) (data : list N) (now : Z)
    (p : BackgroundProcess) : BackgroundProcess :=
  let buffer := outputBuffer p ++ data in
  if (maxBufferSize <? len buffer)%Z then
    let excess := (len buffer - maxBufferSize)%Z in
    {| id := id p; sessionId := sessionId p; command := command p;
       status := status p;
       outputBuffer := sliceFrom excess buffer;
       readPosition := Z.max 0 (readPosition p - excess);
       createdAt := createdAt p; lastUpdatedAt := now; exitCode := exitCode p;
       error_ := error_ p; interval := interval p |}
  else
    {| id := id p; sessionId := sessionId p; command := command p;
       status := status p; outputBuffer := buffer;
       readPosition := readPosition p;
       createdAt := createdAt p; lastUpdatedAt := now; exitCode := exitCode p;
       error_ := error_ p; interval := interval p |}.

Definition isCompleteStatus (s : PollingStatus) : bool :=
  match s with
  | completed | error => true
  | _ => false
  end.

(** The body of [poll] once the record is found (source lines 99-127). *)
Definition pollRecord (incremental : bool) (now : Z) (p : BackgroundProcess)
    : PollResult * BackgroundProcess :=
  let out := if incremental then sliceFrom (readPosition p) (outputBuffer p)
             else outputBuffer p in
  let hasNew := if incremental then (0 <? len out)%Z
                else (readPosition p <? len (outputBuffer p))%Z in
  let p' :=
    {| id := id p; sessionId := sessionId p; command := command p;
       status := status p; outputBuffer := outputBuffer p;
       readPosition := len (outputBuffer p);
       createdAt := createdAt p; lastUpdatedAt := now; exitCode := exitCode p;
       error_ := error_ p; interval := interval p |} in
  ({| processId := id p'; resSessionId := sessionId p'; output := out;
      hasNewContent := hasNew; isComplete := isCompleteStatus (status p');
      resExitCode := exitCode p'; timestamp := now; resStatus := status p';
      resError := error_ p' |}, p').

(** The record part of [stopProcess] (source lines 145-146). *)
Definition stopRecord (now : Z) (p : BackgroundProcess) : BackgroundProcess :=
  {| id := id p; sessionId := sessionId p; command := command p;
     status := stopped; outputBuffer := outputBuffer p;
     readPosition := readPosition p;
     createdAt := createdAt p; lastUpdatedAt := now; exitCode := exitCode p;
     error_ := error_ p; interval := interval p |}.

(** The [try]/[catch]/[finally] around the wrapped [executeCommand] (source
    lines 222-239), for the way that call ended. *)
Definition completion (o : Outcome CommandResult) (now : Z)
    (p : BackgroundProcess) : BackgroundProcess :=
  match o with
  | Returned result =>
      {| id := id p; sessionId := sessionId p; command := command p;
         status := if Manager.success result then completed else error;
         outputBuffer := outputBuffer p; readPosition := readPosition p;
         createdAt := createdAt p; lastUpdatedAt := now;
         exitCode := Manager.exitCode result;
         error_ := Manager.resError result; interval := interval p |}
  | Thrown e =>
      {| id := id p; sessionId := sessionId p; command := command p;
         status := error;
         outputBuffer := outputBuffer p; readPosition := readPosition p;
         createdAt := createdAt p; lastUpdatedAt := now;
         exitCode := exitCode p;
         error_ := Some (message e); interval := interval p |}
  | Diverged => p
  end.

(** The [catch] of [startProcess] (source lines 77-81), run when
    [executeBackgroundCommand] finds no session. *)
Definition startFailed (msg : list N) (now : Z) (p : BackgroundProcess)
    : BackgroundProcess :=
  {| id := id p; sessionId := sessionId p; command := command p;
     status := error; outputBuffer := outputBuffer p;
     readPosition := readPosition p;
     createdAt := createdAt p; lastUpdatedAt := now; exitCode := exitCode p;
     error_ := Some msg; interval := interval p |}.

(** The operations that touch a record after its creation, each one a piece
    of code that runs without suspension. *)
Inductive Op : Type :=
| OnData (maxBufferSize : Z) (data : list N)
| Poll (incremental : bool)
| Stop
| Complete (o : Outcome CommandResult)
| StartFailed (msg : list N).

Definition step (now : Z) (op : Op) (p : BackgroundProcess) : BackgroundProcess :=
  match op with
  | OnData m data => outputListener m data now p
  | Poll incremental => snd (pollRecord incremental now p)
  | Stop => stopRecord now p
  | Complete o => completion o now p
  | StartFailed msg => startFailed msg now p
  end.

(** A history: operations with the time at which each ran. *)
Definition run (ops : list (Z * Op)) (p : BackgroundProcess) : BackgroundProcess :=
  fold_left (fun p o => step (fst o) (snd o) p) ops p.

(** [this.processes] and the two public methods that look a record up. *)
Definition poll (processId : list N) (incremental : bool) (now : Z)
    (processes : gmap (list N) BackgroundProcess)
    : (Exn + PollResult) * gmap (list N) BackgroundProcess :=
  match processes !! processId with
  | None => (inl (PlainError (lit "Process " ++ processId ++ lit " not found")),
             processes)
  | Some p =>
      let '(res, p') := pollRecord incremental now p in
      (inr res, <[processId := p']> processes)
  end.

Definition stopProcess (processId : list N) (w : World)
    (processes : gmap (list N) BackgroundProcess)
    : World * gmap (list N) BackgroundProcess :=
  match processes !! processId with
  | None => (w, processes)
  | Some p =>
      (interrupt (sessionId p) w,
       <[processId := stopRecord (now w) p]> processes)
  end.

Definition isTerminal (s : PollingStatus) : bool :=
  match s with
  | completed | error | stopped => true
  | _ => false
  end.

(** [cleanupCompleted()]: the records left in the map. *)
Definition cleanupCompleted (processes : gmap (list N) BackgroundProcess)
    : gmap (list N) BackgroundProcess :=
  filter (fun kv => isTerminal (status (snd kv)) = false) processes.

(** The number [cleanupCompleted()] returns: the counter [cleaned] of its
    loop over the entries. *)
Definition cleaned (processes : gmap (list N) BackgroundProcess) : nat :=
  foldr (fun kv cleaned => if isTerminal (status (snd kv)) then S cleaned else cleaned)
    0%nat (map_to_list processes).

Record ProcessListItem : Type := {
  itemId : list N;
  itemSessionId : list N;
  itemCommand : list N;
  itemStatus : PollingStatus;
  itemCreatedAt : Z;
  itemLastUpdatedAt : Z;
  outputLength : Z
}.

Definition listItem (p : BackgroundProcess) : ProcessListItem :=
  {| itemId := id p;
     itemSessionId := sessionId p;
     itemCommand := command p;
     itemStatus := status p;
     itemCreatedAt := createdAt p;
     itemLastUpdatedAt := lastUpdatedAt p;
     outputLength := len (outputBuffer p) |}.

Definition isRunning (s : PollingStatus) : bool :=
  match s with running => true | _ => false end.

(** [getActiveProcesses()] and [getAllProcesses()]; as for the sessions, the
    order of the [Map] is not recorded. *)
Definition getActiveProcesses (processes : gmap (list N) BackgroundProcess)
    : list ProcessListItem :=
  listItem <$> List.filter (fun p => isRunning (status p))
                 (snd <$> map_to_list processes).

Definition getAllProcesses (processes : gmap (list N) BackgroundProcess)
    : list ProcessListItem :=
  listItem <$> (snd <$> map_to_list processes).

(** [DEFAULT_OPTIONS.interval] *)
Definition DEFAULT_INTERVAL : Z := 1000.

(** [startProcess(sessionId, command, options)], up to the moment its caller
    is given the id: the id is drawn, the session looked up, the record
    stored.  The wrapped command is started but not awaited; what it does to
    the record later are the operations [OnData], [Complete] and
    [StartFailed] above.  One completion is not later: a blank command makes
    [executeCommand] throw before its first [await] (manager, source lines
    188-191), so the [catch] and [finally] of [executeBackgroundCommand]
    (source lines 233-239) run in a microtask queued before the one that
    resumes the caller, and the record is already in error when the id
    arrives.  What the wrapped call does to the session is what
    [SessionManager.executeCommand] does, and is not repeated here. *)
Definition startProcess (sid cmd : list N) (interval : option Z) (w : World)
    (processes : gmap (list N) BackgroundProcess)
    : (Exn + list N) * World * gmap (list N) BackgroundProcess :=
  let processId := uuidSource w (uuidCount w) in
  let w := snd (fst (uuidv4 w [])) in
  match getSession sid w with
  | None => (inl (PlainError (lit "Session " ++ sid ++ lit " not found")),
             w, processes)
  | Some _ =>
      let process := newProcess processId sid cmd (now w)
                       (default DEFAULT_INTERVAL interval) in
      let process :=
        if isEmpty cmd || isEmpty (trim cmd) then
          completion (Thrown commandEmpty) (now w) process
        else process in
      (inr processId, w, <[processId := process]> processes)
  end.

End Poller.

(* ===================================================================== *)
(** ** Log tailer ([polling/log-tailer.ts]): line parsing *)
(* ===================================================================== *)

Module LogTailer.

(** [new Date(text)] and [new Date()]: the entry keeps what the date was
    built from. *)
Inductive Timestamp : Type :=
| DateOf (text : list N)
| ReceivedAt (now : Z).

Record LogEntry : Type := {
  timestamp : Timestamp;
  content : list N;
  level : list N
}.

(** [detectLogLevel(content)] *)
Definition detectLogLevel (content : list N) : list N :=
  let lowerContent := toLowerCase content in
  if includes lowerContent (lit "error") || includes lowerContent (lit "err")
     || includes lowerContent (lit "fatal") then lit "error"
  else if includes lowerContent (lit "warn") || includes lowerContent (lit "warning")
  then lit "warn"
  else if includes lowerContent (lit "debug") || includes lowerContent (lit "trace")
  then lit "debug"
  else lit "info".

(** The timestamp group of the first pattern:
    \d{4}-\d{2}-\d{2}[T ]\d{2}:\d{2}:\d{2}(?:\.\d+)?(?:Z|[+-]\d{2}:?\d{2})?
    and the pattern itself: ^ timestamp-group \s* rest-group $ , where the
    rest group is a greedy run of [.] *)
Definition isoTimestamp : regex :=
  seqs [times 4 isDigit; Chr (isC "-"); times 2 isDigit; Chr (isC "-");
        times 2 isDigit; Chr (oneOf "T "); times 2 isDigit; Chr (isC ":");
        times 2 isDigit; Chr (isC ":"); times 2 isDigit;
        opt (Seq (Chr (isC ".")) (plus isDigit));
        opt (Alt (Chr (isC "Z"))
               (seqs [Chr (oneOf "+-"); times 2 isDigit; opt (Chr (isC ":"));
                      times 2 isDigit]))].
Definition isoPattern : regex :=
  seqs [Bol; Group isoTimestamp; Star isWhiteSpace; Group (Star dot); Eol].

(** ^\[(\w+)\]\s* rest-group $ *)
Definition levelPattern : regex :=
  seqs [Bol; Chr (isC "["); Group (plus isWord); Chr (isC "]");
        Star isWhiteSpace; Group (Star dot); Eol].

(** [parseLogLine(line)], called at time [now]. *)
Definition parseLogLine (now : Z) (line : list N) : LogEntry :=
  match exec isoPattern line with
  | Some (_ :: iso1 :: iso2 :: _) =>
      {| timestamp := DateOf iso1; content := iso2; level := detectLogLevel iso2 |}
  | _ =>
      match exec levelPattern line with
      | Some (_ :: level1 :: level2 :: _) =>
          {| timestamp := ReceivedAt now; content := level2;
             level := toLowerCase level1 |}
      | _ =>
          {| timestamp := ReceivedAt now; content := line;
             level := detectLogLevel line |}
      end
  end.

End LogTailer.

(* ===================================================================== *)
(** ** File transfer ([transfer/types.ts], [transfer/manager.ts]) *)
(* ===================================================================== *)

Module Transfer.

Record FileTransferManager : Type := { maxFileSize : Z }.

Definition DEFAULT_MAX_FILE_SIZE : Z := 10 * 1024 * 1024.

(** [new FileTransferManager(sessionManager, maxFileSize)] *)
Definition createFileTransferManager (maxFileSize : option Z) : FileTransferManager :=
  {| maxFileSize := orNum maxFileSize DEFAULT_MAX_FILE_SIZE |}.

(** A text between double quotes, and the [error] of a result inside a
    template literal ([undefined] when the result carries none). *)
Definition quoted (s : list N) : list N := [34%N] ++ s ++ [34%N].
Definition showError (e : option (list N)) : list N := default (lit "undefined") e.

(** The private [executeCommand(sessionId, command, timeout)] *)
Definition executeCommand (sessionId : option (list N)) (command : list N)
    (timeout : option Z) : Async CommandResult :=
  SessionManager.executeCommand
    {| Manager.sessionId := orStr sessionId (lit "default");
       Manager.command := orStr (Some command) [];
       Manager.timeout := Some (orNum timeout 30000) |}.

(** *** uploadFile *)

Record UploadFileOptions : Type := {
  upRemotePath : list N;
  upContent : list N;
  upOverwrite : option bool;
  upCreateDirs : option bool;
  upMode : option (list N);
  upSessionId : option (list N);
  upTimeout : option Z
}.

Record UploadFileResult : Type := {
  upSuccess : bool;
  upResRemotePath : list N;
  upSize : Z;
  upError : option (list N)
}.

(** The loop that cuts the content into chunks (source lines 75-80); [fuel]
    bounds the number of its rounds. *)
Fixpoint chunksFrom (fuel : nat) (chunkSize i : Z) (content : list N)
    : list (list N) :=
  match fuel with
  | O => []
  | S fuel' =>
      if (i <? len content)%Z then
        substring i (i + chunkSize) content
        :: chunksFrom fuel' chunkSize (i + chunkSize) content
      else []
  end.

Definition chunkSize : Z := 8000.

(** Each round advances by 8000 code units: as many rounds as the content
    has code units are enough. *)
Definition chunksOf (content : list N) : list (list N) :=
  chunksFrom (length content) chunkSize 0 content.

(** The loop that appends the chunks (source lines 86-102): the error of the
    first chunk whose command did not succeed, if any. *)
Fixpoint writeChunks (sessionId : option (list N)) (remotePath : list N)
    (timeout : option Z) (chunks : list (list N)) : Async (option (list N)) :=
  match chunks with
  | [] => ret None
  | chunk :: rest =>
      result <- executeCommand sessionId
                  (lit "printf '%s' '" ++ chunk ++ lit "' >> " ++ quoted remotePath)
                  timeout ;;
      if negb (success result) then
        ret (Some (lit "Failed to write chunk: " ++ showError (resError result)))
      else writeChunks sessionId remotePath timeout rest
  end.

Section Upload.

(** [Buffer.from(content, 'base64').length]: the decoder belongs to the
    runtime; the manager only compares the length it reports. *)
Variable decodedLength : list N -> Z.

Definition uploadFile (manager : FileTransferManager) (options : UploadFileOptions)
    : Async UploadFileResult :=
  let remotePath := upRemotePath options in
  let content := upContent options in
  let overwrite := default true (upOverwrite options) in
  let createDirs := default true (upCreateDirs options) in
  let mode := upMode options in
  let sessionId := upSessionId options in
  let timeout := upTimeout options in
  tryCatch
    (let size := decodedLength content in
     if (maxFileSize manager <? size)%Z then
       ret {| upSuccess := false; upResRemotePath := remotePath; upSize := 0;
              upError := Some (lit "File size (" ++ showZ size
                               ++ lit " bytes) exceeds maximum allowed size ("
                               ++ showZ (maxFileSize manager) ++ lit " bytes)") |}
     else
       (if createDirs then
          let dirPath := substring 0 (lastIndexOf remotePath (lit "/")) remotePath in
          if negb (isEmpty dirPath) then
            executeCommand sessionId (lit "mkdir -p " ++ quoted dirPath) timeout ;;;
            ret tt
          else ret tt
        else ret tt) ;;;
       (if overwrite then
          executeCommand sessionId (lit "rm -f " ++ quoted remotePath) timeout ;;;
          ret tt
        else ret tt) ;;;
       let chunks := chunksOf content in
       executeCommand sessionId
         (lit "echo -n " ++ quoted [] ++ lit " > " ++ quoted remotePath) timeout ;;;
       failed <- writeChunks sessionId remotePath timeout chunks ;;
       match failed with
       | Some message =>
           ret {| upSuccess := false; upResRemotePath := remotePath; upSize := 0;
                  upError := Some message |}
       | None =>
           let tempPath := remotePath ++ lit ".b64" in
           executeCommand sessionId
             (lit "mv " ++ quoted remotePath ++ lit " " ++ quoted tempPath) timeout ;;;
           decodeResult <- executeCommand sessionId
                             (lit "base64 -d " ++ quoted tempPath ++ lit " > "
                              ++ quoted remotePath ++ lit " && rm -f "
                              ++ quoted tempPath) timeout ;;
           if negb (success decodeResult) then
             ret {| upSuccess := false; upResRemotePath := remotePath; upSize := 0;
                    upError := Some (lit "Failed to decode base64 content: "
                                     ++ showError (resError decodeResult)) |}
           else
             (match mode with
              | Some m =>
                  if negb (isEmpty m) then
                    executeCommand sessionId
                      (lit "chmod " ++ m ++ lit " " ++ quoted remotePath) timeout ;;;
                    ret tt
                  else ret tt
              | None => ret tt
              end) ;;;
             ret {| upSuccess := true; upResRemotePath := remotePath; upSize := size;
                    upError := None |}
       end)
    (fun error =>
       ret {| upSuccess := false; upResRemotePath := remotePath; upSize := 0;
              upError := Some (message error) |}).

End Upload.

(** *** downloadFile *)

Record DownloadFileOptions : Type := {
  dlRemotePath : list N;
  dlMaxSize : option Z;
  dlSessionId : option (list N);
  dlTimeout : option Z
}.

Record DownloadFileResult : Type := {
  dlSuccess : bool;
  dlResRemotePath : list N;
  dlContent : list N;
  dlSize : Z;
  dlError : option (list N)
}.

Definition reSize : regex :=                      (* /SIZE=(\d+)/ *)
  Seq (text (lit "SIZE=")) (Group (plus isDigit)).

(** [A-Za-z0-9+/=], and the pattern of what is removed: /[^A-Za-z0-9+/=]/g *)
Definition isBase64 : N -> bool :=
  orC isUpper (orC isLower (orC isDigit (oneOf "+/="))).
Definition reNotBase64 : regex := Chr (notC isBase64).

(** [Math.ceil(size * 4 / 3)] for a size that is not negative. *)
Definition expectedLength (size : Z) : Z := (size * 4 + 2) / 3.

Definition downloadFile (manager : FileTransferManager) (options : DownloadFileOptions)
    : Async DownloadFileResult :=
  let remotePath := dlRemotePath options in
  let sessionId := dlSessionId options in
  let timeout := dlTimeout options in
  let effectiveMaxSize := orNum (dlMaxSize options) (maxFileSize manager) in
  tryCatch
    (checkResult <- executeCommand sessionId
                      (lit "test -f " ++ quoted remotePath ++ lit " && echo "
                       ++ quoted (lit "exists") ++ lit " || echo "
                       ++ quoted (lit "not_found")) timeout ;;
     if bool_decide (trim (output checkResult) = lit "not_found") then
       ret {| dlSuccess := false; dlResRemotePath := remotePath; dlContent := [];
              dlSize := 0;
              dlError := Some (lit "File not found: " ++ remotePath) |}
     else
       sizeResult <- executeCommand sessionId
                       (lit "echo " ++ [34%N] ++ lit "SIZE=$(wc -c < "
                        ++ quoted remotePath ++ lit ")" ++ [34%N]) timeout ;;
       (* [size] is [NaN] when the pattern does not match *)
       let size := match exec reSize (output sizeResult) with
                   | Some (_ :: digits :: _) => Some (parseDigits digits)
                   | _ => None
                   end in
       match size with
       | None =>
           ret {| dlSuccess := false; dlResRemotePath := remotePath;
                  dlContent := []; dlSize := 0;
                  dlError := Some (lit "Failed to get file size") |}
       | Some size =>
           if (size <=? 0)%Z then
             ret {| dlSuccess := false; dlResRemotePath := remotePath;
                    dlContent := []; dlSize := 0;
                    dlError := Some (lit "Failed to get file size") |}
           else if (effectiveMaxSize <? size)%Z then
             ret {| dlSuccess := false; dlResRemotePath := remotePath;
                    dlContent := []; dlSize := size;
                    dlError := Some (lit "File size (" ++ showZ size
                                     ++ lit " bytes) exceeds maximum allowed size ("
                                     ++ showZ effectiveMaxSize ++ lit " bytes)") |}
           else
             encodeResult <- executeCommand sessionId
                               (lit "base64 " ++ quoted remotePath) timeout ;;
             if negb (success encodeResult) then
               ret {| dlSuccess := false; dlResRemotePath := remotePath;
                      dlContent := []; dlSize := 0;
                      dlError := Some (lit "Failed to encode file: "
                                       ++ showError (resError encodeResult)) |}
             else
               let base64Only := replaceAll reNotBase64 [] (output encodeResult) in
               let content := substring 0 (expectedLength size) base64Only in
               ret {| dlSuccess := true; dlResRemotePath := remotePath;
                      dlContent := content; dlSize := size; dlError := None |}
       end)
    (fun error =>
       ret {| dlSuccess := false; dlResRemotePath := remotePath; dlContent := [];
              dlSize := 0; dlError := Some (message error) |}).

(** *** listDirectory *)

Record FileInfo : Type := {
  path : list N;
  isDirectory : bool;
  size : Z;
  modifiedTime : Z;
  mode : list N
}.

Record ListDirectoryOptions : Type := {
  lsPath : list N;
  lsRecursive : option bool;
  lsSessionId : option (list N);
  lsTimeout : option Z
}.

Record ListDirectoryResult : Type := {
  lsSuccess : bool;
  lsResPath : list N;
  files : list FileInfo;
  lsError : option (list N)
}.

(** The pattern of a line of [ls -la]: mode, links, owner, group, size,
    date, name, between runs of white space; seven groups, from ^ to $. *)
Definition reLsLine : regex :=
  seqs [Bol;
        Group (Seq (Chr (oneOf "d-l")) (times 9 (oneOf "rwxs-")));
        plus ws; Group (plus isDigit);
        plus ws; Group (plus (notC ws));
        plus ws; Group (plus (notC ws));
        plus ws; Group (plus isDigit);
        plus ws; Group (seqs [plus isWord; plus ws; plus isDigit; plus ws;
                              plus (orC isDigit (isC ":"))]);
        plus ws; Group (plus dot);
        Eol].

(** One round of the loop of [parseLsOutput]: the entry the line gives, if
    any. *)
Definition parseLsLine (now : Z) (line : list N) : option FileInfo :=
  if isEmpty (trim line) || startsWith (lit "total ") line
     || startsWith (lit "ls:") line then None
  else
    match exec reLsLine line with
    | Some [_; mode; _; _; _; size; _; name] =>
        if bool_decide (name = lit ".") || bool_decide (name = lit "..") then None
        else Some {| path := name;
                     isDirectory := startsWith (lit "d") mode;
                     size := parseDigits size;
                     modifiedTime := now;
                     mode := substring 1 (len mode) mode |}
    | _ => None
    end.

(** [parseLsOutput(output)], called at time [now]. *)
Definition parseLsOutput (now : Z) (output : list N) : list FileInfo :=
  omap (parseLsLine now) (split LF output).

Definition listDirectory (options : ListDirectoryOptions) : Async ListDirectoryResult :=
  let path := lsPath options in
  let recursive := default false (lsRecursive options) in
  let sessionId := lsSessionId options in
  let timeout := lsTimeout options in
  tryCatch
    (checkResult <- executeCommand sessionId
                      (lit "test -d " ++ quoted path ++ lit " && echo "
                       ++ quoted (lit "exists") ++ lit " || echo "
                       ++ quoted (lit "not_found")) timeout ;;
     if bool_decide (trim (output checkResult) = lit "not_found") then
       ret {| lsSuccess := false; lsResPath := path; files := [];
              lsError := Some (lit "Directory not found: " ++ path) |}
     else
       let lsOptions := if recursive then lit "-laR" else lit "-la" in
       listResult <- executeCommand sessionId
                       (lit "ls " ++ lsOptions ++ lit " " ++ quoted path) timeout ;;
       if negb (success listResult) then
         ret {| lsSuccess := false; lsResPath := path; files := [];
                lsError := Some (lit "Failed to list directory: "
                                 ++ showError (resError listResult)) |}
       else
         t <- dateNow ;;
         let files := parseLsOutput t (output listResult) in
         ret {| lsSuccess := true; lsResPath := path; files := files;
                lsError := None |})
    (fun error =>
       ret {| lsSuccess := false; lsResPath := path; files := [];
              lsError := Some (message error) |}).

End Transfer.

(* ===================================================================== *)
(** ** Error handling wrappers ([utils/errors.ts])

    [withErrorHandling], [withRetry] and [safeExecute] wrap a function that
    returns a promise.  The wrapped function is a call of the model; the
    values it throws are the errors of [Exn], all of them instances of
    [Error]. *)
(* ===================================================================== *)

Module ErrorHandling.

#[global] Instance ErrorCode_eq_dec : EqDecision ErrorCode.
Proof. solve_decision. Defined.

(** [Errors.unknownError(error)], for an [error] that is an [Error] *)
Definition unknownError (error : Exn) : Exn :=
  TerminalError UNKNOWN_ERROR (lit "Unknown error: " ++ message error).

(** [error instanceof TerminalError] *)
Definition isTerminalError (error : Exn) : bool :=
  match error with
  | TerminalError _ _ => true
  | PlainError _ => false
  end.

(** [withErrorHandling(fn, errorHandler)] *)
Definition withErrorHandling {Args A : Type} (fn : Args -> Async A)
    (errorHandler : option (Exn -> Exn)) : Args -> Async A :=
  fun args =>
    tryCatch (fn args)
      (fun error =>
         if isTerminalError error then throw error
         else throw (match errorHandler with
                     | Some handler => handler error
                     | None => unknownError error
                     end)).

Record RetryConfig : Type := {
  maxRetries : Z;
  delay : Z;
  backoff : option bool;
  retryOn : option (list ErrorCode)
}.

(** How the promise of [withRetry] settles.  It is rejected with
    [lastError], which is still [null] when the loop made no attempt. *)
Inductive Settled (A : Type) : Type :=
| Fulfilled (a : A)
| Rejected (lastError : option Exn)
| Pending.
Arguments Fulfilled {A} a.
Arguments Rejected {A} lastError.
Arguments Pending {A}.

(** The loop of [withRetry], for [attempt] up to [maxRetries]: [remaining] counts
    the iterations that remain, [attempt] is the loop variable, and [delay]
    and [lastError] are the two variables the loop updates. *)
Fixpoint attempts {A : Type} (fn : Async A) (config : RetryConfig) (remaining : nat)
    (attempt delay : Z) (lastError : option Exn) (w : World) (sched : Schedule)
    : Settled A * World * Schedule :=
  match remaining with
  | O => (Rejected lastError, w, sched)
  | S remaining =>
      match fn w sched with
      | (Returned a, w, sched) => (Fulfilled a, w, sched)
      | (Diverged, w, sched) => (Pending, w, sched)
      | (Thrown err, w, sched) =>
          let retry (lastError : Exn) :=
            if (attempt <? maxRetries config)%Z then
              match sleep delay w sched with
              | (_, w, sched) =>
                  attempts fn config remaining (attempt + 1)
                    (if default false (backoff config) then delay * 2 else delay)
                    (Some lastError) w sched
              end
            else
              attempts fn config remaining (attempt + 1) delay (Some lastError) w sched in
          match err with
          | TerminalError code _ =>
              match retryOn config with
              | Some codes =>
                  if negb (bool_decide (code ∈ codes)) then
                    (Rejected (Some err), w, sched)
                  else retry err
              | None => retry err
              end
          | PlainError _ => retry (unknownError err)
          end
      end
  end.

(** [withRetry(fn, config)] *)
Definition withRetry {A : Type} (fn : Async A) (config : RetryConfig)
    (w : World) (sched : Schedule) : Settled A * World * Schedule :=
  attempts fn config (Z.to_nat (maxRetries config + 1)) 0 (delay config) None w sched.

(** The result of [safeExecute]. *)
Inductive SafeResult (A : Type) : Type :=
| Success (data : A)
| Failure (error : Exn).
Arguments Success {A} data.
Arguments Failure {A} error.

(** [safeExecute(fn)] *)
Definition safeExecute {A : Type} (fn : Async A) : Async (SafeResult A) :=
  tryCatch (data <- fn ;; ret (Success data))
    (fun error =>
       if isTerminalError error then ret (Failure error)
       else ret (Failure (unknownError error))).

End ErrorHandling.

(* ===================================================================== *)
(** ** Backends ([backends/wsl.ts], [backends/docker.ts]): what they read
    off the output of their commands *)
(* ===================================================================== *)

Module Wsl.

(** ^\s*(\*?)\s*(\S+) *)
Definition reDistribution : regex :=
  seqs [Bol; Star isWhiteSpace; Group (opt (Chr (isC "*"))); Star isWhiteSpace;
        Group (plus (notC isWhiteSpace))].

(** The two variables of the loop of [getDistributions], which are its
    result [{ default: defaultDistro, all: distributions }]. *)
Record Distributions : Type := {
  defaultDistro : option (list N);
  distributions : list (list N)
}.

(** One turn of the loop over the lines. *)
Definition distributionLine (acc : Distributions) (line : list N) : Distributions :=
  match exec reDistribution line with
  | Some (_ :: star :: name :: _) =>
      {| defaultDistro := if bool_decide (star = lit "*") then Some name
                          else defaultDistro acc;
         distributions := distributions acc ++ [name] |}
  | _ => acc
  end.

(** [getDistributions()]: what its [close] handler resolves the promise
    with, from the [output] of [wsl.exe --list --verbose]. *)
Definition getDistributions (output : list N) : Distributions :=
  let lines := List.filter (fun line => negb (isEmpty (trim line))) (split LF output) in
  fold_left distributionLine (drop 1 lines)
    {| defaultDistro := None; distributions := [] |}.

(** [buildWslArgs(baseArgs)] *)
Definition buildWslArgs (distribution : option (list N)) (baseArgs : list (list N))
    : list (list N) :=
  let args := match distribution with
              | Some d => if isEmpty d then [] else [lit "-d"; d]
              | None => []
              end in
  args ++ baseArgs.

End Wsl.

Module Docker.

Record SystemInfo : Type := {
  backend : list N;
  os : list N;
  osVersion : list N;
  arch : list N;
  hostname : list N;
  user : list N;
  homeDir : list N;
  defaultShell : list N;
  wsl : bool;
  docker : bool
}.

(** [s.replace(t, repl)] for a text [t]: the first occurrence only. *)
Fixpoint replaceFirst (t repl s : list N) : list N :=
  if startsWith t s then repl ++ drop (length t) s
  else match s with
       | [] => []
       | c :: s' => c :: replaceFirst t repl s'
       end.

(** The pattern of the second [replace]: every double quote. *)
Definition reQuote : regex := Chr (code 34).

(** The loop of [getSystemInfo] over the lines, with the variable
    [osVersion] it updates. *)
Fixpoint osVersionOf (lines : list (list N)) (osVersion : list N) : list N :=
  match lines with
  | [] => osVersion
  | line :: rest =>
      if startsWith (lit "PRETTY_NAME=") line then
        replaceAll reQuote [] (replaceFirst (lit "PRETTY_NAME=") [] line)
      else if startsWith (lit "VERSION=") line then
        osVersionOf rest (replaceAll reQuote [] (replaceFirst (lit "VERSION=") [] line))
      else osVersionOf rest osVersion
  end.

(** [parts[parts.length - 2]] *)
Definition lastButOne (parts : list (list N)) : option (list N) :=
  if (length parts <? 2)%nat then None else parts !! (length parts - 2)%nat.

(** [getSystemInfo()], from the output [info] of its command. *)
Definition getSystemInfo (info : list N) : SystemInfo :=
  let lines := split LF info in
  let unameLine := SessionManager.orStr (lines !! 0%nat) [] in
  let parts := split (ch " ") unameLine in
  {| backend := lit "docker";
     os := SessionManager.orStr (parts !! 0%nat) (lit "Linux");
     osVersion := osVersionOf lines (lit "Unknown");
     arch := SessionManager.orStr (lastButOne parts) (lit "x86_64");
     hostname := SessionManager.orStr (parts !! 1%nat) (lit "docker");
     user := lit "root";
     homeDir := lit "/root";
     defaultShell := lit "/bin/bash";
     wsl := false;
     docker := true |}.

End Docker.

(* ===================================================================== *)
(** ** Log tailer ([polling/log-tailer.ts]): the tails and their commands *)
(* ===================================================================== *)

Module Tailer.

Import LogTailer.

(** A number that may be [NaN] ([None]). *)
Definition number : Type := option Z.

(** The digits a text starts with. *)
Fixpoint digitsPrefix (s : list N) : list N :=
  match s with
  | c :: s' => if isDigit c then c :: digitsPrefix s' else []
  | [] => []
  end.

(** [parseInt(s, 10)]: white space, a sign, then the digits the text starts
    with; [NaN] without a digit. *)
Definition parseInt (s : list N) : number :=
  let s := trimStart s in
  let signed :=
    match s with
    | c :: s' =>
        if (c =? ch "-")%N then ((-1)%Z, s')
        else if (c =? ch "+")%N then (1%Z, s')
        else (1%Z, s)
    | [] => (1%Z, s)
    end in
  match digitsPrefix (snd signed) with
  | [] => None
  | ds => Some (fst signed * parseDigits ds)%Z
  end.

(** A number in a template literal. *)
Definition showNumber (n : number) : list N :=
  match n with
  | Some z => showZ z
  | None => lit "NaN"
  end.

Record TailOptions : Type := {
  lines : option Z;
  follow : option bool;
  timeout : option Z
}.

(** [DEFAULT_TAIL_OPTIONS.lines] *)
Definition DEFAULT_LINES : Z := 100.

Record LogTailState : Type := {
  id : list N;
  filePath : list N;
  sessionId : list N;
  status : Poller.PollingStatus;
  readPosition : number;
  createdAt : Z;
  lastUpdatedAt : Z;
  error_ : option (list N)
}.

Definition withReadPosition (n : number) (t : LogTailState) : LogTailState :=
  {| id := id t; filePath := filePath t; sessionId := sessionId t;
     status := status t; readPosition := n; createdAt := createdAt t;
     lastUpdatedAt := lastUpdatedAt t; error_ := error_ t |}.
Definition withLastUpdatedAt (now : Z) (t : LogTailState) : LogTailState :=
  {| id := id t; filePath := filePath t; sessionId := sessionId t;
     status := status t; readPosition := readPosition t; createdAt := createdAt t;
     lastUpdatedAt := now; error_ := error_ t |}.
(** [tailState.status = 'error'; tailState.error = message] *)
Definition failed (msg : list N) (t : LogTailState) : LogTailState :=
  {| id := id t; filePath := filePath t; sessionId := sessionId t;
     status := Poller.error; readPosition := readPosition t;
     createdAt := createdAt t; lastUpdatedAt := lastUpdatedAt t;
     error_ := Some msg |}.
(** [tailState.status = 'stopped'; tailState.lastUpdatedAt = new Date()] *)
Definition stoppedAt (now : Z) (t : LogTailState) : LogTailState :=
  {| id := id t; filePath := filePath t; sessionId := sessionId t;
     status := Poller.stopped; readPosition := readPosition t;
     createdAt := createdAt t; lastUpdatedAt := now; error_ := error_ t |}.

(** [this.tails] *)
Abbreviation Tails := (gmap (list N) LogTailState).

(** A method of the tailer: a call that also reads and updates the tails.
    A method keeps the state object it looked up; no other method of the
    tailer runs during the call, so the object stays the one in the map and
    its updates are updates of the map. *)
Definition Tailing (A : Type) : Type :=
  Tails -> World -> Schedule -> Outcome A * Tails * World * Schedule.

Definition tret {A : Type} (a : A) : Tailing A :=
  fun tails w sched => (Returned a, tails, w, sched).
Definition tthrow {A : Type} (e : Exn) : Tailing A :=
  fun tails w sched => (Thrown e, tails, w, sched).
Definition tbind {A B : Type} (c : Tailing A) (k : A -> Tailing B) : Tailing B :=
  fun tails w sched =>
    match c tails w sched with
    | (Returned a, tails', w', sched') => k a tails' w' sched'
    | (Thrown e, tails', w', sched') => (Thrown e, tails', w', sched')
    | (Diverged, tails', w', sched') => (Diverged, tails', w', sched')
    end.
(** A call that does not touch the tails. *)
Definition lift {A : Type} (c : Async A) : Tailing A :=
  fun tails w sched =>
    match c w sched with
    | (o, w', sched') => (o, tails, w', sched')
    end.
(** An update of the state object of a tail. *)
Definition updateTail (tailId : list N) (f : LogTailState -> LogTailState)
    : Tailing unit :=
  fun tails w sched => (Returned tt, alter f tailId tails, w, sched).

Notation "x <~ c ;; k" := (tbind c (fun x => k))
  (at level 100, c at next level, right associativity).
Notation "c ~;; k" := (tbind c (fun _ => k))
  (at level 100, right associativity).

(** [getFileSize(sessionId, filePath)]: [null] is the outer [None]. *)
Definition getFileSize (sessionId filePath : list N) : Async (option number) :=
  result <- SessionManager.executeCommand
              {| Manager.sessionId := sessionId;
                 Manager.command :=
                   lit "stat -c %s " ++ Transfer.quoted filePath
                   ++ lit " 2>/dev/null || wc -c < " ++ Transfer.quoted filePath;
                 Manager.timeout := Some 5000%Z |} ;;
  if success result then ret (Some (parseInt (trim (output result))))
  else ret None.

(** [startTailCommand(tailState, config)], for the [lines] of the
    configuration. *)
Definition startTailCommand (tailState : LogTailState) (configLines : Z)
    : Tailing unit :=
  fileSize <~ lift (getFileSize (sessionId tailState) (filePath tailState)) ;;
  (match fileSize with
   | Some size => updateTail (id tailState) (withReadPosition size)
   | None => tret tt
   end) ~;;
  if (0 <? configLines)%Z then
    result <~ lift (SessionManager.executeCommand
                      {| Manager.sessionId := sessionId tailState;
                         Manager.command :=
                           lit "tail -n " ++ showZ configLines ++ lit " "
                           ++ Transfer.quoted (filePath tailState);
                         Manager.timeout := Some 10000%Z |}) ;;
    if negb (success result) then
      updateTail (id tailState)
        (failed (orStr (resError result) (lit "Failed to read initial log lines")))
    else tret tt
  else tret tt.

(** [startTailing(sessionId, filePath, options)] *)
Definition startTailing (sid path : list N) (options : option TailOptions)
    : Tailing (list N) :=
  tailId <~ lift uuidv4 ;;
  let configLines := default DEFAULT_LINES (options ≫= lines) in
  w <~ lift getWorld ;;
  match getSession sid w with
  | None => tthrow (PlainError (lit "Session " ++ sid ++ lit " not found"))
  | Some _ =>
      let tailState :=
        {| id := tailId; filePath := path; sessionId := sid;
           status := Poller.running; readPosition := Some 0%Z;
           createdAt := now w; lastUpdatedAt := now w; error_ := None |} in
      (fun tails w sched => (Returned tt, <[tailId := tailState]> tails, w, sched)) ~;;
      startTailCommand tailState configLines ~;;
      tret tailId
  end.

(** The loop over the lines of [getLogs] and [getIncrementalLogs]: an entry
    for every line that is not blank and that [keep] lets through. *)
Definition entriesOf (now : Z) (keep : LogEntry -> bool) (text : list N)
    : list LogEntry :=
  List.filter keep
    (parseLogLine now <$> List.filter (fun line => negb (isEmpty (trim line)))
                            (split LF text)).

Section Dates.

(** The time value of [new Date(text)]: the parser of dates belongs to the
    runtime. *)
Variable dateValue : list N -> number.

Definition timeValue (t : Timestamp) : number :=
  match t with
  | DateOf text => dateValue text
  | ReceivedAt now => Some now
  end.

(** [entry.timestamp >= since]: false when either is not a date. *)
Definition notBefore (since : number) (entry : LogEntry) : bool :=
  match timeValue (timestamp entry), since with
  | Some t, Some s => (s <=? t)%Z
  | _, _ => false
  end.

(** [getLogs(tailId, since)] *)
Definition getLogs (tailId : list N) (since : option number)
    : Tailing (list LogEntry) :=
  fun tails =>
    match tails !! tailId with
    | None => tthrow (PlainError (lit "Tail " ++ tailId ++ lit " not found")) tails
    | Some tailState =>
        (w <~ lift getWorld ;;
         match getSession (sessionId tailState) w with
         | None =>
             tthrow (PlainError (lit "Session " ++ sessionId tailState
                                 ++ lit " not found"))
         | Some _ =>
             result <~ lift (SessionManager.executeCommand
                               {| Manager.sessionId := sessionId tailState;
                                  Manager.command :=
                                    lit "cat " ++ Transfer.quoted (filePath tailState);
                                  Manager.timeout := Some 10000%Z |}) ;;
             if negb (success result) then
               updateTail tailId
                 (failed (orStr (resError result) (lit "Failed to read log file"))) ~;;
               tret []
             else
               t <~ lift dateNow ;;
               let entries :=
                 entriesOf t (fun entry =>
                                match since with
                                | None => true
                                | Some s => notBefore s entry
                                end) (output result) in
               updateTail tailId (withLastUpdatedAt t) ~;;
               tret entries
         end) tails
    end.

End Dates.

(** [getIncrementalLogs(tailId)] *)
Definition getIncrementalLogs (tailId : list N) : Tailing (list LogEntry) :=
  fun tails =>
    match tails !! tailId with
    | None => tthrow (PlainError (lit "Tail " ++ tailId ++ lit " not found")) tails
    | Some tailState =>
        (w <~ lift getWorld ;;
         match getSession (sessionId tailState) w with
         | None =>
             tthrow (PlainError (lit "Session " ++ sessionId tailState
                                 ++ lit " not found"))
         | Some _ =>
             result <~ lift (SessionManager.executeCommand
                               {| Manager.sessionId := sessionId tailState;
                                  Manager.command :=
                                    lit "tail -c +"
                                    ++ showNumber ((fun n => n + 1)%Z
                                                     <$> readPosition tailState)
                                    ++ lit " " ++ Transfer.quoted (filePath tailState);
                                  Manager.timeout := Some 10000%Z |}) ;;
             if negb (success result) then
               updateTail tailId
                 (failed (orStr (resError result) (lit "Failed to read log file"))) ~;;
               tret []
             else
               newSize <~ lift (getFileSize (sessionId tailState)
                                  (filePath tailState)) ;;
               (match newSize with
                | Some size => updateTail tailId (withReadPosition size)
                | None => tret tt
                end) ~;;
               t <~ lift dateNow ;;
               updateTail tailId (withLastUpdatedAt t) ~;;
               tret (entriesOf t (fun _ => true) (output result))
         end) tails
    end.

(** [stopTailing(tailId)] *)
Definition stopTailing (tailId : list N) : Tailing unit :=
  fun tails w sched =>
    match tails !! tailId with
    | None => (Returned tt, tails, w, sched)
    | Some tailState =>
        (Returned tt, <[tailId := stoppedAt (now w) tailState]> tails, w, sched)
    end.

(** [getActiveTails()]; the order of the [Map] is not recorded. *)
Definition getActiveTails (tails : Tails) : list LogTailState :=
  List.filter (fun t => Poller.isRunning (status t)) (snd <$> map_to_list tails).

Definition isOver (s : Poller.PollingStatus) : bool :=
  match s with
  | Poller.stopped | Poller.error => true
  | _ => false
  end.

(** [cleanupStopped()]: the tails left in the map, and the number it
    returns, the counter [cleaned] of its loop over the entries. *)
Definition cleanupStopped (tails : Tails) : Tails :=
  filter (fun kv => isOver (status (snd kv)) = false) tails.
Definition cleaned (tails : Tails) : nat :=
  foldr (fun kv cleaned => if isOver (status (snd kv)) then S cleaned else cleaned)
    0%nat (map_to_list tails).

End Tailer.

(* ===================================================================== *)
(** ** The server ([index.ts], [server.ts]): the configuration it gives the
    session manager *)
(* ===================================================================== *)

Module Server.

(** [process.env.X ? parseInt(process.env.X, 10) : undefined] of [index.ts]
    (source lines 15-20), for a variable that is unset ([None]) or set. *)
Definition envNumber (variable : option (list N)) : Num :=
  match variable with
  | Some text =>
      if isEmpty text then Undefined
      else match Tailer.parseInt text with
           | Some n => Number n
           | None => NaN
           end
  | None => Undefined
  end.

(** The configuration [start()] passes to [createSessionManager]
    ([server.ts], source lines 85-88): the two keys are always present. *)
Definition sessionManagerConfig (WSL_MCP_MAX_SESSIONS WSL_MCP_DEFAULT_TIMEOUT
    : option (list N)) : GivenConfig :=
  {| givenMaxSessions := Some (envNumber WSL_MCP_MAX_SESSIONS);
     givenDefaultTimeout := Some (envNumber WSL_MCP_DEFAULT_TIMEOUT);
     givenSessionExpiry := None;
     givenMaxBufferSize := None;
     givenMarkerPrefix := None |}.

(** The configuration of the session manager of a server. *)
Definition managerConfig (WSL_MCP_MAX_SESSIONS WSL_MCP_DEFAULT_TIMEOUT
    : option (list N)) : SessionManagerConfig :=
  spreadConfig (Some (sessionManagerConfig WSL_MCP_MAX_SESSIONS WSL_MCP_DEFAULT_TIMEOUT)).

End Server.

(* ===================================================================== *)
(** ** The words of the specification

    Declarative counterparts of what the code computes, against which the
    definitions above are proved, and the concrete worlds on which they are
    run. *)
(* ===================================================================== *)

Module Spec.

(** [out] is [input] with some of its lines removed: the lines kept are a
    subsequence of the lines of [input], each one unchanged, and [out] is
    these lines joined by line feeds.  Unless every line was removed, they are
    exactly the lines of [out] (the empty text is what is left of no line). *)
Definition lineFilterOf (input out : list N) : Prop :=
  ∃ kept : list (list N),
    kept `sublist_of` split LF input
    ∧ out = join [LF] kept
    ∧ (kept ≠ [] → split LF out = kept).

(** [t] occurs in [s] at index [i]. *)
Definition occursAt (s t : list N) (i : nat) : Prop :=
  ∃ pre post : list N, s = pre ++ t ++ post ∧ length pre = i.

(** [i] is the index of the last occurrence of [t] in [s]. *)
Definition lastOccurrence (s t : list N) (i : nat) : Prop :=
  occursAt s t i ∧ ∀ j, occursAt s t j → j <= i.

(** [ds] is the longest run of decimal digits at the head of [s]. *)
Definition digitRun (s ds : list N) : Prop :=
  ∃ post : list N,
    s = ds ++ post
    ∧ Forall (fun c => isDigit c = true) ds
    ∧ match post with
      | [] => True
      | c :: _ => isDigit c = false
      end.

(** The exit marker, followed by at least one digit, stands at index [i]. *)
Definition exitReportAt (out exitMarker : list N) (i : nat) : Prop :=
  ∃ (d : N) (post : list N),
    isDigit d = true ∧ drop i out = exitMarker ++ d :: post ∧ i <= length out.

(** The number a run of decimal digits writes: each digit counts for its
    value times the power of ten of its place. *)
Fixpoint decimal (ds : list N) : Z :=
  match ds with
  | [] => 0
  | d :: ds' => (Z.of_N d - 48) * 10 ^ Z.of_nat (length ds') + decimal ds'
  end.

(** The exit code the buffer reports: the number written in the digits that
    follow the first exit marker followed by a digit, and 0 when the buffer
    has no exit marker followed by a digit. *)
Inductive exitCodeIn (out exitMarker : list N) : Z -> Prop :=
| exitCodeRead (i : nat) (ds : list N) :
    exitReportAt out exitMarker i →
    (∀ j, (j < i)%nat → ¬ exitReportAt out exitMarker j) →
    digitRun (drop (i + length exitMarker) out) ds →
    exitCodeIn out exitMarker (decimal ds)
| exitCodeDefault :
    (∀ i, ¬ exitReportAt out exitMarker i) →
    exitCodeIn out exitMarker 0.

(** The number the buffer reports is one a JavaScript number holds exactly:
    it is below [2^53]. *)
Definition reportsExactly (out exitMarker : list N) : Prop :=
  ∀ code, exitCodeIn out exitMarker code → (code < 2 ^ 53)%Z.

(** The id [createSession] gives the session: the one asked for, or the
    next [uuidv4()] when none (or the empty one) is. *)
Definition requestedId (options : option SessionOptions) (w : World) : list N :=
  match options ≫= optId with
  | Some i => if isEmpty i then uuidSource w (uuidCount w) else i
  | None => uuidSource w (uuidCount w)
  end.

(** Nothing but the output of the ptys happens during the suspensions. *)
Definition onlyData (sched : Schedule) : Prop :=
  Forall (fun t => Forall (fun e => ∃ r data, e = PtyData r data) (events t)) sched.

(** The error is the [MaxSessionsReached] of [utils/errors.ts]. *)
Definition isMaxSessionsReached {A : Type} (o : Outcome A) : Prop :=
  ∃ msg, o = Thrown (TerminalError MAX_SESSIONS_REACHED msg).

End Spec.

Module Trace.

(** The state of the world at the [n]-th test of the condition of the polling
    loop, the tests before it having seen no end marker: [n] suspensions of
    100 ms after the loop was entered. *)
Fixpoint afterPolls (n : nat) (w : World) (sched : Schedule) : World * Schedule :=
  match n with
  | O => (w, sched)
  | S n' => afterPolls n' (wake 100 w sched) (tail sched)
  end.

(** The tests of the loop condition a call may still make are enough for the
    time that remains before the timeout. *)
Definition fuelFor (startTimeWait : Z) (timeout : Num) (fuel : nat) (w : World)
    : Prop :=
  (1 <= fuel)%nat
  ∧ ∀ t, timeout = Number t → (now w - startTimeWait < t)%Z →
         ((t - (now w - startTimeWait) - 1) / 100 + 2 <= Z.of_nat fuel)%Z.

End Trace.

(** Concrete worlds, used to run the definitions. *)
Module Examples.

Definition idlePty : Pty :=
  {| ptyShell := lit "/bin/bash"; ptyCwd := lit "~"; ptyCols := 160;
     ptyRows := 40; written := []; killed := false |}.

Definition sessionWith (sid : list N) (st : SessionStatus) (maxBuffer : Z)
    : TerminalSession :=
  {| Manager.id := sid; name := lit "session-" ++ sliceTo 8 sid;
     ptyProcess := idlePty; Manager.outputBuffer := [];
     maxBufferSize := maxBuffer; Manager.status := st; lastCommand := [];
     Manager.createdAt := 0; lastActivityAt := 0; cwd := lit "~"; env := [];
     Manager.error_ := None |}.

Definition wslBackend : Backend :=
  {| getDefaultShell := lit "/bin/bash"; getDefaultCwd := lit "~";
     createPtyAnswer := PtyCreated |}.

(** A manager that has just been constructed. *)
Definition freshWorld (cfg : SessionManagerConfig) : World :=
  {| now := 1000; config := cfg; backend := wslBackend;
     heap := ∅; nextRef := 0;
     sessions := ∅;
     uuidSource := fun n => lit "uuid-" ++ showZ (Z.of_nat n);
     uuidCount := 0 |}.

(** A manager holding the one session [default], in status [st]. *)
Definition worldWith (st : SessionStatus) (maxBuffer : Z) : World :=
  {| now := 1000; config := DEFAULT_CONFIG; backend := wslBackend;
     heap := {[ 0%nat := sessionWith (lit "default") st maxBuffer ]};
     nextRef := 1;
     sessions := {[ lit "default" := 0%nat ]};
     uuidSource := fun n => lit "uuid-" ++ showZ (Z.of_nat n);
     uuidCount := 0 |}.

(** A manager with the configuration [cfg], holding ten sessions. *)
Definition crowdedWorld (cfg : SessionManagerConfig) : World :=
  {| now := 1000; config := cfg; backend := wslBackend;
     heap := list_to_map
               ((fun n => (n, sessionWith (lit "s" ++ showZ (Z.of_nat n)) ready 1024))
                  <$> seq 0 10);
     nextRef := 10;
     sessions := list_to_map
                   ((fun n => (lit "s" ++ showZ (Z.of_nat n), n)) <$> seq 0 10);
     uuidSource := fun n => lit "uuid-" ++ showZ (Z.of_nat n);
     uuidCount := 0 |}.

Definition echoHello (ms : Z) : CommandContext :=
  {| Manager.sessionId := lit "default"; Manager.command := lit "echo hello";
     timeout := Some ms |}.

Definition lsNope (ms : Z) : CommandContext :=
  {| Manager.sessionId := lit "default"; Manager.command := lit "ls /nope";
     timeout := Some ms |}.

Definition okResult : CommandResult :=
  {| Manager.resSessionId := lit "default"; resCommand := lit "make";
     Manager.output := lit "done"; Manager.exitCode := Some 0%Z;
     success := true; duration := 40; timedOut := false;
     Manager.resError := None |}.

(** A background process for [make], started at time 1000. *)
Definition makeProcess : Poller.BackgroundProcess :=
  Poller.newProcess (lit "p1") (lit "default") (lit "make") 1000 1000.

End Examples.

Module Scenario.

(** What a shell prints for [echo hello] between the markers of time 1100:
    the echo of each line written to the pty, and the output of each. *)
Definition helloTranscript : list N :=
  unlines [lit "user@host:~$ echo '===START1100==='";
           lit "===START1100===";
           lit "user@host:~$ echo hello";
           lit "hello";
           lit "user@host:~$ echo '===EXIT1100==='$?";
           lit "===EXIT1100===0";
           lit "user@host:~$ echo '===END1100==='";
           lit "===END1100===";
           lit "user@host:~$ "].

(** What it prints for a command that fails: [ls] on a path that does not
    exist, which exits with 2. *)
Definition failingTranscript : list N :=
  unlines [lit "user@host:~$ echo '===START1100==='";
           lit "===START1100===";
           lit "user@host:~$ ls /nope";
           lit "ls: cannot access '/nope': No such file or directory";
           lit "user@host:~$ echo '===EXIT1100==='$?";
           lit "===EXIT1100===2";
           lit "user@host:~$ echo '===END1100==='";
           lit "===END1100===";
           lit "user@host:~$ "].

Definition quiet : Tick := {| lateness := 0; events := [] |}.

(** The transcript arrives during the first sleep of the polling loop. *)
Definition helloSchedule : Schedule :=
  [quiet; quiet; quiet; quiet;
   {| lateness := 3; events := [PtyData 0 helloTranscript] |}].

Definition failingSchedule : Schedule :=
  [quiet; quiet; quiet; quiet;
   {| lateness := 3; events := [PtyData 0 failingTranscript] |}].

End Scenario.

(** What a successful match of the backtracking matcher says about the
    input, whatever the order in which the alternatives were tried. *)
Module ReSem.

(** [Matches n0 r u s' gs]: [r] matches the text [u] in front of the rest
    [s'] of the input, closing the groups [gs]; [n0] is the length of the
    whole input. *)
Inductive Matches (n0 : nat) : regex -> list N -> list N -> list (list N) -> Prop :=
| MEps (s' : list N) : Matches n0 Eps [] s' []
| MChr (p : N -> bool) (c : N) (s' : list N) :
    p c = true → Matches n0 (Chr p) [c] s' []
| MSeq (r1 r2 : regex) (u1 u2 s' : list N) (g1 g2 : list (list N)) :
    Matches n0 r1 u1 (u2 ++ s') g1 → Matches n0 r2 u2 s' g2 →
    Matches n0 (Seq r1 r2) (u1 ++ u2) s' (g1 ++ g2)
| MAltL (r1 r2 : regex) (u s' : list N) (g : list (list N)) :
    Matches n0 r1 u s' g → Matches n0 (Alt r1 r2) u s' g
| MAltR (r1 r2 : regex) (u s' : list N) (g : list (list N)) :
    Matches n0 r2 u s' g → Matches n0 (Alt r1 r2) u s' g
| MStar (p : N -> bool) (run s' : list N) :
    Forall (fun c => p c = true) run → Matches n0 (Star p) run s' []
| MGroup (r : regex) (u s' : list N) (g : list (list N)) :
    Matches n0 r u s' g → Matches n0 (Group r) u s' (g ++ [u])
| MBol (s' : list N) : length s' = n0 → Matches n0 Bol [] s' []
| MEol : Matches n0 Eol [] [] []
| MNotAhead (r : regex) (s' : list N) : Matches n0 (NotAhead r) [] s' [].

End ReSem.

(** The words of the specification about log lines. *)
Module LogSpec.

Definition digits (n : nat) (l : list N) : Prop :=
  length l = n ∧ Forall (fun c => isDigit c = true) l.

(** The fraction of a second: nothing, or a dot and digits. *)
Definition fraction (l : list N) : Prop :=
  l = [] ∨ ∃ ds, l = ch "." :: ds ∧ ds ≠ [] ∧ Forall (fun c => isDigit c = true) ds.

(** The zone: nothing, [Z], or a signed offset [hh:mm] or [hhmm]. *)
Definition zone (l : list N) : Prop :=
  l = [] ∨ l = [ch "Z"]
  ∨ ∃ sign hh mm,
      (sign = ch "+" ∨ sign = ch "-") ∧ digits 2 hh ∧ digits 2 mm
      ∧ (l = sign :: hh ++ mm ∨ l = sign :: hh ++ ch ":" :: mm).

(** An ISO-8601 timestamp: date, [T] or a blank, time, fraction, zone. *)
Definition isoStamp (ts : list N) : Prop :=
  ∃ y mo d sep h mi s fr z,
    ts = y ++ ch "-" :: mo ++ ch "-" :: d ++ sep :: h ++ ch ":" :: mi
           ++ ch ":" :: s ++ fr ++ z
    ∧ digits 4 y ∧ digits 2 mo ∧ digits 2 d
    ∧ (sep = ch "T" ∨ sep = ch " ")
    ∧ digits 2 h ∧ digits 2 mi ∧ digits 2 s
    ∧ fraction fr ∧ zone z.

(** The text holds the (lower-case) keyword, the case of its own letters
    being ignored. *)
Definition holds (text keyword : list N) : Prop :=
  ∃ pre mid post, text = pre ++ mid ++ post ∧ toLowerCase mid = keyword.

(** The level inferred from a text by keyword search. *)
Inductive inferredLevel (text : list N) : list N -> Prop :=
| inferError :
    holds text (lit "error") ∨ holds text (lit "err") ∨ holds text (lit "fatal") →
    inferredLevel text (lit "error")
| inferWarn :
    ¬ (holds text (lit "error") ∨ holds text (lit "err") ∨ holds text (lit "fatal")) →
    holds text (lit "warn") →
    inferredLevel text (lit "warn")
| inferDebug :
    ¬ (holds text (lit "error") ∨ holds text (lit "err") ∨ holds text (lit "fatal")) →
    ¬ holds text (lit "warn") →
    holds text (lit "debug") ∨ holds text (lit "trace") →
    inferredLevel text (lit "debug")
| inferInfo :
    ¬ (holds text (lit "error") ∨ holds text (lit "err") ∨ holds text (lit "fatal")) →
    ¬ holds text (lit "warn") →
    ¬ (holds text (lit "debug") ∨ holds text (lit "trace")) →
    inferredLevel text (lit "info").

(** The keywords [detectLogLevel] looks for. *)
Definition keywords : list (list N) :=
  [lit "error"; lit "err"; lit "fatal"; lit "warn"; lit "warning";
   lit "debug"; lit "trace"].

(** The code units of a timestamp and of the blanks after it, bar the [T]:
    none of them, lower-cased, starts a keyword. *)
Definition stampChar (c : N) : bool :=
  isDigit c || isWhiteSpace c || oneOf "-:.+Z" c.

End LogSpec.

(* ===================================================================== *)
(** ** Declarative counterparts for the rest of the sources *)
(* ===================================================================== *)

Module Text.

(** A line that is not blank, and a line in which the echo of a command is
    recognised: what the callback of [cleanCommandEcho] tests. *)
Definition nonBlank (l : list N) : bool := negb (isEmpty (trim l)).
Definition echoes (word l : list N) : bool :=
  negb (isEmpty word) && includes (trim l) word.

(** The list without the first element that satisfies [p]. *)
Fixpoint removeFirst {A : Type} (p : A -> bool) (ls : list A) : list A :=
  match ls with
  | [] => []
  | l :: ls' => if p l then ls' else l :: removeFirst p ls'
  end.

(** No white space at either end, and none at the end of a line. *)
Definition trimmed (s : list N) : Prop := trim s = s.
Definition noTrailingBlank (l : list N) : Prop := trimEnd l = l.

(** A token: no line feed inside, no white space at either end. *)
Definition token (m : list N) : Prop :=
  (LF ∉ m)
  ∧ (∃ a t, m = a :: t ∧ isWhiteSpace a = false)
  ∧ (∃ t b, m = t ++ [b] ∧ isWhiteSpace b = false).

End Text.

Module Store.

(** The store of the manager is well formed when every session it holds is
    an allocated object, stored under its own id, that is [ready] or
    [busy]. *)
Definition wellFormed (w : World) : Prop :=
  ∀ sid r, sessions w !! sid = Some r →
    (r < nextRef w)%nat
    ∧ id (object w r) = sid
    ∧ (status (object w r) = ready ∨ status (object w r) = busy).

(** A session object after [closeSession]: its pty killed, its status
    [closed], everything else as it was. *)
Definition closedSession (s : TerminalSession) : TerminalSession :=
  withStatus closed (withPty (ptyKill (ptyProcess s)) s).

(** The world a call leaves behind. *)
Definition after {A : Type} (run : Outcome A * World * Schedule) : World :=
  snd (fst run).

(** A field update that keeps the id, and the status unless it sets it to
    [ready] or [busy]. *)
Definition benign (f : TerminalSession -> TerminalSession) : Prop :=
  ∀ s, id (f s) = id s
       ∧ (status (f s) = status s ∨ status (f s) = ready ∨ status (f s) = busy).

(** A call that leaves the store well formed when it finds it so, however it
    ends and whatever happens at its suspensions. *)
Definition keeps {A : Type} (c : Async A) : Prop :=
  ∀ w sched, wellFormed w → wellFormed (after (c w sched)).

End Store.

Module Protocol.

(** No interrupt is sent to a pty during the suspensions. *)
Definition noInterrupt (sched : Schedule) : Prop :=
  Forall (fun t => Forall (fun e => ∀ sid, e ≠ Interrupt sid) (events t)) sched.

(** The four lines of one command: the echo of the start marker, the
    command, the echo of the exit marker with the exit status, the echo of
    the end marker. *)
Definition linesOf (m : Markers) (command : list N) : list (list N) :=
  [lit "echo '" ++ startMarker m ++ lit "'" ++ [LF];
   command ++ [LF];
   lit "echo '" ++ exitMarker m ++ lit "'$?" ++ [LF];
   lit "echo '" ++ endMarker m ++ lit "'" ++ [LF]].

(** What was written to the pty of the session object [r]. *)
Definition writtenTo (w : World) (r : nat) : list (list N) :=
  written (ptyProcess (object w r)).

End Protocol.

Module Stream.

(** The part of the buffer of a background process that no poll has
    returned yet. *)
Definition unread (p : Poller.BackgroundProcess) : list N :=
  sliceFrom (Poller.readPosition p) (Poller.outputBuffer p).

(** Over a history: the data the listener was given, and what the
    incremental polls returned, both in order. *)
Fixpoint received (ops : list (Z * Poller.Op)) : list N :=
  match ops with
  | [] => []
  | (_, Poller.OnData _ data) :: ops' => data ++ received ops'
  | _ :: ops' => received ops'
  end.

Fixpoint polled (ops : list (Z * Poller.Op)) (p : Poller.BackgroundProcess)
    : list N :=
  match ops with
  | [] => []
  | (t, op) :: ops' =>
      match op with
      | Poller.Poll true => Poller.output (fst (Poller.pollRecord true t p))
      | _ => []
      end ++ polled ops' (Poller.step t op p)
  end.

(** A history in which every poll is incremental and the data received in
    all stays within the limit of the buffer. *)
Definition withinLimit (ops : list (Z * Poller.Op)) : Prop :=
  Forall (fun o => match snd o with
                   | Poller.OnData m _ => (len (received ops) <= m)%Z
                   | Poller.Poll incremental => incremental = true
                   | _ => True
                   end) ops.

End Stream.

Module Files.

(** What a result of [downloadFile] promises: a successful one carries a
    size that is positive and within the limit, and as content at most
    [expectedLength size] characters, all of the base64 alphabet; a failed
    one carries no content and a message. *)
Definition downloadPromise (limit : Z) (res : Transfer.DownloadFileResult) : Prop :=
  if Transfer.dlSuccess res then
    (0 < Transfer.dlSize res <= limit)%Z
    ∧ Forall (fun c => Transfer.isBase64 c = true) (Transfer.dlContent res)
    ∧ (len (Transfer.dlContent res) <= Transfer.expectedLength (Transfer.dlSize res))%Z
    ∧ Transfer.dlError res = None
  else
    Transfer.dlContent res = [] ∧ is_Some (Transfer.dlError res).

(** An entry that is read off a line of [ls -la]: the line starts with a
    type character and nine permission characters, which give the kind and
    the mode of the entry, and ends with the name, which gives its path. *)
Definition readOff (now : Z) (line : list N) (info : Transfer.FileInfo) : Prop :=
  ∃ kind perms middle,
    line = kind :: perms ++ middle ++ Transfer.path info
    ∧ (kind = ch "d" ∨ kind = ch "-" ∨ kind = ch "l")
    ∧ Transfer.isDirectory info = (kind =? ch "d")%N
    ∧ Transfer.mode info = perms
    ∧ length perms = 9%nat
    ∧ Forall (fun c => oneOf "rwxs-" c = true) perms
    ∧ Transfer.path info ≠ []
    ∧ Forall (fun c => isLineTerminator c = false) (Transfer.path info)
    ∧ (0 <= Transfer.size info)%Z
    ∧ Transfer.modifiedTime info = now.

End Files.

(** *** Retries *)

Module Retry.

(** The delays [waits] timers are set for, the first one for [delay]: each
    timer counts for the delay the runtime gives it, and the delay asked for
    doubles from one to the next when [backoff] is set. *)
Fixpoint timers (waits : nat) (delay : Z) (backoff : bool) : Z :=
  match waits with
  | O => 0
  | S waits' =>
      timerDelay delay + timers waits' (if backoff then delay * 2 else delay) backoff
  end.

(** The time [withRetry] spends asleep when every attempt fails: one timer
    after each attempt but the last. *)
Definition waited (config : ErrorHandling.RetryConfig) : Z :=
  timers (Z.to_nat (ErrorHandling.maxRetries config)) (ErrorHandling.delay config)
    (default false (ErrorHandling.backoff config)).

(** The delay asked of the last timer. *)
Definition lastDelay (config : ErrorHandling.RetryConfig) : Z :=
  if default false (ErrorHandling.backoff config) then
    ErrorHandling.delay config * 2 ^ (ErrorHandling.maxRetries config - 1)
  else ErrorHandling.delay config.

(** The sum of the delays asked for: [delay] each time, or [delay] doubled
    each time. *)
Definition asked (config : ErrorHandling.RetryConfig) : Z :=
  if default false (ErrorHandling.backoff config) then
    ErrorHandling.delay config * (2 ^ ErrorHandling.maxRetries config - 1)
  else ErrorHandling.delay config * ErrorHandling.maxRetries config.

(** A call that never sets the clock back. *)
Definition forward {A : Type} (fn : Async A) : Prop :=
  ∀ w sched, (now w <= now (snd (fst (fn w sched))))%Z.

End Retry.

(** *** Patterns without lookahead *)

Module Pattern.

(** A pattern with no lookahead: for these the relation [ReSem.Matches] is
    exact, so that a match it allows is one the matcher finds. *)
Fixpoint plain (r : regex) : bool :=
  match r with
  | Eps | Chr _ | Star _ | Bol | Eol => true
  | Seq r1 r2 | Alt r1 r2 => plain r1 && plain r2
  | Group r1 => plain r1
  | NotAhead _ => false
  end.

(** A line with something else than white space on it. *)
Definition nonBlank (line : list N) : bool := negb (isEmpty (trim line)).

(** A name: not empty, and without white space. *)
Definition name (s : list N) : Prop :=
  s ≠ [] ∧ Forall (fun c => isWhiteSpace c = false) s.

End Pattern.

(** *** Tails *)

Module TailSpec.

(** The state of the same tail, later: what identifies it has not changed. *)
Definition sameTail (t t' : Tailer.LogTailState) : Prop :=
  Tailer.id t' = Tailer.id t
  ∧ Tailer.filePath t' = Tailer.filePath t
  ∧ Tailer.sessionId t' = Tailer.sessionId t
  ∧ Tailer.createdAt t' = Tailer.createdAt t.

(** The state [startTailing] registers. *)
Definition fresh (tailId sid path : list N) (now : Z) (t : Tailer.LogTailState) : Prop :=
  Tailer.id t = tailId ∧ Tailer.filePath t = path ∧ Tailer.sessionId t = sid
  ∧ Tailer.createdAt t = now.

End TailSpec.

Module TailExamples.

(** A tail of the system log, started at time 1000. *)
Definition syslogTail : Tailer.LogTailState :=
  {| Tailer.id := lit "t1"; Tailer.filePath := lit "/var/log/syslog";
     Tailer.sessionId := lit "default"; Tailer.status := Poller.running;
     Tailer.readPosition := Some 0%Z; Tailer.createdAt := 1000;
     Tailer.lastUpdatedAt := 1000; Tailer.error_ := None |}.

End TailExamples.

(* ===================================================================== *)
(** ** Lines: [split] and [join] *)
(* ===================================================================== *)

Section Lines.

Lemma split_nonempty sep s : split sep s ≠ [].
Proof.
  destruct s as [|c s]; simpl; [discriminate|].
  destruct (c =? sep)%N; [discriminate|].
  destruct (split sep s); discriminate.
Qed.

Lemma split_no_sep sep s : Forall (fun l => sep ∉ l) (split sep s).
Proof.
  induction s as [|c s IH]; simpl.
  - repeat constructor. apply not_elem_of_nil.
  - destruct (N.eqb_spec c sep) as [->|Hne].
    + constructor; [apply not_elem_of_nil | exact IH].
    + destruct (split sep s) as [|l ls]; [repeat constructor|].
      * intros H. apply list_elem_of_singleton in H. congruence.
      * inversion IH as [|? ? Hl Hls]; subst. constructor; [|exact Hls].
        intros H. apply elem_of_cons in H as [H|H]; [congruence | tauto].
Qed.

Lemma split_line sep (l : list N) : sep ∉ l → split sep l = [l].
Proof.
  induction l as [|c l IH]; simpl; intros H; [reflexivity|].
  apply not_elem_of_cons in H as [Hc Hl].
  destruct (N.eqb_spec c sep) as [->|_]; [congruence|].
  rewrite (IH Hl). reflexivity.
Qed.

Lemma split_app_sep sep (l rest : list N) :
  sep ∉ l → split sep (l ++ sep :: rest) = l :: split sep rest.
Proof.
  induction l as [|c l IH]; simpl; intros H.
  - rewrite N.eqb_refl. reflexivity.
  - apply not_elem_of_cons in H as [Hc Hl].
    destruct (N.eqb_spec c sep) as [->|_]; [congruence|].
    rewrite (IH Hl). reflexivity.
Qed.

Lemma split_join (ls : list (list N)) :
  ls ≠ [] → Forall (fun l => LF ∉ l) ls → split LF (join [LF] ls) = ls.
Proof.
  induction ls as [|l ls IH]; intros Hne Hall; [congruence|].
  inversion Hall as [|? ? Hl Hls]; subst.
  destruct ls as [|l' ls'].
  - simpl. apply split_line, Hl.
  - change (join [LF] (l :: l' :: ls')) with (l ++ LF :: join [LF] (l' :: ls')).
    rewrite split_app_sep by exact Hl.
    rewrite IH; [reflexivity | discriminate | exact Hls].
Qed.

Lemma join_split (s : list N) : join [LF] (split LF s) = s.
Proof.
  induction s as [|c s IH]; simpl; [reflexivity|].
  destruct (N.eqb_spec c LF) as [->|_].
  - pose proof (split_nonempty LF s) as Hne.
    destruct (split LF s) as [|l ls]; [congruence|].
    change (join [LF] ([] :: l :: ls)) with (LF :: join [LF] (l :: ls)).
    rewrite IH. reflexivity.
  - destruct (split LF s) as [|l ls] eqn:E.
    + exfalso. eapply split_nonempty, E.
    + destruct ls as [|l' ls']; simpl in *; rewrite <- IH; reflexivity.
Qed.

(** The lines a filter keeps are lines of the input, in their order. *)
Lemma filter_sublist {A} (keep : A -> bool) (ls : list A) :
  List.filter keep ls `sublist_of` ls.
Proof.
  induction ls as [|l ls IH]; simpl; [constructor|].
  destruct (keep l); [apply sublist_skip | apply sublist_cons]; exact IH.
Qed.

Lemma sublist_Forall {A} (P : A -> Prop) (k l : list A) :
  k `sublist_of` l → Forall P l → Forall P k.
Proof.
  intros Hs Hl. apply Forall_forall. intros x Hx.
  eapply Forall_forall; [exact Hl|]. eapply sublist_subseteq; eauto.
Qed.

Lemma filter_filter {A} (keep : A -> bool) (ls : list A) :
  List.filter keep (List.filter keep ls) = List.filter keep ls.
Proof.
  induction ls as [|l ls IH]; simpl; [reflexivity|].
  destruct (keep l) eqn:E; simpl; [rewrite E, IH|]; auto.
Qed.

End Lines.
(* ===================================================================== *)
(** ** The line filters of the output cleaner *)
(* ===================================================================== *)

Section LineFilters.

Lemma kept_lines_roundtrip (input : list N) (kept : list (list N)) :
  kept `sublist_of` split LF input → kept ≠ [] →
  split LF (join [LF] kept) = kept.
Proof.
  intros Hsub Hne. apply split_join; [exact Hne|].
  eapply sublist_Forall; [exact Hsub | apply split_no_sep].
Qed.

Lemma sublist_lineFilterOf (input : list N) (kept : list (list N)) :
  kept `sublist_of` split LF input → Spec.lineFilterOf input (join [LF] kept).
Proof.
  intros Hsub. exists kept. split; [exact Hsub|]. split; [reflexivity|].
  intros Hne. eapply kept_lines_roundtrip; eauto.
Qed.

Lemma filterLines_lineFilterOf keep input :
  Spec.lineFilterOf input (filterLines keep input).
Proof. apply sublist_lineFilterOf, filter_sublist. Qed.

Lemma echoFilter_sublist w skipped (ls : list (list N)) :
  echoFilter w skipped ls `sublist_of` ls.
Proof.
  revert skipped. induction ls as [|l ls IH]; intros skipped; simpl; [constructor|].
  destruct (isEmpty (trim l)); [apply sublist_cons, IH|].
  destruct (negb skipped && negb (isEmpty w) && includes (trim l) w).
  - apply sublist_cons, IH.
  - apply sublist_skip, IH.
Qed.

(** A stateless line filter applied twice removes nothing more. *)
Lemma filterLines_idempotent keep s :
  filterLines keep (filterLines keep s) = filterLines keep s.
Proof.
  unfold filterLines.
  destruct (List.filter keep (split LF s)) as [|l ls] eqn:E.
  - simpl. destruct (keep []); reflexivity.
  - rewrite (kept_lines_roundtrip s).
    + rewrite <- E. rewrite filter_filter. reflexivity.
    + rewrite <- E. apply filter_sublist.
    + discriminate.
Qed.

(** What [echoFilter] returns has no blank line. *)
Lemma echoFilter_nonblank w skipped (ls : list (list N)) :
  Forall (fun l => isEmpty (trim l) = false) (echoFilter w skipped ls).
Proof.
  revert skipped. induction ls as [|l ls IH]; intros skipped; simpl; [constructor|].
  destruct (isEmpty (trim l)) eqn:E; [apply IH|].
  destruct (negb skipped && negb (isEmpty w) && includes (trim l) w);
    [apply IH | constructor; [exact E | apply IH]].
Qed.

(** Lines that are not blank and do not hold the word all pass. *)
Lemma echoFilter_keeps_all w skipped (ls : list (list N)) :
  Forall (fun l => isEmpty (trim l) = false) ls →
  w = [] ∨ Forall (fun l => includes (trim l) w = false) ls →
  echoFilter w skipped ls = ls.
Proof.
  intros Hnb Hw. revert skipped.
  induction ls as [|l ls IH]; intros skipped; simpl; [reflexivity|].
  inversion Hnb as [|? ? Hl Hls]; subst. rewrite Hl.
  assert (negb skipped && negb (isEmpty w) && includes (trim l) w = false) as ->.
  { destruct Hw as [-> | Hw]; [simpl; rewrite andb_false_r; reflexivity|].
    inversion Hw as [|? ? Hi _]; subst. rewrite Hi. apply andb_false_r. }
  rewrite IH; [reflexivity | exact Hls |].
  destruct Hw as [-> | Hw]; [left; reflexivity | right].
  inversion Hw; subst; assumption.
Qed.

Lemma cleanCommandEcho_idempotent_when (s c : list N) :
  firstWord c = []
  ∨ Forall (fun l => includes (trim l) (firstWord c) = false)
      (split LF (cleanCommandEcho s c)) →
  cleanCommandEcho (cleanCommandEcho s c) c = cleanCommandEcho s c.
Proof.
  unfold cleanCommandEcho. intros Hw.
  destruct (echoFilter (firstWord c) false (split LF s)) as [|l ls] eqn:E.
  - reflexivity.
  - assert (split LF (join [LF] (l :: ls)) = l :: ls) as Hrt.
    { apply (kept_lines_roundtrip s); [|discriminate].
      rewrite <- E. apply echoFilter_sublist. }
    rewrite Hrt in *. rewrite echoFilter_keeps_all; [reflexivity | | exact Hw].
    rewrite <- E. apply echoFilter_nonblank.
Qed.

End LineFilters.

(** C10. [cleanMarkers], [cleanCommandEcho] and [cleanPrompt] are pure line
    filters: for every text, command and marker triple, the result is the
    input with some of its lines removed; the lines kept appear in their
    original order, each one character for character as in the input, and no
    text is added (the empty result being what is left when no line is
    kept). *)
Theorem cleaners_are_line_filters (output command : list N) (markers : Markers) :
  Spec.lineFilterOf output (cleanMarkers output markers)
  ∧ Spec.lineFilterOf output (cleanCommandEcho output command)
  ∧ Spec.lineFilterOf output (cleanPrompt output).
Proof.
  split; [apply filterLines_lineFilterOf|].
  split; [|apply filterLines_lineFilterOf].
  apply sublist_lineFilterOf, echoFilter_sublist.
Qed.

(** [cleanOutput] is not idempotent: lines of blanks become empty lines only
    after the runs of line feeds were collapsed, so a second pass collapses
    again. *)
Example cleanOutput_twice_differs :
  cleanOutput (unlines [lit "a"; lit " "; lit ""; lit "b"])
    = unlines [lit "a"; lit ""; lit ""; lit "b"]
  ∧ cleanOutput (unlines [lit "a"; lit ""; lit ""; lit "b"])
    = unlines [lit "a"; lit ""; lit "b"].
Proof. split; vm_compute; reflexivity. Qed.

(** Nor is it on control sequences: removing one can put another together. *)
Example cleanOutput_twice_differs_private_mode :
  cleanOutput (lit "??1h1h") = lit "?1h" ∧ cleanOutput (lit "?1h") = [].
Proof. split; vm_compute; reflexivity. Qed.

(** [cleanCommandEcho] removes one more line holding the command word each
    time it is applied. *)
Example cleanCommandEcho_twice_differs :
  cleanCommandEcho (unlines [lit "ls"; lit "ls"]) (lit "ls") = lit "ls"
  ∧ cleanCommandEcho (lit "ls") (lit "ls") = [].
Proof. split; vm_compute; reflexivity. Qed.

(** C8, as stated, fails: two of the four stages are not idempotent. *)
Lemma cleaner_stages_not_all_idempotent :
  ¬ (∀ (s c : list N) (m : Markers),
       cleanOutput (cleanOutput s) = cleanOutput s
       ∧ cleanMarkers (cleanMarkers s m) m = cleanMarkers s m
       ∧ cleanCommandEcho (cleanCommandEcho s c) c = cleanCommandEcho s c
       ∧ cleanPrompt (cleanPrompt s) = cleanPrompt s).
Proof.
  intros H.
  destruct (H (unlines [lit "ls"; lit "ls"]) (lit "ls")
              {| startMarker := lit "S"; endMarker := lit "E"; exitMarker := lit "X" |})
    as (_ & _ & Hecho & _).
  vm_compute in Hecho. discriminate.
Qed.

(** C8, amended. [cleanMarkers] and [cleanPrompt] are idempotent for every
    text and marker triple; [cleanCommandEcho] applied twice gives what it
    gives applied once whenever the command has an empty first word or no line
    of the once-cleaned text holds that word.  (Nothing of the kind holds of
    [cleanOutput].) *)
Theorem cleaner_stage_idempotence (s c : list N) (m : Markers) :
  cleanMarkers (cleanMarkers s m) m = cleanMarkers s m
  ∧ cleanPrompt (cleanPrompt s) = cleanPrompt s
  ∧ (firstWord c = []
     ∨ Forall (fun l => includes (trim l) (firstWord c) = false)
         (split LF (cleanCommandEcho s c)) →
     cleanCommandEcho (cleanCommandEcho s c) c = cleanCommandEcho s c).
Proof.
  split; [apply filterLines_idempotent|].
  split; [apply filterLines_idempotent|].
  apply cleanCommandEcho_idempotent_when.
Qed.

Lemma cleaner_stage_idempotence_witness :
  let s := unlines [lit "$ ls -l"; lit "total 0"; lit ""; lit "file.txt"] in
  let c := lit "ls -l" in
  Forall (fun l => includes (trim l) (firstWord c) = false)
    (split LF (cleanCommandEcho s c))
  ∧ cleanCommandEcho (cleanCommandEcho s c) c = cleanCommandEcho s c.
Proof.
  intros s c.
  assert (Forall (fun l => includes (trim l) (firstWord c) = false)
            (split LF (cleanCommandEcho s c))) as H.
  { vm_compute. repeat constructor. }
  split; [exact H|].
  apply (cleaner_stage_idempotence s c
           {| startMarker := lit "S"; endMarker := lit "E"; exitMarker := lit "X" |}).
  right. exact H.
Defined.

(* ===================================================================== *)
(** ** Blank commands *)
(* ===================================================================== *)

Section Blank.

Lemma trimEnd_nil (s : list N) :
  trimEnd s = [] ↔ Forall (fun c => isWhiteSpace c = true) s.
Proof.
  induction s as [|c s IH]; simpl.
  - split; [constructor | reflexivity].
  - destruct (trimEnd s) as [|d t] eqn:E.
    + destruct (isWhiteSpace c) eqn:Hc.
      * split; [intros _; constructor; [exact Hc | apply IH; reflexivity] | reflexivity].
      * split; [discriminate|]. intros H. inversion H; congruence.
    + split; [discriminate|]. intros H. inversion H as [|? ? _ Hs]; subst.
      apply IH in Hs. discriminate.
Qed.

Lemma trimStart_blank (s : list N) :
  Forall (fun c => isWhiteSpace c = true) (trimStart s)
  ↔ Forall (fun c => isWhiteSpace c = true) s.
Proof.
  induction s as [|c s IH]; simpl; [reflexivity|].
  destruct (isWhiteSpace c) eqn:Hc; [|reflexivity].
  rewrite IH. split; [intros H; constructor; assumption|].
  intros H; inversion H; assumption.
Qed.

(** [s.trim() === ''] exactly when [s] holds white space only. *)
Lemma trim_nil (s : list N) :
  trim s = [] ↔ Forall (fun c => isWhiteSpace c = true) s.
Proof. unfold trim. rewrite trimEnd_nil. apply trimStart_blank. Qed.

Lemma blank_command (s : list N) :
  isEmpty s || isEmpty (trim s) = true
  ↔ Forall (fun c => isWhiteSpace c = true) s.
Proof.
  rewrite <- trim_nil. destruct s as [|c s]; simpl; [tauto|].
  destruct (trim (c :: s)); simpl; split; congruence.
Qed.

End Blank.

(* ===================================================================== *)
(** ** The clock, the heap and the suspensions *)
(* ===================================================================== *)

Section WorldFacts.

Lemma heap_update_same r f w : object (update r f w) r = f (object w r).
Proof. unfold update, object; simpl. apply lookup_total_insert_eq. Qed.

Lemma heap_update_other r r' f w : r' ≠ r → object (update r f w) r' = object w r'.
Proof.
  intros H. unfold update, object; simpl.
  apply lookup_total_insert_ne. congruence.
Qed.


Lemma sessions_update r f w : sessions (update r f w) = sessions w.
Proof. reflexivity. Qed.

Lemma now_handleOutput r data w : now (handleOutput r data w) = now w.
Proof. unfold handleOutput. case_match; reflexivity. Qed.

Lemma now_applyEvent w e : now (applyEvent w e) = now w.
Proof.
  destruct e as [r data|r c|sid|sid]; simpl.
  - destruct (r <? nextRef w)%nat; [apply now_handleOutput | reflexivity].
  - destruct (r <? nextRef w)%nat; reflexivity.
  - unfold closeSession. destruct (sessions w !! sid); reflexivity.
  - unfold interrupt. destruct (sessions w !! sid); reflexivity.
Qed.

Lemma now_events evs w : now (fold_left applyEvent evs w) = now w.
Proof.
  revert w. induction evs as [|e evs IH]; intros w; simpl; [reflexivity|].
  rewrite IH. apply now_applyEvent.
Qed.

(** A timer never fires early. *)
Lemma now_wake ms w sched : (now w + ms <= now (wake ms w sched))%Z.
Proof.
  destruct sched as [|t sched]; simpl; [lia|].
  rewrite now_events. simpl. lia.
Qed.

End WorldFacts.

(* ===================================================================== *)
(** ** The polling loop *)
(* ===================================================================== *)

Section PollingLoop.

Variables (r : nat) (endMarker : list N) (startTimeWait : Z) (timeout : Num).

(** The test of the loop condition, as a proposition. *)
Lemma ltNum_spec x :
  ltNum x timeout = true ↔ ∃ t, timeout = Number t ∧ (x < t)%Z.
Proof.
  destruct timeout as [t| |]; simpl.
  - rewrite Z.ltb_lt. split; [eauto|]. intros (t' & [= <-] & H). exact H.
  - split; [discriminate|]. intros (t' & [=] & _).
  - split; [discriminate|]. intros (t' & [=] & _).
Qed.

(** The timers of the loop and of the protocol are within the range of
    [setTimeout]. *)
Lemma sleep_100 : sleep 100 = suspend 100.
Proof. reflexivity. Qed.

Lemma fuelFor_wake fuel w sched :
  Trace.fuelFor startTimeWait timeout (S fuel) w →
  ltNum (now w - startTimeWait) timeout = true →
  Trace.fuelFor startTimeWait timeout fuel (wake 100 w sched).
Proof.
  intros [_ Hf] Hlt. apply ltNum_spec in Hlt as (t & -> & Hlt).
  specialize (Hf t eq_refl Hlt).
  pose proof (now_wake 100 w sched) as Hw.
  assert (0 <= (t - (now w - startTimeWait) - 1) / 100)%Z as H0
    by (apply Z.div_pos; lia).
  split; [lia|]. intros t' [= <-] Hlt'.
  assert ((t - (now (wake 100 w sched) - startTimeWait) - 1) / 100
          <= (t - (now w - startTimeWait) - 1 + (-1) * 100) / 100)%Z as Hd
    by (apply Z.div_le_mono; lia).
  rewrite Z.div_add in Hd by lia. lia.
Qed.

Lemma fuelFor_start w :
  now w = startTimeWait → Trace.fuelFor startTimeWait timeout (waitFuel timeout) w.
Proof.
  intros Hnow. unfold waitFuel. split; [destruct timeout; lia|].
  intros t -> Hlt. rewrite Hnow, Z.sub_diag, Z.sub_0_r in *.
  assert ((t - 1) / 100 <= t / 100)%Z by (apply Z.div_le_mono; lia).
  assert (0 <= t / 100)%Z by (apply Z.div_pos; lia).
  lia.
Qed.

(** With enough iterations the loop ends by itself. *)
Lemma waitForEnd_total fuel w sched :
  Trace.fuelFor startTimeWait timeout fuel w →
  ∃ b w' sched',
    waitForEnd fuel r endMarker startTimeWait timeout w sched
    = (Returned b, w', sched').
Proof.
  revert w sched. induction fuel as [|fuel IH]; intros w sched Hf.
  - destruct Hf as [Hf _]. lia.
  - cbn [waitForEnd]. unfold bind, dateNow, deref. cbn beta iota.
    destruct (ltNum (now w - startTimeWait) timeout) eqn:Hlt; [|eauto].
    destruct (includes (outputBuffer (object w r)) endMarker); [eauto|].
    apply IH. apply fuelFor_wake; assumption.
Qed.

(** The loop gives up when no test of its condition sees the end marker. *)
Lemma waitForEnd_gives_up fuel w sched :
  Trace.fuelFor startTimeWait timeout fuel w →
  (∀ n, ltNum (now (fst (Trace.afterPolls n w sched)) - startTimeWait) timeout = true →
        includes (outputBuffer (object (fst (Trace.afterPolls n w sched)) r))
          endMarker = false) →
  ∃ w' sched',
    waitForEnd fuel r endMarker startTimeWait timeout w sched
    = (Returned false, w', sched').
Proof.
  revert w sched. induction fuel as [|fuel IH]; intros w sched Hf Hnone.
  - destruct Hf as [Hf _]. lia.
  - cbn [waitForEnd]. unfold bind, dateNow, deref. cbn beta iota.
    destruct (ltNum (now w - startTimeWait) timeout) eqn:Hlt; [|eauto].
    pose proof (Hnone 0%nat Hlt) as H0. simpl in H0. rewrite H0.
    apply IH; [apply fuelFor_wake; assumption|].
    intros n. apply (Hnone (S n)).
Qed.


End PollingLoop.

(** The delays of the protocol are within the range of the timers. *)
Ltac timer_delays :=
  change (timerDelay 50) with 50%Z in *;
  change (timerDelay 100) with 100%Z in *;
  change (timerDelay 200) with 200%Z in *;
  change (timerDelay 500) with 500%Z in *.

(* ===================================================================== *)
(** ** [executeCommand]: acceptance, timeout and status *)
(* ===================================================================== *)

Section ExecuteCommand.

Lemma bind_returned {A B} (c : Async A) (k : A -> Async B) w sched a w' sched' :
  c w sched = (Returned a, w', sched') → bind c k w sched = k a w' sched'.
Proof. intros H. unfold bind. rewrite H. reflexivity. Qed.

Lemma bind_thrown {A B} (c : Async A) (k : A -> Async B) w sched e w' sched' :
  c w sched = (Thrown e, w', sched') → bind c k w sched = (Thrown e, w', sched').
Proof. intros H. unfold bind. rewrite H. reflexivity. Qed.

Lemma accept_blank ctx w sched :
  isEmpty (command ctx) || isEmpty (trim (command ctx)) = true →
  accept ctx w sched = (Thrown commandEmpty, w, sched).
Proof. intros H. unfold accept. rewrite H. reflexivity. Qed.

Lemma accept_busy ctx w sched r w0 sched0 :
  isEmpty (command ctx) || isEmpty (trim (command ctx)) = false →
  getOrCreateSession (sessionId ctx) None w sched = (Returned r, w0, sched0) →
  status (object w0 r) = busy →
  accept ctx w sched
  = (Thrown (sessionBusy (orStr (Some (sessionId ctx)) (lit "default"))), w0, sched0).
Proof.
  intros Hnb Hget Hst. unfold accept. rewrite Hnb.
  rewrite (bind_returned _ _ _ _ _ _ _ Hget).
  unfold bind, deref. rewrite Hst. reflexivity.
Qed.

Lemma accept_closed ctx w sched r w0 sched0 :
  isEmpty (command ctx) || isEmpty (trim (command ctx)) = false →
  getOrCreateSession (sessionId ctx) None w sched = (Returned r, w0, sched0) →
  status (object w0 r) = closed →
  accept ctx w sched
  = (Thrown (sessionClosed (orStr (Some (sessionId ctx)) (lit "default"))), w0, sched0).
Proof.
  intros Hnb Hget Hst. unfold accept. rewrite Hnb.
  rewrite (bind_returned _ _ _ _ _ _ _ Hget).
  unfold bind, deref. rewrite Hst. reflexivity.
Qed.

(** A call that is accepted enters the loop holding the resolved session,
    at the time it takes for the start of the wait. *)
Lemma accept_returned ctx w sched c w1 sched1 :
  accept ctx w sched = (Returned c, w1, sched1) →
  startTimeWait c = now w1
  ∧ ∃ w0 sched0,
      getOrCreateSession (sessionId ctx) None w sched
      = (Returned (session c), w0, sched0).
Proof.
  unfold accept.
  destruct (isEmpty (command ctx) || isEmpty (trim (command ctx)));
    [discriminate|].
  unfold bind at 1.
  destruct (getOrCreateSession (sessionId ctx) None w sched)
    as [[[r| |] w0] sched0]; [|discriminate..].
  unfold bind at 1, deref.
  destruct (SessionStatus_eqb (status (object w0 r)) busy); [discriminate|].
  destruct (SessionStatus_eqb (status (object w0 r)) closed); [discriminate|].
  cbn. intros H. injection H as <- <- <-. cbn. split; [reflexivity|eauto].
Qed.

Lemma timedOutResult_eq ctx c w sched :
  timedOutResult ctx c w sched
  = (Returned {| resSessionId := id (object (update (session c) (withStatus ready) w) (session c));
                 resCommand := command ctx;
                 output := [];
                 exitCode := None;
                 success := false;
                 duration := now w - startTime c;
                 timedOut := true;
                 resError := Some (lit "Command timeout after "
                                   ++ showNum (timeoutMs c) ++ lit "ms") |},
     update (session c) (withStatus ready) w, sched).
Proof. reflexivity. Qed.

Lemma parsedResult_world ctx c w sched :
  ∃ res, parsedResult ctx c w sched
         = (Returned res, update (session c) (withStatus ready) w, sched).
Proof.
  unfold parsedResult, bind, modify, deref, dateNow.
  match goal with |- context [if ?b then _ else _] => destruct b end;
    eexists; reflexivity.
Qed.

(** Whatever the schedule, an accepted call comes back with a result, and the
    last thing it does to the world is to set its session to [ready]. *)
Lemma executeCommand_after_accept ctx w sched c w1 sched1 :
  accept ctx w sched = (Returned c, w1, sched1) →
  ∃ res w2 sched2,
    executeCommand ctx w sched
    = (Returned res, update (session c) (withStatus ready) w2, sched2).
Proof.
  intros Hacc. unfold executeCommand.
  rewrite (bind_returned _ _ _ _ _ _ _ Hacc).
  destruct (accept_returned _ _ _ _ _ _ Hacc) as [Hstart _].
  destruct (waitForEnd_total (session c) (endMarker (markers c))
              (startTimeWait c) (timeoutMs c) (waitFuel (timeoutMs c)) w1 sched1)
    as (b & w2 & sched2 & Hwait).
  { apply fuelFor_start. symmetry. exact Hstart. }
  rewrite (bind_returned _ _ _ _ _ _ _ Hwait).
  destruct b; simpl.
  - destruct (parsedResult_world ctx c w2 sched2) as [res Hres]. eauto.
  - rewrite timedOutResult_eq. eauto.
Qed.

End ExecuteCommand.

Section ExecuteCommandClaims.

Lemma not_blank (s : list N) :
  Exists (fun c => isWhiteSpace c = false) s →
  isEmpty s || isEmpty (trim s) = false.
Proof.
  intros Hex. destruct (isEmpty s || isEmpty (trim s)) eqn:E; [|reflexivity].
  apply blank_command in E. apply Exists_exists in Hex as (c & Hin & Hc).
  rewrite Forall_forall in E. rewrite (E c Hin) in Hc. discriminate.
Qed.

Lemma parsedResult_session ctx c w sched res w' sched' :
  parsedResult ctx c w sched = (Returned res, w', sched') →
  resSessionId res = id (object w' (session c)).
Proof.
  unfold parsedResult, bind, modify, deref, dateNow.
  match goal with |- context [if ?b then _ else _] => destruct b end;
    intros H; injection H as <- <- _; reflexivity.
Qed.

Lemma executeCommand_returned ctx w sched res w' sched' :
  executeCommand ctx w sched = (Returned res, w', sched') →
  ∃ c w1 sched1,
    accept ctx w sched = (Returned c, w1, sched1)
    ∧ status (object w' (session c)) = ready
    ∧ resSessionId res = id (object w' (session c)).
Proof.
  intros Hrun.
  destruct (accept ctx w sched) as [[[c|e|] w1] sched1] eqn:Hacc.
  - exists c, w1, sched1. split; [reflexivity|].
    destruct (executeCommand_after_accept _ _ _ _ _ _ Hacc)
      as (res' & w2 & sched2 & Hrun').
    split.
    { rewrite Hrun in Hrun'.
      assert (w' = update (session c) (withStatus ready) w2) as ->
        by congruence.
      rewrite heap_update_same. reflexivity. }
    clear Hrun'. revert Hrun. unfold executeCommand.
    rewrite (bind_returned _ _ _ _ _ _ _ Hacc). unfold bind at 1.
    destruct (waitForEnd _ _ _ _ _ _ _) as [[[b| |] w3] sched3];
      [|discriminate..].
    destruct b; simpl.
    + apply parsedResult_session.
    + rewrite timedOutResult_eq. intros H.
      assert (w' = update (session c) (withStatus ready) w3) as -> by congruence.
      injection H as <-. reflexivity.
  - unfold executeCommand in Hrun.
    rewrite (bind_thrown _ _ _ _ _ _ _ Hacc) in Hrun. discriminate.
  - unfold executeCommand, bind in Hrun. rewrite Hacc in Hrun. discriminate.
Qed.

End ExecuteCommandClaims.

(** C5. For every command that is empty or holds white space only,
    [executeCommand] throws [CommandEmpty] and changes nothing: the world it
    leaves is the world it found (the session map and every session object,
    so buffer, status and last command of the target session too), and no
    suspension took place. *)
Theorem executeCommand_blank_command (ctx : CommandContext) (w : World)
    (sched : Schedule) :
  Forall (fun c => isWhiteSpace c = true) (command ctx) →
  executeCommand ctx w sched = (Thrown commandEmpty, w, sched).
Proof.
  intros Hblank. unfold executeCommand.
  apply bind_thrown, accept_blank, blank_command, Hblank.
Qed.

Lemma executeCommand_blank_command_witness :
  let ctx := {| sessionId := lit "default"; command := [32; 9; 32]%N;
                timeout := None |} in
  Forall (fun c => isWhiteSpace c = true) (command ctx)
  ∧ executeCommand ctx (Examples.worldWith ready 1024) []
    = (Thrown (TerminalError COMMAND_EMPTY (lit "Command cannot be empty")),
       Examples.worldWith ready 1024, []).
Proof.
  intros ctx.
  assert (Forall (fun c => isWhiteSpace c = true) (command ctx)) as H
    by (repeat constructor).
  split; [exact H|].
  exact (executeCommand_blank_command ctx (Examples.worldWith ready 1024) [] H).
Defined.

(** C1. For a command that is not blank and a session [r] that
    [getOrCreateSession] resolves: when the session is [busy] the call throws
    [SessionBusy], when it is [closed] the call throws [SessionClosed], in
    both cases leaving the world as the resolution left it; whenever the call
    returns a result, on the success path and on the timeout path alike, the
    status of that session object is [ready]; and in every other status than
    [busy] and [closed] the call does return a result, whatever happens at
    its suspensions. *)
Theorem executeCommand_session_status (ctx : CommandContext) (w : World)
    (sched : Schedule) (r : nat) (w0 : World) (sched0 : Schedule) :
  Exists (fun c => isWhiteSpace c = false) (command ctx) →
  getOrCreateSession (sessionId ctx) None w sched = (Returned r, w0, sched0) →
  (status (object w0 r) = busy →
   executeCommand ctx w sched
   = (Thrown (TerminalError SESSION_BUSY
                (lit "Session is busy: "
                 ++ orStr (Some (sessionId ctx)) (lit "default"))), w0, sched0))
  ∧ (status (object w0 r) = closed →
     executeCommand ctx w sched
     = (Thrown (TerminalError SESSION_CLOSED
                  (lit "Session is closed: "
                   ++ orStr (Some (sessionId ctx)) (lit "default"))), w0, sched0))
  ∧ (∀ res w' sched',
       executeCommand ctx w sched = (Returned res, w', sched') →
       status (object w' r) = ready ∧ resSessionId res = id (object w' r))
  ∧ (status (object w0 r) ≠ busy → status (object w0 r) ≠ closed →
     ∃ res w' sched', executeCommand ctx w sched = (Returned res, w', sched')).
Proof.
  intros Hcmd Hget. apply not_blank in Hcmd.
  split; [|split; [|split]].
  - intros Hst. unfold executeCommand.
    apply bind_thrown. eapply accept_busy; eauto.
  - intros Hst. unfold executeCommand.
    apply bind_thrown. eapply accept_closed; eauto.
  - intros res w' sched' Hrun.
    destruct (executeCommand_returned _ _ _ _ _ _ Hrun)
      as (c & w1 & sched1 & Hacc & Hst & Hid).
    destruct (accept_returned _ _ _ _ _ _ Hacc) as [_ (w0' & sched0' & Hget')].
    rewrite Hget in Hget'. injection Hget' as -> _ _. auto.
  - intros Hnb Hnc.
    assert (∃ c w1 sched1, accept ctx w sched = (Returned c, w1, sched1)) as Hacc.
    { unfold accept. rewrite Hcmd.
      rewrite (bind_returned _ _ _ _ _ _ _ Hget). unfold bind at 1, deref.
      destruct (status (object w0 r)); simpl; try congruence;
        do 3 eexists; reflexivity. }
    destruct Hacc as (c & w1 & sched1 & Hacc).
    destruct (executeCommand_after_accept _ _ _ _ _ _ Hacc)
      as (res & w2 & sched2 & Hrun). eauto.
Qed.

Lemma executeCommand_session_status_witness :
  (executeCommand (Examples.echoHello 200) (Examples.worldWith busy 1024) []
   = (Thrown (TerminalError SESSION_BUSY (lit "Session is busy: default")),
      Examples.worldWith busy 1024, []))
  ∧ (executeCommand (Examples.echoHello 200) (Examples.worldWith closed 1024) []
     = (Thrown (TerminalError SESSION_CLOSED (lit "Session is closed: default")),
        Examples.worldWith closed 1024, []))
  ∧ (∃ res w' sched',
       executeCommand (Examples.echoHello 200) (Examples.worldWith ready 1024) []
       = (Returned res, w', sched')
       ∧ status (object w' 0%nat) = ready).
Proof.
  assert (Exists (fun c => isWhiteSpace c = false)
            (command (Examples.echoHello 200))) as Hcmd
    by (apply Exists_cons_hd; reflexivity).
  assert (∀ st, getOrCreateSession (sessionId (Examples.echoHello 200)) None
                  (Examples.worldWith st 1024) []
                = (Returned 0%nat, Examples.worldWith st 1024, [])) as Hget
    by (intros st; reflexivity).
  split; [|split].
  - apply (executeCommand_session_status _ _ _ _ _ _ Hcmd (Hget busy)).
    reflexivity.
  - apply (executeCommand_session_status _ _ _ _ _ _ Hcmd (Hget closed)).
    reflexivity.
  - destruct (executeCommand_session_status _ _ _ _ _ _ Hcmd (Hget ready))
      as (_ & _ & Hready & Hreturns).
    destruct Hreturns as (res & w' & sched' & Hrun);
      [discriminate | discriminate |].
    exists res, w', sched'. split; [exact Hrun|].
    apply (Hready res w' sched' Hrun).
Defined.

Section Timeout.

(** With nothing scheduled, polling leaves the session objects alone. *)
Lemma heap_afterPolls_quiet n w :
  object (fst (Trace.afterPolls n w [])) = object w.
Proof.
  revert w. induction n as [|n IH]; intros w; simpl; [reflexivity|].
  rewrite IH. reflexivity.
Qed.

End Timeout.

(** C2. Take a call that was accepted and entered the polling loop.  If at no
    test of the loop condition made before the timeout has elapsed the
    capture buffer holds the end marker, then [executeCommand] returns (it
    does not throw) the result with empty output, no exit code, [success]
    false and [timedOut] true, built without a look at the buffer, and the
    session is [ready] again.  (A timeout that is no number has elapsed at
    the first test.) *)
Theorem executeCommand_timeout (ctx : CommandContext) (w : World)
    (sched : Schedule) (c : InFlight) (w1 : World) (sched1 : Schedule) :
  accept ctx w sched = (Returned c, w1, sched1) →
  (∀ n,
     ltNum (now (fst (Trace.afterPolls n w1 sched1)) - startTimeWait c) (timeoutMs c)
     = true →
     includes
       (outputBuffer (object (fst (Trace.afterPolls n w1 sched1)) (session c)))
       (endMarker (markers c)) = false) →
  ∃ w' sched',
    executeCommand ctx w sched
    = (Returned {| resSessionId := id (object w' (session c));
                   resCommand := command ctx;
                   output := [];
                   exitCode := None;
                   success := false;
                   duration := now w' - startTime c;
                   timedOut := true;
                   resError := Some (lit "Command timeout after "
                                     ++ showNum (timeoutMs c) ++ lit "ms") |},
       w', sched')
    ∧ status (object w' (session c)) = ready.
Proof.
  intros Hacc Hnone.
  destruct (accept_returned _ _ _ _ _ _ Hacc) as [Hstart _].
  destruct (waitForEnd_gives_up (session c) (endMarker (markers c))
              (startTimeWait c) (timeoutMs c) (waitFuel (timeoutMs c)) w1 sched1)
    as (w2 & sched2 & Hwait).
  { apply fuelFor_start. symmetry. exact Hstart. }
  { exact Hnone. }
  exists (update (session c) (withStatus ready) w2), sched2.
  split; [|rewrite heap_update_same; reflexivity].
  unfold executeCommand.
  rewrite (bind_returned _ _ _ _ _ _ _ Hacc).
  rewrite (bind_returned _ _ _ _ _ _ _ Hwait). simpl.
  apply timedOutResult_eq.
Qed.

Lemma executeCommand_timeout_witness :
  let ctx := Examples.echoHello 200 in
  let w := Examples.worldWith ready 1024 in
  let c := {| session := 0%nat; markers := markersAt 1100; startTime := 1000;
              timeoutMs := Number 200; startTimeWait := 1250 |} in
  accept ctx w [] = (Returned c, snd (fst (accept ctx w [])), [])
  ∧ ∃ w' sched',
      executeCommand ctx w []
      = (Returned {| resSessionId := id (object w' 0%nat);
                     resCommand := lit "echo hello";
                     output := [];
                     exitCode := None;
                     success := false;
                     duration := now w' - 1000;
                     timedOut := true;
                     resError := Some (lit "Command timeout after "
                                       ++ showZ 200 ++ lit "ms") |},
         w', sched')
      ∧ status (object w' 0%nat) = ready.
Proof.
  intros ctx w c.
  assert (accept ctx w [] = (Returned c, snd (fst (accept ctx w [])), []))
    as Hacc by (vm_compute; reflexivity).
  split; [exact Hacc|].
  apply (executeCommand_timeout ctx w [] c _ [] Hacc).
  intros n _. rewrite heap_afterPolls_quiet. vm_compute. reflexivity.
Defined.

(* ===================================================================== *)
(** ** Occurrences: [startsWith], [includes], [lastIndexOf] *)
(* ===================================================================== *)

Section Occurrences.

Lemma startsWith_spec (t s : list N) :
  startsWith t s = true ↔ ∃ post, s = t ++ post.
Proof.
  revert s. induction t as [|a t IH]; intros s; simpl.
  - split; [eauto | reflexivity].
  - destruct s as [|b s].
    + split; [discriminate | intros [post H]; discriminate].
    + rewrite andb_true_iff, N.eqb_eq, IH. split.
      * intros [-> [post ->]]. eauto.
      * intros [post H]. injection H as -> ->. eauto.
Qed.

Lemma startsWith_drop (t s : list N) :
  startsWith t s = true → s = t ++ drop (length t) s.
Proof.
  intros H. apply startsWith_spec in H as [post ->].
  rewrite drop_app_length. reflexivity.
Qed.

Lemma occursAt_0 (s t : list N) :
  Spec.occursAt s t 0 ↔ startsWith t s = true.
Proof.
  rewrite startsWith_spec. split.
  - intros (pre & post & -> & Hlen). apply nil_length_inv in Hlen as ->. eauto.
  - intros [post ->]. exists [], post. auto.
Qed.

Lemma occursAt_S (c : N) (s t : list N) (i : nat) :
  Spec.occursAt (c :: s) t (S i) ↔ Spec.occursAt s t i.
Proof.
  split.
  - intros (pre & post & H & Hlen). destruct pre as [|c' pre]; [discriminate|].
    injection H as -> ->. injection Hlen as <-. exists pre, post. auto.
  - intros (pre & post & -> & <-). exists (c :: pre), post. auto.
Qed.

Lemma occursAt_nil (t : list N) (i : nat) :
  Spec.occursAt [] t i → i = 0%nat ∧ t = [].
Proof.
  intros (pre & post & H & <-). symmetry in H.
  apply app_eq_nil in H as [-> H]. apply app_eq_nil in H as [-> _]. auto.
Qed.

Lemma includes_spec (s t : list N) :
  includes s t = true ↔ ∃ i, Spec.occursAt s t i.
Proof.
  induction s as [|c s IH].
  - simpl. rewrite orb_false_r, <- occursAt_0. split; [eauto|].
    intros [i H]. destruct (occursAt_nil _ _ H) as [-> _]. exact H.
  - change (includes (c :: s) t) with (startsWith t (c :: s) || includes s t).
    rewrite orb_true_iff, IH, <- occursAt_0. split.
    + intros [H | [i H]]; [eauto | exists (S i); apply occursAt_S, H].
    + intros [[|i] H]; [left; exact H | right; exists i; apply occursAt_S in H; exact H].
Qed.

(** What [lastIndexOfFrom] computes, [k] being the index of the head. *)
Lemma lastIndexOfFrom_spec (s t : list N) (k : Z) :
  (0 <= k)%Z →
  (lastIndexOfFrom k s t = (-1)%Z ∧ ∀ i, ¬ Spec.occursAt s t i)
  ∨ ∃ i, lastIndexOfFrom k s t = (k + Z.of_nat i)%Z ∧ Spec.lastOccurrence s t i.
Proof.
  revert k. induction s as [|c s IH]; intros k Hk.
  - simpl. destruct (startsWith t []) eqn:E.
    + right. exists 0%nat. split; [lia|]. split; [apply occursAt_0, E|].
      intros j Hj. apply occursAt_nil in Hj as [-> _]. lia.
    + left. split; [reflexivity|]. intros i Hi.
      destruct (occursAt_nil _ _ Hi) as [-> _]. apply occursAt_0 in Hi. congruence.
  - change (lastIndexOfFrom k (c :: s) t)
      with (let later := lastIndexOfFrom (k + 1) s t in
            if (0 <=? later)%Z then later
            else if startsWith t (c :: s) then k else (-1)%Z).
    destruct (IH (k + 1)%Z ltac:(lia)) as [[Hl Hnone] | (i & Hl & Hocc & Hlast)];
      cbv zeta; rewrite Hl.
    + change (0 <=? -1)%Z with false. cbv iota. destruct (startsWith t (c :: s)) eqn:E.
      * right. exists 0%nat. split; [lia|]. split; [apply occursAt_0, E|].
        intros [|j] Hj; [lia|]. apply occursAt_S in Hj. exfalso. eapply Hnone, Hj.
      * left. split; [reflexivity|]. intros [|i] Hi.
        -- apply occursAt_0 in Hi. congruence.
        -- apply occursAt_S in Hi. eapply Hnone, Hi.
    + assert ((0 <=? k + 1 + Z.of_nat i)%Z = true) as -> by (apply Z.leb_le; lia).
      right. exists (S i). split; [lia|]. split; [apply occursAt_S, Hocc|].
      intros [|j] Hj; [lia|]. apply occursAt_S in Hj. apply Hlast in Hj. lia.
Qed.

(** [lastIndexOf] is [-1] when there is no occurrence, and otherwise the
    index of the last one. *)
Lemma lastIndexOf_spec (s t : list N) :
  (lastIndexOf s t = (-1)%Z ∧ ∀ i, ¬ Spec.occursAt s t i)
  ∨ ∃ i, lastIndexOf s t = Z.of_nat i ∧ Spec.lastOccurrence s t i.
Proof.
  unfold lastIndexOf.
  destruct (lastIndexOfFrom_spec s t 0 ltac:(lia)) as [H | (i & H & Hi)];
    [left; exact H | right; exists i; split; [rewrite H; lia | exact Hi]].
Qed.

Lemma lastOccurrence_unique (s t : list N) (i j : nat) :
  Spec.lastOccurrence s t i → Spec.lastOccurrence s t j → i = j.
Proof.
  intros [Hi Hi'] [Hj Hj']. apply Hi' in Hj. apply Hj' in Hi. lia.
Qed.

End Occurrences.

(* ===================================================================== *)
(** ** The matcher on the exit-code pattern *)
(* ===================================================================== *)

Section ExitPattern.

Lemma rmatch_seqs_cons n0 r rs k s caps :
  rmatch n0 (seqs (r :: rs)) k s caps
  = rmatch n0 r (rmatch n0 (seqs rs) k) s caps.
Proof. destruct rs; reflexivity. Qed.

(** A literal text matches exactly where the input starts with it. *)
Lemma rmatch_text n0 t k s caps :
  rmatch n0 (text t) k s caps
  = if startsWith t s then k (drop (length t) s) caps else None.
Proof.
  revert s. induction t as [|a t IH]; intros s; [reflexivity|].
  unfold text. rewrite map_cons, rmatch_seqs_cons. simpl.
  destruct s as [|c s]; [reflexivity|].
  unfold code. rewrite (N.eqb_sym c a).
  destruct (a =? c)%N; [apply IH | reflexivity].
Qed.

(** A greedy star before a continuation that cannot fail takes the longest
    run. *)
Lemma rmatch_star_greedy n0 p k s caps :
  (∀ s', is_Some (k s' caps)) →
  ∃ run post,
    s = run ++ post
    ∧ Forall (fun c => p c = true) run
    ∧ match post with [] => True | c :: _ => p c = false end
    ∧ rmatch n0 (Star p) k s caps = k post caps.
Proof.
  intros Hk. induction s as [|c s (run & post & -> & Hrun & Hpost & IH)].
  - exists [], []. simpl. auto.
  - destruct (p c) eqn:Hc.
    + exists (c :: run), post. repeat split; [constructor; assumption | exact Hpost |].
      simpl in *. rewrite Hc, IH. destruct (Hk post) as [a ->]. reflexivity.
    + exists [], (c :: run ++ post). simpl. rewrite Hc. auto.
Qed.

Lemma exitReportAt_S (c : N) (s em : list N) (i : nat) :
  Spec.exitReportAt (c :: s) em (S i) ↔ Spec.exitReportAt s em i.
Proof.
  unfold Spec.exitReportAt. simpl.
  split; intros (d & post & Hd & H & Hle); exists d, post; repeat split; auto; lia.
Qed.

(** One attempt of the pattern: it succeeds exactly on an exit marker
    followed by a digit, and captures the whole run of digits. *)
Lemma matchHere_exit n0 (em s : list N) :
  (matchHere n0 (exitMarkerPattern em) s = None ∧ ¬ Spec.exitReportAt s em 0)
  ∨ ∃ ds post,
      matchHere n0 (exitMarkerPattern em) s = Some (post, [ds])
      ∧ Spec.exitReportAt s em 0
      ∧ Spec.digitRun (drop (length em) s) ds.
Proof.
  unfold matchHere, exitMarkerPattern.
  change (rmatch n0 (Seq (text em) (Group (plus isDigit))) ?k s [])
    with (rmatch n0 (text em) (rmatch n0 (Group (plus isDigit)) k) s []).
  rewrite rmatch_text.
  destruct (startsWith em s) eqn:Hem.
  - apply startsWith_drop in Hem.
    destruct (drop (length em) s) as [|d rest] eqn:Hrest.
    { left. split; [reflexivity|]. intros (d & post & _ & H & _).
      rewrite drop_0 in H. rewrite H in Hrest.
      rewrite drop_app_length in Hrest. discriminate. }
    simpl. destruct (isDigit d) eqn:Hd.
    + right.
      destruct (rmatch_star_greedy n0 isDigit
                  (fun s' caps' =>
                     Some (s', caps' ++ [take (length (d :: rest) - length s')
                                          (d :: rest)]))
                  rest [])
        as (run & post & -> & Hrun & Hpost & Hstar); [eauto|].
      exists (d :: run), post. simpl in Hstar. simpl. rewrite Hstar.
      split.
      { do 3 f_equal. rewrite length_app.
        replace (S (length run + length post) - length post)%nat
          with (S (length run)) by lia.
        simpl. rewrite take_app_length. reflexivity. }
      split.
      { exists d, (run ++ post). rewrite drop_0.
        repeat split; [exact Hd | exact Hem | lia]. }
      exists post. repeat split; [constructor; assumption | exact Hpost].
    + left. split; [reflexivity|]. intros (d' & post & Hd' & H & _).
      rewrite drop_0 in H. rewrite H in Hrest. rewrite drop_app_length in Hrest.
      injection Hrest as -> _. congruence.
  - left. split; [reflexivity|]. intros (d & post & _ & H & _).
    rewrite drop_0 in H. assert (startsWith em s = true) as E
      by (apply startsWith_spec; eauto).
    congruence.
Qed.

(** The search returns the first exit report, or nothing when there is
    none. *)
Lemma searchFrom_exit n0 (em s : list N) :
  (searchFrom n0 (exitMarkerPattern em) s = None
   ∧ ∀ i, ¬ Spec.exitReportAt s em i)
  ∨ ∃ i ds whole,
      searchFrom n0 (exitMarkerPattern em) s = Some [whole; ds]
      ∧ Spec.exitReportAt s em i
      ∧ (∀ j, (j < i)%nat → ¬ Spec.exitReportAt s em j)
      ∧ Spec.digitRun (drop (i + length em) s) ds.
Proof.
  induction s as [|c s IH].
  - simpl. destruct (matchHere_exit n0 em []) as [[-> Hno] | (ds & post & -> & H0 & Hrun)].
    + left. split; [reflexivity|]. intros [|i] Hi; [exact (Hno Hi)|].
      destruct Hi as (_ & _ & _ & _ & Hle). simpl in Hle. lia.
    + right. exists 0%nat, ds, (take (length (@nil N) - length post) []).
      repeat split; [exact H0 | lia | exact Hrun].
  - change (searchFrom n0 (exitMarkerPattern em) (c :: s))
      with (match matchHere n0 (exitMarkerPattern em) (c :: s) with
            | Some (rest, caps) =>
                Some (take (length (c :: s) - length rest) (c :: s) :: caps)
            | None => searchFrom n0 (exitMarkerPattern em) s
            end).
    destruct (matchHere_exit n0 em (c :: s)) as [[-> Hno] | (ds & post & -> & H0 & Hrun)].
    + destruct IH as [[-> Hnone] | (i & ds & whole & -> & Hi & Hfirst & Hrun)].
      * left. split; [reflexivity|]. intros [|i] Hi; [exact (Hno Hi)|].
        apply exitReportAt_S in Hi. exact (Hnone i Hi).
      * right. exists (S i), ds, whole.
        repeat split; [apply exitReportAt_S, Hi | | exact Hrun].
        intros [|j] Hj Hrep; [exact (Hno Hrep)|].
        apply exitReportAt_S in Hrep. apply (Hfirst j); [lia | exact Hrep].
    + right. exists 0%nat, ds, (take (length (c :: s) - length post) (c :: s)).
      repeat split; [exact H0 | lia | exact Hrun].
Qed.

(** Reading the digits from the left, ten times the number read so far plus
    the next digit, gives the number they write. *)
Lemma parseDigits_acc (ds : list N) (acc : Z) :
  fold_left (fun acc c => (10 * acc + (Z.of_N c - 48))%Z) ds acc
  = (acc * 10 ^ Z.of_nat (length ds) + Spec.decimal ds)%Z.
Proof.
  revert acc. induction ds as [|d ds IH]; intros acc.
  - simpl. lia.
  - cbn [fold_left Spec.decimal length]. rewrite IH.
    rewrite Nat2Z.inj_succ, Z.pow_succ_r by lia. ring.
Qed.

Lemma parseDigits_decimal (ds : list N) : parseDigits ds = Spec.decimal ds.
Proof. unfold parseDigits. rewrite parseDigits_acc. lia. Qed.

(** [extractExitCode] reads the exit code the buffer reports. *)
Lemma extractExitCode_spec (out em : list N) :
  Spec.exitCodeIn out em (extractExitCode out em).
Proof.
  unfold extractExitCode, exec.
  destruct (searchFrom_exit (length out) em out)
    as [[-> Hnone] | (i & ds & whole & -> & Hi & Hfirst & Hrun)].
  - apply Spec.exitCodeDefault, Hnone.
  - rewrite parseDigits_decimal. eapply Spec.exitCodeRead; eauto.
Qed.

(** The exit code a buffer reports is unique. *)
Lemma digitRun_unique (s ds ds' : list N) :
  Spec.digitRun s ds → Spec.digitRun s ds' → ds = ds'.
Proof.
  revert s ds'. induction ds as [|d ds IH]; intros s ds' H H'.
  - destruct H as (post & -> & _ & Hpost). destruct H' as (post' & E & Hds' & _).
    destruct ds' as [|d' ds']; [reflexivity|]. simpl in E. subst post.
    inversion Hds'; congruence.
  - destruct H as (post & -> & Hds & Hpost). destruct H' as (post' & E & Hds' & Hpost').
    destruct ds' as [|d' ds'].
    + simpl in E. subst post'. inversion Hds; congruence.
    + injection E as <- E. f_equal.
      apply (IH (ds ++ post)).
      * exists post. inversion Hds; auto.
      * exists post'. inversion Hds'; auto.
Qed.

Lemma exitCodeIn_unique (out em : list N) (a b : Z) :
  Spec.exitCodeIn out em a → Spec.exitCodeIn out em b → a = b.
Proof.
  intros [i ds Hi Hfirst Hrun | Hnone] [i' ds' Hi' Hfirst' Hrun' | Hnone'].
  - assert (i = i') as <-.
    { destruct (Nat.lt_trichotomy i i') as [Hlt | [E | Hlt]]; [|exact E|].
      - exfalso. exact (Hfirst' i Hlt Hi).
      - exfalso. exact (Hfirst i' Hlt Hi'). }
    rewrite (digitRun_unique _ _ _ Hrun Hrun'). reflexivity.
  - exfalso. exact (Hnone' i Hi).
  - exfalso. exact (Hnone i' Hi').
  - reflexivity.
Qed.

(** When the number [extractExitCode] finds is below [2^53], it is the
    number the buffer reports, read exactly. *)
Lemma reportsExactly_check (out em : list N) :
  (extractExitCode out em < 2 ^ 53)%Z → Spec.reportsExactly out em.
Proof.
  intros Hlt code Hcode.
  rewrite (exitCodeIn_unique _ _ _ _ Hcode (extractExitCode_spec out em)). exact Hlt.
Qed.

End ExitPattern.

Section Parsing.

Lemma parsedResult_eq ctx c w sched :
  let out := outputBuffer (object w (session c)) in
  let m := markers c in
  let startIdx := lastIndexOf out (startMarker m) in
  let endIdx := lastIndexOf out (endMarker m) in
  let w' := update (session c) (withStatus ready) w in
  parsedResult ctx c w sched
  = (Returned
       (if (startIdx =? -1)%Z || (endIdx =? -1)%Z || (endIdx <=? startIdx)%Z then
          {| resSessionId := id (object w' (session c));
             resCommand := command ctx;
             output := cleanOutput out;
             exitCode := Some 0%Z;
             success := true;
             duration := now w - startTime c;
             timedOut := false;
             resError := None |}
        else
          {| resSessionId := id (object w' (session c));
             resCommand := command ctx;
             output := extractOutput out startIdx endIdx m (command ctx);
             exitCode := Some (extractExitCode out (exitMarker m));
             success := (extractExitCode out (exitMarker m) =? 0)%Z;
             duration := now w - startTime c;
             timedOut := false;
             resError := None |}),
     w', sched).
Proof.
  intros out m startIdx endIdx w'. subst out m startIdx endIdx w'.
  unfold parsedResult, bind, modify, deref, dateNow.
  rewrite !heap_update_same.
  change (outputBuffer (withStatus ready (object w (session c))))
    with (outputBuffer (object w (session c))).
  match goal with |- context [if ?b then _ else _] => destruct b end;
    reflexivity.
Qed.

End Parsing.

(** C3. Once the end marker was found, [executeCommand] looks for the last
    occurrence of the start marker and the last occurrence of the end marker
    in the capture buffer.  If either marker does not occur, or the last
    start marker is not strictly before the last end marker, the result is
    the whole cleaned buffer with exit code 0 and [success] true.  Otherwise
    the output is the cleaned text between the two, and the exit code is the
    number written in the digits that follow the first exit marker followed by
    a digit, 0 when there is no such place; [success] tells whether it is 0.
    The number is the one the digits write whenever a JavaScript number holds
    it exactly, that is, below [2^53]. *)
Theorem executeCommand_parses_last_markers (ctx : CommandContext) (w : World)
    (sched : Schedule) (c : InFlight) (w1 w2 : World) (sched1 sched2 : Schedule) :
  accept ctx w sched = (Returned c, w1, sched1) →
  waitForEnd (waitFuel (timeoutMs c)) (session c) (endMarker (markers c))
    (startTimeWait c) (timeoutMs c) w1 sched1 = (Returned true, w2, sched2) →
  let out := outputBuffer (object w2 (session c)) in
  let m := markers c in
  ∃ res,
    executeCommand ctx w sched
    = (Returned res, update (session c) (withStatus ready) w2, sched2)
    ∧ timedOut res = false
    ∧ ((∀ i, ¬ Spec.occursAt out (startMarker m) i)
       ∨ (∀ j, ¬ Spec.occursAt out (endMarker m) j)
       ∨ (∃ i j, Spec.lastOccurrence out (startMarker m) i
                 ∧ Spec.lastOccurrence out (endMarker m) j ∧ (j <= i)%nat) →
       output res = cleanOutput out
       ∧ exitCode res = Some 0%Z ∧ success res = true)
    ∧ (∀ i j,
         Spec.lastOccurrence out (startMarker m) i →
         Spec.lastOccurrence out (endMarker m) j → (i < j)%nat →
         output res
         = cleanPrompt
             (cleanCommandEcho
                (cleanMarkers
                   (cleanOutput
                      (substring (Z.of_nat i + len (startMarker m)) (Z.of_nat j) out))
                   m)
                (command ctx))
         ∧ (Spec.reportsExactly out (exitMarker m) →
            ∃ code,
              exitCode res = Some code
              ∧ success res = (code =? 0)%Z
              ∧ Spec.exitCodeIn out (exitMarker m) code)).
Proof.
  intros Hacc Hwait out m.
  eexists. split.
  { unfold executeCommand.
    rewrite (bind_returned _ _ _ _ _ _ _ Hacc).
    rewrite (bind_returned _ _ _ _ _ _ _ Hwait). simpl negb. cbv iota.
    apply parsedResult_eq. }
  fold out m.
  destruct (lastIndexOf_spec out (startMarker m))
    as [[Hs Hnos] | (i & Hs & Hi)]; rewrite Hs.
  { simpl. split; [reflexivity|]. split; [auto|].
    intros i j [Hocc _] _ _. exfalso. exact (Hnos i Hocc). }
  destruct (lastIndexOf_spec out (endMarker m))
    as [[He Hnoe] | (j & He & Hj)]; rewrite He.
  { replace (Z.of_nat i =? -1)%Z with false by (symmetry; apply Z.eqb_neq; lia).
    simpl. split; [reflexivity|]. split; [auto|].
    intros i' j' _ [Hocc _] _. exfalso. exact (Hnoe j' Hocc). }
  replace (Z.of_nat i =? -1)%Z with false by (symmetry; apply Z.eqb_neq; lia).
  replace (Z.of_nat j =? -1)%Z with false by (symmetry; apply Z.eqb_neq; lia).
  simpl orb. destruct (Z.leb_spec (Z.of_nat j) (Z.of_nat i)) as [Hle | Hlt].
  - split; [reflexivity|]. split; [auto|].
    intros i' j' Hi' Hj' Hlt.
    rewrite (lastOccurrence_unique _ _ _ _ Hi' Hi) in Hlt.
    rewrite (lastOccurrence_unique _ _ _ _ Hj' Hj) in Hlt. lia.
  - split; [reflexivity|]. split.
    + intros [Hno | [Hno | (i' & j' & Hi' & Hj' & Hle)]].
      * exfalso. destruct Hi as [Hocc _]. exact (Hno i Hocc).
      * exfalso. destruct Hj as [Hocc _]. exact (Hno j Hocc).
      * rewrite (lastOccurrence_unique _ _ _ _ Hi' Hi) in Hle.
        rewrite (lastOccurrence_unique _ _ _ _ Hj' Hj) in Hle. lia.
    + intros i' j' Hi' Hj' _.
      rewrite (lastOccurrence_unique _ _ _ _ Hi' Hi).
      rewrite (lastOccurrence_unique _ _ _ _ Hj' Hj).
      split; [reflexivity|]. intros _.
      eexists. split; [reflexivity|]. split; [reflexivity|].
      apply extractExitCode_spec.
Qed.

(** [ls /nope] on the session [default]: the output is the message of [ls],
    the exit code the 2 the shell reports. *)
Lemma executeCommand_parses_last_markers_witness :
  let ctx := Examples.lsNope 1000 in
  let w := Examples.worldWith ready 1024 in
  let sched := Scenario.failingSchedule in
  ∃ res w',
    executeCommand ctx w sched = (Returned res, w', [])
    ∧ Spec.reportsExactly (outputBuffer (object w' 0%nat)) (exitMarker (markersAt 1100))
    ∧ Spec.exitCodeIn (outputBuffer (object w' 0%nat)) (exitMarker (markersAt 1100)) 2
    ∧ timedOut res = false
    ∧ output res = lit "ls: cannot access '/nope': No such file or directory"
    ∧ exitCode res = Some 2%Z
    ∧ success res = false.
Proof.
  intros ctx w sched.
  pose (c := {| session := 0%nat; markers := markersAt 1100; startTime := 1000;
                timeoutMs := Number 1000; startTimeWait := 1250 |}).
  assert (accept ctx w sched
          = (Returned c, snd (fst (accept ctx w sched)), drop 4 sched))
    as Hacc by (vm_compute; reflexivity).
  pose (run := waitForEnd (waitFuel (timeoutMs c)) (session c)
                 (endMarker (markers c)) (startTimeWait c) (timeoutMs c)
                 (snd (fst (accept ctx w sched))) (drop 4 sched)).
  assert (run = (Returned true, snd (fst run), [])) as Hwait
    by (vm_compute; reflexivity).
  destruct (executeCommand_parses_last_markers ctx w sched c _ _ _ _ Hacc Hwait)
    as (res & Hrun & Hto & _ & Hvalid).
  assert (Spec.reportsExactly
            (outputBuffer (object (update (session c) (withStatus ready) (snd (fst run)))
                             0%nat))
            (exitMarker (markersAt 1100))) as Hexact.
  { apply reportsExactly_check. vm_compute. reflexivity. }
  exists res, (update (session c) (withStatus ready) (snd (fst run))).
  split; [exact Hrun|]. split; [exact Hexact|].
  assert (fst (fst (executeCommand ctx w sched)) = Returned res) as Hres
    by (rewrite Hrun; reflexivity).
  vm_compute in Hres. injection Hres as <-.
  split; [|repeat split; reflexivity].
  pose proof (extractExitCode_spec
                (outputBuffer (object (update (session c) (withStatus ready)
                                         (snd (fst run))) 0%nat))
                (exitMarker (markersAt 1100))) as Hcode.
  replace (extractExitCode _ _) with 2%Z in Hcode by (vm_compute; reflexivity).
  exact Hcode.
Defined.

(* ===================================================================== *)
(** ** [createSession] and the capacity of the store *)
(* ===================================================================== *)

Section Capacity.

Lemma sessions_handleOutput r data w : sessions (handleOutput r data w) = sessions w.
Proof. unfold handleOutput. case_match; reflexivity. Qed.

Lemma config_handleOutput r data w : config (handleOutput r data w) = config w.
Proof. unfold handleOutput. case_match; reflexivity. Qed.

Lemma config_applyEvent w e : config (applyEvent w e) = config w.
Proof.
  destruct e as [r data|r c|sid|sid]; simpl.
  - destruct (r <? nextRef w)%nat; [apply config_handleOutput | reflexivity].
  - destruct (r <? nextRef w)%nat; reflexivity.
  - unfold closeSession. destruct (sessions w !! sid); reflexivity.
  - unfold interrupt. destruct (sessions w !! sid); reflexivity.
Qed.

Lemma config_events evs w : config (fold_left applyEvent evs w) = config w.
Proof.
  revert w. induction evs as [|e evs IH]; intros w; simpl; [reflexivity|].
  rewrite IH. apply config_applyEvent.
Qed.

Lemma config_wake ms w sched : config (wake ms w sched) = config w.
Proof.
  destruct sched as [|t sched]; simpl; [reflexivity|].
  rewrite config_events. reflexivity.
Qed.

Lemma sessions_data_events evs w :
  Forall (fun e => ∃ r data, e = PtyData r data) evs →
  sessions (fold_left applyEvent evs w) = sessions w.
Proof.
  intros H. revert w. induction H as [|e evs (r & data & ->) _ IH]; intros w;
    simpl; [reflexivity|].
  rewrite IH. destruct (r <? nextRef w)%nat;
    [apply sessions_handleOutput | reflexivity].
Qed.

Lemma sessions_wake ms w sched :
  Spec.onlyData sched → sessions (wake ms w sched) = sessions w.
Proof.
  intros H. destruct H as [|t sched Ht _]; simpl; [reflexivity|].
  rewrite sessions_data_events by exact Ht. reflexivity.
Qed.

Lemma onlyData_tail sched : Spec.onlyData sched → Spec.onlyData (tail sched).
Proof. intros H. destruct H; simpl; [constructor | assumption]. Qed.

(** At capacity [createSession] throws at once. *)
Lemma createSession_full options w sched :
  geNum (Z.of_nat (size (sessions w))) (maxSessions (config w)) = true →
  createSession options w sched
  = (Thrown (maxSessionsReached (maxSessions (config w))), w, sched).
Proof.
  intros H. unfold createSession, bind, getWorld. rewrite H. reflexivity.
Qed.

(** The test of the capacity, as a proposition. *)
Lemma geNum_spec x l : geNum x l = true ↔ ∃ n, l = Number n ∧ (n <= x)%Z.
Proof.
  destruct l as [n| |]; simpl.
  - rewrite Z.leb_le. split; [eauto|]. intros (n' & [= <-] & H). exact H.
  - split; [discriminate|]. intros (n' & [=] & _).
  - split; [discriminate|]. intros (n' & [=] & _).
Qed.

(** Below capacity it never throws [MaxSessionsReached]. *)
Lemma createSession_not_full options w sched :
  geNum (Z.of_nat (size (sessions w))) (maxSessions (config w)) = false →
  ¬ Spec.isMaxSessionsReached (fst (fst (createSession options w sched))).
Proof.
  intros H [msg Hthrown]. revert Hthrown.
  unfold createSession, bind at 1, getWorld.
  rewrite H.
  unfold bind at 1.
  destruct (match options ≫= optId with
            | Some i => if isEmpty i then uuidv4 else ret i
            | None => uuidv4
            end w sched) as [[[sid|e|] w1] sched1] eqn:Hid.
  2,3: destruct (options ≫= optId) as [i|]; [destruct (isEmpty i)|];
       cbv in Hid; discriminate.
  destruct (bool_decide (is_Some (sessions w !! sid))); [discriminate|].
  unfold bind at 1, createPty, bind at 1, getWorld, bind at 1, suspend.
  destruct (createPtyAnswer (backend w1)); [|discriminate..].
  cbn. discriminate.
Qed.

(** The choice of the id touches nothing but the uuid counter. *)
Lemma chooseId options w sched :
  ∃ w1,
    match options ≫= optId with
    | Some i => if isEmpty i then uuidv4 else ret i
    | None => uuidv4
    end w sched = (Returned (Spec.requestedId options w), w1, sched)
    ∧ sessions w1 = sessions w ∧ config w1 = config w
    ∧ backend w1 = backend w.
Proof.
  unfold Spec.requestedId.
  destruct (options ≫= optId) as [i|]; [destruct (isEmpty i)|];
    eexists; (split; [reflexivity|]); auto.
Qed.

(** Below capacity, with a free id and a backend that answers, the session
    is created and registered under its id. *)
Lemma createSession_success options w sched :
  geNum (Z.of_nat (size (sessions w))) (maxSessions (config w)) = false →
  sessions w !! Spec.requestedId options w = None →
  createPtyAnswer (backend w) = PtyCreated →
  Spec.onlyData sched →
  ∃ r w2,
    createSession options w sched = (Returned r, w2, tail (tail sched))
    ∧ sessions w2 = <[Spec.requestedId options w := r]> (sessions w)
    ∧ config w2 = config w.
Proof.
  intros Hsize Hfree Hpty Hquiet.
  destruct (chooseId options w sched) as (w1 & Hid & Hs1 & Hc1 & Hb1).
  unfold createSession, bind at 1, getWorld.
  rewrite Hsize.
  rewrite (bind_returned _ _ _ _ _ _ _ Hid).
  rewrite Hfree.
  replace (bool_decide (is_Some (@None nat))) with false
    by (symmetry; apply bool_decide_eq_false; intros [? ?]; discriminate).
  unfold createPty, bind, getWorld, suspend, dateNow, allocate, sleep, suspend,
    modify, ret.
  rewrite Hb1, Hpty.
  eexists. eexists. split; [reflexivity|].
  split.
  - cbn [sessions withSessions update withHeap].
    rewrite sessions_wake by (apply onlyData_tail, Hquiet).
    cbn [sessions]. rewrite sessions_wake by exact Hquiet.
    rewrite Hs1. reflexivity.
  - cbn [config withSessions update withHeap].
    rewrite config_wake. cbn [config]. rewrite config_wake. exact Hc1.
Qed.

End Capacity.

(** With a maximum that is a number, [createSession] throws
    [MaxSessionsReached] exactly when the store holds that many sessions or
    more (exactly that many in a store that never went over it), and then it
    leaves the world as it found it: no pty is asked for, the store is
    unchanged, no suspension takes place.  From a store holding exactly the
    maximum, after one session is closed, one creation succeeds (the id being
    free, the backend answering and no session ending meanwhile) and brings
    the store back to capacity, so that any further creation throws
    [MaxSessionsReached] again. *)
Lemma createSession_capacity (options : option SessionOptions) (w : World)
    (sched : Schedule) (n : Z) :
  maxSessions (config w) = Number n →
  (Spec.isMaxSessionsReached (fst (fst (createSession options w sched)))
   ↔ (n <= Z.of_nat (size (sessions w)))%Z)
  ∧ ((Z.of_nat (size (sessions w)) <= n)%Z →
     (Spec.isMaxSessionsReached (fst (fst (createSession options w sched)))
      ↔ Z.of_nat (size (sessions w)) = n))
  ∧ ((n <= Z.of_nat (size (sessions w)))%Z →
     createSession options w sched
     = (Thrown (maxSessionsReached (Number n)), w, sched))
  ∧ (∀ sid,
       Z.of_nat (size (sessions w)) = n →
       is_Some (sessions w !! sid) →
       sessions (closeSession sid w)
         !! Spec.requestedId options (closeSession sid w) = None →
       createPtyAnswer (backend w) = PtyCreated →
       Spec.onlyData sched →
       ∃ r w2 sched2,
         createSession options (closeSession sid w) sched = (Returned r, w2, sched2)
         ∧ Z.of_nat (size (sessions w2)) = n
         ∧ ∀ options' sched',
             createSession options' w2 sched'
             = (Thrown (maxSessionsReached (Number n)), w2, sched')).
Proof.
  intros Hmax.
  assert (∀ w' options' sched',
            maxSessions (config w') = Number n →
            (n <= Z.of_nat (size (sessions w')))%Z →
            createSession options' w' sched'
            = (Thrown (maxSessionsReached (Number n)), w', sched')) as Hfull.
  { intros w' options' sched' Hmax' Hle. rewrite <- Hmax'.
    apply createSession_full. rewrite Hmax'. apply Z.leb_le, Hle. }
  assert (Spec.isMaxSessionsReached (fst (fst (createSession options w sched)))
          ↔ (n <= Z.of_nat (size (sessions w)))%Z) as Hiff.
  { split.
    - intros Hthrown.
      destruct (Z.le_gt_cases n (Z.of_nat (size (sessions w)))) as [Hle | Hlt];
        [exact Hle|].
      exfalso. eapply createSession_not_full; [|exact Hthrown].
      rewrite Hmax. apply Z.leb_gt, Hlt.
    - intros Hle. rewrite Hfull by assumption. eexists. reflexivity. }
  split; [exact Hiff|]. split; [rewrite Hiff; lia|].
  split; [apply Hfull, Hmax|].
  intros sid Hsizen [r Hsid] Hfree Hpty Hquiet.
  assert (sessions (closeSession sid w) = delete sid (sessions w)
          ∧ config (closeSession sid w) = config w
          ∧ backend (closeSession sid w) = backend w) as (Hs & Hc & Hb).
  { unfold closeSession. rewrite Hsid. auto. }
  assert (size (sessions (closeSession sid w)) = pred (size (sessions w))) as Hsize.
  { rewrite Hs. apply map_size_delete_Some. eauto. }
  assert (0 < size (sessions w))%nat as Hpos.
  { destruct (size (sessions w)) eqn:E; [|lia].
    apply map_size_empty_inv in E. rewrite E, lookup_empty in Hsid. discriminate. }
  destruct (createSession_success options (closeSession sid w) sched)
    as (r' & w2 & Hrun & Hs2 & Hc2); try assumption.
  { rewrite Hsize, Hc, Hmax. apply Z.leb_gt. lia. }
  { rewrite Hb. exact Hpty. }
  exists r', w2, (tail (tail sched)). split; [exact Hrun|].
  assert (Z.of_nat (size (sessions w2)) = n) as Hfull2.
  { rewrite Hs2, map_size_insert_None by exact Hfree. rewrite Hsize. lia. }
  split; [exact Hfull2|].
  intros options' sched'. apply Hfull; [rewrite Hc2, Hc; exact Hmax | lia].
Qed.

(** A maximum of one session, reached, left and reached again. *)
Example createSession_capacity_example :
  let cfg := {| maxSessions := Number 1; defaultTimeout := Number 30000;
                sessionExpiry := 3600000; cfgMaxBufferSize := 1024;
                markerPrefix := [] |} in
  let w := {| now := 1000; config := cfg; backend := Examples.wslBackend;
              heap := {[ 0%nat := Examples.sessionWith (lit "a") ready 1024 ]};
              nextRef := 1; sessions := {[ lit "a" := 0%nat ]};
              uuidSource := fun n => lit "uuid-" ++ showZ (Z.of_nat n);
              uuidCount := 0 |} in
  Spec.isMaxSessionsReached (fst (fst (createSession None w [])))
  ∧ ∃ r w2 sched2,
      createSession None (closeSession (lit "a") w) [] = (Returned r, w2, sched2)
      ∧ Z.of_nat (size (sessions w2)) = 1%Z
      ∧ ∀ options' sched',
          createSession options' w2 sched'
          = (Thrown (maxSessionsReached (Number 1)), w2, sched').
Proof.
  intros cfg w.
  destruct (createSession_capacity None w [] 1 eq_refl) as (Hiff & _ & _ & Hcycle).
  split.
  - apply Hiff. vm_compute. discriminate.
  - apply (Hcycle (lit "a")).
    + reflexivity.
    + exists 0%nat. reflexivity.
    + reflexivity.
    + reflexivity.
    + constructor.
Qed.

Section DefaultWiring.

(** A server whose environment does not set [WSL_MCP_MAX_SESSIONS] gives its
    session manager the maximum [undefined]. *)
Lemma managerConfig_unset (WSL_MCP_DEFAULT_TIMEOUT : option (list N)) :
  maxSessions (Server.managerConfig None WSL_MCP_DEFAULT_TIMEOUT) = Undefined.
Proof. reflexivity. Qed.

End DefaultWiring.

(** C6. In a server whose environment does not set [WSL_MCP_MAX_SESSIONS],
    the maximum of the session manager is [undefined], not the default 10:
    [createSession] never throws [MaxSessionsReached], however many sessions
    the store holds, and with a free id and a backend that answers it creates
    one more session. *)
Theorem createSession_unlimited_by_default (WSL_MCP_DEFAULT_TIMEOUT : option (list N))
    (options : option SessionOptions) (w : World) (sched : Schedule) :
  config w = Server.managerConfig None WSL_MCP_DEFAULT_TIMEOUT →
  ¬ Spec.isMaxSessionsReached (fst (fst (createSession options w sched)))
  ∧ (sessions w !! Spec.requestedId options w = None →
     createPtyAnswer (backend w) = PtyCreated →
     Spec.onlyData sched →
     ∃ r w2 sched2,
       createSession options w sched = (Returned r, w2, sched2)
       ∧ size (sessions w2) = S (size (sessions w))).
Proof.
  intros Hcfg.
  assert (geNum (Z.of_nat (size (sessions w))) (maxSessions (config w)) = false)
    as Hnever by (rewrite Hcfg; reflexivity).
  split; [apply createSession_not_full, Hnever|].
  intros Hfree Hpty Hquiet.
  destruct (createSession_success options w sched Hnever Hfree Hpty Hquiet)
    as (r & w2 & Hrun & Hs2 & _).
  exists r, w2, (tail (tail sched)). split; [exact Hrun|].
  rewrite Hs2. apply map_size_insert_None, Hfree.
Qed.

(** The eleventh session of a server started without the variable. *)
Lemma createSession_unlimited_by_default_witness :
  let w := Examples.crowdedWorld (Server.managerConfig None None) in
  size (sessions w) = 10%nat
  ∧ ∃ r w2 sched2,
      createSession None w [] = (Returned r, w2, sched2)
      ∧ size (sessions w2) = 11%nat.
Proof.
  intros w. split; [vm_compute; reflexivity|].
  destruct (createSession_unlimited_by_default None None w [] eq_refl) as [_ Hmore].
  destruct Hmore as (r & w2 & sched2 & Hrun & Hsize).
  - vm_compute. reflexivity.
  - reflexivity.
  - constructor.
  - exists r, w2, sched2. split; [exact Hrun|]. rewrite Hsize. vm_compute. reflexivity.
Defined.

(* ===================================================================== *)
(** ** Background processes: status and read cursor *)
(* ===================================================================== *)

Section BackgroundStatus.

Lemma status_outputListener m data now p :
  Poller.status (Poller.outputListener m data now p) = Poller.status p.
Proof. unfold Poller.outputListener. case_match; reflexivity. Qed.

Lemma status_pollRecord incremental now p :
  Poller.status (snd (Poller.pollRecord incremental now p)) = Poller.status p.
Proof. reflexivity. Qed.

(** Whatever an operation does to the status, it leaves it alone or sets it
    to one of [completed], [error], [stopped]. *)
Lemma step_status now op p :
  Poller.status (Poller.step now op p) = Poller.status p
  ∨ Poller.isTerminal (Poller.status (Poller.step now op p)) = true.
Proof.
  destruct op as [m data|incremental| |[res|e|]|msg]; simpl.
  - left. apply status_outputListener.
  - left. reflexivity.
  - right. reflexivity.
  - right. destruct (success res); reflexivity.
  - right. reflexivity.
  - left. reflexivity.
  - right. reflexivity.
Qed.

Lemma step_terminal now op p :
  Poller.isTerminal (Poller.status p) = true →
  Poller.isTerminal (Poller.status (Poller.step now op p)) = true.
Proof.
  intros H. destruct (step_status now op p) as [-> | Ht]; assumption.
Qed.

Lemma run_terminal ops p :
  Poller.isTerminal (Poller.status p) = true →
  Poller.isTerminal (Poller.status (Poller.run ops p)) = true.
Proof.
  revert p. induction ops as [|[now op] ops IH]; intros p H; simpl; [exact H|].
  apply IH, step_terminal, H.
Qed.

End BackgroundStatus.

(** A process that completed is marked [stopped] by a later [stopProcess]. *)
Example completed_then_stopped :
  Poller.status
    (Poller.run [(1040, Poller.Complete (Returned Examples.okResult))]%Z
       Examples.makeProcess) = Poller.completed
  ∧ Poller.status
      (Poller.run [(1040, Poller.Complete (Returned Examples.okResult));
                   (1050, Poller.Stop)]%Z
         Examples.makeProcess) = Poller.stopped.
Proof. split; reflexivity. Qed.

(** A process that was stopped is marked [completed] when its command ends. *)
Example stopped_then_completed :
  Poller.status
    (Poller.run [(1010, Poller.Stop)]%Z Examples.makeProcess) = Poller.stopped
  ∧ Poller.status
      (Poller.run [(1010, Poller.Stop);
                   (1040, Poller.Complete (Returned Examples.okResult))]%Z
         Examples.makeProcess) = Poller.completed.
Proof. split; reflexivity. Qed.

(** C7, as stated, fails: an operation of the poller can change the status of
    a process that is in one of the three final states. *)
Lemma terminal_status_not_kept :
  ¬ (∀ (now : Z) (op : Poller.Op) (p : Poller.BackgroundProcess),
       Poller.isTerminal (Poller.status p) = true →
       Poller.status (Poller.step now op p) = Poller.status p).
Proof.
  intros H.
  specialize (H 1050%Z Poller.Stop
                (Poller.run [(1040, Poller.Complete (Returned Examples.okResult))]%Z
                   Examples.makeProcess) eq_refl).
  discriminate H.
Qed.

(** C7, amended.  For every record and every operation of the poller: the
    status is left as it is or set to one of [completed], [error], [stopped]
    (so [running] is only ever left for one of these three); the output
    listener and [poll] never change it; [stopProcess] sets [stopped] and the
    completion handler sets [completed] or [error] whatever the status was;
    and a record in one of the three states stays within the three, after one
    operation and after any history of operations: it never goes back to
    [running] or [paused]. *)
Theorem background_status_transitions (now : Z) (op : Poller.Op)
    (p : Poller.BackgroundProcess) (ops : list (Z * Poller.Op)) :
  (Poller.status (Poller.step now op p) = Poller.status p
   ∨ Poller.isTerminal (Poller.status (Poller.step now op p)) = true)
  ∧ (∀ m data, op = Poller.OnData m data →
       Poller.status (Poller.step now op p) = Poller.status p)
  ∧ (∀ incremental, op = Poller.Poll incremental →
       Poller.status (Poller.step now op p) = Poller.status p)
  ∧ (op = Poller.Stop → Poller.status (Poller.step now op p) = Poller.stopped)
  ∧ (∀ res, op = Poller.Complete (Returned res) →
       Poller.status (Poller.step now op p)
       = if success res then Poller.completed else Poller.error)
  ∧ (∀ e, op = Poller.Complete (Thrown e) →
       Poller.status (Poller.step now op p) = Poller.error)
  ∧ (∀ msg, op = Poller.StartFailed msg →
       Poller.status (Poller.step now op p) = Poller.error)
  ∧ (Poller.isTerminal (Poller.status p) = true →
     Poller.isTerminal (Poller.status (Poller.step now op p)) = true
     ∧ Poller.isTerminal (Poller.status (Poller.run ops p)) = true).
Proof.
  split; [apply step_status|].
  split; [intros m data ->; apply status_outputListener|].
  split; [intros incremental ->; reflexivity|].
  split; [intros ->; reflexivity|].
  split; [intros res ->; reflexivity|].
  split; [intros e ->; reflexivity|].
  split; [intros msg ->; reflexivity|].
  intros H. split; [apply step_terminal, H | apply run_terminal, H].
Qed.

Lemma background_status_transitions_witness :
  let p := Poller.run [(1010, Poller.Stop)]%Z Examples.makeProcess in
  let op := Poller.Complete (Returned Examples.okResult) in
  Poller.isTerminal (Poller.status p) = true
  ∧ Poller.status (Poller.step 1040 op p) = Poller.completed
  ∧ Poller.isTerminal
      (Poller.status (Poller.run [(1040, op); (1050, Poller.Poll true)]%Z p))
    = true.
Proof.
  intros p op.
  destruct (background_status_transitions 1040 op p
              [(1040, op); (1050, Poller.Poll true)]%Z)
    as (_ & _ & _ & _ & Hdone & _ & _ & Hterm).
  split; [reflexivity|]. split.
  - exact (Hdone Examples.okResult eq_refl).
  - apply Hterm. reflexivity.
Defined.

(* ===================================================================== *)
(** ** Buffer bounds and the read cursor *)
(* ===================================================================== *)

Section Buffers.

Lemma len_app (a b : list N) : len (a ++ b) = (len a + len b)%Z.
Proof. unfold len. rewrite length_app. lia. Qed.

Lemma len_nonneg (s : list N) : (0 <= len s)%Z.
Proof. unfold len. lia. Qed.

Lemma len_sliceFrom (start : Z) (s : list N) :
  len (sliceFrom start s)
  = (if (start <? 0)%Z then Z.min (len s) (- start)
     else Z.max 0 (len s - start))%Z.
Proof.
  unfold sliceFrom, len. rewrite length_drop.
  destruct (Z.ltb_spec start 0); lia.
Qed.

(** The buffer of a session after [handleOutput]. *)
Lemma handleOutput_buffer r data w :
  let appended := outputBuffer (object w r) ++ data in
  let limit := maxBufferSize (object w r) in
  outputBuffer (object (handleOutput r data w) r)
  = if (limit <? len appended)%Z then sliceFrom (- limit) appended else appended.
Proof.
  intros appended limit. subst appended limit. unfold handleOutput.
  rewrite !heap_update_same. simpl.
  destruct (maxBufferSize (object w r) <? len (outputBuffer (object w r) ++ data))%Z;
    rewrite ?heap_update_same; reflexivity.
Qed.

Lemma maxBufferSize_handleOutput r data w :
  maxBufferSize (object (handleOutput r data w) r) = maxBufferSize (object w r).
Proof.
  unfold handleOutput. rewrite !heap_update_same. simpl.
  destruct (maxBufferSize (object w r) <? len (outputBuffer (object w r) ++ data))%Z;
    rewrite ?heap_update_same; reflexivity.
Qed.

(** For a positive limit the session buffer is within it after every
    append. *)
Lemma handleOutput_bounded r data w :
  (0 < maxBufferSize (object w r))%Z →
  (len (outputBuffer (object (handleOutput r data w) r))
   <= maxBufferSize (object (handleOutput r data w) r))%Z.
Proof.
  intros Hpos. rewrite maxBufferSize_handleOutput, handleOutput_buffer.
  destruct (Z.ltb_spec (maxBufferSize (object w r))
              (len (outputBuffer (object w r) ++ data))) as [Hlt | Hge];
    [|exact Hge].
  rewrite len_sliceFrom.
  destruct (Z.ltb_spec (- maxBufferSize (object w r)) 0); lia.
Qed.

(** The buffer of a background process is within any limit that is not
    negative. *)
Lemma outputListener_bounded m data now p :
  (0 <= m)%Z →
  (len (Poller.outputBuffer (Poller.outputListener m data now p)) <= m)%Z.
Proof.
  intros Hm. unfold Poller.outputListener.
  destruct (Z.ltb_spec m (len (Poller.outputBuffer p ++ data))) as [Hlt | Hge];
    simpl; [|exact Hge].
  rewrite len_sliceFrom.
  destruct (Z.ltb_spec (len (Poller.outputBuffer p ++ data) - m) 0); lia.
Qed.

(** The read cursor stays within the buffer under the output listener, with
    its trimming of the head and its clamping of the cursor. *)
Lemma outputListener_cursor m data now p :
  (Poller.readPosition p <= len (Poller.outputBuffer p))%Z →
  (Poller.readPosition (Poller.outputListener m data now p)
   <= len (Poller.outputBuffer (Poller.outputListener m data now p)))%Z.
Proof.
  intros Hinv. unfold Poller.outputListener.
  pose proof (len_nonneg data) as Hd. pose proof (len_app (Poller.outputBuffer p) data) as Happ.
  destruct (Z.ltb_spec m (len (Poller.outputBuffer p ++ data))) as [Hlt | Hge];
    simpl; [|lia].
  rewrite len_sliceFrom.
  destruct (Z.ltb_spec (len (Poller.outputBuffer p ++ data) - m) 0); lia.
Qed.

(** [poll] moves the cursor to the end of the buffer, in both modes. *)
Lemma pollRecord_cursor incremental now p :
  Poller.readPosition (snd (Poller.pollRecord incremental now p))
  = len (Poller.outputBuffer (snd (Poller.pollRecord incremental now p))).
Proof. reflexivity. Qed.

Lemma step_cursor now op p :
  (Poller.readPosition p <= len (Poller.outputBuffer p))%Z →
  (Poller.readPosition (Poller.step now op p)
   <= len (Poller.outputBuffer (Poller.step now op p)))%Z.
Proof.
  intros Hinv. destruct op as [m data|incremental| |[res|e|]|msg]; simpl;
    try exact Hinv.
  - apply outputListener_cursor, Hinv.
  - lia.
Qed.

(** [readPosition <= outputBuffer.length] holds of every record, at every
    point of its history. *)
Lemma background_cursor_invariant processId sid cmd now interval ops :
  let p := Poller.run ops (Poller.newProcess processId sid cmd now interval) in
  (Poller.readPosition p <= len (Poller.outputBuffer p))%Z.
Proof.
  simpl.
  assert (∀ p, (Poller.readPosition p <= len (Poller.outputBuffer p))%Z →
               (Poller.readPosition (Poller.run ops p)
                <= len (Poller.outputBuffer (Poller.run ops p)))%Z) as H.
  { induction ops as [|[t op] ops IH]; intros p Hp; simpl; [exact Hp|].
    apply IH, step_cursor, Hp. }
  apply H. simpl. unfold len. simpl. lia.
Qed.

End Buffers.

(** C4, where the code departs from it.  With [maxBufferSize] 0 the slice
    [outputBuffer.slice(-0)] of [handleOutput] is the whole string: nothing
    is dropped, and the buffer of the session is longer than its limit as
    soon as the pty has written anything. *)
Theorem handleOutput_zero_limit (w : World) (r : nat) (data : list N) :
  maxBufferSize (object w r) = 0%Z →
  outputBuffer (object (handleOutput r data w) r)
  = outputBuffer (object w r) ++ data
  ∧ (data ≠ [] →
     (maxBufferSize (object (handleOutput r data w) r)
      < len (outputBuffer (object (handleOutput r data w) r)))%Z).
Proof.
  intros Hzero.
  assert (outputBuffer (object (handleOutput r data w) r)
          = outputBuffer (object w r) ++ data) as Hbuf.
  { rewrite handleOutput_buffer, Hzero.
    destruct (0 <? len (outputBuffer (object w r) ++ data))%Z; [|reflexivity].
    unfold sliceFrom. simpl.
    rewrite Z.min_l by apply len_nonneg. reflexivity. }
  split; [exact Hbuf|]. intros Hdata.
  rewrite maxBufferSize_handleOutput, Hbuf, Hzero, len_app.
  pose proof (len_nonneg (outputBuffer (object w r))).
  destruct data as [|c data]; [congruence|]. unfold len at 2. simpl. lia.
Qed.

Lemma handleOutput_zero_limit_witness :
  let w := Examples.worldWith ready 0 in
  outputBuffer (object (handleOutput 0 (lit "a") w) 0%nat) = lit "a"
  ∧ (maxBufferSize (object (handleOutput 0 (lit "a") w) 0%nat)
     < len (outputBuffer (object (handleOutput 0 (lit "a") w) 0%nat)))%Z.
Proof.
  intros w.
  destruct (handleOutput_zero_limit w 0 (lit "a") eq_refl) as [Hbuf Hlong].
  split; [exact Hbuf | apply Hlong; discriminate].
Defined.

(* ===================================================================== *)
(** ** Soundness of the matcher *)
(* ===================================================================== *)

Section MatcherSoundness.

Import ReSem.

Lemma rmatch_star_sound n0 p k caps :
  ∀ s a,
    rmatch n0 (Star p) k s caps = Some a →
    ∃ run s', s = run ++ s' ∧ Forall (fun c => p c = true) run
              ∧ k s' caps = Some a.
Proof.
  induction s as [|c s IHs]; intros a H.
  - exists [], []. simpl in H. auto.
  - change (rmatch n0 (Star p) k (c :: s) caps)
      with (if p c then
              match rmatch n0 (Star p) k s caps with
              | Some a => Some a
              | None => k (c :: s) caps
              end
            else k (c :: s) caps) in H.
    destruct (p c) eqn:Hc; [|exists [], (c :: s); auto].
    destruct (rmatch n0 (Star p) k s caps) as [a1|] eqn:E1;
      [|exists [], (c :: s); auto].
    injection H as <-. destruct (IHs a1 eq_refl) as (run & s' & -> & Hrun & Hk).
    exists (c :: run), s'. auto.
Qed.

Lemma take_prefix (u s' : list N) :
  take (length (u ++ s') - length s') (u ++ s') = u.
Proof.
  rewrite length_app.
  replace (length u + length s' - length s')%nat with (length u) by lia.
  apply take_app_length.
Qed.

Lemma rmatch_sound n0 r :
  ∀ k s caps a,
    rmatch n0 r k s caps = Some a →
    ∃ u s' gs,
      s = u ++ s' ∧ Matches n0 r u s' gs ∧ k s' (caps ++ gs) = Some a.
Proof.
  induction r as [|p|r1 IH1 r2 IH2|r1 IH1 r2 IH2|p|r IH| | |r IH];
    intros k s caps a H; [simpl in H..| |simpl in H|simpl in H|simpl in H|simpl in H].
  - exists [], s, []. rewrite (app_nil_r caps). repeat split; [constructor | exact H].
  - destruct s as [|c s]; [discriminate|]. destruct (p c) eqn:Hc; [|discriminate].
    exists [c], s, []. rewrite (app_nil_r caps).
    repeat split; [constructor; exact Hc | exact H].
  - apply IH1 in H as (u1 & s1 & g1 & -> & M1 & H).
    apply IH2 in H as (u2 & s2 & g2 & -> & M2 & H).
    exists (u1 ++ u2), s2, (g1 ++ g2). rewrite !app_assoc.
    repeat split; [econstructor; eassumption | exact H].
  - destruct (rmatch n0 r1 k s caps) as [a1|] eqn:E1.
    + injection H as <-. apply IH1 in E1 as (u & s' & gs & -> & M1 & E1).
      exists u, s', gs. repeat split; [apply MAltL, M1 | exact E1].
    + apply IH2 in H as (u & s' & gs & -> & M2 & H).
      exists u, s', gs. repeat split; [apply MAltR, M2 | exact H].
  - apply (rmatch_star_sound n0 p k caps) in H as (run & s' & -> & Hrun & H).
    exists run, s', []. rewrite (app_nil_r caps).
    repeat split; [constructor; exact Hrun | exact H].
  - apply IH in H as (u & s' & gs & -> & M1 & H).
    rewrite take_prefix in H.
    exists u, s', (gs ++ [u]). rewrite app_assoc.
    repeat split; [constructor; exact M1 | exact H].
  - destruct (Nat.eqb_spec (length s) n0) as [E|]; [|discriminate].
    exists [], s, []. rewrite (app_nil_r caps).
    repeat split; [constructor; exact E | exact H].
  - destruct s; [|discriminate].
    exists [], [], []. rewrite (app_nil_r caps).
    split; [reflexivity|]. split; [apply MEol | exact H].
  - destruct (rmatch n0 r _ s caps); [discriminate|].
    exists [], s, []. rewrite (app_nil_r caps). repeat split; [constructor | exact H].
Qed.

(** A successful search is a successful attempt at some position. *)
Lemma searchFrom_sound n0 r s l :
  searchFrom n0 r s = Some l →
  ∃ i u rest caps,
    (i <= length s)%nat
    ∧ drop i s = u ++ rest
    ∧ Matches n0 r u rest caps
    ∧ l = u :: caps.
Proof.
  induction s as [|c s IH].
  - simpl. unfold matchHere.
    destruct (rmatch n0 r _ [] []) as [[rest caps]|] eqn:E; [|discriminate].
    intros H. injection H as <-.
    apply rmatch_sound in E as (u & s' & gs & Hs & M1 & E). injection E as <- <-.
    symmetry in Hs. apply app_eq_nil in Hs as [-> ->].
    exists 0%nat, [], [], gs. repeat split; solve [exact M1 | simpl; lia].
  - change (searchFrom n0 r (c :: s))
      with (match matchHere n0 r (c :: s) with
            | Some (rest, caps) =>
                Some (take (length (c :: s) - length rest) (c :: s) :: caps)
            | None => searchFrom n0 r s
            end).
    unfold matchHere.
    destruct (rmatch n0 r _ (c :: s) []) as [[rest caps]|] eqn:E.
    + intros H. injection H as <-.
      apply rmatch_sound in E as (u & s' & gs & Hs & M1 & E). injection E as <- <-.
      exists 0%nat, u, s', gs. rewrite drop_0.
      split; [simpl; lia|]. split; [exact Hs|]. split; [exact M1|].
      change (S (length s)) with (length (c :: s)).
      rewrite Hs, take_prefix. reflexivity.
    + intros H. apply IH in H as (i & u & rest & caps & Hi & Hd & M1 & ->).
      exists (S i), u, rest, caps. repeat split; [simpl; lia | exact Hd | exact M1].
Qed.

(** A pattern that starts with [^] matches at the start of the input only;
    the match array is the matched text and the groups. *)
Lemma anchored_search r line l :
  exec (Seq Bol r) line = Some l →
  ∃ u rest caps,
    line = u ++ rest ∧ Matches (length line) r u rest caps ∧ l = u :: caps.
Proof.
  unfold exec. intros H.
  apply searchFrom_sound in H as (i & u & rest & caps & Hi & Hd & M1 & ->).
  inversion M1 as [| |r1 r2 u1 u2 s' g1 g2 Mb Mr| | | | | | |]; subst.
  inversion Mb as [| | | | | | |s'' Hlen| |]; subst.
  assert (length (drop i line) = length line) as Hlen' by (rewrite Hd; exact Hlen).
  rewrite length_drop in Hlen'. assert (i = 0%nat) as -> by lia.
  rewrite drop_0 in Hd. exists u2, rest, g2. auto.
Qed.

End MatcherSoundness.

(* ===================================================================== *)
(** ** Log lines: keyword search *)
(* ===================================================================== *)

Section Keywords.

Import LogTailer LogSpec.

(** [toLowerCase(text).includes(keyword)] is the search that ignores case. *)
Lemma includes_lower (text keyword : list N) :
  includes (toLowerCase text) keyword = true ↔ holds text keyword.
Proof.
  rewrite includes_spec. unfold holds, toLowerCase. split.
  - intros (i & pre & post & H & _).
    apply map_eq_app in H as (pre' & rest & -> & _ & H).
    apply map_eq_app in H as (mid & post' & -> & Hmid & _).
    exists pre', mid, post'. auto.
  - intros (pre & mid & post & -> & Hmid).
    exists (length (map lowerChar pre)), (map lowerChar pre), (map lowerChar post).
    rewrite !map_app, Hmid. auto.
Qed.

Lemma includes_lower_false (text keyword : list N) :
  includes (toLowerCase text) keyword = false ↔ ¬ holds text keyword.
Proof.
  rewrite <- includes_lower. destruct (includes (toLowerCase text) keyword);
    split; congruence.
Qed.

(** A text that holds a word holds every prefix of it. *)
Lemma includes_prefix (s a b : list N) :
  includes s (a ++ b) = true → includes s a = true.
Proof.
  rewrite !includes_spec. intros (i & pre & post & -> & Hi).
  exists i, pre, (b ++ post). rewrite <- app_assoc. auto.
Qed.

(** [detectLogLevel] infers the level the specification describes. *)
Lemma detectLogLevel_inferred (text : list N) :
  inferredLevel text (detectLogLevel text).
Proof.
  unfold detectLogLevel.
  destruct (includes (toLowerCase text) (lit "error")
            || includes (toLowerCase text) (lit "err")
            || includes (toLowerCase text) (lit "fatal")) eqn:Herr.
  { apply inferError. rewrite !orb_true_iff, !includes_lower in Herr. tauto. }
  assert (¬ (holds text (lit "error") ∨ holds text (lit "err")
             ∨ holds text (lit "fatal"))) as Hnoerr.
  { rewrite !orb_false_iff, !includes_lower_false in Herr. tauto. }
  destruct (includes (toLowerCase text) (lit "warn")
            || includes (toLowerCase text) (lit "warning")) eqn:Hwarn.
  { apply inferWarn; [exact Hnoerr|]. apply includes_lower.
    apply orb_true_iff in Hwarn as [H | H]; [exact H|].
    apply (includes_prefix _ (lit "warn") (lit "ing")), H. }
  assert (¬ holds text (lit "warn")) as Hnowarn.
  { rewrite !orb_false_iff, !includes_lower_false in Hwarn. tauto. }
  destruct (includes (toLowerCase text) (lit "debug")
            || includes (toLowerCase text) (lit "trace")) eqn:Hdbg.
  { apply inferDebug; [exact Hnoerr | exact Hnowarn|].
    rewrite !orb_true_iff, !includes_lower in Hdbg. exact Hdbg. }
  apply inferInfo; [exact Hnoerr | exact Hnowarn|].
  rewrite !orb_false_iff, !includes_lower_false in Hdbg. tauto.
Qed.

End Keywords.

(* ===================================================================== *)
(** ** Log lines: the two patterns *)
(* ===================================================================== *)

Section LogPatterns.

Import LogTailer LogSpec ReSem.

Ltac invM :=
  repeat match goal with
  | H : Matches _ (Seq _ _) _ _ _ |- _ => inversion H; clear H; subst
  | H : Matches _ (Chr _) _ _ _ |- _ => inversion H; clear H; subst
  | H : Matches _ (Alt _ _) _ _ _ |- _ => inversion H; clear H; subst
  | H : Matches _ (Star _) _ _ _ |- _ => inversion H; clear H; subst
  | H : Matches _ (Group _) _ _ _ |- _ => inversion H; clear H; subst
  | H : Matches _ Bol _ _ _ |- _ => inversion H; clear H; subst
  | H : Matches _ Eol _ _ _ |- _ => inversion H; clear H; subst
  | H : Matches _ Eps _ _ _ |- _ => inversion H; clear H; subst
  end.

Lemma isC_eq a c : isC a c = true → c = ch a.
Proof. unfold isC, ch. apply N.eqb_eq. Qed.

Ltac chars :=
  repeat match goal with
  | H : isC _ ?c = true |- _ => apply isC_eq in H; subst c
  end.

Lemma oneOf_T_blank c : oneOf "T " c = true → c = ch "T" ∨ c = ch " ".
Proof.
  unfold oneOf. simpl. rewrite !orb_true_iff, !N.eqb_eq. intros [H|[H|H]]; auto.
  discriminate.
Qed.

Lemma oneOf_sign c : oneOf "+-" c = true → c = ch "+" ∨ c = ch "-".
Proof.
  unfold oneOf. simpl. rewrite !orb_true_iff, !N.eqb_eq. intros [H|[H|H]]; auto.
  discriminate.
Qed.

Ltac digitsTac :=
  split; [reflexivity | simpl; repeat constructor; assumption].

Ltac fractionTac :=
  first [ left; reflexivity
        | right; eexists; split; [reflexivity|];
          split; [discriminate | simpl; constructor; assumption] ].

Ltac zoneTac :=
  match goal with
  | |- zone [] => left; reflexivity
  | |- zone [_] => right; left; reflexivity
  | |- zone ([?sg] ++ ?HH ++ [] ++ ?MM) =>
      right; right; exists sg, HH, MM;
      split; [apply oneOf_sign; assumption|];
      split; [digitsTac|]; split; [digitsTac|]; left; reflexivity
  | |- zone ([?sg] ++ ?HH ++ [_] ++ ?MM) =>
      right; right; exists sg, HH, MM;
      split; [apply oneOf_sign; assumption|];
      split; [digitsTac|]; split; [digitsTac|]; right; reflexivity
  end.

(** What the timestamp group matches is an ISO-8601 timestamp. *)
Lemma isoTimestamp_sound n0 u s' g :
  Matches n0 isoTimestamp u s' g → isoStamp u ∧ g = [].
Proof.
  intros M1. cbv [seqs plus opt times isoTimestamp] in M1. invM; chars.
  all: split; [|reflexivity].
  all: match goal with
       | |- isoStamp (?Y ++ [_] ++ ?MO ++ [_] ++ ?D ++ [?sep] ++ ?H ++ [_]
                        ++ ?MI ++ [_] ++ ?S ++ ?FR ++ ?Z) =>
           exists Y, MO, D, sep, H, MI, S, FR, Z
       end.
  all: split; [reflexivity|].
  all: split; [digitsTac|]; split; [digitsTac|]; split; [digitsTac|].
  all: split; [apply oneOf_T_blank; assumption|].
  all: split; [digitsTac|]; split; [digitsTac|]; split; [digitsTac|].
  all: split; [fractionTac | zoneTac].
Qed.

(** A line that matches the first pattern is a timestamp, blanks, and the
    rest; the match array holds the line, the timestamp and the rest. *)
Lemma iso_match_structure line l :
  exec isoPattern line = Some l →
  ∃ ts sp rest,
    l = [line; ts; rest]
    ∧ line = ts ++ sp ++ rest
    ∧ isoStamp ts
    ∧ Forall (fun c => isWhiteSpace c = true) sp.
Proof.
  intros H. apply anchored_search in H as (u & rest & caps & -> & M1 & ->).
  cbv [seqs] in M1. invM.
  match goal with
  | H : Matches _ isoTimestamp _ _ _ |- _ =>
      apply isoTimestamp_sound in H as [Hstamp ->]
  end.
  rewrite !app_nil_r. simpl. eauto 10.
Qed.

(** A line that matches the second pattern is a bracketed word, blanks, and
    the message. *)
Lemma level_match_structure line l :
  exec levelPattern line = Some l →
  ∃ word sp msg,
    l = [line; word; msg]
    ∧ line = ch "[" :: word ++ ch "]" :: sp ++ msg
    ∧ word ≠ [] ∧ Forall (fun c => isWord c = true) word
    ∧ Forall (fun c => isWhiteSpace c = true) sp.
Proof.
  intros H. apply anchored_search in H as (u & rest & caps & -> & M1 & ->).
  cbv [seqs plus] in M1. invM; chars.
  rewrite !app_nil_r. simpl.
  do 3 eexists. split; [reflexivity|]. split; [reflexivity|].
  split; [discriminate|]. split; [constructor; assumption | assumption].
Qed.

End LogPatterns.

(* ===================================================================== *)
(** ** Log lines: a timestamp holds no keyword *)
(* ===================================================================== *)

Section StampKeywords.

Import LogTailer LogSpec.

Lemma includes_cons (c : N) (s kw : list N) :
  includes (c :: s) kw = startsWith kw (c :: s) || includes s kw.
Proof. reflexivity. Qed.

(** A code unit of a timestamp does not start a keyword. *)
Lemma stampChar_skip (c : N) (s kw : list N) :
  kw ∈ keywords → stampChar c = true →
  includes (lowerChar c :: s) kw = includes s kw.
Proof.
  intros Hkw Hc. rewrite includes_cons.
  assert (lowerChar c ≠ 101 ∧ lowerChar c ≠ 102 ∧ lowerChar c ≠ 119
          ∧ lowerChar c ≠ 100 ∧ lowerChar c ≠ 116)%N as (He & Hf & Hw & Hd & Ht).
  { unfold stampChar, isDigit, isWhiteSpace, oneOf in Hc. simpl in Hc.
    unfold lowerChar, isUpper.
    rewrite !orb_true_iff, !andb_true_iff, !N.eqb_eq, !N.leb_le in Hc.
    destruct ((65 <=? c) && (c <=? 90))%N eqn:Hup.
    - apply andb_true_iff in Hup as [H1 H2].
      apply N.leb_le in H1. apply N.leb_le in H2. lia.
    - apply andb_false_iff in Hup. rewrite !N.leb_gt in Hup. lia. }
  unfold keywords in Hkw.
  repeat (apply elem_of_cons in Hkw as [-> | Hkw]);
    [..|apply elem_of_nil in Hkw; contradiction];
    match goal with
    | |- startsWith ?kw _ || _ = _ =>
        let kw' := eval cbv in kw in change kw with kw'
    end;
    cbn [startsWith];
    match goal with
    | |- (?k =? _)%N && _ || _ = _ =>
        destruct (N.eqb_spec k (lowerChar c)) as [E|_];
          [congruence | reflexivity]
    end.
Qed.

Lemma stampChars_skip (pre s kw : list N) :
  kw ∈ keywords → Forall (fun c => stampChar c = true) pre →
  includes (toLowerCase pre ++ s) kw = includes s kw.
Proof.
  intros Hkw Hpre. unfold toLowerCase.
  induction Hpre as [|c pre Hc _ IH]; [reflexivity|].
  rewrite map_cons, <- app_comm_cons.
  rewrite stampChar_skip by assumption. exact IH.
Qed.

(** The [T] of a timestamp stands before a digit: it starts no keyword
    either. *)
Lemma stampT_skip (d : N) (s kw : list N) :
  kw ∈ keywords → isDigit d = true →
  includes (lowerChar (ch "T") :: lowerChar d :: s) kw
  = includes (lowerChar d :: s) kw.
Proof.
  intros Hkw Hd. rewrite includes_cons.
  assert (lowerChar d ≠ 114%N) as Hr.
  { unfold isDigit in Hd. unfold lowerChar, isUpper.
    rewrite andb_true_iff, !N.leb_le in Hd.
    destruct ((65 <=? d) && (d <=? 90))%N eqn:Hup.
    - apply andb_true_iff in Hup as [H1 H2].
      apply N.leb_le in H1. apply N.leb_le in H2. lia.
    - lia. }
  assert (lowerChar (ch "T") = 116%N) as -> by reflexivity.
  unfold keywords in Hkw.
  repeat (apply elem_of_cons in Hkw as [-> | Hkw]);
    [..|apply elem_of_nil in Hkw; contradiction];
    match goal with
    | |- startsWith ?kw _ || _ = _ =>
        let kw' := eval cbv in kw in change kw with kw'
    end;
    cbn [startsWith]; try reflexivity.
  change (116 =? 116)%N with true. cbn [andb].
  destruct (N.eqb_spec 114 (lowerChar d)) as [E|_];
    [congruence | reflexivity].
Qed.

Lemma digits_stampChars n l : digits n l → Forall (fun c => stampChar c = true) l.
Proof.
  intros [_ H]. eapply Forall_impl; [exact H|].
  intros c Hc. unfold stampChar. rewrite Hc. reflexivity.
Qed.

Lemma fraction_stampChars l : fraction l → Forall (fun c => stampChar c = true) l.
Proof.
  intros [-> | (ds & -> & _ & H)]; [constructor|].
  constructor; [reflexivity|]. eapply Forall_impl; [exact H|].
  intros c Hc. unfold stampChar. rewrite Hc. reflexivity.
Qed.

Lemma zone_stampChars l : zone l → Forall (fun c => stampChar c = true) l.
Proof.
  intros [-> | [-> | (sg & hh & mm & Hsg & Hhh & Hmm & Hl)]];
    [constructor | repeat constructor |].
  apply digits_stampChars in Hhh. apply digits_stampChars in Hmm.
  assert (stampChar sg = true) by (destruct Hsg as [-> | ->]; reflexivity).
  destruct Hl as [-> | ->]; constructor; try assumption;
    apply Forall_app; split; try assumption.
  constructor; [reflexivity | assumption].
Qed.

Lemma blanks_stampChars l :
  Forall (fun c => isWhiteSpace c = true) l → Forall (fun c => stampChar c = true) l.
Proof.
  intros H. eapply Forall_impl; [exact H|].
  intros c Hc. unfold stampChar. simpl in Hc. rewrite Hc.
  rewrite orb_true_r. reflexivity.
Qed.

(** In front of any text, a timestamp and blanks add no keyword. *)
Lemma stamp_holds_no_keyword (ts sp rest kw : list N) :
  kw ∈ keywords → isoStamp ts →
  Forall (fun c => isWhiteSpace c = true) sp →
  includes (toLowerCase (ts ++ sp ++ rest)) kw
  = includes (toLowerCase rest) kw.
Proof.
  intros Hkw (y & mo & d & sep & h & mi & s & fr & z & -> & Hy & Hmo & Hd & Hsep
              & Hh & Hmi & Hs & Hfr & Hz) Hsp.
  assert (Forall (fun c => stampChar c = true) (y ++ ch "-" :: mo ++ ch "-" :: d))
    as Hdate.
  { apply Forall_app. split; [eapply digits_stampChars, Hy|].
    constructor; [reflexivity|]. apply Forall_app.
    split; [eapply digits_stampChars, Hmo|].
    constructor; [reflexivity | eapply digits_stampChars, Hd]. }
  assert (Forall (fun c => stampChar c = true)
            (h ++ ch ":" :: mi ++ ch ":" :: s ++ fr ++ z ++ sp)) as Htime.
  { apply Forall_app. split; [eapply digits_stampChars, Hh|].
    constructor; [reflexivity|]. apply Forall_app.
    split; [eapply digits_stampChars, Hmi|].
    constructor; [reflexivity|]. apply Forall_app.
    split; [eapply digits_stampChars, Hs|]. apply Forall_app.
    split; [apply fraction_stampChars, Hfr|]. apply Forall_app.
    split; [apply zone_stampChars, Hz | apply blanks_stampChars, Hsp]. }
  replace ((y ++ ch "-" :: mo ++ ch "-" :: d ++ sep :: h ++ ch ":" :: mi
              ++ ch ":" :: s ++ fr ++ z) ++ sp ++ rest)
    with ((y ++ ch "-" :: mo ++ ch "-" :: d)
            ++ sep :: (h ++ ch ":" :: mi ++ ch ":" :: s ++ fr ++ z ++ sp) ++ rest)
    by (repeat (rewrite <- ?app_assoc; simpl); reflexivity).
  unfold toLowerCase. rewrite map_app.
  rewrite (stampChars_skip _ _ _ Hkw Hdate).
  rewrite map_cons, map_app.
  destruct Hsep as [-> | ->].
  - destruct Hh as [Hlen Hh]. destruct h as [|h1 h']; [discriminate|].
    inversion Hh as [|? ? Hh1 _]; subst.
    change (map lowerChar ((h1 :: h') ++ ch ":" :: mi ++ ch ":" :: s ++ fr ++ z ++ sp))
      with (lowerChar h1
              :: map lowerChar (h' ++ ch ":" :: mi ++ ch ":" :: s ++ fr ++ z ++ sp)).
    simpl app at 1.
    rewrite (stampT_skip h1 _ kw Hkw Hh1).
    change (lowerChar h1
              :: map lowerChar (h' ++ ch ":" :: mi ++ ch ":" :: s ++ fr ++ z ++ sp)
              ++ map lowerChar rest)
      with (toLowerCase ((h1 :: h') ++ ch ":" :: mi ++ ch ":" :: s ++ fr ++ z ++ sp)
              ++ map lowerChar rest).
    apply (stampChars_skip _ _ _ Hkw Htime).
  - rewrite (stampChar_skip (ch " ") _ kw Hkw eq_refl).
    apply (stampChars_skip _ _ _ Hkw Htime).
Qed.

(** So the level inferred from the rest is the level inferred from the
    line. *)
Lemma detectLogLevel_stamp (ts sp rest : list N) :
  isoStamp ts → Forall (fun c => isWhiteSpace c = true) sp →
  detectLogLevel rest = detectLogLevel (ts ++ sp ++ rest).
Proof.
  intros Hts Hsp. unfold detectLogLevel.
  rewrite !(stamp_holds_no_keyword ts sp rest) by
    (first [exact Hts | exact Hsp | unfold keywords; set_solver]).
  reflexivity.
Qed.

End StampKeywords.

(** C9. [parseLogLine] tries the ISO-8601 pattern first: a line that matches
    it is a timestamp, blanks and a rest, and the entry holds that timestamp,
    the rest as content, and the level inferred from the line.  Otherwise it
    tries the bracketed pattern: a line that matches is a bracketed word,
    blanks and a message, and the entry holds the receive time, the message,
    and the word in lower case as level.  Otherwise the entry holds the
    receive time, the whole line, and the level inferred from the line.  The
    inferred level is found by a search that ignores case: [error] when the
    text holds [error], [err] or [fatal]; else [warn] when it holds [warn];
    else [debug] when it holds [debug] or [trace]; else [info]. *)
Theorem parseLogLine_spec (now : Z) (line : list N) :
  (test LogTailer.isoPattern line = true →
   ∃ ts sp rest lvl,
     line = ts ++ sp ++ rest
     ∧ LogSpec.isoStamp ts
     ∧ Forall (fun c => isWhiteSpace c = true) sp
     ∧ LogTailer.parseLogLine now line
       = {| LogTailer.timestamp := LogTailer.DateOf ts;
            LogTailer.content := rest;
            LogTailer.level := lvl |}
     ∧ LogSpec.inferredLevel line lvl)
  ∧ (test LogTailer.isoPattern line = false →
     test LogTailer.levelPattern line = true →
     ∃ word sp msg,
       line = ch "[" :: word ++ ch "]" :: sp ++ msg
       ∧ word ≠ [] ∧ Forall (fun c => isWord c = true) word
       ∧ Forall (fun c => isWhiteSpace c = true) sp
       ∧ LogTailer.parseLogLine now line
         = {| LogTailer.timestamp := LogTailer.ReceivedAt now;
              LogTailer.content := msg;
              LogTailer.level := toLowerCase word |})
  ∧ (test LogTailer.isoPattern line = false →
     test LogTailer.levelPattern line = false →
     ∃ lvl,
       LogTailer.parseLogLine now line
       = {| LogTailer.timestamp := LogTailer.ReceivedAt now;
            LogTailer.content := line;
            LogTailer.level := lvl |}
       ∧ LogSpec.inferredLevel line lvl).
Proof.
  unfold test, LogTailer.parseLogLine.
  destruct (exec LogTailer.isoPattern line) as [l|] eqn:Hiso.
  - apply iso_match_structure in Hiso as (ts & sp & rest & -> & Hline & Hts & Hsp).
    split; [|split; discriminate].
    intros _. exists ts, sp, rest, (LogTailer.detectLogLevel rest).
    repeat split; try assumption.
    rewrite (detectLogLevel_stamp ts sp rest Hts Hsp), <- Hline.
    apply detectLogLevel_inferred.
  - split; [discriminate|].
    destruct (exec LogTailer.levelPattern line) as [l|] eqn:Hlevel.
    + apply level_match_structure in Hlevel
        as (word & sp & msg & -> & Hline & Hne & Hword & Hsp).
      split; [|discriminate]. intros _ _. exists word, sp, msg. auto.
    + split; [discriminate|]. intros _ _.
      exists (LogTailer.detectLogLevel line).
      split; [reflexivity | apply detectLogLevel_inferred].
Qed.

Lemma parseLogLine_spec_witness :
  (∃ lvl,
     LogTailer.parseLogLine 7 (lit "2024-05-01T10:20:30.5Z  disk Fatal")
     = {| LogTailer.timestamp := LogTailer.DateOf (lit "2024-05-01T10:20:30.5Z");
          LogTailer.content := lit "disk Fatal";
          LogTailer.level := lvl |}
     ∧ LogSpec.inferredLevel (lit "2024-05-01T10:20:30.5Z  disk Fatal") lvl)
  ∧ (∃ word msg,
       LogTailer.parseLogLine 7 (lit "[WARN] low disk")
       = {| LogTailer.timestamp := LogTailer.ReceivedAt 7;
            LogTailer.content := msg;
            LogTailer.level := toLowerCase word |}
       ∧ msg = lit "low disk" ∧ toLowerCase word = lit "warn")
  ∧ (∃ lvl,
       LogTailer.parseLogLine 7 (lit "Trace: enter")
       = {| LogTailer.timestamp := LogTailer.ReceivedAt 7;
            LogTailer.content := lit "Trace: enter";
            LogTailer.level := lvl |}
       ∧ LogSpec.inferredLevel (lit "Trace: enter") lvl).
Proof.
  split; [|split].
  - destruct (parseLogLine_spec 7 (lit "2024-05-01T10:20:30.5Z  disk Fatal"))
      as (Hiso & _ & _).
    destruct (Hiso eq_refl) as (ts & sp & rest & lvl & _ & _ & _ & Hparse & Hlvl).
    exists lvl. split; [|exact Hlvl].
    assert (LogTailer.timestamp
              (LogTailer.parseLogLine 7 (lit "2024-05-01T10:20:30.5Z  disk Fatal"))
            = LogTailer.DateOf (lit "2024-05-01T10:20:30.5Z")
            ∧ LogTailer.content
                (LogTailer.parseLogLine 7 (lit "2024-05-01T10:20:30.5Z  disk Fatal"))
              = lit "disk Fatal") as [Hts Hrest]
      by (split; vm_compute; reflexivity).
    rewrite Hparse in Hts, Hrest. simpl in Hts, Hrest.
    rewrite Hparse, Hrest. injection Hts as ->. reflexivity.
  - destruct (parseLogLine_spec 7 (lit "[WARN] low disk")) as (_ & Hlevel & _).
    destruct (Hlevel eq_refl eq_refl) as (word & sp & msg & _ & _ & _ & _ & Hparse).
    exists word, msg. split; [exact Hparse|].
    assert (LogTailer.parseLogLine 7 (lit "[WARN] low disk")
            = {| LogTailer.timestamp := LogTailer.ReceivedAt 7;
                 LogTailer.content := lit "low disk";
                 LogTailer.level := lit "warn" |}) as Hval
      by (vm_compute; reflexivity).
    rewrite Hparse in Hval. injection Hval as Hmsg Hword. auto.
  - destruct (parseLogLine_spec 7 (lit "Trace: enter")) as (_ & _ & Hplain).
    exact (Hplain eq_refl eq_refl).
Defined.

(* ===================================================================== *)
(** ** Scenarios of the specification *)
(* ===================================================================== *)

(** Two incremental polls with nothing written in between: the second one
    reports no new content and an empty output. *)
Example poll_twice_no_new_content :
  let p := Poller.outputListener 1024 (lit "building") 1010 Examples.makeProcess in
  let first := Poller.pollRecord true 1020 p in
  let second := Poller.pollRecord true 1030 (snd first) in
  Poller.output (fst first) = lit "building"
  ∧ Poller.hasNewContent (fst first) = true
  ∧ Poller.output (fst second) = []
  ∧ Poller.hasNewContent (fst second) = false.
Proof. repeat split. Qed.

(** The listener of a background process drops the head of the buffer and
    moves the cursor back with it. *)
Example listener_trims_head :
  let p := snd (Poller.pollRecord true 1020
                  (Poller.outputListener 8 (lit "abcdef") 1010 Examples.makeProcess)) in
  let q := Poller.outputListener 8 (lit "ghijk") 1030 p in
  Poller.outputBuffer q = lit "defghijk" ∧ Poller.readPosition q = 3%Z.
Proof. split; reflexivity. Qed.

(** [stopProcess] on an unknown id does nothing. *)
Example stop_unknown_process :
  Poller.stopProcess (lit "nope") (Examples.worldWith ready 1024) ∅
  = (Examples.worldWith ready 1024, ∅).
Proof. reflexivity. Qed.

(** A session keeps the last [maxBufferSize] code units of what its pty
    wrote. *)
Example session_buffer_keeps_tail :
  outputBuffer (object (handleOutput 0 (lit "0123456789") (Examples.worldWith ready 4))
                  0%nat) = lit "6789".
Proof. reflexivity. Qed.

(* ===================================================================== *)
(** ** What a cleaned text is made of *)
(* ===================================================================== *)

Section Characters.

Lemma trimStart_elem c s : c ∈ trimStart s → c ∈ s.
Proof.
  induction s as [|a s IH]; simpl; [auto|].
  destruct (isWhiteSpace a); [|auto].
  intros H. apply elem_of_cons. right. auto.
Qed.

Lemma trimEnd_elem c s : c ∈ trimEnd s → c ∈ s.
Proof.
  induction s as [|a s IH]; simpl; [auto|].
  destruct (trimEnd s) as [|b t] eqn:E.
  - destruct (isWhiteSpace a); intros H.
    + apply elem_of_nil in H. tauto.
    + apply list_elem_of_singleton in H. subst. apply elem_of_cons. auto.
  - intros H. apply elem_of_cons in H as [->|H]; apply elem_of_cons; auto.
Qed.

Lemma trim_elem c s : c ∈ trim s → c ∈ s.
Proof. intros H. apply trimStart_elem, trimEnd_elem, H. Qed.

Lemma split_elem sep c l s : l ∈ split sep s → c ∈ l → c ∈ s.
Proof.
  revert l. induction s as [|a s IH]; simpl; intros l Hl Hc.
  - apply list_elem_of_singleton in Hl. subst. exact Hc.
  - destruct (a =? sep)%N.
    + apply elem_of_cons in Hl as [->|Hl].
      * apply elem_of_nil in Hc. tauto.
      * apply elem_of_cons. right. eauto.
    + destruct (split sep s) as [|l0 ls] eqn:E.
      * apply list_elem_of_singleton in Hl. subst. apply list_elem_of_singleton in Hc.
        subst. apply elem_of_cons. auto.
      * apply elem_of_cons in Hl as [->|Hl].
        -- apply elem_of_cons in Hc as [->|Hc]; apply elem_of_cons; [auto|].
           right. apply (IH l0); [apply elem_of_cons; auto | exact Hc].
        -- apply elem_of_cons. right. apply (IH l); [|exact Hc].
           apply elem_of_cons. auto.
Qed.

Lemma join_elem sep c ls :
  c ∈ join sep ls → c ∈ sep ∨ ∃ l, l ∈ ls ∧ c ∈ l.
Proof.
  induction ls as [|l ls IH]; simpl; intros H.
  - apply elem_of_nil in H. tauto.
  - destruct ls as [|l' ls'].
    + right. exists l. split; [apply elem_of_cons; auto | exact H].
    + apply elem_of_app in H as [H|H].
      * right. exists l. split; [apply elem_of_cons; auto | exact H].
      * apply elem_of_app in H as [H|H]; [auto|].
        destruct (IH H) as [?|(x & Hx & Hc)]; [auto|].
        right. exists x. split; [apply elem_of_cons; auto | exact Hc].
Qed.

(** A global replacement puts nothing into the text but the replacement. *)
Lemma replaceGo_elem n0 r repl c s skip :
  c ∈ replaceGo n0 r repl skip s → c ∈ repl ∨ c ∈ s.
Proof.
  revert skip. induction s as [|a s IH]; intros skip; simpl.
  - destruct skip; [|intros H; apply elem_of_nil in H; tauto].
    destruct (matchHere n0 r []) as [[rest ?]|]; intros H.
    + rewrite app_nil_r in H. auto.
    + apply elem_of_nil in H. tauto.
  - destruct skip as [|m].
    + destruct (matchHere n0 r (a :: s)) as [[rest ?]|].
      * intros H. apply elem_of_app in H as [H|H]; [auto|].
        destruct (S (length s) - length rest)%nat.
        -- apply elem_of_cons in H as [->|H]; [right; apply elem_of_cons; auto|].
           destruct (IH _ H); [auto | right; apply elem_of_cons; auto].
        -- destruct (IH _ H); [auto | right; apply elem_of_cons; auto].
      * intros H. apply elem_of_cons in H as [->|H]; [right; apply elem_of_cons; auto|].
        destruct (IH _ H); [auto | right; apply elem_of_cons; auto].
    + intros H. destruct (IH _ H); [auto | right; apply elem_of_cons; auto].
Qed.

Lemma replaceAll_elem r repl c s : c ∈ replaceAll r repl s → c ∈ repl ∨ c ∈ s.
Proof. apply replaceGo_elem. Qed.

Lemma replaceAll_keeps_out r repl c s :
  c ∉ repl → c ∉ s → c ∉ replaceAll r repl s.
Proof. intros Hr Hs H. apply replaceAll_elem in H. tauto. Qed.

(** Replacing a one-character class replaces each of its characters. *)
Lemma replaceGo_Chr n0 p repl s :
  replaceGo n0 (Chr p) repl 0 s
  = flat_map (fun c => if p c then repl else [c]) s.
Proof.
  induction s as [|a s IH]; [reflexivity|].
  cbn [replaceGo flat_map]. unfold matchHere. cbn [rmatch].
  destruct (p a).
  - replace (length (a :: s) - length s)%nat with 1%nat by (simpl; lia).
    rewrite IH. reflexivity.
  - rewrite IH. reflexivity.
Qed.

Lemma replaceAll_Chr_out c repl s :
  c ∉ repl → c ∉ replaceAll (Chr (code c)) repl s.
Proof.
  intros Hr. unfold replaceAll. rewrite replaceGo_Chr.
  intros H. apply list_elem_of_In, in_flat_map in H as (x & _ & Hx).
  unfold code in Hx. destruct (N.eqb_spec x c) as [Heq|Hne].
  - apply Hr, list_elem_of_In, Hx.
  - destruct Hx as [Hx|[]]. congruence.
Qed.

Lemma lines_trimEnd_elem c s :
  c ∈ join [LF] (map trimEnd (split LF s)) → c = LF ∨ c ∈ s.
Proof.
  intros H. apply join_elem in H as [H|(l & Hl & Hc)].
  - left. apply list_elem_of_singleton in H. exact H.
  - right. apply list_elem_of_fmap in Hl as (l0 & -> & Hl0).
    eapply split_elem; [exact Hl0 | apply trimEnd_elem, Hc].
Qed.

End Characters.

Section ControlCharacters.

(** The last four steps of [cleanOutput] add line feeds at most. *)
Lemma cleanOutput_tail_out c s :
  c ≠ LF → c ∉ s →
  c ∉ trim (join [LF] (map trimEnd (split LF
         (replaceAll reBlankRun [LF; LF] (replaceAll reLoneEsc [] s))))).
Proof.
  intros Hc Hs H. apply trim_elem, lines_trimEnd_elem in H as [H|H]; [congruence|].
  apply replaceAll_elem in H as [H|H].
  - apply elem_of_cons in H as [H|H]; [congruence|].
    apply list_elem_of_singleton in H. congruence.
  - apply replaceAll_elem in H as [H|H]; [apply elem_of_nil in H; tauto | tauto].
Qed.

End ControlCharacters.

(** X1. The text [cleanOutput] returns holds no carriage return, no
    backspace and no bell character, whatever the input. *)
Theorem cleanOutput_no_control_characters (output : list N) :
  (CR ∉ cleanOutput output) ∧ (BS ∉ cleanOutput output)
  ∧ (BEL ∉ cleanOutput output).
Proof.
  unfold cleanOutput.
  set (s9 := replaceAll reCrLf [LF] _).
  assert (CR ∉ replaceAll reCr [LF] s9) as Hcr.
  { apply replaceAll_Chr_out. intros H. apply list_elem_of_singleton in H. discriminate. }
  set (s10 := replaceAll reCr [LF] s9) in *.
  assert (BS ∉ replaceAll reBs [] s10) as Hbs.
  { apply replaceAll_Chr_out, not_elem_of_nil. }
  assert (CR ∉ replaceAll reBs [] s10) as Hcr1.
  { apply replaceAll_keeps_out; [apply not_elem_of_nil | exact Hcr]. }
  set (s11 := replaceAll reBs [] s10) in *.
  assert (BEL ∉ replaceAll reBel [] s11) as Hbel.
  { apply replaceAll_Chr_out, not_elem_of_nil. }
  assert (CR ∉ replaceAll reBel [] s11) as Hcr2.
  { apply replaceAll_keeps_out; [apply not_elem_of_nil | exact Hcr1]. }
  assert (BS ∉ replaceAll reBel [] s11) as Hbs2.
  { apply replaceAll_keeps_out; [apply not_elem_of_nil | exact Hbs]. }
  set (s12 := replaceAll reBel [] s11) in *.
  repeat split; apply cleanOutput_tail_out; try discriminate; assumption.
Qed.

(* ===================================================================== *)
(** ** Trimming *)
(* ===================================================================== *)

Section Trimming.

Lemma trimEnd_idempotent s : trimEnd (trimEnd s) = trimEnd s.
Proof.
  induction s as [|a s IH]; simpl; [reflexivity|].
  destruct (trimEnd s) as [|b t] eqn:E.
  - destruct (isWhiteSpace a) eqn:Ea; simpl; [reflexivity|]. rewrite Ea. reflexivity.
  - simpl in *. rewrite IH. reflexivity.
Qed.

Lemma trimStart_head s :
  trimStart s = [] ∨ ∃ a t, trimStart s = a :: t ∧ isWhiteSpace a = false.
Proof.
  induction s as [|a s IH]; simpl; [auto|].
  destruct (isWhiteSpace a) eqn:E; [exact IH|]. right. eauto.
Qed.

Lemma trimEnd_head a s :
  isWhiteSpace a = false → ∃ t, trimEnd (a :: s) = a :: t.
Proof.
  intros Ha. simpl. destruct (trimEnd s); [rewrite Ha|]; eauto.
Qed.

Lemma trim_idempotent s : trim (trim s) = trim s.
Proof.
  unfold trim. destruct (trimStart_head s) as [->|(a & t & -> & Ha)]; [reflexivity|].
  destruct (trimEnd_head a t Ha) as (t' & E).
  rewrite E. simpl trimStart. rewrite Ha, <- E. apply trimEnd_idempotent.
Qed.

(** A line without white space at its end keeps none when it loses its
    first character. *)
Lemma noTrailingBlank_tail a l :
  Text.noTrailingBlank (a :: l) → Text.noTrailingBlank l.
Proof.
  unfold Text.noTrailingBlank. simpl.
  destruct (trimEnd l) as [|b t] eqn:E.
  - destruct (isWhiteSpace a); intros H; [discriminate|].
    injection H as <-. reflexivity.
  - intros H. injection H as <-. reflexivity.
Qed.

Lemma noTrailingBlank_cons a l :
  Text.noTrailingBlank l → l ≠ [] ∨ isWhiteSpace a = false →
  Text.noTrailingBlank (a :: l).
Proof.
  unfold Text.noTrailingBlank. intros Hl Ha. simpl. rewrite Hl.
  destruct l as [|b l]; [|reflexivity].
  destruct Ha as [Ha|Ha]; [congruence|]. rewrite Ha. reflexivity.
Qed.

Lemma noTrailingBlank_single a :
  Text.noTrailingBlank [a] → isWhiteSpace a = false.
Proof.
  unfold Text.noTrailingBlank. simpl. destruct (isWhiteSpace a); [discriminate|auto].
Qed.

Lemma lines_tail a s :
  Forall Text.noTrailingBlank (split LF (a :: s)) →
  Forall Text.noTrailingBlank (split LF s).
Proof.
  simpl. destruct (a =? LF)%N.
  - intros H. inversion H; assumption.
  - destruct (split LF s) as [|l ls] eqn:E.
    + exfalso. eapply split_nonempty, E.
    + intros H. inversion H as [|? ? Hl Hls]; subst.
      constructor; [eapply noTrailingBlank_tail, Hl | exact Hls].
Qed.

Lemma lines_trimStart s :
  Forall Text.noTrailingBlank (split LF s) →
  Forall Text.noTrailingBlank (split LF (trimStart s)).
Proof.
  induction s as [|a s IH]; [auto|].
  intros H. simpl trimStart. destruct (isWhiteSpace a); [|exact H].
  apply IH. eapply lines_tail, H.
Qed.

Lemma split_head_nil s l ls :
  split LF s = l :: ls → l = [] → s = [] ∨ ∃ s', s = LF :: s'.
Proof.
  destruct s as [|a s]; [auto|]. simpl.
  destruct (N.eqb_spec a LF) as [->|Hne]; [eauto|].
  destruct (split LF s); intros H ->; discriminate.
Qed.

Lemma split_cons_LF s : split LF (LF :: s) = [] :: split LF s.
Proof. reflexivity. Qed.

Lemma split_cons_other a s l ls :
  a ≠ LF → split LF s = l :: ls → split LF (a :: s) = (a :: l) :: ls.
Proof.
  intros Hne E. simpl. destruct (N.eqb_spec a LF); [congruence|].
  rewrite E. reflexivity.
Qed.

Lemma lines_trimEnd s :
  Forall Text.noTrailingBlank (split LF s) →
  Forall Text.noTrailingBlank (split LF (trimEnd s)).
Proof.
  induction s as [|a s IH]; [auto|].
  intros H. pose proof (IH (lines_tail _ _ H)) as IH'. clear IH.
  simpl trimEnd. destruct (trimEnd s) as [|b t] eqn:E.
  - destruct (isWhiteSpace a) eqn:Ea; [repeat constructor|].
    simpl. destruct (N.eqb_spec a LF) as [->|_]; [discriminate|].
    repeat constructor. unfold Text.noTrailingBlank. simpl. rewrite Ea. reflexivity.
  - destruct (N.eqb_spec a LF) as [->|Hne].
    + rewrite split_cons_LF. constructor; [reflexivity | exact IH'].
    + destruct (split LF (b :: t)) as [|l ls] eqn:El.
      { exfalso. eapply split_nonempty, El. }
      destruct (split LF s) as [|l0 ls0] eqn:El0.
      { exfalso. eapply split_nonempty, El0. }
      rewrite (split_cons_other a (b :: t) l ls Hne El).
      rewrite (split_cons_other a s l0 ls0 Hne El0) in H.
      inversion H as [|? ? Hl0 _]; subst.
      inversion IH' as [|? ? Hl Hls]; subst.
      constructor; [|exact Hls].
      apply noTrailingBlank_cons; [exact Hl|].
      destruct l as [|c l]; [right | left; discriminate].
      (* the first line of the trimmed rest is empty: it starts with a line
         feed, and so does the rest itself *)
      destruct (split_head_nil _ _ _ El eq_refl) as [?|(t' & Ht)]; [discriminate|].
      injection Ht as -> ->.
      destruct s as [|c s]; [discriminate|].
      assert (c = LF) as ->.
      { simpl in E. destruct (trimEnd s); [destruct (isWhiteSpace c)|]; congruence. }
      rewrite split_cons_LF in El0. injection El0 as <- _.
      apply noTrailingBlank_single, Hl0.
Qed.

Lemma lines_trim s :
  Forall Text.noTrailingBlank (split LF s) →
  Forall Text.noTrailingBlank (split LF (trim s)).
Proof. intros H. apply lines_trimEnd, lines_trimStart, H. Qed.

Lemma trimEnd_no_LF l : LF ∉ l → LF ∉ trimEnd l.
Proof. intros H Hin. apply H, trimEnd_elem, Hin. Qed.

Lemma lines_of_trimmed_lines s :
  split LF (join [LF] (map trimEnd (split LF s))) = map trimEnd (split LF s).
Proof.
  apply split_join.
  - pose proof (split_nonempty LF s). destruct (split LF s); [congruence|discriminate].
  - apply Forall_fmap. eapply Forall_impl; [apply split_no_sep|].
    intros l Hl. apply trimEnd_no_LF, Hl.
Qed.

End Trimming.

(** X2. The text [cleanOutput] returns has no white space at its start or at
    its end, and none of its lines ends in white space. *)
Theorem cleanOutput_trimmed (output : list N) :
  Text.trimmed (cleanOutput output)
  ∧ Forall Text.noTrailingBlank (split LF (cleanOutput output)).
Proof.
  unfold cleanOutput. split; [apply trim_idempotent|].
  apply lines_trim. rewrite lines_of_trimmed_lines.
  apply Forall_fmap, Forall_forall. intros l _. apply trimEnd_idempotent.
Qed.

(* ===================================================================== *)
(** ** The echo filter *)
(* ===================================================================== *)

Section EchoFilter.

Lemma echoFilter_skipped w (ls : list (list N)) :
  echoFilter w true ls = List.filter Text.nonBlank ls.
Proof.
  induction ls as [|l ls IH]; simpl; [reflexivity|].
  unfold Text.nonBlank at 1. destruct (isEmpty (trim l)); simpl; rewrite IH; reflexivity.
Qed.

Lemma echoFilter_fresh w (ls : list (list N)) :
  echoFilter w false ls
  = Text.removeFirst (Text.echoes w) (List.filter Text.nonBlank ls).
Proof.
  induction ls as [|l ls IH]; simpl; [reflexivity|].
  unfold Text.nonBlank at 1. destruct (isEmpty (trim l)); simpl; [exact IH|].
  unfold Text.echoes at 1.
  destruct (negb (isEmpty w) && includes (trim l) w).
  - apply echoFilter_skipped.
  - rewrite IH. reflexivity.
Qed.

End EchoFilter.

(** X3. [cleanCommandEcho] returns the lines of the output that are not
    blank, without the first of them whose trimmed text holds the first word
    of the command (when that word is not empty); every other line is kept, in
    order. *)
Theorem cleanCommandEcho_removes_first_echo (output command : list N) :
  cleanCommandEcho output command
  = join [LF]
      (Text.removeFirst (Text.echoes (firstWord command))
         (List.filter Text.nonBlank (split LF output))).
Proof. unfold cleanCommandEcho. rewrite echoFilter_fresh. reflexivity. Qed.

(* ===================================================================== *)
(** ** Texts without blank lines *)
(* ===================================================================== *)

Section NoBlankLines.

Lemma nonBlank_trimEnd l : Text.nonBlank l = true → trimEnd l ≠ [].
Proof.
  unfold Text.nonBlank. intros H E. apply trimEnd_nil, trim_nil in E.
  rewrite E in H. discriminate.
Qed.

Lemma nonBlank_trimStart l : Text.nonBlank l = true → trimStart l ≠ [].
Proof.
  unfold Text.nonBlank, trim. intros H E. rewrite E in H. discriminate.
Qed.

Lemma nonBlank_exists l :
  Text.nonBlank l = true ↔ Exists (fun c => isWhiteSpace c = false) l.
Proof.
  unfold Text.nonBlank. split.
  - intros H.
    assert (Forall (fun c => isWhiteSpace c = true) l
            ∨ Exists (fun c => isWhiteSpace c = false) l) as [Hall|Hex];
      [| |exact Hex].
    { clear H. induction l as [|a l [IH|IH]]; [left; constructor | |].
      - destruct (isWhiteSpace a) eqn:E; [left|right]; constructor; assumption.
      - right. apply Exists_cons_tl, IH. }
    apply trim_nil in Hall. rewrite Hall in H. discriminate.
  - intros Hex. destruct (trim l) eqn:E; [|reflexivity].
    apply trim_nil in E. apply Exists_exists in Hex as (c & Hc & Hw).
    rewrite Forall_forall in E. rewrite (E c Hc) in Hw. discriminate.
Qed.

Lemma trimEnd_app p x : trimEnd x ≠ [] → trimEnd (p ++ x) = p ++ trimEnd x.
Proof.
  intros Hx. induction p as [|a p IH]; [reflexivity|].
  simpl. rewrite IH. destruct (p ++ trimEnd x) eqn:E; [|reflexivity].
  apply app_eq_nil in E as [_ E]. congruence.
Qed.

Lemma trimStart_app l rest :
  trimStart l ≠ [] → trimStart (l ++ rest) = trimStart l ++ rest.
Proof.
  induction l as [|a l IH]; simpl; [congruence|].
  destruct (isWhiteSpace a); [exact IH | reflexivity].
Qed.

Lemma nonBlank_of_trimStart l :
  Text.nonBlank l = true → Text.nonBlank (trimStart l) = true.
Proof.
  rewrite !nonBlank_exists. induction l as [|a l IH]; simpl; [auto|].
  destruct (isWhiteSpace a) eqn:E; [|auto].
  intros H. apply IH. inversion H; subst; [congruence | assumption].
Qed.

Lemma nonBlank_of_trimEnd l :
  Text.nonBlank l = true → Text.nonBlank (trimEnd l) = true.
Proof.
  intros H. unfold Text.nonBlank in *.
  destruct (trim (trimEnd l)) eqn:E; [|reflexivity].
  apply trim_nil, trimEnd_nil in E. rewrite trimEnd_idempotent in E.
  apply trimEnd_nil, trim_nil in E. rewrite E in H. discriminate.
Qed.

Lemma join_cons l l' ls :
  join [LF] (l :: l' :: ls) = l ++ LF :: join [LF] (l' :: ls).
Proof. reflexivity. Qed.

Lemma join_nonBlank ls :
  ls ≠ [] → Forall (fun l => Text.nonBlank l = true) ls →
  trimEnd (join [LF] ls) ≠ [].
Proof.
  intros Hne Hall E. apply trimEnd_nil in E.
  destruct ls as [|l ls]; [congruence|].
  inversion Hall as [|? ? Hl _]; subst.
  apply nonBlank_exists, Exists_exists in Hl as (c & Hc & Hw).
  rewrite Forall_forall in E. rewrite E in Hw; [discriminate|].
  destruct ls; [exact Hc|]. rewrite join_cons. apply elem_of_app. auto.
Qed.

(** Trimming the end of a text without blank lines trims its last line. *)
Lemma trimEnd_join ls :
  ls ≠ [] → Forall (fun l => Text.nonBlank l = true) ls →
  Forall (fun l => LF ∉ l) ls →
  ∃ ls', trimEnd (join [LF] ls) = join [LF] ls' ∧ ls' ≠ []
         ∧ Forall (fun l => Text.nonBlank l = true) ls'
         ∧ Forall (fun l => LF ∉ l) ls'.
Proof.
  induction ls as [|l ls IH]; intros Hne Hnb Hlf; [congruence|].
  inversion Hnb as [|? ? Hl Hls]; subst. inversion Hlf as [|? ? Hl' Hls']; subst.
  destruct ls as [|l2 ls].
  - exists [trimEnd l]. simpl. repeat split; [discriminate | |].
    + repeat constructor. apply nonBlank_of_trimEnd, Hl.
    + repeat constructor. apply trimEnd_no_LF, Hl'.
  - destruct (IH ltac:(discriminate) Hls Hls') as (ls' & E & Hne' & Hnb' & Hlf').
    exists (l :: ls'). rewrite join_cons.
    change (l ++ LF :: join [LF] (l2 :: ls)) with (l ++ [LF] ++ join [LF] (l2 :: ls)).
    rewrite app_assoc, trimEnd_app by (apply join_nonBlank; [discriminate | exact Hls]).
    rewrite E, <- app_assoc. destruct ls' as [|l3 ls']; [congruence|].
    repeat split; [discriminate | |]; constructor; assumption.
Qed.

Lemma trimStart_join l ls :
  Text.nonBlank l = true →
  trimStart (join [LF] (l :: ls)) = join [LF] (trimStart l :: ls).
Proof.
  intros Hl. destruct ls as [|l2 ls]; [reflexivity|].
  rewrite !join_cons. apply trimStart_app, nonBlank_trimStart, Hl.
Qed.

Lemma trimStart_no_LF l : LF ∉ l → LF ∉ trimStart l.
Proof. intros H Hin. apply H, trimStart_elem, Hin. Qed.

(** Trimming a text without blank lines leaves a text without blank lines. *)
Lemma trim_join ls :
  ls ≠ [] → Forall (fun l => Text.nonBlank l = true) ls →
  Forall (fun l => LF ∉ l) ls →
  Forall (fun l => Text.nonBlank l = true) (split LF (trim (join [LF] ls))).
Proof.
  intros Hne Hnb Hlf. unfold trim.
  destruct ls as [|l ls]; [congruence|].
  inversion Hnb as [|? ? Hl Hls]; subst. inversion Hlf as [|? ? Hl' Hls']; subst.
  rewrite trimStart_join by exact Hl.
  destruct (trimEnd_join (trimStart l :: ls)) as (ls' & -> & Hne' & Hnb' & Hlf').
  - discriminate.
  - constructor; [apply nonBlank_of_trimStart, Hl | exact Hls].
  - constructor; [apply trimStart_no_LF, Hl' | exact Hls'].
  - rewrite split_join; assumption.
Qed.

End NoBlankLines.

(** X4. The text [fullCleanOutput] returns has no white space at its start
    or at its end and, unless it is empty, no blank line. *)
Theorem fullCleanOutput_no_blank_line (output command : list N)
    (markers : option Markers) :
  Text.trimmed (fullCleanOutput output command markers)
  ∧ (fullCleanOutput output command markers = []
     ∨ Forall (fun l => Text.nonBlank l = true)
         (split LF (fullCleanOutput output command markers))).
Proof.
  unfold fullCleanOutput. cbv zeta. split; [apply trim_idempotent|].
  set (cleaned := match markers with
                  | Some m => cleanMarkers (cleanOutput output) m
                  | None => cleanOutput output
                  end).
  unfold cleanPrompt, filterLines, cleanCommandEcho.
  pose proof (echoFilter_nonblank (firstWord command) false (split LF cleaned)) as Hnb.
  pose proof (echoFilter_sublist (firstWord command) false (split LF cleaned)) as Hsub.
  destruct (echoFilter (firstWord command) false (split LF cleaned)) as [|l ls] eqn:E.
  - left. simpl. destruct (keepPrompt []); reflexivity.
  - rewrite (kept_lines_roundtrip cleaned) by (auto; discriminate).
    destruct (List.filter keepPrompt (l :: ls)) as [|k ks] eqn:Ek; [left; reflexivity|].
    right. apply trim_join; [discriminate | |].
    + rewrite <- Ek. eapply sublist_Forall; [apply filter_sublist|].
      eapply Forall_impl; [exact Hnb|]. intros x Hx. unfold Text.nonBlank.
      rewrite Hx. reflexivity.
    + rewrite <- Ek. eapply sublist_Forall; [apply filter_sublist|].
      eapply sublist_Forall; [exact Hsub | apply split_no_sep].
Qed.

(* ===================================================================== *)
(** ** Where a token can occur in a text *)
(* ===================================================================== *)

Section Tokens.

Lemma first_line_app (m post : list N) :
  LF ∉ m → ∃ l ls, split LF (m ++ post) = (m ++ l) :: ls.
Proof.
  induction m as [|a m IH]; intros Hm.
  - pose proof (split_nonempty LF post). simpl.
    destruct (split LF post) as [|l ls]; [congruence | eauto].
  - apply not_elem_of_cons in Hm as [Ha Hm].
    destruct (IH Hm) as (l & ls & E). exists l, ls.
    simpl. destruct (N.eqb_spec a LF); [congruence|]. rewrite E. reflexivity.
Qed.

Lemma includes_here (m l : list N) : includes (m ++ l) m = true.
Proof.
  apply includes_spec. exists 0%nat. apply occursAt_0, startsWith_spec. eauto.
Qed.

(** A token that occurs in a text occurs in one of its lines. *)
Lemma includes_line (s m : list N) :
  LF ∉ m → includes s m = true → ∃ l, l ∈ split LF s ∧ includes l m = true.
Proof.
  intros Hm H. apply includes_spec in H as (i & pre & post & -> & _).
  clear i. induction pre as [|a pre IH].
  - destruct (first_line_app m post Hm) as (l & ls & E). simpl. rewrite E.
    exists (m ++ l). split; [apply elem_of_cons; auto | apply includes_here].
  - destruct IH as (l & Hl & Hi). simpl.
    destruct (a =? LF)%N.
    + exists l. split; [apply elem_of_cons; auto | exact Hi].
    + destruct (split LF (pre ++ m ++ post)) as [|l0 ls].
      * apply elem_of_nil in Hl. tauto.
      * apply elem_of_cons in Hl as [->|Hl].
        -- exists (a :: l0). split; [apply elem_of_cons; auto|].
           rewrite includes_cons, Hi. apply orb_true_r.
        -- exists l. split; [apply elem_of_cons; auto | exact Hi].
Qed.

Lemma no_line_no_text (s m : list N) :
  LF ∉ m → Forall (fun l => includes l m = false) (split LF s) →
  includes s m = false.
Proof.
  intros Hm Hall. destruct (includes s m) eqn:E; [|reflexivity].
  destruct (includes_line s m Hm E) as (l & Hl & Hi).
  rewrite Forall_forall in Hall. rewrite (Hall l Hl) in Hi. discriminate.
Qed.

Lemma trimStart_keeps (pre : list N) a x :
  isWhiteSpace a = false → ∃ pre', trimStart (pre ++ a :: x) = pre' ++ a :: x.
Proof.
  intros Ha. induction pre as [|b pre IH]; simpl.
  - rewrite Ha. exists []. reflexivity.
  - destruct (isWhiteSpace b); [exact IH | exists (b :: pre); reflexivity].
Qed.

(** A token that occurs in a line occurs in the trimmed line. *)
Lemma includes_trim (l m : list N) :
  Text.token m → includes l m = true → includes (trim l) m = true.
Proof.
  intros (_ & (a & t & Hm1 & Ha) & (t' & b & Hm2 & Hb)) H.
  apply includes_spec in H as (i & pre & post & -> & _).
  apply includes_spec. unfold trim.
  rewrite Hm1. simpl app. destruct (trimStart_keeps pre a (t ++ post) Ha) as (pre' & ->).
  change (a :: t ++ post) with ((a :: t) ++ post). rewrite <- Hm1, Hm2.
  destruct (trimEnd_head b post Hb) as (post' & E).
  replace (pre' ++ (t' ++ [b]) ++ post) with ((pre' ++ t') ++ b :: post)
    by (rewrite <- !app_assoc; reflexivity).
  rewrite trimEnd_app by (rewrite E; discriminate). rewrite E.
  exists (length pre'), pre', post'. split; [|reflexivity].
  rewrite <- !app_assoc. reflexivity.
Qed.

Lemma includes_trim_false (l m : list N) :
  Text.token m → includes (trim l) m = false → includes l m = false.
Proof.
  intros Hm H. destruct (includes l m) eqn:E; [|reflexivity].
  rewrite (includes_trim l m Hm E) in H. discriminate.
Qed.

Lemma token_not_in_nil (m : list N) : Text.token m → includes [] m = false.
Proof. intros (_ & (a & t & -> & _) & _). reflexivity. Qed.

(** What holds of every line of a text holds of every line of what a line
    filter keeps of it. *)
Lemma kept_lines_Forall (P : list N -> Prop) (input : list N) (kept : list (list N)) :
  kept `sublist_of` split LF input → P [] →
  Forall P (split LF input) → Forall P (split LF (join [LF] kept)).
Proof.
  intros Hsub Hnil Hall. destruct kept as [|l ls].
  - repeat constructor. exact Hnil.
  - rewrite (kept_lines_roundtrip input) by (auto; discriminate).
    eapply sublist_Forall; eauto.
Qed.

Lemma keepMarker_lines (m : Markers) (output : list N) :
  Text.token (startMarker m) → Text.token (endMarker m) →
  Text.token (exitMarker m) →
  Forall (fun l => includes l (startMarker m) = false
                   ∧ includes l (endMarker m) = false
                   ∧ includes l (exitMarker m) = false)
    (split LF (cleanMarkers output m)).
Proof.
  intros Hs He Hx. unfold cleanMarkers, filterLines.
  assert (Forall (fun l => includes l (startMarker m) = false
                   ∧ includes l (endMarker m) = false
                   ∧ includes l (exitMarker m) = false)
            (List.filter (keepMarker m) (split LF output))) as Hkept.
  { apply Forall_forall. intros l Hl.
    apply list_elem_of_In, filter_In in Hl as [_ Hk]. unfold keepMarker in Hk.
    destruct (includes (trim l) (startMarker m)) eqn:E1; [discriminate|].
    destruct (includes (trim l) (endMarker m)) eqn:E2; [discriminate|].
    destruct (includes (trim l) (exitMarker m)) eqn:E3; [discriminate|].
    auto using includes_trim_false. }
  destruct (List.filter (keepMarker m) (split LF output)) as [|l ls] eqn:E.
  - repeat constructor; apply token_not_in_nil; assumption.
  - rewrite (kept_lines_roundtrip output); [exact Hkept | | discriminate].
    rewrite <- E. apply filter_sublist.
Qed.

End Tokens.

Section Sentinels.

Lemma string_of_uint_digits (d : Decimal.uint) :
  Forall (fun c => isDigit c = true) (lit (NilEmpty.string_of_uint d)).
Proof. induction d; simpl; constructor; auto. Qed.

Lemma showZ_chars (z : Z) :
  Forall (fun c => isDigit c = true ∨ c = ch "-") (showZ z).
Proof.
  unfold showZ, NilZero.string_of_int.
  assert (∀ d, Forall (fun c => isDigit c = true ∨ c = ch "-")
                 (lit (NilZero.string_of_uint d))) as H.
  { intros d. eapply Forall_impl.
    - unfold NilZero.string_of_uint.
      destruct d; try apply string_of_uint_digits. repeat constructor.
    - simpl. auto. }
  destruct (Z.to_int z); simpl; [apply H|]. constructor; [auto | apply H].
Qed.

Lemma sentinel_token (word : list N) (z : Z) :
  LF ∉ word → (∃ a t, word = a :: t ∧ isWhiteSpace a = false) →
  Text.token (word ++ showZ z ++ lit "===").
Proof.
  intros Hw (a & t & -> & Ha). split; [|split].
  - intros H. pose proof (showZ_chars z) as Hz. rewrite Forall_forall in Hz.
    apply elem_of_app in H as [H|H]; [tauto|]. apply elem_of_app in H as [H|H].
    + apply Hz in H as [H|H]; discriminate.
    + vm_compute in H. repeat (apply elem_of_cons in H as [H|H]; [discriminate|]).
      apply elem_of_nil in H. exact H.
  - exists a, (t ++ showZ z ++ lit "==="). split; [reflexivity | exact Ha].
  - exists ((a :: t) ++ showZ z ++ lit "=="), (ch "=").
    split; [|reflexivity]. rewrite <- !app_assoc. reflexivity.
Qed.

Lemma markersAt_tokens (timestamp : Z) :
  Text.token (startMarker (markersAt timestamp))
  ∧ Text.token (endMarker (markersAt timestamp))
  ∧ Text.token (exitMarker (markersAt timestamp)).
Proof.
  split; [|split]; apply sentinel_token;
    try (eexists _, _; split; reflexivity);
    intros H; vm_compute in H;
    repeat (apply elem_of_cons in H as [H|H]; [discriminate|]);
    apply elem_of_nil in H; exact H.
Qed.

End Sentinels.

(** X5. When the three markers are tokens (no line feed inside, no white
    space at either end), none of them occurs anywhere in the text
    [cleanMarkers] returns. *)
Theorem cleanMarkers_leaves_no_marker (output : list N) (m : Markers) :
  Text.token (startMarker m) → Text.token (endMarker m) →
  Text.token (exitMarker m) →
  includes (cleanMarkers output m) (startMarker m) = false
  ∧ includes (cleanMarkers output m) (endMarker m) = false
  ∧ includes (cleanMarkers output m) (exitMarker m) = false.
Proof.
  intros Hs He Hx. pose proof (keepMarker_lines m output Hs He Hx) as H.
  split; [|split]; apply no_line_no_text;
    try (eapply Forall_impl; [exact H|]; simpl; tauto).
  - apply Hs.
  - apply He.
  - apply Hx.
Qed.

Lemma cleanMarkers_leaves_no_marker_witness :
  let m := markersAt 1700000000000 in
  let output := unlines [lit "$ echo '" ++ startMarker m ++ lit "'";
                         startMarker m; lit "hello"; exitMarker m ++ lit "0";
                         endMarker m] in
  cleanMarkers output m = lit "hello"
  ∧ includes (cleanMarkers output m) (startMarker m) = false
  ∧ includes (cleanMarkers output m) (endMarker m) = false
  ∧ includes (cleanMarkers output m) (exitMarker m) = false.
Proof.
  intros m output. split; [vm_compute; reflexivity|].
  destruct (markersAt_tokens 1700000000000) as (Hs & He & Hx).
  exact (cleanMarkers_leaves_no_marker output m Hs He Hx).
Defined.

(** X6. On the path of [executeCommand] that found the markers in order, the
    output of the result holds none of the three markers of the call: the
    marker stage removes their lines, and the two stages after it only remove
    lines. *)
Theorem extractOutput_holds_no_marker (output : list N) (startIdx endIdx : Z)
    (timestamp : Z) (command : list N) :
  let m := markersAt timestamp in
  let result := extractOutput output startIdx endIdx m command in
  includes result (startMarker m) = false
  ∧ includes result (endMarker m) = false
  ∧ includes result (exitMarker m) = false.
Proof.
  intros m result. destruct (markersAt_tokens timestamp) as (Hs & He & Hx).
  fold m in Hs, He, Hx.
  set (P := fun l => includes l (startMarker m) = false
                     ∧ includes l (endMarker m) = false
                     ∧ includes l (exitMarker m) = false).
  assert (P []) as Hnil by (repeat split; apply token_not_in_nil; assumption).
  assert (Forall P (split LF result)) as H.
  { unfold result, extractOutput, cleanPrompt, filterLines.
    apply (kept_lines_Forall P _ _ (filter_sublist _ _) Hnil).
    unfold cleanCommandEcho.
    apply (kept_lines_Forall P _ _ (echoFilter_sublist _ _ _) Hnil).
    apply keepMarker_lines; assumption. }
  split; [|split]; apply no_line_no_text;
    try (eapply Forall_impl; [exact H|]; unfold P; simpl; tauto).
  - apply Hs.
  - apply He.
  - apply Hx.
Qed.

(* ===================================================================== *)
(** ** The store of the session manager *)
(* ===================================================================== *)

Section StoreInvariant.

Import Store.

Lemma wellFormed_update r f w : benign f → wellFormed w → wellFormed (update r f w).
Proof.
  intros Hf Hw sid r' Hr'. destruct (Hw sid r' Hr') as (Hlt & Hid & Hst).
  split; [exact Hlt|]. destruct (decide (r' = r)) as [->|Hne].
  - rewrite heap_update_same. destruct (Hf (object w r)) as [Hi Hs].
    split; [congruence|]. destruct Hs as [Hs|Hs]; [rewrite Hs; exact Hst | exact Hs].
  - rewrite heap_update_other by exact Hne. auto.
Qed.

Lemma id_update r f w r' : benign f → id (object (update r f w) r') = id (object w r').
Proof.
  intros Hf. destruct (decide (r' = r)) as [->|Hne].
  - rewrite heap_update_same. apply Hf.
  - rewrite heap_update_other by exact Hne. reflexivity.
Qed.

Lemma benign_keep_status f :
  (∀ s, id (f s) = id s ∧ status (f s) = status s) → benign f.
Proof. intros H s. destruct (H s). auto. Qed.

Lemma benign_withStatus_ready : benign (withStatus ready).
Proof. intros s. simpl. auto. Qed.

Lemma benign_withStatus_busy : benign (withStatus busy).
Proof. intros s. simpl. auto. Qed.

Lemma wellFormed_handleOutput r data w :
  wellFormed w → wellFormed (handleOutput r data w).
Proof.
  intros H. unfold handleOutput. cbv zeta. case_match;
    repeat (apply wellFormed_update; [apply benign_keep_status; intros s; auto|]);
    exact H.
Qed.

Lemma id_handleOutput r data w r' :
  id (object (handleOutput r data w) r') = id (object w r').
Proof.
  unfold handleOutput. cbv zeta. case_match;
    repeat (rewrite id_update by (apply benign_keep_status; intros s; auto));
    reflexivity.
Qed.

Lemma id_closing r w r' :
  id (object (update r (withStatus closed) w) r') = id (object w r').
Proof.
  destruct (decide (r' = r)) as [->|Hne].
  - rewrite heap_update_same. reflexivity.
  - rewrite heap_update_other by exact Hne. reflexivity.
Qed.

Lemma wellFormed_handleExit r exitCode w :
  wellFormed w → wellFormed (handleExit r exitCode w).
Proof.
  intros Hw sid r' Hr'. unfold handleExit in *. cbv zeta in *.
  cbn [sessions withSessions nextRef] in *.
  set (w2 := update r _ (update r _ w)) in *.
  assert (∀ x, id (object w2 x) = id (object w x)) as Hid.
  { intros x. unfold w2.
    rewrite id_update by (apply benign_keep_status; intros s; auto).
    apply id_closing. }
  apply lookup_delete_Some in Hr' as [Hne Hr'].
  change (sessions w2) with (sessions w) in Hr'.
  destruct (Hw sid r' Hr') as (Hlt & Hi & Hst).
  assert (r' ≠ r) as Hr by (intros ->; rewrite Hid in Hne; congruence).
  split; [exact Hlt|].
  unfold object, withSessions; cbn [heap]. fold (object w2 r').
  unfold w2. rewrite !heap_update_other by exact Hr. auto.
Qed.

Lemma id_handleExit r exitCode w r' :
  id (object (handleExit r exitCode w) r') = id (object w r').
Proof.
  unfold handleExit. cbv zeta. unfold object, withSessions; cbn [heap].
  match goal with |- id (heap ?x !!! _) = _ => fold (object x r') end.
  rewrite id_update by (apply benign_keep_status; intros s; auto).
  apply id_closing.
Qed.

Lemma wellFormed_closeSession sid w : wellFormed w → wellFormed (closeSession sid w).
Proof.
  intros Hw. unfold closeSession. destruct (sessions w !! sid) as [r|] eqn:E; [|exact Hw].
  intros sid' r' Hr'. cbn [sessions withSessions nextRef] in *.
  apply lookup_delete_Some in Hr' as [Hne Hr'].
  destruct (Hw sid' r' Hr') as (Hlt & Hi & Hst).
  destruct (Hw sid r E) as (_ & Hi0 & _).
  assert (r' ≠ r) as Hr by (intros ->; congruence).
  split; [exact Hlt|].
  unfold object, withSessions; cbn [heap].
  match goal with |- context [heap ?x !!! r'] => fold (object x r') end.
  rewrite !heap_update_other by exact Hr. auto.
Qed.

Lemma id_closeSession sid w r' :
  id (object (closeSession sid w) r') = id (object w r').
Proof.
  unfold closeSession. destruct (sessions w !! sid) as [r|]; [|reflexivity].
  unfold object, withSessions; cbn [heap].
  match goal with |- id (heap ?x !!! _) = _ => fold (object x r') end.
  rewrite id_closing.
  apply id_update, benign_keep_status. intros s; auto.
Qed.

Lemma wellFormed_interrupt sid w : wellFormed w → wellFormed (interrupt sid w).
Proof.
  intros Hw. unfold interrupt. destruct (sessions w !! sid); [|exact Hw].
  apply wellFormed_update; [apply benign_keep_status; intros s; auto | exact Hw].
Qed.

Lemma id_interrupt sid w r' : id (object (interrupt sid w) r') = id (object w r').
Proof.
  unfold interrupt. destruct (sessions w !! sid); [|reflexivity].
  apply id_update, benign_keep_status. intros s; auto.
Qed.

Lemma wellFormed_applyEvent w e : wellFormed w → wellFormed (applyEvent w e).
Proof.
  intros Hw. destruct e as [r data|r c|sid|sid]; simpl.
  - destruct (r <? nextRef w)%nat; [apply wellFormed_handleOutput|]; exact Hw.
  - destruct (r <? nextRef w)%nat; [apply wellFormed_handleExit|]; exact Hw.
  - apply wellFormed_closeSession, Hw.
  - apply wellFormed_interrupt, Hw.
Qed.

Lemma id_applyEvent w e r' : id (object (applyEvent w e) r') = id (object w r').
Proof.
  destruct e as [r data|r c|sid|sid]; simpl.
  - destruct (r <? nextRef w)%nat; [apply id_handleOutput | reflexivity].
  - destruct (r <? nextRef w)%nat; [apply id_handleExit | reflexivity].
  - apply id_closeSession.
  - apply id_interrupt.
Qed.

Lemma nextRef_handleOutput r data w : nextRef (handleOutput r data w) = nextRef w.
Proof. unfold handleOutput. case_match; reflexivity. Qed.

Lemma nextRef_applyEvent w e : nextRef (applyEvent w e) = nextRef w.
Proof.
  destruct e as [r data|r c|sid|sid]; simpl.
  - destruct (r <? nextRef w)%nat; [apply nextRef_handleOutput | reflexivity].
  - destruct (r <? nextRef w)%nat; reflexivity.
  - unfold closeSession. destruct (sessions w !! sid); reflexivity.
  - unfold interrupt. destruct (sessions w !! sid); reflexivity.
Qed.

Lemma events_facts evs w :
  (wellFormed w → wellFormed (fold_left applyEvent evs w))
  ∧ nextRef (fold_left applyEvent evs w) = nextRef w
  ∧ ∀ r, id (object (fold_left applyEvent evs w) r) = id (object w r).
Proof.
  revert w. induction evs as [|e evs IH]; intros w; simpl; [auto|].
  destruct (IH (applyEvent w e)) as (Hw & Hn & Hi). split; [|split].
  - intros H0. apply Hw, wellFormed_applyEvent, H0.
  - rewrite Hn. apply nextRef_applyEvent.
  - intros r. rewrite Hi. apply id_applyEvent.
Qed.

Lemma wellFormed_withNow t w : wellFormed w → wellFormed (withNow t w).
Proof. intros H. exact H. Qed.

Lemma wake_facts ms w sched :
  (wellFormed w → wellFormed (wake ms w sched))
  ∧ nextRef (wake ms w sched) = nextRef w
  ∧ ∀ r, id (object (wake ms w sched) r) = id (object w r).
Proof.
  destruct sched as [|t sched]; simpl; [auto|].
  apply (events_facts (events t) (withNow (now w + ms + Z.of_N (lateness t)) w)).
Qed.

(** *** Calls *)

Lemma keeps_ret {A} (a : A) : keeps (ret a).
Proof. intros w sched H. exact H. Qed.

Lemma keeps_throw {A} e : keeps (@throw A e).
Proof. intros w sched H. exact H. Qed.

Lemma keeps_diverge {A} : keeps (@diverge A).
Proof. intros w sched H. exact H. Qed.

Lemma keeps_getWorld : keeps getWorld.
Proof. intros w sched H. exact H. Qed.

Lemma keeps_dateNow : keeps dateNow.
Proof. intros w sched H. exact H. Qed.

Lemma keeps_deref r : keeps (deref r).
Proof. intros w sched H. exact H. Qed.

Lemma keeps_uuidv4 : keeps uuidv4.
Proof. intros w sched H. exact H. Qed.

Lemma keeps_suspend ms : keeps (suspend ms).
Proof. intros w sched H. apply wake_facts, H. Qed.

Lemma keeps_update r f : benign f → keeps (modify (update r f)).
Proof. intros Hf w sched H. apply wellFormed_update; assumption. Qed.

Lemma keeps_bind {A B} (c : Async A) (k : A -> Async B) :
  keeps c → (∀ a, keeps (k a)) → keeps (bind c k).
Proof.
  intros Hc Hk w sched Hw. unfold bind, after.
  pose proof (Hc w sched Hw) as H. unfold after in H.
  destruct (c w sched) as [[[a|e|] w'] sched']; simpl in H; [|exact H..].
  apply Hk, H.
Qed.

End StoreInvariant.

Section StoreCalls.

Import Store.

Lemma keeps_createPty shell cwd cols rows : keeps (createPty shell cwd cols rows).
Proof.
  unfold createPty. apply keeps_bind; [apply keeps_getWorld|]. intros w0.
  apply keeps_bind; [apply keeps_suspend|]. intros _.
  destruct (createPtyAnswer (backend w0)); [apply keeps_ret | apply keeps_throw..].
Qed.

(** The new object is registered, under its own id and [ready], after the
    wait in which anything may have happened to the other sessions. *)
Lemma keeps_register (session : TerminalSession) :
  keeps (r <- allocate session ;;
         sleep 500 ;;;
         modify (update r (withStatus ready)) ;;;
         modify (fun w => withSessions (<[id session := r]> (sessions w)) w) ;;;
         ret r).
Proof.
  intros w sched Hw. unfold bind, allocate, sleep, suspend, modify, ret, after.
  timer_delays.
  cbn [fst snd].
  set (w1 := {| now := now w; config := config w; backend := backend w;
                heap := <[nextRef w := session]> (heap w);
                nextRef := S (nextRef w); sessions := sessions w;
                uuidSource := uuidSource w; uuidCount := uuidCount w |}).
  assert (wellFormed w1) as Hw1.
  { intros sid r Hr. destruct (Hw sid r Hr) as (Hlt & Hid & Hst).
    unfold object, w1; cbn [heap nextRef].
    rewrite lookup_total_insert_ne by lia. split; [lia | auto]. }
  assert (id (object w1 (nextRef w)) = id session) as Hid1.
  { unfold object, w1; cbn [heap]. rewrite lookup_total_insert_eq. reflexivity. }
  destruct (wake_facts 500 w1 sched) as (Hwf & Hn & Hid).
  set (w2 := wake 500 w1 sched) in *.
  pose proof (wellFormed_update (nextRef w) _ w2 benign_withStatus_ready (Hwf Hw1))
    as Hw3.
  set (w3 := update (nextRef w) (withStatus ready) w2) in *.
  intros sid r Hr. cbn [sessions withSessions nextRef] in *.
  unfold object, withSessions; cbn [heap]. fold (object w3 r).
  apply lookup_insert_Some in Hr as [[<- <-]|[Hne Hr]].
  - split; [change (nextRef w3) with (nextRef w2); rewrite Hn; simpl; lia|].
    unfold w3. rewrite heap_update_same. simpl. rewrite Hid, Hid1. auto.
  - apply Hw3, Hr.
Qed.

Lemma keeps_createSession options : keeps (createSession options).
Proof.
  unfold createSession. apply keeps_bind; [apply keeps_getWorld|]. intros w0.
  destruct (geNum (Z.of_nat (size (sessions w0))) (maxSessions (config w0)));
    [apply keeps_throw|].
  apply keeps_bind.
  { destruct (options ≫= optId) as [i|]; [destruct (isEmpty i)|];
      first [apply keeps_uuidv4 | apply keeps_ret]. }
  intros sessionId.
  destruct (bool_decide (is_Some (sessions w0 !! sessionId))); [apply keeps_throw|].
  apply keeps_bind; [apply keeps_createPty|]. intros pty.
  apply keeps_bind; [apply keeps_dateNow|]. intros t.
  match goal with |- keeps (bind (allocate ?s) _) => apply (keeps_register s) end.
Qed.

Lemma keeps_getOrCreateSession sid options : keeps (getOrCreateSession sid options).
Proof.
  unfold getOrCreateSession. apply keeps_bind; [apply keeps_getWorld|]. intros w0.
  destruct (sessions w0 !! sid); [apply keeps_ret | apply keeps_createSession].
Qed.

Lemma keeps_write r data : keeps (write r data).
Proof. apply keeps_update, benign_keep_status. intros s; auto. Qed.

Ltac keeps_steps :=
  repeat lazymatch goal with
    | |- keeps (bind _ _) => apply keeps_bind; [|intros ?]
    | |- keeps (ret _) => apply keeps_ret
    | |- keeps (throw _) => apply keeps_throw
    | |- keeps dateNow => apply keeps_dateNow
    | |- keeps getWorld => apply keeps_getWorld
    | |- keeps (deref _) => apply keeps_deref
    | |- keeps (suspend _) => apply keeps_suspend
    | |- keeps (write _ _) => apply keeps_write
    | |- keeps (modify (update _ (withStatus ready))) =>
        apply keeps_update, benign_withStatus_ready
    | |- keeps (modify (update _ (withStatus busy))) =>
        apply keeps_update, benign_withStatus_busy
    | |- keeps (modify (update _ _)) =>
        apply keeps_update, benign_keep_status; intros ?; split; reflexivity
    end.

Lemma keeps_accept context : keeps (accept context).
Proof.
  unfold accept.
  destruct (isEmpty (command context) || isEmpty (trim (command context)));
    [apply keeps_throw|].
  apply keeps_bind; [apply keeps_getOrCreateSession|]. intros r.
  apply keeps_bind; [apply keeps_deref|]. intros session.
  destruct (SessionStatus_eqb (status session) busy); [apply keeps_throw|].
  destruct (SessionStatus_eqb (status session) closed); [apply keeps_throw|].
  unfold sleep. keeps_steps.
Qed.

Lemma keeps_waitForEnd fuel r endMarker startTimeWait timeout :
  keeps (waitForEnd fuel r endMarker startTimeWait timeout).
Proof.
  induction fuel as [|fuel IH]; cbn [waitForEnd]; [apply keeps_diverge|].
  apply keeps_bind; [apply keeps_dateNow|]. intros t.
  destruct (ltNum (t - startTimeWait) timeout); [|apply keeps_ret].
  apply keeps_bind; [apply keeps_deref|]. intros session.
  destruct (includes (outputBuffer session) endMarker); unfold sleep.
  - keeps_steps.
  - apply keeps_bind; [apply keeps_suspend|]. intros _. exact IH.
Qed.

Lemma keeps_timedOutResult context c : keeps (timedOutResult context c).
Proof. unfold timedOutResult. keeps_steps. Qed.

Lemma keeps_parsedResult context c : keeps (parsedResult context c).
Proof.
  unfold parsedResult. apply keeps_bind; [keeps_steps|]. intros _.
  apply keeps_bind; [keeps_steps|]. intros session. cbv zeta.
  match goal with |- keeps (if ?b then _ else _) => destruct b end; keeps_steps.
Qed.

Lemma keeps_executeCommand context : keeps (executeCommand context).
Proof.
  unfold executeCommand. apply keeps_bind; [apply keeps_accept|]. intros c.
  apply keeps_bind; [apply keeps_waitForEnd|]. intros foundEnd.
  destruct (negb foundEnd); [apply keeps_timedOutResult | apply keeps_parsedResult].
Qed.

Lemma wellFormed_closing ids w :
  wellFormed w → wellFormed (fold_left (fun w sid => closeSession sid w) ids w).
Proof.
  revert w. induction ids as [|sid ids IH]; intros w H; simpl; [exact H|].
  apply IH, wellFormed_closeSession, H.
Qed.

End StoreCalls.

(** X7. The store of the session manager stays well formed: if every stored
    session is an allocated object, stored under its own id and [ready] or
    [busy], this is still so after [createSession], [getOrCreateSession],
    [executeCommand], [closeSession] and [closeAllSessions], however the call
    ends, and after every pty callback and interrupt that runs while a call
    is suspended. *)
Theorem session_store_invariant (w : World) :
  Store.wellFormed w →
  (∀ e, Store.wellFormed (applyEvent w e))
  ∧ (∀ sid, Store.wellFormed (closeSession sid w))
  ∧ Store.wellFormed (closeAllSessions w)
  ∧ (∀ options sched, Store.wellFormed (Store.after (createSession options w sched)))
  ∧ (∀ sid options sched,
       Store.wellFormed (Store.after (getOrCreateSession sid options w sched)))
  ∧ (∀ context sched,
       Store.wellFormed (Store.after (executeCommand context w sched))).
Proof.
  intros H. split; [|split; [|split; [|split; [|split]]]].
  - intros e. apply wellFormed_applyEvent, H.
  - intros sid. apply wellFormed_closeSession, H.
  - apply wellFormed_closing, H.
  - intros options sched. apply keeps_createSession, H.
  - intros sid options sched. apply keeps_getOrCreateSession, H.
  - intros context sched. apply keeps_executeCommand, H.
Qed.

Lemma session_store_invariant_witness :
  let w := Examples.worldWith ready 1024 in
  Store.wellFormed w
  ∧ Store.wellFormed
      (Store.after (executeCommand (Examples.echoHello 1000) w Scenario.helloSchedule))
  ∧ Store.wellFormed (applyEvent w (PtyExit 0 1)).
Proof.
  intros w.
  assert (Store.wellFormed w) as H.
  { intros sid r Hr. unfold w, Examples.worldWith in Hr. cbn [sessions] in Hr.
    apply lookup_singleton_Some in Hr as [<- <-].
    split; [simpl; lia|]. split; [reflexivity | left; reflexivity]. }
  split; [exact H|].
  destruct (session_store_invariant w H) as (Hev & _ & _ & _ & _ & Hex).
  split; [apply Hex | apply Hev].
Defined.

(* ===================================================================== *)
(** ** Listing and closing the sessions *)
(* ===================================================================== *)

Section Listing.

Lemma listSessions_elem w item :
  item ∈ listSessions w
  ↔ ∃ sid r, sessions w !! sid = Some r ∧ item = listItem (object w r).
Proof.
  unfold listSessions. rewrite list_elem_of_fmap. split.
  - intros ([sid r] & -> & H). apply elem_of_map_to_list in H. eauto.
  - intros (sid & r & H & ->). exists (sid, r). split; [reflexivity|].
    apply elem_of_map_to_list, H.
Qed.

End Listing.

(** X8. In a well-formed store, [listSessions] returns one item for each
    stored session, each item carrying the id under which its session is
    stored and the status [ready] or [busy]: a session that is still being
    created, or that was closed, is never listed. *)
Theorem listSessions_lists_the_store (w : World) :
  Store.wellFormed w →
  length (listSessions w) = size (sessions w)
  ∧ (∀ item, item ∈ listSessions w →
       (itemStatus item = ready ∨ itemStatus item = busy)
       ∧ ∃ r, sessions w !! itemId item = Some r ∧ item = listItem (object w r))
  ∧ (∀ sid r, sessions w !! sid = Some r → listItem (object w r) ∈ listSessions w).
Proof.
  intros Hw. split; [|split].
  - unfold listSessions. rewrite length_fmap, length_map_to_list. reflexivity.
  - intros item Hi. apply listSessions_elem in Hi as (sid & r & Hr & ->).
    destruct (Hw sid r Hr) as (_ & Hid & Hst). split; [exact Hst|].
    exists r. simpl. rewrite Hid. auto.
  - intros sid r Hr. apply listSessions_elem. eauto.
Qed.

Lemma listSessions_lists_the_store_witness :
  let w := Examples.worldWith busy 1024 in
  Store.wellFormed w
  ∧ length (listSessions w) = 1%nat
  ∧ ∀ item, item ∈ listSessions w →
      (itemStatus item = ready ∨ itemStatus item = busy)
      ∧ ∃ r, sessions w !! itemId item = Some r ∧ item = listItem (object w r).
Proof.
  intros w.
  assert (Store.wellFormed w) as H.
  { intros sid r Hr. unfold w, Examples.worldWith in Hr. cbn [sessions] in Hr.
    apply lookup_singleton_Some in Hr as [<- <-].
    split; [simpl; lia|]. split; [reflexivity | right; reflexivity]. }
  split; [exact H|].
  destruct (listSessions_lists_the_store w H) as (Hlen & Hitems & _).
  split; [exact Hlen | exact Hitems].
Defined.

Section Closing.

Lemma closedSession_idempotent s :
  Store.closedSession (Store.closedSession s) = Store.closedSession s.
Proof. reflexivity. Qed.

Lemma closeSession_missing sid w : sessions w !! sid = None → closeSession sid w = w.
Proof. intros H. unfold closeSession. rewrite H. reflexivity. Qed.

Lemma closeSession_found sid r w :
  sessions w !! sid = Some r →
  sessions (closeSession sid w) = delete sid (sessions w)
  ∧ heap (closeSession sid w) = <[r := Store.closedSession (object w r)]> (heap w).
Proof.
  intros H. unfold closeSession. rewrite H. split; [reflexivity|].
  cbv zeta. cbn [heap withSessions]. unfold update at 1. cbn [heap withHeap].
  rewrite heap_update_same. unfold update. cbn [heap withHeap].
  rewrite insert_insert_eq. reflexivity.
Qed.

Lemma closeSession_rest sid w :
  now (closeSession sid w) = now w ∧ config (closeSession sid w) = config w
  ∧ backend (closeSession sid w) = backend w
  ∧ nextRef (closeSession sid w) = nextRef w
  ∧ uuidSource (closeSession sid w) = uuidSource w
  ∧ uuidCount (closeSession sid w) = uuidCount w.
Proof. unfold closeSession. destruct (sessions w !! sid); repeat split. Qed.

Lemma closeSession_lookup sid w sid' :
  sessions (closeSession sid w) !! sid'
  = if decide (sid' = sid) then None else sessions w !! sid'.
Proof.
  destruct (sessions w !! sid) as [r|] eqn:E.
  - destruct (closeSession_found sid r w E) as [-> _].
    destruct (decide (sid' = sid)) as [->|Hne];
      [apply lookup_delete_eq | apply lookup_delete_ne; congruence].
  - rewrite closeSession_missing by exact E.
    destruct (decide (sid' = sid)) as [->|Hne]; [exact E | reflexivity].
Qed.

(** The objects after the sessions of [ids] were closed one after the other:
    those stored under one of the ids are closed, the others are as they
    were. *)
Lemma closing_heap ids w r :
  heap (fold_left (fun w sid => closeSession sid w) ids w) !! r
  = if bool_decide (Exists (fun sid => sessions w !! sid = Some r) ids)
    then Some (Store.closedSession (object w r))
    else heap w !! r.
Proof.
  revert w. induction ids as [|a ids IH]; intros w; cbn [fold_left].
  - rewrite bool_decide_eq_false_2; [reflexivity|]. intros H. inversion H.
  - rewrite IH. clear IH.
    set (w1 := closeSession a w).
    assert (∀ sid, sessions w1 !! sid = Some r ↔ sid ≠ a ∧ sessions w !! sid = Some r)
      as Hs.
    { intros sid. unfold w1. rewrite closeSession_lookup.
      destruct (decide (sid = a)); split; [discriminate | tauto | tauto | tauto]. }
    destruct (sessions w !! a) as [ra|] eqn:Ea.
    + destruct (closeSession_found a ra w Ea) as [_ Hh]. fold w1 in Hh.
      assert (object w1 r = if decide (r = ra) then Store.closedSession (object w r)
                            else object w r) as Ho.
      { unfold object. rewrite Hh. destruct (decide (r = ra)) as [->|Hne].
        - apply lookup_total_insert_eq.
        - apply lookup_total_insert_ne. congruence. }
      destruct (decide (r = ra)) as [->|Hne].
      * rewrite (bool_decide_eq_true_2 (Exists _ (a :: ids)))
          by (apply Exists_cons_hd, Ea).
        rewrite Ho, Hh, lookup_insert_eq. case_bool_decide; reflexivity.
      * rewrite Ho, Hh, lookup_insert_ne by congruence.
        apply (f_equal (fun b : bool => if b then _ else _)).
        apply bool_decide_ext. rewrite Exists_cons, !Exists_exists. split.
        -- intros (sid & Hin & H). apply Hs in H as [_ H]. eauto.
        -- intros [H|(sid & Hin & H)]; [congruence|].
           exists sid. split; [exact Hin|]. apply Hs. split; [congruence | exact H].
    + assert (w1 = w) as Hw by (apply closeSession_missing, Ea).
      rewrite Hw in *. apply (f_equal (fun b : bool => if b then _ else _)).
      apply bool_decide_ext. rewrite Exists_cons. split; [auto|].
      intros [H|H]; [congruence | exact H].
Qed.

Lemma closing_sessions ids w sid :
  sessions (fold_left (fun w sid => closeSession sid w) ids w) !! sid
  = if bool_decide (sid ∈ ids) then None else sessions w !! sid.
Proof.
  revert w. induction ids as [|a ids IH]; intros w; cbn [fold_left].
  - rewrite bool_decide_eq_false_2; [reflexivity | apply not_elem_of_nil].
  - rewrite IH, closeSession_lookup.
    destruct (decide (sid = a)) as [->|Hne].
    + rewrite (bool_decide_eq_true_2 (a ∈ a :: ids)) by (apply elem_of_cons; auto).
      case_bool_decide; reflexivity.
    + apply (f_equal (fun b : bool => if b then _ else _)).
      apply bool_decide_ext. rewrite elem_of_cons. tauto.
Qed.

Lemma closing_rest ids w :
  let w' := fold_left (fun w sid => closeSession sid w) ids w in
  now w' = now w ∧ config w' = config w ∧ backend w' = backend w
  ∧ nextRef w' = nextRef w ∧ uuidSource w' = uuidSource w
  ∧ uuidCount w' = uuidCount w.
Proof.
  revert w. induction ids as [|a ids IH]; intros w; simpl; [repeat split|].
  destruct (IH (closeSession a w)) as (H1 & H2 & H3 & H4 & H5 & H6).
  destruct (closeSession_rest a w) as (G1 & G2 & G3 & G4 & G5 & G6).
  repeat split; congruence.
Qed.

(** In whatever order the stored ids are visited, the world is the same at
    the end. *)
Lemma closing_order ids ids' w :
  (∀ sid, sid ∈ ids ↔ sid ∈ ids') →
  fold_left (fun w sid => closeSession sid w) ids w
  = fold_left (fun w sid => closeSession sid w) ids' w.
Proof.
  intros Hsame.
  pose proof (closing_rest ids w) as (H1 & H2 & H3 & H4 & H5 & H6).
  pose proof (closing_rest ids' w) as (G1 & G2 & G3 & G4 & G5 & G6).
  assert (heap (fold_left (fun w sid => closeSession sid w) ids w)
          = heap (fold_left (fun w sid => closeSession sid w) ids' w)) as Hh.
  { apply map_eq. intros r. rewrite !closing_heap.
    apply (f_equal (fun b : bool => if b then _ else _)).
    apply bool_decide_ext. rewrite !Exists_exists.
    split; intros (sid & Hin & H); exists sid;
      (split; [apply Hsame, Hin | exact H]). }
  assert (sessions (fold_left (fun w sid => closeSession sid w) ids w)
          = sessions (fold_left (fun w sid => closeSession sid w) ids' w)) as Hs.
  { apply map_eq. intros sid. rewrite !closing_sessions.
    apply (f_equal (fun b : bool => if b then _ else _)).
    apply bool_decide_ext, Hsame. }
  destruct (fold_left (fun w sid => closeSession sid w) ids w),
           (fold_left (fun w sid => closeSession sid w) ids' w).
  simpl in *. congruence.
Qed.

Lemma stored_ids w sid :
  sid ∈ (fst <$> map_to_list (sessions w)) ↔ is_Some (sessions w !! sid).
Proof.
  rewrite list_elem_of_fmap. split.
  - intros ([k r] & -> & H). apply elem_of_map_to_list in H. eauto.
  - intros [r H]. exists (sid, r). split; [reflexivity|].
    apply elem_of_map_to_list, H.
Qed.

End Closing.

(** X9. [closeAllSessions] leaves the store empty; every session that was
    stored has its pty killed and its status [closed], and is otherwise as it
    was; every other session object is untouched; and the world at the end is
    the same in whatever order the stored ids are visited. *)
Theorem closeAllSessions_closes_every_session (w : World) :
  sessions (closeAllSessions w) = ∅
  ∧ (∀ sid r, sessions w !! sid = Some r →
       object (closeAllSessions w) r = Store.closedSession (object w r))
  ∧ (∀ r, (∀ sid, sessions w !! sid ≠ Some r) →
       heap (closeAllSessions w) !! r = heap w !! r)
  ∧ (∀ ids, (∀ sid, sid ∈ ids ↔ is_Some (sessions w !! sid)) →
       fold_left (fun w sid => closeSession sid w) ids w = closeAllSessions w).
Proof.
  unfold closeAllSessions. split; [|split; [|split]].
  - apply map_eq. intros sid. rewrite closing_sessions, lookup_empty.
    case_bool_decide as H; [reflexivity|].
    destruct (sessions w !! sid) eqn:E; [|reflexivity].
    exfalso. apply H, stored_ids. eauto.
  - intros sid r Hr. unfold object at 1. rewrite lookup_total_alt, closing_heap.
    rewrite bool_decide_eq_true_2; [reflexivity|].
    apply Exists_exists. exists sid. split; [apply stored_ids; eauto | exact Hr].
  - intros r Hr. rewrite closing_heap. rewrite bool_decide_eq_false_2; [reflexivity|].
    rewrite Exists_exists. intros (sid & _ & H). exact (Hr sid H).
  - intros ids Hids. apply closing_order. intros sid.
    rewrite Hids, stored_ids. reflexivity.
Qed.

(* ===================================================================== *)
(** ** The exit of a pty, and the creations that fail *)
(* ===================================================================== *)

Section ExitAndCreate.

Lemma handleExit_sessions r exitCode w :
  sessions (handleExit r exitCode w) = delete (id (object w r)) (sessions w).
Proof.
  unfold handleExit. cbv zeta. cbn [sessions withSessions].
  rewrite !sessions_update. f_equal.
  rewrite id_update by (apply benign_keep_status; intros s; auto).
  apply id_closing.
Qed.

Lemma handleExit_other r exitCode w r' :
  r' ≠ r → object (handleExit r exitCode w) r' = object w r'.
Proof.
  intros Hne. unfold handleExit. cbv zeta. unfold object, withSessions; cbn [heap].
  match goal with |- heap ?x !!! _ = _ => fold (object x r') end.
  rewrite !heap_update_other by exact Hne. reflexivity.
Qed.

Lemma sessions_applyEvent w e : sessions (applyEvent w e) ⊆ sessions w.
Proof.
  destruct e as [r data|r c|sid|sid]; simpl.
  - destruct (r <? nextRef w)%nat; [rewrite sessions_handleOutput|]; reflexivity.
  - destruct (r <? nextRef w)%nat; [|reflexivity].
    rewrite handleExit_sessions. apply delete_subseteq.
  - unfold closeSession. destruct (sessions w !! sid); [|reflexivity].
    apply delete_subseteq.
  - unfold interrupt. destruct (sessions w !! sid); reflexivity.
Qed.

Lemma sessions_events evs w : sessions (fold_left applyEvent evs w) ⊆ sessions w.
Proof.
  revert w. induction evs as [|e evs IH]; intros w; simpl; [reflexivity|].
  etrans; [apply IH | apply sessions_applyEvent].
Qed.

(** Nothing that happens during a suspension adds a session to the store. *)
Lemma sessions_wake_subseteq ms w sched : sessions (wake ms w sched) ⊆ sessions w.
Proof.
  destruct sched as [|t sched]; simpl; [reflexivity|].
  apply (sessions_events (events t) (withNow _ w)).
Qed.

Lemma chooseId_rest options w sched :
  ∃ w1,
    match options ≫= optId with
    | Some i => if isEmpty i then uuidv4 else ret i
    | None => uuidv4
    end w sched = (Returned (Spec.requestedId options w), w1, sched)
    ∧ sessions w1 = sessions w ∧ config w1 = config w
    ∧ backend w1 = backend w ∧ heap w1 = heap w ∧ nextRef w1 = nextRef w.
Proof.
  unfold Spec.requestedId.
  destruct (options ≫= optId) as [i|]; [destruct (isEmpty i)|];
    eexists; (split; [reflexivity|]); auto.
Qed.

End ExitAndCreate.

(** X10. [handleExit] removes from the store whatever is stored under the id
    of the session whose pty exited.  When another session object is stored
    under that id (a session created under the id of one that was closed,
    whose pty exits afterwards), that session leaves the store although its
    own object is untouched: it is neither closed nor killed. *)
Theorem handleExit_removes_by_id (w : World) (r r' : nat) (exitCode : Z) :
  r' ≠ r → sessions w !! id (object w r) = Some r' →
  let w' := handleExit r exitCode w in
  getSession (id (object w r)) w' = None
  ∧ object w' r' = object w r'
  ∧ size (sessions w') = pred (size (sessions w)).
Proof.
  intros Hne Hr w'. unfold getSession, w'. rewrite handleExit_sessions.
  split; [apply lookup_delete_eq|]. split; [apply handleExit_other, Hne|].
  apply map_size_delete_Some. eauto.
Qed.

Lemma handleExit_removes_by_id_witness :
  let a := Some (withId None (lit "a")) in
  let w1 := Store.after (createSession a (Examples.freshWorld DEFAULT_CONFIG) []) in
  let w2 := Store.after (createSession a (closeSession (lit "a") w1) []) in
  let w' := handleExit 0 0 w2 in
  (id (object w2 0) = lit "a" ∧ status (object w2 0) = closed)
  ∧ (getSession (lit "a") w2 = Some 1%nat ∧ status (object w2 1) = ready)
  ∧ getSession (lit "a") w' = None
  ∧ status (object w' 1) = ready
  ∧ killed (ptyProcess (object w' 1)) = false.
Proof.
  intros a w1 w2 w'.
  assert (id (object w2 0) = lit "a") as Hid by (vm_compute; reflexivity).
  assert (sessions w2 !! id (object w2 0) = Some 1%nat) as Hr
    by (vm_compute; reflexivity).
  destruct (handleExit_removes_by_id w2 0 1 0 ltac:(lia) Hr) as (Hgone & Hsame & _).
  fold w' in Hgone, Hsame. rewrite Hid in Hgone.
  split; [split; [exact Hid | vm_compute; reflexivity]|].
  split; [split; vm_compute; reflexivity|].
  split; [exact Hgone|]. rewrite Hsame.
  split; vm_compute; reflexivity.
Defined.

(** X11. Below capacity (the test of the capacity being false, as it also is
    for a maximum that is no number), [createSession] with an id that is in
    use throws
    SESSION_ALREADY_EXISTS at once: no session object is made, the store is
    unchanged and no suspension takes place.  With a free id and a backend
    whose [createPty] rejects, it throws SESSION_CREATE_FAILED with the
    message of the rejection ("Unknown error" when the rejection is not an
    Error); no session object is made and nothing is added to the store. *)
Theorem createSession_rejections (options : option SessionOptions) (w : World)
    (sched : Schedule) :
  geNum (Z.of_nat (size (sessions w))) (maxSessions (config w)) = false →
  (is_Some (sessions w !! Spec.requestedId options w) →
   ∃ w', createSession options w sched
         = (Thrown (sessionAlreadyExists (Spec.requestedId options w)), w', sched)
         ∧ sessions w' = sessions w ∧ heap w' = heap w ∧ nextRef w' = nextRef w)
  ∧ (sessions w !! Spec.requestedId options w = None →
     createPtyAnswer (backend w) ≠ PtyCreated →
     ∃ w', createSession options w sched
           = (Thrown (sessionCreateFailed
                        match createPtyAnswer (backend w) with
                        | PtyRejected msg => msg
                        | _ => lit "Unknown error"
                        end), w', tail sched)
           ∧ nextRef w' = nextRef w ∧ sessions w' ⊆ sessions w).
Proof.
  intros Hsize.
  destruct (chooseId_rest options w sched) as (w1 & Hid & Hs1 & Hc1 & Hb1 & Hh1 & Hn1).
  split.
  - intros Hused. exists w1. split; [|auto].
    unfold createSession, bind at 1, getWorld. rewrite Hsize.
    rewrite (bind_returned _ _ _ _ _ _ _ Hid).
    rewrite bool_decide_eq_true_2 by exact Hused. reflexivity.
  - intros Hfree Hpty. exists (wake 0 w1 sched).
    split; [|split].
    + unfold createSession, bind at 1, getWorld. rewrite Hsize.
      rewrite (bind_returned _ _ _ _ _ _ _ Hid). rewrite Hfree.
      rewrite bool_decide_eq_false_2 by (intros [? ?]; discriminate).
      unfold createPty, bind, getWorld, suspend. rewrite Hb1.
      destruct (createPtyAnswer (backend w)); [congruence | reflexivity..].
    + destruct (wake_facts 0 w1 sched) as (_ & -> & _). exact Hn1.
    + rewrite <- Hs1. apply sessions_wake_subseteq.
Qed.

Lemma createSession_rejections_witness :
  let w := Examples.worldWith ready 1024 in
  let down := {| now := 0; config := DEFAULT_CONFIG;
                 backend := {| getDefaultShell := lit "/bin/bash";
                               getDefaultCwd := lit "~";
                               createPtyAnswer := PtyRejected (lit "spawn wsl.exe ENOENT") |};
                 heap := ∅; nextRef := 0; sessions := ∅;
                 uuidSource := fun n => lit "uuid-" ++ showZ (Z.of_nat n);
                 uuidCount := 0 |} in
  fst (fst (createSession (Some (withId None (lit "default"))) w []))
    = Thrown (sessionAlreadyExists (lit "default"))
  ∧ fst (fst (createSession None down []))
    = Thrown (sessionCreateFailed (lit "spawn wsl.exe ENOENT")).
Proof.
  intros w down. split.
  - destruct (createSession_rejections (Some (withId None (lit "default"))) w [])
      as [Hused _]; [vm_compute; reflexivity|].
    destruct Hused as (w' & -> & _); [|reflexivity].
    exists 0%nat. reflexivity.
  - destruct (createSession_rejections None down []) as [_ Hdown];
      [vm_compute; reflexivity|].
    destruct Hdown as (w' & -> & _); [reflexivity | discriminate | reflexivity].
Defined.

(* ===================================================================== *)
(** ** How long a command takes *)
(* ===================================================================== *)

Section Clock.






End Clock.



(** The same command on a server started without [WSL_MCP_DEFAULT_TIMEOUT],
    the caller giving no timeout: the shell answers as before, and the call
    times out. *)
Example executeCommand_without_timeout :
  let ctx := {| sessionId := lit "default"; command := lit "echo hello";
                timeout := None |} in
  let w := {| now := 1000; config := Server.managerConfig None None;
              backend := Examples.wslBackend;
              heap := {[ 0%nat := Examples.sessionWith (lit "default") ready 1024 ]};
              nextRef := 1; sessions := {[ lit "default" := 0%nat ]};
              uuidSource := fun n => lit "uuid-" ++ showZ (Z.of_nat n);
              uuidCount := 0 |} in
  ∃ res w',
    executeCommand ctx w Scenario.helloSchedule
    = (Returned res, w', drop 4 Scenario.helloSchedule)
    ∧ timedOut res = true
    ∧ resError res = Some (lit "Command timeout after undefinedms").
Proof.
  intros ctx w. eexists _, _. split; [vm_compute; reflexivity|].
  split; reflexivity.
Qed.

(* ===================================================================== *)
(** ** What a command writes to the pty *)
(* ===================================================================== *)

Section Writes.

Import Protocol.

Lemma writtenTo_update r f w r' :
  (∀ s, ptyProcess (f s) = ptyProcess s) →
  writtenTo (update r f w) r' = writtenTo w r'.
Proof.
  intros Hf. unfold writtenTo. destruct (decide (r' = r)) as [->|Hne].
  - rewrite heap_update_same, Hf. reflexivity.
  - rewrite heap_update_other by exact Hne. reflexivity.
Qed.

Lemma writtenTo_write r data w :
  writtenTo (update r (fun s => withPty (ptyWrite data (ptyProcess s)) s) w) r
  = writtenTo w r ++ [data].
Proof. unfold writtenTo. rewrite heap_update_same. reflexivity. Qed.

Lemma writtenTo_killed r w r' :
  writtenTo (update r (fun s => withPty (ptyKill (ptyProcess s)) s) w) r'
  = writtenTo w r'.
Proof.
  unfold writtenTo. destruct (decide (r' = r)) as [->|Hne].
  - rewrite heap_update_same. reflexivity.
  - rewrite heap_update_other by exact Hne. reflexivity.
Qed.

Lemma writtenTo_handleOutput r data w r' :
  writtenTo (handleOutput r data w) r' = writtenTo w r'.
Proof.
  unfold handleOutput. cbv zeta. case_match;
    repeat (rewrite writtenTo_update by (intros s; reflexivity)); reflexivity.
Qed.

Lemma writtenTo_handleExit r c w r' :
  writtenTo (handleExit r c w) r' = writtenTo w r'.
Proof.
  unfold handleExit. cbv zeta. unfold writtenTo, object, withSessions; cbn [heap].
  match goal with |- context [heap ?x !!! r'] => fold (object x r'); fold (writtenTo x r') end.
  rewrite !writtenTo_update by (intros s; reflexivity). reflexivity.
Qed.

Lemma writtenTo_closeSession sid w r' :
  writtenTo (closeSession sid w) r' = writtenTo w r'.
Proof.
  unfold closeSession. destruct (sessions w !! sid); [|reflexivity].
  unfold writtenTo, object, withSessions; cbn [heap].
  match goal with |- context [heap ?x !!! r'] => fold (object x r'); fold (writtenTo x r') end.
  rewrite writtenTo_update by (intros s; reflexivity).
  apply writtenTo_killed.
Qed.

Lemma writtenTo_events evs w r :
  Forall (fun e => ∀ sid, e ≠ Interrupt sid) evs →
  writtenTo (fold_left applyEvent evs w) r = writtenTo w r.
Proof.
  intros H. revert w. induction H as [|e evs He _ IH]; intros w; simpl; [reflexivity|].
  rewrite IH. destruct e as [r0 data|r0 c|sid|sid]; simpl.
  - destruct (r0 <? nextRef w)%nat; [apply writtenTo_handleOutput | reflexivity].
  - destruct (r0 <? nextRef w)%nat; [apply writtenTo_handleExit | reflexivity].
  - apply writtenTo_closeSession.
  - exfalso. exact (He sid eq_refl).
Qed.

(** Nothing but an interrupt writes to a pty while a call is suspended. *)
Lemma writtenTo_wake ms w sched r :
  noInterrupt sched → writtenTo (wake ms w sched) r = writtenTo w r.
Proof.
  intros H. destruct H as [|t sched Ht _]; simpl; [reflexivity|].
  rewrite writtenTo_events by exact Ht. reflexivity.
Qed.

Lemma noInterrupt_tail sched : noInterrupt sched → noInterrupt (tail sched).
Proof. intros H. destruct H; simpl; [constructor | assumption]. Qed.

Lemma waitForEnd_writes fuel r endMarker startTimeWait timeout w sched o w' sched' r' :
  noInterrupt sched →
  waitForEnd fuel r endMarker startTimeWait timeout w sched = (o, w', sched') →
  writtenTo w' r' = writtenTo w r' ∧ noInterrupt sched'.
Proof.
  revert w sched. induction fuel as [|fuel IH]; intros w sched Hq; cbn [waitForEnd].
  - unfold diverge. intros H. injection H as <- <- <-. auto.
  - unfold bind at 1, dateNow.
    destruct (ltNum (now w - startTimeWait) timeout).
    + unfold bind at 1, deref.
      destruct (includes (outputBuffer (object w r)) endMarker).
      * unfold bind, sleep, suspend, ret. intros H. injection H as <- <- <-.
        split; [apply writtenTo_wake, Hq | apply noInterrupt_tail, Hq].
      * unfold bind at 1, sleep, suspend. intros H.
        destruct (IH _ _ (noInterrupt_tail _ Hq) H) as [-> Hq'].
        split; [apply writtenTo_wake, Hq | exact Hq'].
    + unfold ret. intros H. injection H as <- <- <-. auto.
Qed.

Lemma snoc4 {A} (l : list A) a b c d :
  (((l ++ [a]) ++ [b]) ++ [c]) ++ [d] = l ++ [a; b; c; d].
Proof. rewrite <- !app_assoc. reflexivity. Qed.

(** An accepted call on a stored session has written its four lines when it
    enters the loop. *)
Lemma accept_writes ctx w sched r c w1 sched1 :
  sessions w !! sessionId ctx = Some r → noInterrupt sched →
  accept ctx w sched = (Returned c, w1, sched1) →
  session c = r
  ∧ writtenTo w1 r = writtenTo w r ++ linesOf (markers c) (command ctx)
  ∧ (∃ timestamp, markers c = markersAt timestamp)
  ∧ noInterrupt sched1.
Proof.
  intros Hr Hq. unfold accept.
  destruct (isEmpty (command ctx) || isEmpty (trim (command ctx)));
    [discriminate|].
  unfold getOrCreateSession, bind at 1, bind at 1, getWorld. rewrite Hr.
  unfold ret at 1. unfold bind at 1, deref.
  destruct (SessionStatus_eqb (status (object w r)) busy); [discriminate|].
  destruct (SessionStatus_eqb (status (object w r)) closed); [discriminate|].
  unfold bind, modify, dateNow, getWorld, sleep, suspend, write, modify, ret.
  intros H. injection H as <- <- <-.
  cbn [session markers].
  split; [reflexivity|]. split; [|split; [eauto|]].
  - unfold linesOf.
    repeat (rewrite ?writtenTo_write;
            rewrite ?writtenTo_wake by (repeat apply noInterrupt_tail; exact Hq)).
    rewrite !writtenTo_update by (intros s; reflexivity).
    apply snoc4.
  - repeat apply noInterrupt_tail. exact Hq.
Qed.

End Writes.

(** X13. A call of [executeCommand] on a stored session that returns a result
    (in time or timed out) has written four lines to the pty of the session,
    and nothing else: the echo of its start marker, the command, the echo of
    its exit marker followed by [$?], and the echo of its end marker, in this
    order, the three markers bearing the same timestamp.  (Interrupts sent by
    [stopProcess] during the call are set aside.) *)
Theorem executeCommand_writes_four_lines (ctx : CommandContext) (w : World)
    (sched : Schedule) (r : nat) (res : CommandResult) (w' : World)
    (sched' : Schedule) :
  getSession (sessionId ctx) w = Some r →
  Protocol.noInterrupt sched →
  executeCommand ctx w sched = (Returned res, w', sched') →
  ∃ timestamp,
    Protocol.writtenTo w' r
    = Protocol.writtenTo w r
      ++ Protocol.linesOf (markersAt timestamp) (command ctx).
Proof.
  intros Hr Hq. unfold executeCommand. unfold bind at 1.
  destruct (accept ctx w sched) as [[[c| |] w1] sched1] eqn:Hacc; [|discriminate..].
  destruct (accept_writes _ _ _ _ _ _ _ Hr Hq Hacc) as (Hc & Hw1 & (t & Ht) & Hq1).
  unfold bind at 1.
  destruct (waitForEnd _ _ _ _ _ w1 sched1) as [[[b| |] w2] sched2] eqn:Hwait;
    [|discriminate..].
  destruct (waitForEnd_writes _ _ _ _ _ _ _ _ _ _ r Hq1 Hwait) as [Hw2 _].
  exists t. rewrite <- Ht, <- Hw1, <- Hw2.
  revert H. destruct b; cbv beta iota delta [negb].
  - destruct (parsedResult_world ctx c w2 sched2) as [res' Hres].
    rewrite Hres. intros H. injection H as _ <- _.
    apply writtenTo_update. intros s; reflexivity.
  - rewrite timedOutResult_eq. intros H. injection H as _ <- _.
    apply writtenTo_update. intros s; reflexivity.
Qed.

Lemma executeCommand_writes_four_lines_witness :
  let w := Examples.worldWith ready 1024 in
  let run := executeCommand (Examples.echoHello 1000) w Scenario.helloSchedule in
  ∃ timestamp,
    Protocol.writtenTo (Store.after run) 0
    = Protocol.linesOf (markersAt timestamp) (lit "echo hello").
Proof.
  intros w run.
  assert (Protocol.noInterrupt Scenario.helloSchedule) as Hq
    by (repeat (constructor; try (intros; discriminate))).
  destruct run as [[[res| |] w'] sched'] eqn:E; try (vm_compute in E; discriminate).
  destruct (executeCommand_writes_four_lines (Examples.echoHello 1000) w
              Scenario.helloSchedule 0 res w' sched' eq_refl Hq E) as (t & Ht).
  exists t. exact Ht.
Defined.

(* ===================================================================== *)
(** ** The buffer of a background process *)
(* ===================================================================== *)

Section Unread.

Lemma sliceFrom_drop (k : Z) (s : list N) :
  (0 <= k)%Z → sliceFrom k s = drop (Z.to_nat k) s.
Proof.
  intros Hk. unfold sliceFrom, len.
  destruct (k <? 0)%Z eqn:E; [apply Z.ltb_lt in E; lia|].
  destruct (Z.le_gt_cases k (Z.of_nat (length s))) as [Hle|Hgt].
  - rewrite Z.min_l by lia. reflexivity.
  - rewrite Z.min_r by lia. rewrite Nat2Z.id.
    rewrite !drop_ge by lia. reflexivity.
Qed.

(** After the listener ran, the unread part is the unread part of before
    followed by the new data, cut at its head to the limit of the buffer. *)
Lemma outputListener_unread (m : Z) (data : list N) (now : Z)
    (p : Poller.BackgroundProcess) :
  (0 <= Poller.readPosition p <= len (Poller.outputBuffer p))%Z →
  let u := Stream.unread p ++ data in
  Stream.unread (Poller.outputListener m data now p)
  = if (len u <=? m)%Z then u else sliceFrom (len u - m) u.
Proof.
  intros Hrp u. unfold Stream.unread in *. unfold Poller.outputListener.
  set (buf := Poller.outputBuffer p) in *. set (rp := Poller.readPosition p) in *.
  assert (u = drop (Z.to_nat rp) (buf ++ data)) as Hu.
  { unfold u. rewrite sliceFrom_drop by lia. rewrite drop_app_le; [reflexivity|].
    unfold len in Hrp. lia. }
  assert (len u = len (buf ++ data) - rp)%Z as Hlen.
  { rewrite Hu. unfold len in *. rewrite length_drop, length_app in *. lia. }
  destruct (m <? len (buf ++ data))%Z eqn:Hover; cbn [Poller.readPosition Poller.outputBuffer].
  - apply Z.ltb_lt in Hover.
    set (excess := (len (buf ++ data) - m)%Z).
    rewrite (sliceFrom_drop excess) by (unfold excess; lia).
    rewrite sliceFrom_drop by lia. rewrite drop_drop.
    destruct (Z.le_gt_cases excess rp) as [Hle|Hgt].
    + rewrite Z.max_r by lia.
      replace (Z.to_nat excess + Z.to_nat (rp - excess))%nat with (Z.to_nat rp) by lia.
      rewrite <- Hu.
      assert ((len u <=? m)%Z = true) as -> by (apply Z.leb_le; unfold excess in *; lia).
      reflexivity.
    + rewrite Z.max_l by lia. rewrite Nat.add_0_r.
      assert ((len u <=? m)%Z = false) as -> by (apply Z.leb_gt; unfold excess in *; lia).
      rewrite Hlen. rewrite sliceFrom_drop by (unfold excess in *; lia).
      rewrite Hu, drop_drop. f_equal. unfold excess in *. lia.
  - apply Z.ltb_ge in Hover.
    rewrite sliceFrom_drop by lia. rewrite <- Hu.
    assert ((len u <=? m)%Z = true) as -> by (apply Z.leb_le; lia).
    reflexivity.
Qed.

End Unread.

(** X14. When the output listener of a background process runs, the text
    not yet returned by a poll becomes that text followed by the new data,
    cut at its head to the last [maxBufferSize] characters when it is longer:
    trimming the buffer loses unread output only when the unread output alone
    exceeds the limit. *)
Theorem outputListener_keeps_unread_tail (m : Z) (data : list N) (now : Z)
    (p : Poller.BackgroundProcess) :
  (0 <= Poller.readPosition p <= len (Poller.outputBuffer p))%Z →
  let u := Stream.unread p ++ data in
  Stream.unread (Poller.outputListener m data now p)
  = if (len u <=? m)%Z then u else sliceFrom (len u - m) u.
Proof. apply outputListener_unread. Qed.

Lemma outputListener_keeps_unread_tail_witness :
  let p := snd (Poller.pollRecord true 1002
                  (Poller.outputListener 8 (lit "compiling") 1001 Examples.makeProcess)) in
  Poller.outputBuffer p = lit "ompiling"
  ∧ Stream.unread (Poller.outputListener 8 (lit " done") 1003 p) = lit " done"
  ∧ Stream.unread (Poller.outputListener 8 (lit " done, 3 warnings") 1003 p)
    = lit "warnings".
Proof.
  intros p. split; [reflexivity|].
  assert (0 <= Poller.readPosition p <= len (Poller.outputBuffer p))%Z as H
    by (vm_compute; split; discriminate).
  split.
  - rewrite (outputListener_keeps_unread_tail 8 (lit " done") 1003 p H). reflexivity.
  - rewrite (outputListener_keeps_unread_tail 8 (lit " done, 3 warnings") 1003 p H).
    reflexivity.
Defined.

(* ===================================================================== *)
(** ** Incremental polling *)
(* ===================================================================== *)

Section Polling.

Lemma received_app ops ops' :
  Stream.received (ops ++ ops') = Stream.received ops ++ Stream.received ops'.
Proof.
  induction ops as [|[t op] ops IH]; [reflexivity|].
  destruct op; simpl; rewrite IH; [apply app_assoc | reflexivity..].
Qed.

(** As long as the buffer has room for all that is received, the polls hand
    the data over piece by piece. *)
Lemma polled_all (ops : list (Z * Poller.Op)) (p : Poller.BackgroundProcess) :
  (0 <= Poller.readPosition p <= len (Poller.outputBuffer p))%Z →
  Forall (fun o => match snd o with
                   | Poller.OnData m _ =>
                       (len (Poller.outputBuffer p) + len (Stream.received ops) <= m)%Z
                   | Poller.Poll incremental => incremental = true
                   | _ => True
                   end) ops →
  Stream.polled ops p ++ Stream.unread (Poller.run ops p)
  = Stream.unread p ++ Stream.received ops.
Proof.
  revert p. induction ops as [|[t op] ops IH]; intros p Hrp Hall.
  - simpl. rewrite app_nil_r. reflexivity.
  - inversion Hall as [|? ? Hop Hops]; subst. simpl in Hop.
    change (Poller.run ((t, op) :: ops) p) with (Poller.run ops (Poller.step t op p)).
    destruct op as [m data|incremental| |o|msg]; cbn [Stream.polled Stream.received].
    + (* the listener *)
      cbn [Stream.received] in Hop.
      assert (len (Poller.outputBuffer p ++ data) <= m)%Z as Hfit.
      { unfold len in *. rewrite length_app in *. lia. }
      assert (Poller.step t (Poller.OnData m data) p
              = {| Poller.id := Poller.id p; Poller.sessionId := Poller.sessionId p;
                   Poller.command := Poller.command p; Poller.status := Poller.status p;
                   Poller.outputBuffer := Poller.outputBuffer p ++ data;
                   Poller.readPosition := Poller.readPosition p;
                   Poller.createdAt := Poller.createdAt p; Poller.lastUpdatedAt := t;
                   Poller.exitCode := Poller.exitCode p; Poller.error_ := Poller.error_ p;
                   Poller.interval := Poller.interval p |}) as Hstep.
      { simpl. unfold Poller.outputListener.
        apply Z.ltb_ge in Hfit. rewrite Hfit. reflexivity. }
      rewrite Hstep. simpl app. rewrite IH.
      * unfold Stream.unread; cbn [Poller.readPosition Poller.outputBuffer].
        rewrite !sliceFrom_drop by lia. rewrite drop_app_le by (unfold len in Hrp; lia).
        rewrite app_assoc. reflexivity.
      * cbn [Poller.readPosition Poller.outputBuffer].
        unfold len in *. rewrite length_app. lia.
      * cbn [Poller.outputBuffer]. eapply Forall_impl; [exact Hops|].
        intros [t' op']; simpl. destruct op'; auto.
        unfold len. rewrite !length_app. unfold len. lia.
    + (* a poll *)
      subst incremental. cbn [Poller.step]. rewrite <- app_assoc, IH.
      * cbn [fst Poller.pollRecord Poller.output].
        f_equal. unfold Stream.unread.
        cbn [Poller.pollRecord Poller.readPosition Poller.outputBuffer snd].
        rewrite (sliceFrom_drop (len _)) by (unfold len; lia).
        unfold len at 1. rewrite Nat2Z.id, drop_all. reflexivity.
      * cbn [snd Poller.pollRecord Poller.readPosition Poller.outputBuffer].
        unfold len. lia.
      * exact Hops.
    + simpl app. rewrite IH; [reflexivity | exact Hrp | exact Hops].
    + simpl app. rewrite IH.
      * unfold Stream.unread. destruct o; reflexivity.
      * destruct o; exact Hrp.
      * destruct o; exact Hops.
    + simpl app. rewrite IH; [reflexivity | exact Hrp | exact Hops].
Qed.

End Polling.

(** X15. Over any history of a background process in which every poll is
    incremental and the data received in all stays within the limit of the
    buffer, the outputs of the polls, put end to end and followed by what is
    still unread, are exactly the data the listener received: nothing is
    lost, repeated or reordered, and stopping or completing the process does
    not change that. *)
Theorem incremental_polls_deliver_everything (ops : list (Z * Poller.Op))
    (processId sid cmd : list N) (now interval : Z) :
  Stream.withinLimit ops →
  let p := Poller.newProcess processId sid cmd now interval in
  Stream.polled ops p ++ Stream.unread (Poller.run ops p) = Stream.received ops.
Proof.
  intros Hops p. rewrite polled_all.
  - reflexivity.
  - unfold p, len. simpl. lia.
  - exact Hops.
Qed.

Lemma incremental_polls_deliver_everything_witness :
  let ops := [(1001, Poller.OnData 64 (lit "step 1; "));
              (1002, Poller.Poll true);
              (1003, Poller.OnData 64 (lit "step 2; "));
              (1004, Poller.OnData 64 (lit "step 3; "));
              (1005, Poller.Stop);
              (1006, Poller.Poll true);
              (1007, Poller.OnData 64 (lit "bye"))]%Z in
  Stream.polled ops Examples.makeProcess = lit "step 1; step 2; step 3; "
  ∧ Stream.polled ops Examples.makeProcess
      ++ Stream.unread (Poller.run ops Examples.makeProcess)
    = lit "step 1; step 2; step 3; bye".
Proof.
  intros ops. split; [reflexivity|].
  assert (Stream.withinLimit ops) as H
    by (repeat constructor; vm_compute; discriminate).
  exact (incremental_polls_deliver_everything ops (lit "p1") (lit "default")
           (lit "make") 1000 1000 H).
Defined.

(* ===================================================================== *)
(** ** The table of background processes *)
(* ===================================================================== *)

Section ProcessTable.

Implicit Types processes : gmap (list N) Poller.BackgroundProcess.

Lemma count_perm (l l' : list (list N * Poller.BackgroundProcess)) :
  l ≡ₚ l' →
  foldr (fun kv cleaned =>
           if Poller.isTerminal (Poller.status (snd kv)) then S cleaned else cleaned)
    0%nat l
  = foldr (fun kv cleaned =>
             if Poller.isTerminal (Poller.status (snd kv)) then S cleaned else cleaned)
      0%nat l'.
Proof.
  induction 1 as [|x l l' _ IH|x y l|l l' l'' _ IH1 _ IH2]; simpl.
  - reflexivity.
  - rewrite IH. reflexivity.
  - repeat case_match; reflexivity.
  - congruence.
Qed.

Lemma cleaned_empty : Poller.cleaned ∅ = 0%nat.
Proof. unfold Poller.cleaned. rewrite map_to_list_empty. reflexivity. Qed.

Lemma cleaned_insert processes i p :
  processes !! i = None →
  Poller.cleaned (<[i := p]> processes)
  = ((if Poller.isTerminal (Poller.status p) then 1 else 0)
     + Poller.cleaned processes)%nat.
Proof.
  intros Hi. unfold Poller.cleaned.
  rewrite (count_perm _ _ (map_to_list_insert processes i p Hi)). simpl.
  destruct (Poller.isTerminal (Poller.status p)); reflexivity.
Qed.

Lemma cleanup_insert processes i p :
  processes !! i = None →
  Poller.cleanupCompleted (<[i := p]> processes)
  = if Poller.isTerminal (Poller.status p) then Poller.cleanupCompleted processes
    else <[i := p]> (Poller.cleanupCompleted processes).
Proof.
  intros Hi. unfold Poller.cleanupCompleted.
  destruct (Poller.isTerminal (Poller.status p)) eqn:E.
  - rewrite map_filter_insert_False by (simpl; congruence).
    rewrite delete_id by exact Hi. reflexivity.
  - rewrite map_filter_insert_True by exact E. reflexivity.
Qed.

Lemma cleaned_count processes :
  (Poller.cleaned processes + size (Poller.cleanupCompleted processes))%nat
  = size processes.
Proof.
  induction processes as [|i p processes Hi IH] using map_ind.
  - rewrite cleaned_empty. unfold Poller.cleanupCompleted.
    rewrite map_filter_empty, map_size_empty. reflexivity.
  - rewrite cleaned_insert, cleanup_insert, map_size_insert_None by exact Hi.
    destruct (Poller.isTerminal (Poller.status p)); [lia|].
    rewrite map_size_insert_None; [lia|].
    unfold Poller.cleanupCompleted. apply map_lookup_filter_None. auto.
Qed.

Lemma cleaned_none processes :
  (∀ i p, processes !! i = Some p → Poller.isTerminal (Poller.status p) = false) →
  Poller.cleaned processes = 0%nat.
Proof.
  induction processes as [|i p processes Hi IH] using map_ind; intros H.
  - apply cleaned_empty.
  - rewrite cleaned_insert by exact Hi.
    rewrite (H i p) by apply lookup_insert_eq. rewrite IH; [reflexivity|].
    intros j q Hj. apply (H j q). rewrite lookup_insert_ne; [exact Hj|].
    intros ->. congruence.
Qed.

Lemma cleanup_lookup processes i p :
  Poller.cleanupCompleted processes !! i = Some p
  ↔ processes !! i = Some p ∧ Poller.isTerminal (Poller.status p) = false.
Proof. unfold Poller.cleanupCompleted. apply map_lookup_filter_Some. Qed.

End ProcessTable.

(** X16. [cleanupCompleted] removes the records whose status is completed,
    error or stopped, and only those: every other record stays as it is.  The
    number it returns is the number of records removed, and a second call
    right after removes nothing and returns 0. *)
Theorem cleanupCompleted_removes_finished
    (processes : gmap (list N) Poller.BackgroundProcess) :
  (∀ i p, Poller.cleanupCompleted processes !! i = Some p
          ↔ processes !! i = Some p ∧ Poller.isTerminal (Poller.status p) = false)
  ∧ (Poller.cleaned processes + size (Poller.cleanupCompleted processes))%nat
    = size processes
  ∧ Poller.cleanupCompleted (Poller.cleanupCompleted processes)
    = Poller.cleanupCompleted processes
  ∧ Poller.cleaned (Poller.cleanupCompleted processes) = 0%nat.
Proof.
  split; [apply cleanup_lookup|]. split; [apply cleaned_count|]. split.
  - unfold Poller.cleanupCompleted at 1. apply map_filter_id.
    intros i p Hp. apply cleanup_lookup in Hp. apply Hp.
  - apply cleaned_none. intros i p Hp. apply cleanup_lookup in Hp. apply Hp.
Qed.

Section Lifecycle.

Implicit Types processes : gmap (list N) Poller.BackgroundProcess.

Lemma getActiveProcesses_elem processes item :
  item ∈ Poller.getActiveProcesses processes
  ↔ ∃ i p, processes !! i = Some p ∧ Poller.status p = Poller.running
           ∧ item = Poller.listItem p.
Proof.
  unfold Poller.getActiveProcesses. rewrite list_elem_of_fmap. split.
  - intros (p & -> & Hp). apply list_elem_of_In, filter_In in Hp as [Hp Hrun].
    apply list_elem_of_In, list_elem_of_fmap in Hp as ([i q] & -> & Hq).
    apply elem_of_map_to_list in Hq. exists i, q. split; [exact Hq|].
    split; [|reflexivity]. simpl in Hrun. destruct (Poller.status q); try discriminate.
    reflexivity.
  - intros (i & p & Hp & Hrun & ->). exists p. split; [reflexivity|].
    apply list_elem_of_In, filter_In. split.
    + apply list_elem_of_In, list_elem_of_fmap. exists (i, p). split; [reflexivity|].
      apply elem_of_map_to_list, Hp.
    + rewrite Hrun. reflexivity.
Qed.

Lemma getAllProcesses_elem processes item :
  item ∈ Poller.getAllProcesses processes
  ↔ ∃ i p, processes !! i = Some p ∧ item = Poller.listItem p.
Proof.
  unfold Poller.getAllProcesses. rewrite list_elem_of_fmap. split.
  - intros (p & -> & Hp). apply list_elem_of_fmap in Hp as ([i q] & -> & Hq).
    apply elem_of_map_to_list in Hq. eauto.
  - intros (i & p & Hp & ->). exists p. split; [reflexivity|].
    apply list_elem_of_fmap. exists (i, p). split; [reflexivity|].
    apply elem_of_map_to_list, Hp.
Qed.

End Lifecycle.

(** X17. [startProcess] for a session that is not in the store throws
    "Session <id> not found" and leaves the table of processes as it was.
    For a stored session it returns the id it drew and stores a record under
    it.  For a command that is not blank the record is running, with an empty
    buffer: the process is listed among the active ones, an incremental poll
    made at once returns the empty text with neither new content nor
    completion, and [cleanupCompleted] keeps the record.  For a blank command
    the record is already in error, with the message "Command cannot be
    empty", when the caller is given the id: the process is not listed as
    active, a poll reports it complete, and [cleanupCompleted] removes it. *)
Theorem startProcess_registers_the_process (sid cmd : list N)
    (interval : option Z) (w : World)
    (processes : gmap (list N) Poller.BackgroundProcess) :
  (getSession sid w = None →
   ∃ w', Poller.startProcess sid cmd interval w processes
         = (inl (PlainError (lit "Session " ++ sid ++ lit " not found")),
            w', processes))
  ∧ (is_Some (getSession sid w) →
     ∃ processId w' processes' p,
       Poller.startProcess sid cmd interval w processes
       = (inr processId, w', processes')
       ∧ processes' !! processId = Some p
       ∧ (isEmpty cmd || isEmpty (trim cmd) = false →
          Poller.status p = Poller.running
          ∧ Poller.listItem p ∈ Poller.getActiveProcesses processes'
          ∧ Poller.cleanupCompleted processes' !! processId = Some p
          ∧ ∀ t, ∃ res processes'',
              Poller.poll processId true t processes' = (inr res, processes'')
              ∧ Poller.output res = []
              ∧ Poller.hasNewContent res = false
              ∧ Poller.isComplete res = false
              ∧ Poller.resStatus res = Poller.running)
       ∧ (isEmpty cmd || isEmpty (trim cmd) = true →
          Poller.status p = Poller.error
          ∧ Poller.error_ p = Some (lit "Command cannot be empty")
          ∧ (Poller.listItem p ∉ Poller.getActiveProcesses processes')
          ∧ Poller.cleanupCompleted processes' !! processId = None
          ∧ ∀ t, ∃ res processes'',
              Poller.poll processId true t processes' = (inr res, processes'')
              ∧ Poller.output res = []
              ∧ Poller.isComplete res = true
              ∧ Poller.resStatus res = Poller.error
              ∧ Poller.resError res = Some (lit "Command cannot be empty"))).
Proof.
  unfold Poller.startProcess, uuidv4, getSession. cbn [fst snd sessions now].
  split.
  - intros ->. eauto.
  - intros [r ->]. cbv zeta. eexists _, _, _, _. split; [reflexivity|].
    split; [apply lookup_insert_eq|].
    destruct (isEmpty cmd || isEmpty (trim cmd)).
    + split; [discriminate|]. intros _.
      split; [reflexivity|]. split; [reflexivity|]. split; [|split].
      * intros Hin. apply getActiveProcesses_elem in Hin as (i & q & _ & Hrun & Heq).
        apply (f_equal Poller.itemStatus) in Heq. simpl in Heq. congruence.
      * destruct (Poller.cleanupCompleted _ !! _) as [q|] eqn:E; [|reflexivity].
        apply cleanup_lookup in E as [E Hq]. rewrite lookup_insert_eq in E.
        injection E as <-. discriminate.
      * intros t. unfold Poller.poll. rewrite lookup_insert_eq.
        eexists _, _. split; [reflexivity|]. repeat split.
    + split; [intros _ | discriminate].
      split; [reflexivity|]. split; [|split].
      * apply getActiveProcesses_elem. eexists _, _.
        split; [apply lookup_insert_eq|]. split; reflexivity.
      * apply cleanup_lookup. split; [apply lookup_insert_eq | reflexivity].
      * intros t. unfold Poller.poll. rewrite lookup_insert_eq.
        eexists _, _. split; [reflexivity|]. repeat split.
Qed.

Lemma startProcess_registers_the_process_witness :
  let w := Examples.worldWith ready 1024 in
  (∃ w', Poller.startProcess (lit "other") (lit "make") None w ∅
         = (inl (PlainError (lit "Session other not found")), w', ∅))
  ∧ (∃ processId w' processes' p,
       Poller.startProcess (lit "default") (lit "make") None w ∅
       = (inr processId, w', processes')
       ∧ processes' !! processId = Some p ∧ Poller.status p = Poller.running)
  ∧ ∃ processId w' processes' p,
      Poller.startProcess (lit "default") (lit "  ") None w ∅
      = (inr processId, w', processes')
      ∧ processes' !! processId = Some p ∧ Poller.status p = Poller.error
      ∧ Poller.cleanupCompleted processes' !! processId = None.
Proof.
  intros w.
  destruct (startProcess_registers_the_process (lit "other") (lit "make")
              None w ∅) as [Hmiss _].
  destruct (startProcess_registers_the_process (lit "default") (lit "make")
              None w ∅) as [_ Hhit].
  destruct (startProcess_registers_the_process (lit "default") (lit "  ")
              None w ∅) as [_ Hblank].
  split; [exact (Hmiss eq_refl)|]. split.
  - destruct (Hhit ltac:(exists 0%nat; reflexivity))
      as (pid & w' & ps' & p & Hrun & Hp & Hgood & _).
    destruct (Hgood eq_refl) as (Hst & _).
    exists pid, w', ps', p. split; [exact Hrun|]. split; assumption.
  - destruct (Hblank ltac:(exists 0%nat; reflexivity))
      as (pid & w' & ps' & p & Hrun & Hp & _ & Hbad).
    destruct (Hbad eq_refl) as (Hst & _ & _ & Hgone & _).
    exists pid, w', ps', p. split; [exact Hrun|]. split; [exact Hp|].
    split; assumption.
Defined.

(** X18. [stopProcess] on a known process sets its record to stopped
    whatever its status was, and sends the interrupt character to the pty of
    its session when that session is still in the store.  The process is then
    no longer listed as active, [cleanupCompleted] removes its record, and a
    poll for it after that throws "Process <id> not found". *)
Theorem stopped_process_is_cleaned_up (processId : list N) (w : World)
    (processes : gmap (list N) Poller.BackgroundProcess)
    (p : Poller.BackgroundProcess) :
  processes !! processId = Some p →
  let w' := fst (Poller.stopProcess processId w processes) in
  let processes' := snd (Poller.stopProcess processId w processes) in
  processes' !! processId = Some (Poller.stopRecord (now w) p)
  ∧ w' = interrupt (Poller.sessionId p) w
  ∧ (∀ r, getSession (Poller.sessionId p) w = Some r →
          written (ptyProcess (object w' r))
          = written (ptyProcess (object w r)) ++ [[3%N]])
  ∧ (∀ item, item ∈ Poller.getActiveProcesses processes' →
             item ∈ Poller.getActiveProcesses processes
             ∧ item ≠ Poller.listItem (Poller.stopRecord (now w) p))
  ∧ Poller.cleanupCompleted processes' !! processId = None
  ∧ ∀ incremental t,
      fst (Poller.poll processId incremental t (Poller.cleanupCompleted processes'))
      = inl (PlainError (lit "Process " ++ processId ++ lit " not found")).
Proof.
  intros Hp w' processes'. unfold w', processes', Poller.stopProcess. rewrite Hp.
  cbn [fst snd].
  assert (Poller.cleanupCompleted
            (<[processId := Poller.stopRecord (now w) p]> processes) !! processId
          = None) as Hgone.
  { destruct (Poller.cleanupCompleted
                (<[processId := Poller.stopRecord (now w) p]> processes) !! processId)
      as [q|] eqn:E; [|reflexivity].
    apply cleanup_lookup in E as [E Hq]. rewrite lookup_insert_eq in E.
    injection E as <-. discriminate. }
  split; [apply lookup_insert_eq|]. split; [reflexivity|]. split; [|split; [|split]].
  - intros r Hr. unfold interrupt, getSession in *. rewrite Hr.
    rewrite heap_update_same. reflexivity.
  - intros item Hitem. apply getActiveProcesses_elem in Hitem as (i & q & Hq & Hrun & ->).
    destruct (decide (i = processId)) as [->|Hne].
    + rewrite lookup_insert_eq in Hq. injection Hq as <-. discriminate.
    + rewrite lookup_insert_ne in Hq by congruence. split.
      * apply getActiveProcesses_elem. eauto.
      * intros Heq. apply (f_equal Poller.itemStatus) in Heq. simpl in Heq. congruence.
  - exact Hgone.
  - intros incremental t. unfold Poller.poll. rewrite Hgone. reflexivity.
Qed.

Lemma stopped_process_is_cleaned_up_witness :
  let w := Examples.worldWith busy 1024 in
  let processes := {[ lit "p1" := Examples.makeProcess ]} in
  let w' := fst (Poller.stopProcess (lit "p1") w processes) in
  let processes' := snd (Poller.stopProcess (lit "p1") w processes) in
  written (ptyProcess (object w' 0)) = [[3%N]]
  ∧ Poller.cleanupCompleted processes' !! lit "p1" = None.
Proof.
  intros w processes w' processes'.
  destruct (stopped_process_is_cleaned_up (lit "p1") w processes Examples.makeProcess
              eq_refl) as (_ & _ & Hint & _ & Hgone & _).
  split; [exact (Hint 0%nat eq_refl) | exact Hgone].
Defined.

(* ===================================================================== *)
(** ** File transfer: the chunks of an upload *)
(* ===================================================================== *)

Section Chunks.

Lemma substring_inside (a b : Z) (s : list N) :
  (0 <= a <= len s)%Z → (a <= b)%Z →
  substring a b s = take (Z.to_nat (Z.min b (len s) - a)) (drop (Z.to_nat a) s).
Proof.
  intros Ha Hb. unfold substring. cbv zeta.
  replace (Z.min (Z.max a 0) (len s)) with a by lia.
  replace (Z.min (Z.max b 0) (len s)) with (Z.min b (len s)) by lia.
  rewrite (Z.min_l a) by lia. rewrite (Z.max_r a) by lia. reflexivity.
Qed.

Lemma chunksFrom_concat (fuel : nat) (i : Z) (content : list N) :
  (0 <= i)%Z → (len content - i <= Z.of_nat fuel)%Z →
  concat (Transfer.chunksFrom fuel Transfer.chunkSize i content)
  = drop (Z.to_nat i) content.
Proof.
  revert i. induction fuel as [|fuel IH]; intros i Hi Hfuel; simpl.
  - rewrite drop_ge; [reflexivity|]. unfold len in Hfuel. lia.
  - destruct (i <? len content)%Z eqn:E.
    + apply Z.ltb_lt in E. simpl. unfold Transfer.chunkSize in *.
      rewrite IH by lia. rewrite substring_inside by lia.
      replace (Z.to_nat (i + 8000)) with (Z.to_nat i + Z.to_nat 8000)%nat by lia.
      rewrite <- drop_drop.
      destruct (Z.le_gt_cases (i + 8000) (len content)) as [Hle|Hgt].
      * rewrite Z.min_l by lia.
        replace (Z.to_nat (i + 8000 - i)) with (Z.to_nat 8000) by lia.
        apply take_drop.
      * rewrite Z.min_r by lia. rewrite take_ge, (drop_ge (drop _ _)).
        -- apply app_nil_r.
        -- rewrite length_drop. unfold len in *. lia.
        -- rewrite length_drop. unfold len in *. lia.
    + apply Z.ltb_ge in E. simpl. rewrite drop_ge; [reflexivity|].
      unfold len in E. lia.
Qed.

Lemma chunksFrom_sizes (fuel : nat) (i : Z) (content : list N) :
  (0 <= i)%Z →
  Forall (fun chunk => (0 < len chunk <= Transfer.chunkSize)%Z)
    (Transfer.chunksFrom fuel Transfer.chunkSize i content).
Proof.
  revert i. induction fuel as [|fuel IH]; intros i Hi; simpl; [constructor|].
  destruct (i <? len content)%Z eqn:E; [|constructor].
  apply Z.ltb_lt in E. unfold Transfer.chunkSize in *. constructor; [|apply IH; lia].
  rewrite substring_inside by lia. unfold len in *.
  rewrite length_take, length_drop. lia.
Qed.

(** Every chunk but the last is full. *)
Lemma chunksFrom_full (fuel : nat) (i : Z) (content : list N) (n : nat) chunk :
  (0 <= i)%Z →
  Transfer.chunksFrom fuel Transfer.chunkSize i content !! n = Some chunk →
  (S n < length (Transfer.chunksFrom fuel Transfer.chunkSize i content))%nat →
  len chunk = Transfer.chunkSize.
Proof.
  revert i n. induction fuel as [|fuel IH]; intros i n Hi; simpl; [discriminate|].
  destruct (i <? len content)%Z eqn:E; [|discriminate].
  apply Z.ltb_lt in E. destruct n as [|n]; simpl.
  - intros H Hlen. injection H as <-.
    destruct fuel as [|fuel]; simpl in Hlen; [lia|].
    destruct (i + Transfer.chunkSize <? len content)%Z eqn:E2; [|simpl in Hlen; lia].
    apply Z.ltb_lt in E2. unfold Transfer.chunkSize in *.
    rewrite substring_inside by lia. unfold len in *.
    rewrite length_take, length_drop. lia.
  - intros H Hlen. apply (IH (i + Transfer.chunkSize)%Z n);
      [unfold Transfer.chunkSize; lia | exact H | lia].
Qed.

Lemma chunksFrom_count (fuel : nat) (i : Z) (content : list N) :
  (0 <= i)%Z → (len content - i <= Z.of_nat fuel)%Z →
  Z.of_nat (length (Transfer.chunksFrom fuel Transfer.chunkSize i content))
  = ((Z.max (len content - i) 0 + Transfer.chunkSize - 1) / Transfer.chunkSize)%Z.
Proof.
  revert i. induction fuel as [|fuel IH]; intros i Hi Hfuel; simpl.
  - rewrite Z.max_r by lia. reflexivity.
  - destruct (i <? len content)%Z eqn:E.
    + apply Z.ltb_lt in E. simpl length. rewrite Nat2Z.inj_succ, IH by
        (unfold Transfer.chunkSize; lia).
      unfold Transfer.chunkSize.
      rewrite (Z.max_l (len content - i)) by lia.
      destruct (Z.le_gt_cases (len content - (i + 8000)) 0) as [Hle|Hgt].
      * rewrite Z.max_r by lia. change ((0 + 8000 - 1) / 8000)%Z with 0%Z.
        apply Z.div_unique with (r := (len content - i - 1)%Z); lia.
      * rewrite Z.max_l by lia.
        replace (len content - i + 8000 - 1)%Z
          with (len content - (i + 8000) + 8000 - 1 + 1 * 8000)%Z by lia.
        rewrite Z.div_add by lia. lia.
    + apply Z.ltb_ge in E. rewrite Z.max_r by lia. reflexivity.
Qed.

End Chunks.

(** X19. The chunks [uploadFile] cuts the content into, put end to end, are
    the content; no chunk is empty or longer than 8000 code units, every
    chunk but the last has exactly 8000, and their number is the length of
    the content divided by 8000, rounded up. *)
Theorem upload_chunks_reassemble (content : list N) :
  concat (Transfer.chunksOf content) = content
  ∧ Forall (fun chunk => (0 < len chunk <= 8000)%Z) (Transfer.chunksOf content)
  ∧ (∀ n chunk, Transfer.chunksOf content !! n = Some chunk →
                (S n < length (Transfer.chunksOf content))%nat →
                len chunk = 8000%Z)
  ∧ Z.of_nat (length (Transfer.chunksOf content)) = ((len content + 7999) / 8000)%Z.
Proof.
  unfold Transfer.chunksOf. split; [|split; [|split]].
  - rewrite chunksFrom_concat; [reflexivity | lia | unfold len; lia].
  - apply chunksFrom_sizes. lia.
  - intros n chunk. apply chunksFrom_full. lia.
  - rewrite chunksFrom_count; [|lia | unfold len; lia].
    unfold Transfer.chunkSize. rewrite Z.sub_0_r, Z.max_l by (unfold len; lia).
    f_equal. lia.
Qed.

(* ===================================================================== *)
(** ** File transfer: the calls settle *)
(* ===================================================================== *)

Section Settling.

Lemma createSession_settles options w sched :
  fst (fst (createSession options w sched)) ≠ Diverged.
Proof.
  unfold createSession, bind at 1, getWorld.
  destruct (geNum (Z.of_nat (size (sessions w))) (maxSessions (config w)));
    [discriminate|].
  unfold bind at 1.
  destruct (match options ≫= optId with
            | Some i => if isEmpty i then uuidv4 else ret i
            | None => uuidv4
            end w sched) as [[[sid|e|] w1] sched1] eqn:Hid.
  2,3: destruct (options ≫= optId) as [i|]; [destruct (isEmpty i)|];
       cbv in Hid; discriminate.
  destruct (bool_decide (is_Some (sessions w !! sid))); [discriminate|].
  unfold bind at 1, createPty, bind at 1, getWorld, bind at 1, suspend.
  destruct (createPtyAnswer (backend w1)); cbn; discriminate.
Qed.

Lemma accept_settles ctx w sched : fst (fst (accept ctx w sched)) ≠ Diverged.
Proof.
  unfold accept.
  destruct (isEmpty (command ctx) || isEmpty (trim (command ctx))); [discriminate|].
  unfold bind at 1.
  pose proof (createSession_settles (Some (withId None (sessionId ctx))) w sched) as Hc.
  unfold getOrCreateSession, bind at 1, getWorld.
  destruct (sessions w !! sessionId ctx) as [r|].
  - unfold ret at 1. unfold bind at 1, deref.
    destruct (SessionStatus_eqb (status (object w r)) busy); [discriminate|].
    destruct (SessionStatus_eqb (status (object w r)) closed); [discriminate|].
    cbn. discriminate.
  - destruct (createSession _ w sched) as [[[r| |] w0] sched0]; simpl in Hc;
      [|discriminate|congruence].
    unfold bind at 1, deref.
    destruct (SessionStatus_eqb (status (object w0 r)) busy); [discriminate|].
    destruct (SessionStatus_eqb (status (object w0 r)) closed); [discriminate|].
    cbn. discriminate.
Qed.

(** A call of [executeCommand] returns a result or throws: its loop always
    comes to an end. *)
Lemma executeCommand_settles ctx w sched :
  fst (fst (executeCommand ctx w sched)) ≠ Diverged.
Proof.
  pose proof (accept_settles ctx w sched) as Ha.
  destruct (accept ctx w sched) as [[[c|e|] w1] sched1] eqn:Hacc; simpl in Ha.
  - destruct (executeCommand_after_accept _ _ _ _ _ _ Hacc) as (res & w2 & s2 & ->).
    discriminate.
  - unfold executeCommand. rewrite (bind_thrown _ _ _ _ _ _ _ Hacc). discriminate.
  - congruence.
Qed.

Lemma transfer_settles sid cmd timeout w sched :
  fst (fst (Transfer.executeCommand sid cmd timeout w sched)) ≠ Diverged.
Proof. apply executeCommand_settles. Qed.

End Settling.

(* ===================================================================== *)
(** ** File transfer: downloads *)
(* ===================================================================== *)

Section Download.

Lemma replaceAll_notBase64 (s : list N) :
  replaceAll Transfer.reNotBase64 [] s = List.filter Transfer.isBase64 s.
Proof.
  unfold replaceAll, Transfer.reNotBase64. rewrite replaceGo_Chr.
  induction s as [|c s IH]; [reflexivity|]. simpl. rewrite IH.
  unfold notC. destruct (Transfer.isBase64 c); reflexivity.
Qed.

Lemma substring_prefix (n : Z) (s : list N) :
  (0 <= n)%Z → substring 0 n s = take (Z.to_nat n) s.
Proof.
  intros Hn. rewrite substring_inside by (unfold len; lia).
  rewrite Z.sub_0_r. change (Z.to_nat 0) with 0%nat. rewrite drop_0. unfold len.
  destruct (Z.le_gt_cases n (Z.of_nat (length s))).
  - rewrite Z.min_l by lia. reflexivity.
  - rewrite Z.min_r by lia. rewrite !take_ge by lia. reflexivity.
Qed.

Lemma download_content (size : Z) (out : list N) :
  (0 < size)%Z →
  let content := substring 0 (Transfer.expectedLength size)
                   (replaceAll Transfer.reNotBase64 [] out) in
  Forall (fun c => Transfer.isBase64 c = true) content
  ∧ (len content <= Transfer.expectedLength size)%Z.
Proof.
  intros Hsize content.
  assert (0 <= Transfer.expectedLength size)%Z as Hpos.
  { unfold Transfer.expectedLength. apply Z.div_pos; lia. }
  unfold content. rewrite substring_prefix by exact Hpos.
  rewrite replaceAll_notBase64. split.
  - apply Forall_take, Forall_forall. intros c Hc.
    apply list_elem_of_In, filter_In in Hc. apply Hc.
  - unfold len. rewrite length_take. lia.
Qed.

End Download.

(** X20. [downloadFile] never throws: it always returns a result, for the
    path it was asked for.  A successful result has a size that is positive
    (an empty file cannot be downloaded) and within the limit in force, and
    its content is made of characters of the base64 alphabet only, at most
    [ceil(size * 4 / 3)] of them; a failed result has an empty content and an
    error message. *)
Theorem downloadFile_keeps_its_promise (manager : Transfer.FileTransferManager)
    (options : Transfer.DownloadFileOptions) (w : World) (sched : Schedule) :
  ∃ res w' sched',
    Transfer.downloadFile manager options w sched = (Returned res, w', sched')
    ∧ Transfer.dlResRemotePath res = Transfer.dlRemotePath options
    ∧ Files.downloadPromise
        (orNum (Transfer.dlMaxSize options) (Transfer.maxFileSize manager)) res.
Proof.
  unfold Transfer.downloadFile, tryCatch. cbv zeta.
  unfold bind at 1.
  match goal with |- context [Transfer.executeCommand ?s ?c ?t w sched] =>
    pose proof (transfer_settles s c t w sched) as H1;
    destruct (Transfer.executeCommand s c t w sched) as [[[r1|e1|] w1] s1]
  end; simpl in H1; [| |congruence].
  2: { unfold ret. eexists _, _, _. split; [reflexivity|].
       split; [reflexivity|]. split; [reflexivity | eexists; reflexivity]. }
  destruct (bool_decide (trim (output r1) = lit "not_found")).
  { unfold ret. eexists _, _, _. split; [reflexivity|].
    split; [reflexivity|]. split; [reflexivity | eexists; reflexivity]. }
  unfold bind at 1.
  match goal with |- context [Transfer.executeCommand ?s ?c ?t w1 s1] =>
    pose proof (transfer_settles s c t w1 s1) as H2;
    destruct (Transfer.executeCommand s c t w1 s1) as [[[r2|e2|] w2] s2]
  end; simpl in H2; [| |congruence].
  2: { unfold ret. eexists _, _, _. split; [reflexivity|].
       split; [reflexivity|]. split; [reflexivity | eexists; reflexivity]. }
  destruct (match exec Transfer.reSize (output r2) with
            | Some (_ :: digits :: _) => Some (parseDigits digits)
            | _ => None
            end) as [size|].
  2: { unfold ret. eexists _, _, _. split; [reflexivity|].
       split; [reflexivity|]. split; [reflexivity | eexists; reflexivity]. }
  destruct (size <=? 0)%Z eqn:Hpos.
  { unfold ret. eexists _, _, _. split; [reflexivity|].
    split; [reflexivity|]. split; [reflexivity | eexists; reflexivity]. }
  destruct (orNum (Transfer.dlMaxSize options) (Transfer.maxFileSize manager) <? size)%Z
    eqn:Hmax.
  { unfold ret. eexists _, _, _. split; [reflexivity|].
    split; [reflexivity|]. split; [reflexivity | eexists; reflexivity]. }
  apply Z.leb_gt in Hpos. apply Z.ltb_ge in Hmax.
  unfold bind at 1.
  match goal with |- context [Transfer.executeCommand ?s ?c ?t w2 s2] =>
    pose proof (transfer_settles s c t w2 s2) as H3;
    destruct (Transfer.executeCommand s c t w2 s2) as [[[r3|e3|] w3] s3]
  end; simpl in H3; [| |congruence].
  2: { unfold ret. eexists _, _, _. split; [reflexivity|].
       split; [reflexivity|]. split; [reflexivity | eexists; reflexivity]. }
  destruct (negb (success r3)).
  { unfold ret. eexists _, _, _. split; [reflexivity|].
    split; [reflexivity|]. split; [reflexivity | eexists; reflexivity]. }
  unfold ret. eexists _, _, _. split; [reflexivity|]. split; [reflexivity|].
  unfold Files.downloadPromise.
  cbn [Transfer.dlSuccess Transfer.dlSize Transfer.dlContent Transfer.dlError].
  destruct (download_content size (output r3) Hpos) as [Hchars Hlen].
  split; [lia|]. split; [exact Hchars|]. split; [exact Hlen | reflexivity].
Qed.

(* ===================================================================== *)
(** ** File transfer: the lines of a directory listing *)
(* ===================================================================== *)

Section Listing.

Import ReSem.

Ltac invM :=
  repeat match goal with
  | H : Matches _ (Seq _ _) _ _ _ |- _ => inversion H; clear H; subst
  | H : Matches _ (Chr _) _ _ _ |- _ => inversion H; clear H; subst
  | H : Matches _ (Star _) _ _ _ |- _ => inversion H; clear H; subst
  | H : Matches _ (Group _) _ _ _ |- _ => inversion H; clear H; subst
  | H : Matches _ Bol _ _ _ |- _ => inversion H; clear H; subst
  | H : Matches _ Eol _ _ _ |- _ => inversion H; clear H; subst
  | H : Matches _ Eps _ _ _ |- _ => inversion H; clear H; subst
  end.

Lemma parseDigits_from (ds : list N) (acc : Z) :
  (0 <= acc)%Z → Forall (fun c => isDigit c = true) ds →
  (0 <= fold_left (fun acc c => 10 * acc + (Z.of_N c - 48)) ds acc)%Z.
Proof.
  intros Hacc H. revert acc Hacc. induction H as [|c ds Hc _ IH]; intros acc Hacc.
  - exact Hacc.
  - simpl. apply IH. unfold isDigit in Hc.
    apply andb_true_iff in Hc as [H1 H2]. apply N.leb_le in H1, H2. lia.
Qed.

Lemma parseDigits_nonneg (ds : list N) :
  Forall (fun c => isDigit c = true) ds → (0 <= parseDigits ds)%Z.
Proof. apply parseDigits_from. lia. Qed.

Lemma oneOf_kind c :
  oneOf "d-l" c = true → c = ch "d" ∨ c = ch "-" ∨ c = ch "l".
Proof.
  unfold oneOf. simpl. rewrite !orb_true_iff, !N.eqb_eq.
  intros [H|[H|[H|H]]]; auto. discriminate.
Qed.

(** What a line that matches the pattern looks like, and what the groups of
    the match hold. *)
Lemma ls_match_structure (line : list N) (l : list (list N)) :
  exec Transfer.reLsLine line = Some l →
  ∃ kind perms sp1 links sp2 owner sp3 group sp4 size sp5 date sp6 name,
    l = [line; kind :: perms; links; owner; group; size; date; name]
    ∧ line = (kind :: perms) ++ sp1 ++ links ++ sp2 ++ owner ++ sp3 ++ group
               ++ sp4 ++ size ++ sp5 ++ date ++ sp6 ++ name
    ∧ (kind = ch "d" ∨ kind = ch "-" ∨ kind = ch "l")
    ∧ length perms = 9%nat
    ∧ Forall (fun c => oneOf "rwxs-" c = true) perms
    ∧ Forall (fun c => isDigit c = true) size
    ∧ name ≠ []
    ∧ Forall (fun c => isLineTerminator c = false) name.
Proof.
  intros H. unfold Transfer.reLsLine in H. cbv [seqs] in H.
  apply anchored_search in H as (u & rest & caps & -> & M1 & ->).
  cbv [seqs plus times] in M1. invM.
  rewrite ?app_nil_r, ?app_nil_l. simpl app.
  match goal with
  | Hk : oneOf "d-l" ?k = true |- _ => apply oneOf_kind in Hk
  end.
  match goal with
  | |- context [ [?k :: ?p1 :: ?p2 :: ?p3 :: ?p4 :: ?p5 :: ?p6 :: ?p7 :: ?p8 :: ?p9
                  :: ?a1 :: ?s1 ++ ?l0 :: ?l ++ ?a2 :: ?s2 ++ ?o0 :: ?o
                  ++ ?a3 :: ?s3 ++ ?g0 :: ?g ++ ?a4 :: ?s4 ++ ?z0 :: ?z
                  ++ ?a5 :: ?s5 ++ ?d0 :: ?d ++ ?a6 :: ?s6 ++ ?n0 :: ?n; _; _; _; _;
                  _; _; _] ] =>
      exists k, [p1; p2; p3; p4; p5; p6; p7; p8; p9], (a1 :: s1), (l0 :: l),
        (a2 :: s2), (o0 :: o), (a3 :: s3), (g0 :: g), (a4 :: s4), (z0 :: z),
        (a5 :: s5), (d0 :: d), (a6 :: s6), (n0 :: n)
  end.
  split; [reflexivity|]. split; [reflexivity|].
  split; [assumption|]. split; [reflexivity|].
  split; [repeat constructor; assumption|].
  split; [constructor; assumption|].
  split; [discriminate|].
  constructor.
  - match goal with Hd : dot ?c = true |- isLineTerminator ?c = false =>
      unfold dot, notC in Hd; apply negb_true_iff in Hd; exact Hd end.
  - eapply Forall_impl; [eassumption|]. intros c' Hd.
    unfold dot, notC in Hd. apply negb_true_iff in Hd. exact Hd.
Qed.

Lemma length_omap_le {A B} (f : A -> option B) (l : list A) :
  (length (omap f l) <= length l)%nat.
Proof.
  induction l as [|a l IH]; cbn; [lia|]. destruct (f a); cbn; lia.
Qed.

Lemma parseLsLine_readOff now line info :
  Transfer.parseLsLine now line = Some info →
  Files.readOff now line info
  ∧ Transfer.path info ≠ lit "." ∧ Transfer.path info ≠ lit ".."
  ∧ startsWith (lit "total ") line = false
  ∧ startsWith (lit "ls:") line = false.
Proof.
  unfold Transfer.parseLsLine.
  destruct (isEmpty (trim line)); [discriminate|].
  destruct (startsWith (lit "total ") line); [discriminate|].
  destruct (startsWith (lit "ls:") line); [discriminate|]. cbn [orb].
  destruct (exec Transfer.reLsLine line) as [l|] eqn:E; [|discriminate].
  destruct (ls_match_structure line l E)
    as (kind & perms & sp1 & links & sp2 & owner & sp3 & group & sp4 & size
        & sp5 & date & sp6 & name & -> & Hline & Hkind & Hlen & Hperms & Hsize
        & Hne & Hname).
  destruct (bool_decide (name = lit ".")) eqn:E1; [cbn [orb]; discriminate|].
  destruct (bool_decide (name = lit "..")) eqn:E2; [cbn [orb]; discriminate|].
  apply bool_decide_eq_false in E1, E2. cbn [orb].
  intros H. injection H as <-. cbn [Transfer.path].
  split; [|auto].
  exists kind, perms,
    (sp1 ++ links ++ sp2 ++ owner ++ sp3 ++ group ++ sp4 ++ size ++ sp5 ++ date ++ sp6).
  cbn [Transfer.path Transfer.isDirectory Transfer.mode Transfer.size
       Transfer.modifiedTime].
  split; [rewrite Hline; simpl; rewrite <- !app_assoc; reflexivity|].
  split; [exact Hkind|].
  split.
  { destruct Hkind as [Hk|[Hk|Hk]]; rewrite Hk; reflexivity. }
  split.
  { rewrite substring_inside by (unfold len; simpl; lia).
    rewrite Z.min_id. unfold len. simpl length.
    replace (Z.to_nat (Z.of_nat (S (length perms)) - 1)) with (length perms) by lia.
    simpl drop. rewrite drop_0. apply take_ge. lia. }
  split; [exact Hlen|]. split; [exact Hperms|]. split; [exact Hne|].
  split; [exact Hname|]. split; [apply parseDigits_nonneg, Hsize | reflexivity].
Qed.

End Listing.

(** X21. Every entry [parseLsOutput] returns is read off one line of the
    listing: the line starts with [d], [-] or [l] and nine characters among
    [rwxs-], which are the mode of the entry (it is a directory exactly when
    the first character is [d]), and it ends with the name, which is the path
    of the entry, is not empty and is neither [.] nor [..]; the size is not
    negative.  Lines that start with "total " or "ls:" give no entry, and
    there are never more entries than lines. *)
Theorem parseLsOutput_reads_listing_lines (now : Z) (output : list N) :
  (∀ info, info ∈ Transfer.parseLsOutput now output →
     ∃ line, line ∈ split LF output
             ∧ Files.readOff now line info
             ∧ Transfer.path info ≠ lit "." ∧ Transfer.path info ≠ lit ".."
             ∧ startsWith (lit "total ") line = false
             ∧ startsWith (lit "ls:") line = false)
  ∧ (length (Transfer.parseLsOutput now output) <= length (split LF output))%nat.
Proof.
  unfold Transfer.parseLsOutput. split.
  - intros info Hin. apply list_elem_of_omap in Hin as (line & Hline & Hparse).
    exists line. split; [exact Hline|]. apply parseLsLine_readOff, Hparse.
  - apply length_omap_le.
Qed.

Example parseLsOutput_sample :
  Transfer.parseLsOutput 7
    (unlines [lit "total 12";
              lit "drwxr-xr-x  2 user group 4096 Jan  1 12:00 .";
              lit "drwxr-xr-x  5 user group 4096 Jan  1 12:00 ..";
              lit "-rw-r--r--  1 user group 1234 Jan  1 12:00 notes.txt";
              lit "drwxr-xr-x  2 user group 4096 Feb 10 09:30 my docs";
              lit "ls: cannot access 'x': No such file or directory"])
  = [ {| Transfer.path := lit "notes.txt"; Transfer.isDirectory := false;
         Transfer.size := 1234; Transfer.modifiedTime := 7;
         Transfer.mode := lit "rw-r--r--" |};
      {| Transfer.path := lit "my docs"; Transfer.isDirectory := true;
         Transfer.size := 4096; Transfer.modifiedTime := 7;
         Transfer.mode := lit "rwxr-xr-x" |} ].
Proof. vm_compute. reflexivity. Qed.

(* ===================================================================== *)
(** ** File transfer: uploads and listings *)
(* ===================================================================== *)

Section Upload.

Lemma writeChunks_settles sid remotePath timeout chunks w sched :
  fst (fst (Transfer.writeChunks sid remotePath timeout chunks w sched)) ≠ Diverged.
Proof.
  revert w sched. induction chunks as [|chunk rest IH]; intros w sched; simpl.
  - discriminate.
  - unfold bind at 1.
    match goal with |- context [Transfer.executeCommand ?s ?c ?t w sched] =>
      pose proof (transfer_settles s c t w sched) as H;
      destruct (Transfer.executeCommand s c t w sched) as [[[r|e|] w1] s1]
    end; simpl in H; [|discriminate|congruence].
    destruct (negb (success r)); [discriminate | apply IH].
Qed.

(** A step whose result is ignored settles when its command does. *)
Lemma ignored_settles sid cmd timeout w sched :
  fst (fst ((Transfer.executeCommand sid cmd timeout ;;; ret tt) w sched)) ≠ Diverged.
Proof.
  unfold bind. pose proof (transfer_settles sid cmd timeout w sched) as H.
  destruct (Transfer.executeCommand sid cmd timeout w sched) as [[[r|e|] w1] s1];
    simpl in *; [discriminate | discriminate | congruence].
Qed.

End Upload.

(** X22. [uploadFile] never throws: it always returns a result, for the path
    it was asked for.  When the decoded content is larger than the limit of
    the manager the result is a failure and nothing was done: no command was
    sent and no time has passed.  A successful result carries the decoded
    length as its size, which is then within the limit; a failed result
    carries the size 0 and an error message. *)
Theorem uploadFile_outcome (decodedLength : list N -> Z)
    (manager : Transfer.FileTransferManager)
    (options : Transfer.UploadFileOptions) (w : World) (sched : Schedule) :
  ∃ res w' sched',
    Transfer.uploadFile decodedLength manager options w sched
    = (Returned res, w', sched')
    ∧ Transfer.upResRemotePath res = Transfer.upRemotePath options
    ∧ ((Transfer.maxFileSize manager < decodedLength (Transfer.upContent options))%Z →
       Transfer.upSuccess res = false ∧ w' = w ∧ sched' = sched)
    ∧ (if Transfer.upSuccess res then
         Transfer.upSize res = decodedLength (Transfer.upContent options)
         ∧ (Transfer.upSize res <= Transfer.maxFileSize manager)%Z
         ∧ Transfer.upError res = None
       else Transfer.upSize res = 0%Z ∧ is_Some (Transfer.upError res)).
Proof.
  unfold Transfer.uploadFile, tryCatch. cbv zeta.
  destruct (Transfer.maxFileSize manager <? decodedLength (Transfer.upContent options))%Z
    eqn:Hmax.
  { unfold ret. eexists _, _, _. split; [reflexivity|]. split; [reflexivity|].
    split; [auto|]. split; [reflexivity | eexists; reflexivity]. }
  apply Z.ltb_ge in Hmax.
  (* from here on every way out is a result *)
  assert (∀ (o : Outcome Transfer.UploadFileResult) w1 s1,
            o ≠ Diverged →
            (∀ res, o = Returned res →
               Transfer.upResRemotePath res = Transfer.upRemotePath options
               ∧ if Transfer.upSuccess res then
                   Transfer.upSize res = decodedLength (Transfer.upContent options)
                   ∧ Transfer.upError res = None
                 else Transfer.upSize res = 0%Z ∧ is_Some (Transfer.upError res)) →
            ∃ res w' sched',
              match (o, w1, s1) with
              | (Thrown e, w', sched') =>
                  ret {| Transfer.upSuccess := false;
                         Transfer.upResRemotePath := Transfer.upRemotePath options;
                         Transfer.upSize := 0;
                         Transfer.upError := Some (message e) |} w' sched'
              | run => run
              end = (Returned res, w', sched')
              ∧ Transfer.upResRemotePath res = Transfer.upRemotePath options
              ∧ ((Transfer.maxFileSize manager
                  < decodedLength (Transfer.upContent options))%Z →
                 Transfer.upSuccess res = false ∧ w' = w ∧ sched' = sched)
              ∧ (if Transfer.upSuccess res then
                   Transfer.upSize res = decodedLength (Transfer.upContent options)
                   ∧ (Transfer.upSize res <= Transfer.maxFileSize manager)%Z
                   ∧ Transfer.upError res = None
                 else Transfer.upSize res = 0%Z ∧ is_Some (Transfer.upError res)))
    as Hout.
  { intros [res|e|] w1 s1 Hd Hres; [| |congruence].
    - destruct (Hres res eq_refl) as [Hpath Hok].
      exists res, w1, s1. split; [reflexivity|]. split; [exact Hpath|].
      split; [lia|]. destruct (Transfer.upSuccess res); [|exact Hok].
      destruct Hok as [Hs He]. rewrite Hs. auto.
    - unfold ret. eexists _, _, _. split; [reflexivity|]. split; [reflexivity|].
      split; [lia|]. split; [reflexivity | eexists; reflexivity]. }
  match goal with
  | |- ∃ res w' sched', match ?body w sched with _ => _ end = _ ∧ _ =>
      destruct (body w sched) as [[o w1] s1] eqn:Hbody
  end.
  apply Hout; clear Hout.
  - (* the body settles *)
    revert Hbody. unfold bind at 1.
    match goal with
    | |- context [(if default true (Transfer.upCreateDirs options) then ?a else ?b) w sched] =>
        assert (fst (fst ((if default true (Transfer.upCreateDirs options)
                           then a else b) w sched)) ≠ Diverged) as H1;
        [|destruct ((if default true (Transfer.upCreateDirs options) then a else b)
                      w sched) as [[[[]|e1|] w2] s2]]
    end.
    { destruct (default true (Transfer.upCreateDirs options)); [|discriminate].
      cbv zeta. destruct (negb (isEmpty _)); [apply ignored_settles | discriminate]. }
    2: { intros H. injection H as <- _ _. discriminate. }
    2: { simpl in H1. congruence. }
    clear H1. unfold bind at 1.
    match goal with
    | |- context [(if default true (Transfer.upOverwrite options) then ?a else ?b) w2 s2] =>
        assert (fst (fst ((if default true (Transfer.upOverwrite options)
                           then a else b) w2 s2)) ≠ Diverged) as H1;
        [|destruct ((if default true (Transfer.upOverwrite options) then a else b)
                      w2 s2) as [[[[]|e2|] w3] s3]]
    end.
    { destruct (default true (Transfer.upOverwrite options));
        [apply ignored_settles | discriminate]. }
    2: { intros H. injection H as <- _ _. discriminate. }
    2: { simpl in H1. congruence. }
    clear H1. unfold bind at 1.
    match goal with |- context [Transfer.executeCommand ?s ?c ?t w3 s3] =>
      pose proof (transfer_settles s c t w3 s3) as H1;
      destruct (Transfer.executeCommand s c t w3 s3) as [[[r3|e3|] w4] s4]
    end; simpl in H1; [| |congruence].
    2: { intros H. injection H as <- _ _. discriminate. }
    clear H1. unfold bind at 1.
    match goal with |- context [Transfer.writeChunks ?s ?p ?t ?c w4 s4] =>
      pose proof (writeChunks_settles s p t c w4 s4) as H1;
      destruct (Transfer.writeChunks s p t c w4 s4) as [[[failed|e4|] w5] s5]
    end; simpl in H1; [| |congruence].
    2: { intros H. injection H as <- _ _. discriminate. }
    clear H1. destruct failed as [msg|].
    { intros H. injection H as <- _ _. discriminate. }
    unfold bind at 1.
    match goal with |- context [Transfer.executeCommand ?s ?c ?t w5 s5] =>
      pose proof (transfer_settles s c t w5 s5) as H1;
      destruct (Transfer.executeCommand s c t w5 s5) as [[[r5|e5|] w6] s6]
    end; simpl in H1; [| |congruence].
    2: { intros H. injection H as <- _ _. discriminate. }
    clear H1. unfold bind at 1.
    match goal with |- context [Transfer.executeCommand ?s ?c ?t w6 s6] =>
      pose proof (transfer_settles s c t w6 s6) as H1;
      destruct (Transfer.executeCommand s c t w6 s6) as [[[r6|e6|] w7] s7]
    end; simpl in H1; [| |congruence].
    2: { intros H. injection H as <- _ _. discriminate. }
    clear H1. destruct (negb (success r6)).
    { intros H. injection H as <- _ _. discriminate. }
    unfold bind at 1.
    match goal with
    | |- context [(match Transfer.upMode options with Some m => _ | None => _ end) w7 s7] =>
        destruct (Transfer.upMode options) as [m|]
    end.
    + destruct (negb (isEmpty m)).
      * pose proof (ignored_settles (Transfer.upSessionId options)
                      (lit "chmod " ++ m ++ lit " "
                       ++ Transfer.quoted (Transfer.upRemotePath options))
                      (Transfer.upTimeout options) w7 s7) as H1.
        destruct ((Transfer.executeCommand _ _ _ ;;; ret tt) w7 s7)
          as [[[[]|e7|] w8] s8]; simpl in H1.
        -- intros H. injection H as <- _ _. discriminate.
        -- intros H. injection H as <- _ _. discriminate.
        -- congruence.
      * intros H. injection H as <- _ _. discriminate.
    + intros H. injection H as <- _ _. discriminate.
  - (* what a returned result holds *)
    intros res ->. revert Hbody. unfold bind at 1.
    match goal with
    | |- context [(if default true (Transfer.upCreateDirs options) then ?a else ?b) w sched] =>
        destruct ((if default true (Transfer.upCreateDirs options) then a else b)
                    w sched) as [[[[]|e1|] w2] s2]
    end; [|discriminate..].
    unfold bind at 1.
    match goal with
    | |- context [(if default true (Transfer.upOverwrite options) then ?a else ?b) w2 s2] =>
        destruct ((if default true (Transfer.upOverwrite options) then a else b)
                    w2 s2) as [[[[]|e2|] w3] s3]
    end; [|discriminate..].
    unfold bind at 1.
    match goal with |- context [Transfer.executeCommand ?s ?c ?t w3 s3] =>
      destruct (Transfer.executeCommand s c t w3 s3) as [[[r3|e3|] w4] s4]
    end; [|discriminate..].
    unfold bind at 1.
    match goal with |- context [Transfer.writeChunks ?s ?p ?t ?c w4 s4] =>
      destruct (Transfer.writeChunks s p t c w4 s4) as [[[failed|e4|] w5] s5]
    end; [|discriminate..].
    destruct failed as [msg|].
    { intros H. injection H as <- _ _. split; [reflexivity|].
      split; [reflexivity | eexists; reflexivity]. }
    unfold bind at 1.
    match goal with |- context [Transfer.executeCommand ?s ?c ?t w5 s5] =>
      destruct (Transfer.executeCommand s c t w5 s5) as [[[r5|e5|] w6] s6]
    end; [|discriminate..].
    unfold bind at 1.
    match goal with |- context [Transfer.executeCommand ?s ?c ?t w6 s6] =>
      destruct (Transfer.executeCommand s c t w6 s6) as [[[r6|e6|] w7] s7]
    end; [|discriminate..].
    destruct (negb (success r6)).
    { intros H. injection H as <- _ _. split; [reflexivity|].
      split; [reflexivity | eexists; reflexivity]. }
    unfold bind at 1.
    match goal with
    | |- context [(match Transfer.upMode options with Some m => _ | None => _ end) w7 s7] =>
        destruct ((match Transfer.upMode options with
                   | Some m =>
                       if negb (isEmpty m) then
                         Transfer.executeCommand (Transfer.upSessionId options)
                           (lit "chmod " ++ m ++ lit " "
                            ++ Transfer.quoted (Transfer.upRemotePath options))
                           (Transfer.upTimeout options) ;;; ret tt
                       else ret tt
                   | None => ret tt
                   end) w7 s7) as [[[[]|e7|] w8] s8]
    end; [|discriminate..].
    intros H. injection H as <- _ _. split; [reflexivity|]. split; reflexivity.
Qed.

(** X23. [listDirectory] never throws: it always returns a result, for the
    path it was asked for.  A failed result lists no file and carries an error
    message; a successful one carries no error, and each of its entries has a
    name that is not empty and is neither [.] nor [..], with a mode of nine
    characters. *)
Theorem listDirectory_outcome (options : Transfer.ListDirectoryOptions)
    (w : World) (sched : Schedule) :
  ∃ res w' sched',
    Transfer.listDirectory options w sched = (Returned res, w', sched')
    ∧ Transfer.lsResPath res = Transfer.lsPath options
    ∧ (if Transfer.lsSuccess res then
         Transfer.lsError res = None
         ∧ ∀ info, info ∈ Transfer.files res →
             Transfer.path info ≠ []
             ∧ Transfer.path info ≠ lit "." ∧ Transfer.path info ≠ lit ".."
             ∧ length (Transfer.mode info) = 9%nat
       else Transfer.files res = [] ∧ is_Some (Transfer.lsError res)).
Proof.
  unfold Transfer.listDirectory, tryCatch. cbv zeta. unfold bind at 1.
  match goal with |- context [Transfer.executeCommand ?s ?c ?t w sched] =>
    pose proof (transfer_settles s c t w sched) as H1;
    destruct (Transfer.executeCommand s c t w sched) as [[[r1|e1|] w1] s1]
  end; simpl in H1; [| |congruence].
  2: { unfold ret. eexists _, _, _. split; [reflexivity|]. split; [reflexivity|].
       split; [reflexivity | eexists; reflexivity]. }
  clear H1. destruct (bool_decide _).
  { unfold ret. eexists _, _, _. split; [reflexivity|]. split; [reflexivity|].
    split; [reflexivity | eexists; reflexivity]. }
  unfold bind at 1.
  match goal with |- context [Transfer.executeCommand ?s ?c ?t w1 s1] =>
    pose proof (transfer_settles s c t w1 s1) as H1;
    destruct (Transfer.executeCommand s c t w1 s1) as [[[r2|e2|] w2] s2]
  end; simpl in H1; [| |congruence].
  2: { unfold ret. eexists _, _, _. split; [reflexivity|]. split; [reflexivity|].
       split; [reflexivity | eexists; reflexivity]. }
  clear H1. destruct (negb (success r2)).
  { unfold ret. eexists _, _, _. split; [reflexivity|]. split; [reflexivity|].
    split; [reflexivity | eexists; reflexivity]. }
  unfold bind, dateNow, ret. eexists _, _, _. split; [reflexivity|].
  split; [reflexivity|]. cbn [Transfer.lsSuccess Transfer.lsError Transfer.files].
  split; [reflexivity|]. intros info Hin. unfold Transfer.parseLsOutput in Hin.
  apply list_elem_of_omap in Hin as (line & _ & Hparse).
  apply parseLsLine_readOff in Hparse
    as ((kind & perms & middle & _ & _ & _ & Hmode & Hlen & _ & Hname & _) & Hdot & Hdots & _).
  rewrite Hmode. auto.
Qed.

(* ===================================================================== *)
(** ** Error handling wrappers *)
(* ===================================================================== *)

Section Retries.

Import ErrorHandling.

Context {A : Type} (fn : Async A) (config : RetryConfig).

(** What the loop leaves behind, whatever the iteration it starts at. *)
Lemma attempts_settle remaining attempt d lastError w sched :
  (attempt + Z.of_nat remaining = maxRetries config + 1)%Z →
  match attempts fn config remaining attempt d lastError w sched with
  | (Fulfilled a, w', sched') => ∃ w0 s0, fn w0 s0 = (Returned a, w', sched')
  | (Pending, w', sched') => ∃ w0 s0, fn w0 s0 = (Diverged, w', sched')
  | (Rejected e, w', sched') =>
      (remaining = 0%nat ∧ e = lastError ∧ w' = w ∧ sched' = sched)
      ∨ ∃ w0 s0 thrown,
          fn w0 s0 = (Thrown thrown, w', sched')
          ∧ e = Some (if isTerminalError thrown then thrown else unknownError thrown)
  end.
Proof.
  revert attempt d lastError w sched.
  induction remaining as [|remaining IH]; intros attempt d lastError w sched Hn.
  { simpl. left. auto. }
  cbn [attempts]. destruct (fn w sched) as [[[a|thrown|] w1] s1] eqn:Hfn.
  - exists w, sched. exact Hfn.
  - assert (∀ lastE : Exn,
              lastE = (if isTerminalError thrown then thrown else unknownError thrown) →
              match
                (if (attempt <? maxRetries config)%Z then
                   match sleep d w1 s1 with
                   | (_, w2, s2) =>
                       attempts fn config remaining (attempt + 1)
                         (if default false (backoff config) then d * 2 else d)
                         (Some lastE) w2 s2
                   end
                 else attempts fn config remaining (attempt + 1) d (Some lastE) w1 s1)
              with
              | (Fulfilled a, w', sched') => ∃ w0 s0, fn w0 s0 = (Returned a, w', sched')
              | (Pending, w', sched') => ∃ w0 s0, fn w0 s0 = (Diverged, w', sched')
              | (Rejected e, w', sched') =>
                  (S remaining = 0%nat ∧ e = lastError ∧ w' = w ∧ sched' = sched)
                  ∨ ∃ w0 s0 thrown,
                      fn w0 s0 = (Thrown thrown, w', sched')
                      ∧ e = Some (if isTerminalError thrown then thrown
                                  else unknownError thrown)
              end) as Hretry.
    { intros lastE HlastE. destruct (attempt <? maxRetries config)%Z eqn:Hlt.
      - apply Z.ltb_lt in Hlt. unfold sleep, suspend.
        specialize (IH (attempt + 1)%Z
                      (if default false (backoff config) then d * 2 else d)%Z
                      (Some lastE) (wake (timerDelay d) w1 s1) (tail s1) ltac:(lia)).
        destruct (attempts fn config remaining _ _ _ _ _) as [[[a|e|] w'] s'];
          [exact IH | | exact IH].
        destruct IH as [(Hz & _) | IH]; [lia | right; exact IH].
      - apply Z.ltb_ge in Hlt. assert (remaining = 0%nat) as -> by lia.
        simpl. right. exists w, sched, thrown. split; [exact Hfn|].
        rewrite HlastE. reflexivity. }
    destruct thrown as [code msg|msg].
    + destruct (retryOn config) as [codes|].
      * destruct (negb (bool_decide (code ∈ codes))).
        -- right. exists w, sched, (TerminalError code msg). split; [exact Hfn|reflexivity].
        -- apply Hretry. reflexivity.
      * apply Hretry. reflexivity.
    + apply Hretry. reflexivity.
  - exists w, sched. exact Hfn.
Qed.

(** The clock at the end of a loop that gives up, when every error is
    retried. *)
Lemma attempts_wait remaining attempt d lastError w sched e w' sched' :
  Retry.forward fn →
  retryOn config = None →
  (attempt + Z.of_nat remaining = maxRetries config)%Z →
  attempts fn config (S remaining) attempt d lastError w sched
  = (Rejected e, w', sched') →
  (now w + Retry.timers remaining d (default false (backoff config)) <= now w')%Z.
Proof.
  intros Hfw Hall. revert attempt d lastError w sched.
  induction remaining as [|remaining IH]; intros attempt d lastError w sched Hn.
  - cbn [attempts Retry.timers]. pose proof (Hfw w sched) as Hclock.
    destruct (fn w sched) as [[[a|thrown|] w1] s1]; [discriminate| |discriminate].
    simpl in Hclock. rewrite Hall.
    assert ((attempt <? maxRetries config)%Z = false) as -> by (apply Z.ltb_ge; lia).
    destruct thrown; intros H; injection H as _ <- _; lia.
  - remember (S remaining) as n eqn:Hn'. cbn [attempts].
    pose proof (Hfw w sched) as Hclock.
    destruct (fn w sched) as [[[a|thrown|] w1] s1]; [discriminate| |discriminate].
    simpl in Hclock. rewrite Hall.
    assert ((attempt <? maxRetries config)%Z = true) as -> by (apply Z.ltb_lt; lia).
    unfold sleep, suspend. subst n.
    pose proof (now_wake (timerDelay d) w1 s1) as Hwake.
    assert (∀ lastE,
              attempts fn config (S remaining) (attempt + 1)
                (if default false (backoff config) then d * 2 else d)%Z
                (Some lastE) (wake (timerDelay d) w1 s1) (tail s1)
              = (Rejected e, w', sched') →
              (now w + Retry.timers (S remaining) d (default false (backoff config))
               <= now w')%Z) as Hstep.
    { intros lastE Hrun. apply IH in Hrun; [|lia].
      cbn [Retry.timers]. lia. }
    destruct thrown; apply Hstep.
Qed.

End Retries.

Section Timers.

(** A timer lasts at least a millisecond. *)
Lemma timerDelay_pos (d : Z) : (1 <= timerDelay d)%Z.
Proof.
  unfold timerDelay. destruct (1 <=? d)%Z eqn:H1; [|simpl; lia].
  destruct (d <=? TIMEOUT_MAX)%Z; simpl; [apply Z.leb_le, H1 | lia].
Qed.

Lemma timers_pos (n : nat) (d : Z) (b : bool) : (Z.of_nat n <= Retry.timers n d b)%Z.
Proof.
  revert d. induction n as [|n IH]; intros d; [simpl; lia|].
  cbn [Retry.timers]. pose proof (timerDelay_pos d).
  specialize (IH (if b then d * 2 else d)%Z). lia.
Qed.

(** Within the range of the timers, they last what was asked for. *)
Lemma timers_asked (n : nat) (d : Z) (b : bool) :
  (1 <= d)%Z →
  ((if b then d * 2 ^ (Z.of_nat n - 1) else d) <= TIMEOUT_MAX)%Z →
  Retry.timers n d b = (if b then d * (2 ^ Z.of_nat n - 1) else d * Z.of_nat n)%Z.
Proof.
  revert d. induction n as [|n IH]; intros d Hd Hmax.
  - simpl. destruct b; lia.
  - cbn [Retry.timers].
    assert (0 < 2 ^ Z.of_nat n)%Z as Hpow by (apply Z.pow_pos_nonneg; lia).
    replace (Z.of_nat (S n) - 1)%Z with (Z.of_nat n) in Hmax by lia.
    assert (timerDelay d = d) as ->.
    { unfold timerDelay.
      assert (d <= TIMEOUT_MAX)%Z by (destruct b; [nia | exact Hmax]).
      replace (1 <=? d)%Z with true by (symmetry; apply Z.leb_le; lia).
      replace (d <=? TIMEOUT_MAX)%Z with true by (symmetry; apply Z.leb_le; lia).
      reflexivity. }
    rewrite Nat2Z.inj_succ, Z.pow_succ_r by lia.
    destruct n as [|n'].
    + simpl. destruct b; lia.
    + rewrite IH.
      * destruct b; [rewrite Nat2Z.inj_succ, Z.pow_succ_r by lia|]; lia.
      * destruct b; lia.
      * destruct b; [|exact Hmax].
        replace (Z.of_nat (S n') - 1)%Z with (Z.of_nat n') by lia.
        rewrite Nat2Z.inj_succ, Z.pow_succ_r in Hmax by lia. lia.
Qed.

End Timers.

(** X24. How [withRetry] settles.  With a negative [maxRetries] the function
    is never called and the promise is rejected with [null].  Otherwise the
    promise settles with what the last call of the function left: its value,
    or the error it threw, which is rejected as it is when it is a
    [TerminalError] and wrapped into an unknown-error [TerminalError] when it
    is not, so that no other kind of error comes out. *)
Theorem withRetry_settles_with_the_last_call {A : Type} (fn : Async A)
    (config : ErrorHandling.RetryConfig) (w : World) (sched : Schedule) :
  ((ErrorHandling.maxRetries config < 0)%Z →
   ErrorHandling.withRetry fn config w sched = (ErrorHandling.Rejected None, w, sched))
  ∧ ((0 <= ErrorHandling.maxRetries config)%Z →
     match ErrorHandling.withRetry fn config w sched with
     | (ErrorHandling.Fulfilled a, w', sched') =>
         ∃ w0 s0, fn w0 s0 = (Returned a, w', sched')
     | (ErrorHandling.Pending, w', sched') =>
         ∃ w0 s0, fn w0 s0 = (Diverged, w', sched')
     | (ErrorHandling.Rejected e, w', sched') =>
         ∃ w0 s0 thrown,
           fn w0 s0 = (Thrown thrown, w', sched')
           ∧ e = Some (if ErrorHandling.isTerminalError thrown then thrown
                       else ErrorHandling.unknownError thrown)
           ∧ ∃ code text, e = Some (TerminalError code text)
     end).
Proof.
  unfold ErrorHandling.withRetry. split.
  - intros Hneg. replace (Z.to_nat (ErrorHandling.maxRetries config + 1)) with 0%nat by lia.
    reflexivity.
  - intros Hpos.
    pose proof (attempts_settle fn config
                  (Z.to_nat (ErrorHandling.maxRetries config + 1)) 0
                  (ErrorHandling.delay config) None w sched ltac:(lia)) as H.
    destruct (ErrorHandling.attempts fn config _ _ _ _ _ _) as [[[a|e|] w'] s'];
      [exact H | | exact H].
    destruct H as [(Hz & _) | (w0 & s0 & thrown & Hfn & He)]; [lia|].
    exists w0, s0, thrown. split; [exact Hfn|]. split; [exact He|].
    rewrite He. destruct thrown as [code text|text]; simpl; eauto.
Qed.

(** X25. [withRetry] does not give up before its timers have run: when every
    error is retried and the function never sets the clock back, a promise
    that is rejected is rejected only after one timer for each attempt but the
    last, each lasting at least a millisecond.  A timer lasts the delay
    asked for when that is between 1 and [2^31 - 1] milliseconds: while the
    last delay is within that range the wait is at least
    [delay * maxRetries] milliseconds with a constant delay and
    [delay * (2 ^ maxRetries - 1)] with [backoff].  A delay outside the range
    lasts one millisecond only. *)
Theorem withRetry_waits_before_giving_up {A : Type} (fn : Async A)
    (config : ErrorHandling.RetryConfig) (w : World) (sched : Schedule)
    (e : option Exn) (w' : World) (sched' : Schedule) :
  Retry.forward fn →
  ErrorHandling.retryOn config = None →
  (0 <= ErrorHandling.maxRetries config)%Z →
  ErrorHandling.withRetry fn config w sched = (ErrorHandling.Rejected e, w', sched') →
  (now w + Retry.waited config <= now w')%Z
  ∧ (ErrorHandling.maxRetries config <= Retry.waited config)%Z
  ∧ ((1 <= ErrorHandling.delay config)%Z →
     (Retry.lastDelay config <= TIMEOUT_MAX)%Z →
     Retry.waited config = Retry.asked config).
Proof.
  intros Hfw Hall Hmax. unfold ErrorHandling.withRetry, Retry.waited.
  replace (Z.to_nat (ErrorHandling.maxRetries config + 1))
    with (S (Z.to_nat (ErrorHandling.maxRetries config))) by lia.
  intros Hrun. apply attempts_wait in Hrun; [|assumption|assumption|lia].
  split; [exact Hrun|]. split.
  - pose proof (timers_pos (Z.to_nat (ErrorHandling.maxRetries config))
                  (ErrorHandling.delay config)
                  (default false (ErrorHandling.backoff config))). lia.
  - intros Hd Hlast. unfold Retry.lastDelay in Hlast. unfold Retry.asked.
    rewrite timers_asked; rewrite ?Z2Nat.id by lia; [reflexivity | exact Hd|].
    destruct (default false (ErrorHandling.backoff config)); exact Hlast.
Qed.

(** Three retries with a delay of 100 ms that doubles: 700 ms of sleep. *)
Lemma withRetry_waits_before_giving_up_witness :
  (now (Examples.worldWith ready 1024) + 700
   <= now (snd (fst (ErrorHandling.withRetry (A := unit)
                       (throw (PlainError (lit "down")))
                       {| ErrorHandling.maxRetries := 3; ErrorHandling.delay := 100;
                          ErrorHandling.backoff := Some true;
                          ErrorHandling.retryOn := None |}
                       (Examples.worldWith ready 1024) []))))%Z.
Proof.
  destruct (ErrorHandling.withRetry (A := unit) (throw (PlainError (lit "down")))
              {| ErrorHandling.maxRetries := 3; ErrorHandling.delay := 100;
                 ErrorHandling.backoff := Some true;
                 ErrorHandling.retryOn := None |}
              (Examples.worldWith ready 1024) []) as [[o w'] s'] eqn:Hrun.
  destruct o as [a|e|]; [vm_compute in Hrun; discriminate | | vm_compute in Hrun; discriminate].
  apply (withRetry_waits_before_giving_up _ _ _ _ _ _ _) in Hrun.
  - destruct Hrun as [Hrun _]. exact Hrun.
  - intros w0 s0. simpl. lia.
  - reflexivity.
  - simpl. lia.
Defined.

(** A delay of an hour that doubles leaves the range of the timers at its
    eleventh wait: the timer asked for 3 686 400 000 ms lasts 1 ms. *)
Example timer_out_of_range :
  timerDelay (3600000 * 2 ^ 9) = (3600000 * 2 ^ 9)%Z
  ∧ timerDelay (3600000 * 2 ^ 10) = 1%Z.
Proof. split; reflexivity. Qed.

(** X26. [safeExecute] never throws and the error of a failure is always a
    [TerminalError]; wrapping the function in [withErrorHandling] (without a
    handler of its own) before handing it to [safeExecute] changes
    nothing. *)
Theorem safeExecute_absorbs_every_error {Args A : Type} (fn : Args -> Async A)
    (args : Args) (w : World) (sched : Schedule) :
  match fst (fst (ErrorHandling.safeExecute (fn args) w sched)) with
  | Thrown _ => False
  | Returned (ErrorHandling.Failure e) => ∃ code text, e = TerminalError code text
  | Returned (ErrorHandling.Success a) =>
      ∃ w' sched', fn args w sched = (Returned a, w', sched')
  | Diverged => fst (fst (fn args w sched)) = Diverged
  end
  ∧ ErrorHandling.safeExecute (ErrorHandling.withErrorHandling fn None args) w sched
    = ErrorHandling.safeExecute (fn args) w sched.
Proof.
  unfold ErrorHandling.safeExecute, ErrorHandling.withErrorHandling, tryCatch, bind,
    ret, throw.
  destruct (fn args w sched) as [[[a|[code text|text]|] w1] s1]; simpl; eauto.
Qed.

(* ===================================================================== *)
(** ** Backends: the listing of distributions *)
(* ===================================================================== *)

Section Distributions.

Import ReSem.

(** The matcher misses no match of a pattern without lookahead: when it
    fails, every match the relation allows leads to a failing rest. *)
Lemma rmatch_complete n0 r :
  Pattern.plain r = true →
  ∀ k s caps,
    rmatch n0 r k s caps = None →
    ∀ u s' gs, s = u ++ s' → Matches n0 r u s' gs → k s' (caps ++ gs) = None.
Proof.
  induction r as [|p|r1 IH1 r2 IH2|r1 IH1 r2 IH2|p|r IH| | |r IH];
    intros Hplain k s caps Hnone u s' gs -> HM; simpl in Hplain.
  - inversion HM; subst. rewrite app_nil_r. exact Hnone.
  - inversion HM; subst. rewrite app_nil_r. simpl in Hnone.
    match goal with H : p _ = true |- _ => rewrite H in Hnone end. exact Hnone.
  - apply andb_true_iff in Hplain as [Hp1 Hp2].
    inversion HM as [| |? ? u1 u2 ? g1 g2 M1 M2| | | | | | |]; subst.
    simpl in Hnone. rewrite <- app_assoc in Hnone.
    pose proof (IH1 Hp1 _ _ _ Hnone u1 (u2 ++ s') g1 eq_refl M1) as H1.
    pose proof (IH2 Hp2 _ _ _ H1 u2 s' g2 eq_refl M2) as H2.
    rewrite app_assoc. exact H2.
  - apply andb_true_iff in Hplain as [Hp1 Hp2]. simpl in Hnone.
    destruct (rmatch n0 r1 k (u ++ s') caps) eqn:E1; [discriminate|].
    inversion HM; subst.
    + eapply IH1; eauto.
    + eapply IH2; eauto.
  - inversion HM as [| | | | |? run ? Hrun| | | |]; subst. rewrite app_nil_r.
    clear HM. induction Hrun as [|c run Hc Hrun IHrun].
    + change ([] ++ s') with s' in Hnone. destruct s' as [|c s']; [exact Hnone|].
      change (rmatch n0 (Star p) k (c :: s') caps)
        with (if p c then
                match rmatch n0 (Star p) k s' caps with
                | Some a => Some a
                | None => k (c :: s') caps
                end
              else k (c :: s') caps) in Hnone.
      destruct (p c); [|exact Hnone].
      destruct (rmatch n0 (Star p) k s' caps); [discriminate | exact Hnone].
    + apply IHrun.
      change (rmatch n0 (Star p) k ((c :: run) ++ s') caps)
        with (if p c then
                match rmatch n0 (Star p) k (run ++ s') caps with
                | Some a => Some a
                | None => k (c :: run ++ s') caps
                end
              else k (c :: run ++ s') caps) in Hnone.
      rewrite Hc in Hnone.
      destruct (rmatch n0 (Star p) k (run ++ s') caps); [discriminate | reflexivity].
  - inversion HM as [| | | | | |? ? ? g M1| | |]; subst. simpl in Hnone.
    pose proof (IH Hplain _ _ _ Hnone u s' g eq_refl M1) as H1. simpl in H1.
    rewrite length_app in H1.
    replace (length u + length s' - length s')%nat with (length u) in H1 by lia.
    rewrite take_app_length in H1. rewrite app_assoc. exact H1.
  - inversion HM as [| | | | | | |? Hlen| |]; subst. simpl in Hnone.
    rewrite app_nil_r. rewrite Nat.eqb_refl in Hnone. exact Hnone.
  - inversion HM; subst. rewrite app_nil_r. exact Hnone.
  - discriminate.
Qed.

(** A search fails only when the match at the first position does. *)
Lemma searchFrom_none n0 r s : searchFrom n0 r s = None → matchHere n0 r s = None.
Proof.
  destruct s as [|c s]; simpl; destruct (matchHere n0 r _) as [[rest caps]|];
    intros H; try discriminate; reflexivity.
Qed.

(** A line that is not blank: white space, then a character that is none. *)
Lemma nonBlank_split line :
  Pattern.nonBlank line = true →
  ∃ ws c rest, line = ws ++ c :: rest
               ∧ Forall (fun a => isWhiteSpace a = true) ws
               ∧ isWhiteSpace c = false.
Proof.
  unfold Pattern.nonBlank, trim. induction line as [|a line IH]; simpl.
  - discriminate.
  - destruct (isWhiteSpace a) eqn:Ha.
    + intros H. destruct (IH H) as (ws & c & rest & -> & Hws & Hc).
      exists (a :: ws), c, rest. split; [reflexivity|]. split; [constructor; assumption|exact Hc].
    + intros _. exists [], a, line. split; [reflexivity|]. split; [constructor|exact Ha].
Qed.

(** Every line that is not blank matches the pattern of a distribution, and
    what the match captures is a star or nothing, and a name. *)
Lemma distribution_matches line :
  Pattern.nonBlank line = true →
  ∃ whole star name,
    exec Wsl.reDistribution line = Some [whole; star; name]
    ∧ (star = [] ∨ star = lit "*")
    ∧ Pattern.name name.
Proof.
  intros Hline. destruct (exec Wsl.reDistribution line) as [l|] eqn:E.
  - pose proof E as E'. unfold Wsl.reDistribution in E'.
    change (seqs [Bol; Star isWhiteSpace; Group (opt (Chr (isC "*")));
                  Star isWhiteSpace; Group (plus (notC isWhiteSpace))])
      with (Seq Bol (seqs [Star isWhiteSpace; Group (opt (Chr (isC "*")));
                           Star isWhiteSpace; Group (plus (notC isWhiteSpace))])) in E'.
    apply anchored_search in E' as (u & rest & caps & Hl & HM & ->).
    simpl in HM.
    repeat match goal with
           | H : Matches _ (plus _) _ _ _ |- _ => unfold plus in H
           | H : Matches _ (Seq _ _) _ _ _ |- _ => inversion H; subst; clear H
           | H : Matches _ (Star _) _ _ _ |- _ => inversion H; subst; clear H
           | H : Matches _ (Group _) _ _ _ |- _ => inversion H; subst; clear H
           | H : Matches _ (Chr _) _ _ _ |- _ => inversion H; subst; clear H
           | H : Matches _ (opt _) _ _ _ |- _ => inversion H; subst; clear H
           | H : Matches _ Eps _ _ _ |- _ => inversion H; subst; clear H
           end;
      simpl; eexists _, _, _; (split; [reflexivity|]);
      match goal with
      | Hc : notC isWhiteSpace ?c = true,
        Hrun : Forall (fun a => notC isWhiteSpace a = true) ?run |- _ =>
          assert (Pattern.name ([c] ++ run)) as Hname
      end.
    1,3: (split; [discriminate|]; constructor;
          [ match goal with
            | Hc : notC isWhiteSpace _ = true |- _ =>
                unfold notC in Hc; apply negb_true_iff in Hc; exact Hc
            end
          | match goal with
            | Hrun : Forall _ ?run |- Forall _ ?run =>
                eapply Forall_impl; [exact Hrun|]; intros a Ha; unfold notC in Ha;
                apply negb_true_iff in Ha; exact Ha
            end ]).
    + split; [right|exact Hname].
      match goal with
      | Hs : isC "*" ?c = true |- _ => unfold isC in Hs; apply N.eqb_eq in Hs; subst c
      end. reflexivity.
    + split; [left; reflexivity | exact Hname].
  - exfalso. unfold exec in E. apply searchFrom_none in E. unfold matchHere in E.
    destruct (nonBlank_split line Hline) as (ws & c & rest & -> & Hws & Hc).
    assert (∃ gs, Matches (length (ws ++ c :: rest)) Wsl.reDistribution
                    ([] ++ ws ++ [] ++ [] ++ [c] ++ []) rest gs) as [gs HM].
    { eexists. unfold Wsl.reDistribution, plus, opt. simpl seqs.
      apply MSeq; [apply MBol; simpl; rewrite <- app_assoc; reflexivity|].
      apply MSeq; [apply MStar; exact Hws|].
      apply MSeq; [apply MGroup, MAltR, MEps|].
      apply MSeq; [apply MStar; constructor|].
      apply MGroup. apply MSeq; [apply MChr; unfold notC; rewrite Hc; reflexivity|].
      apply MStar. constructor. }
    eapply rmatch_complete in E; [| reflexivity | | exact HM].
    + discriminate.
    + simpl. rewrite <- app_assoc. reflexivity.
Qed.

(** The loop, from any state: one name more for each line. *)
Lemma distributions_fold lines acc :
  Forall (fun line => Pattern.nonBlank line = true) lines →
  Forall Pattern.name (Wsl.distributions acc) →
  (∀ d, Wsl.defaultDistro acc = Some d → d ∈ Wsl.distributions acc) →
  let r := fold_left Wsl.distributionLine lines acc in
  length (Wsl.distributions r) = (length (Wsl.distributions acc) + length lines)%nat
  ∧ Forall Pattern.name (Wsl.distributions r)
  ∧ (∀ d, Wsl.defaultDistro r = Some d → d ∈ Wsl.distributions r).
Proof.
  intros Hlines. revert acc. induction Hlines as [|line lines Hline Hlines IH];
    intros acc Hnames Hdef; cbn zeta.
  - simpl. split; [lia|]. auto.
  - cbn [fold_left].
    destruct (distribution_matches line Hline) as (whole & star & name & E & Hstar & Hname).
    specialize (IH (Wsl.distributionLine acc line)).
    unfold Wsl.distributionLine in IH at 1 2 3. rewrite E in IH.
    cbn [Wsl.distributions Wsl.defaultDistro] in IH.
    destruct IH as (Hlen & Hall & Hd).
    + apply Forall_app. split; [exact Hnames | constructor; [exact Hname | constructor]].
    + intros d. destruct (bool_decide (star = lit "*")).
      * intros H. injection H as <-. apply elem_of_app. right. constructor.
      * intros H. apply elem_of_app. left. apply Hdef, H.
    + split; [|split; assumption].
      rewrite Hlen. unfold Wsl.distributionLine. rewrite E.
      cbn [Wsl.distributions]. rewrite length_app. simpl. lia.
Qed.

End Distributions.

(** X27. [getDistributions] lists one distribution for every line of the
    output that is not blank, the first such line (the header) apart; each
    name it lists is not empty and holds no white space, and the default
    distribution, when there is one, is among the names listed. *)
Theorem getDistributions_lists_every_line (output : list N) :
  let r := Wsl.getDistributions output in
  length (Wsl.distributions r)
  = (length (List.filter Pattern.nonBlank (split LF output)) - 1)%nat
  ∧ Forall Pattern.name (Wsl.distributions r)
  ∧ (∀ d, Wsl.defaultDistro r = Some d → d ∈ Wsl.distributions r).
Proof.
  cbn zeta. unfold Wsl.getDistributions. cbv zeta.
  change (fun line => negb (isEmpty (trim line))) with Pattern.nonBlank.
  pose proof (distributions_fold
                (drop 1 (List.filter Pattern.nonBlank (split LF output)))
                {| Wsl.defaultDistro := None; Wsl.distributions := [] |}) as H.
  cbn zeta in H. destruct H as (Hlen & Hall & Hd).
  - apply Forall_drop. apply Forall_forall. intros line Hin.
    apply list_elem_of_In, filter_In in Hin. apply Hin.
  - constructor.
  - discriminate.
  - split; [|split; assumption]. rewrite Hlen. simpl. rewrite length_drop. reflexivity.
Qed.

(** The listing of the comment in the source. *)
Example getDistributions_sample :
  Wsl.getDistributions
    (unlines [lit "  NAME            STATE           VERSION";
              lit "* Ubuntu          Running         2";
              lit "  Debian          Stopped         2"; []])
  = {| Wsl.defaultDistro := Some (lit "Ubuntu");
       Wsl.distributions := [lit "Ubuntu"; lit "Debian"] |}.
Proof. vm_compute. reflexivity. Qed.

(* ===================================================================== *)
(** ** Backends: the system information of a container *)
(* ===================================================================== *)

Section SystemInfo.

Lemma orStr_filled a b : b ≠ [] → orStr a b ≠ [].
Proof.
  intros Hb. unfold orStr.
  destruct a as [[|c s]|]; simpl; [exact Hb | discriminate | exact Hb].
Qed.

Lemma unquoted s :
  replaceAll Docker.reQuote [] s = List.filter (fun c => negb (code 34 c)) s.
Proof.
  unfold replaceAll, Docker.reQuote. rewrite replaceGo_Chr.
  induction s as [|c s IH]; [reflexivity|]. simpl. rewrite IH.
  destruct (code 34 c); reflexivity.
Qed.

Lemma osVersionOf_unquoted lines osVersion :
  34%N ∉ osVersion → 34%N ∉ Docker.osVersionOf lines osVersion.
Proof.
  revert osVersion.
  induction lines as [|line lines IH]; intros osVersion Hq; cbn [Docker.osVersionOf].
  - exact Hq.
  - destruct (startsWith (lit "PRETTY_NAME=") line).
    + apply (replaceAll_Chr_out 34%N). apply not_elem_of_nil.
    + destruct (startsWith (lit "VERSION=") line).
      * apply IH. apply (replaceAll_Chr_out 34%N). apply not_elem_of_nil.
      * apply IH, Hq.
Qed.

Lemma replaceFirst_prefix t repl s :
  startsWith t s = true → Docker.replaceFirst t repl s = repl ++ drop (length t) s.
Proof. intros H. destruct s; simpl; rewrite H; reflexivity. Qed.

Lemma osVersionOf_pretty pre line post osVersion :
  Forall (fun l => startsWith (lit "PRETTY_NAME=") l = false) pre →
  startsWith (lit "PRETTY_NAME=") line = true →
  Docker.osVersionOf (pre ++ line :: post) osVersion
  = List.filter (fun c => negb (code 34 c)) (drop 12 line).
Proof.
  intros Hpre Hline. revert osVersion.
  induction Hpre as [|l pre Hl Hpre IH]; intros osVersion.
  - cbn [app Docker.osVersionOf]. rewrite Hline, replaceFirst_prefix by exact Hline.
    apply unquoted.
  - cbn [app Docker.osVersionOf]. rewrite Hl.
    destruct (startsWith (lit "VERSION=") l); apply IH.
Qed.

End SystemInfo.

(** X28. The system information [getSystemInfo] reads off the output of its
    command: the operating system, the host name and the architecture are
    never empty (a missing word is replaced by a default), and the version
    holds no double quote.  When a line starts with [PRETTY_NAME=], the
    version is what follows on the first such line, without its quotes,
    whatever [VERSION=] lines come before it. *)
Theorem getSystemInfo_reads_the_release (info : list N) :
  let r := Docker.getSystemInfo info in
  Docker.os r ≠ [] ∧ Docker.hostname r ≠ [] ∧ Docker.arch r ≠ []
  ∧ (34%N ∉ Docker.osVersion r)
  ∧ ∀ pre line post,
      split LF info = pre ++ line :: post →
      Forall (fun l => startsWith (lit "PRETTY_NAME=") l = false) pre →
      startsWith (lit "PRETTY_NAME=") line = true →
      Docker.osVersion r = List.filter (fun c => negb (code 34 c)) (drop 12 line).
Proof.
  cbn zeta. unfold Docker.getSystemInfo. cbv zeta.
  cbn [Docker.os Docker.hostname Docker.arch Docker.osVersion].
  split; [apply orStr_filled; discriminate|].
  split; [apply orStr_filled; discriminate|].
  split; [apply orStr_filled; discriminate|].
  split.
  - apply osVersionOf_unquoted. vm_compute. intros H.
    repeat (apply elem_of_cons in H as [H|H]; [discriminate|]).
    apply elem_of_nil in H. exact H.
  - intros pre line post Hsplit Hpre Hline. rewrite Hsplit.
    apply osVersionOf_pretty; assumption.
Qed.

(** A container of the default image. *)
Example getSystemInfo_sample :
  let r := Docker.getSystemInfo
             (unlines [lit "Linux 0a1b2c3d 6.6.1 #1 SMP x86_64 GNU/Linux"; lit "---";
                       lit "VERSION=24.04";
                       lit "PRETTY_NAME=" ++ [34%N] ++ lit "Ubuntu 24.04 LTS"
                       ++ [34%N]]) in
  (Docker.os r, Docker.hostname r, Docker.arch r, Docker.osVersion r)
  = (lit "Linux", lit "0a1b2c3d", lit "x86_64", lit "Ubuntu 24.04 LTS").
Proof. vm_compute. reflexivity. Qed.

(* ===================================================================== *)
(** ** The tails of the log tailer *)
(* ===================================================================== *)

Section Tails.

Implicit Types tails : Tailer.Tails.

Lemma tail_count_perm (l l' : list (list N * Tailer.LogTailState)) :
  l ≡ₚ l' →
  foldr (fun kv cleaned =>
           if Tailer.isOver (Tailer.status (snd kv)) then S cleaned else cleaned)
    0%nat l
  = foldr (fun kv cleaned =>
             if Tailer.isOver (Tailer.status (snd kv)) then S cleaned else cleaned)
      0%nat l'.
Proof.
  induction 1 as [|x l l' _ IH|x y l|l l' l'' _ IH1 _ IH2]; simpl.
  - reflexivity.
  - rewrite IH. reflexivity.
  - repeat case_match; reflexivity.
  - congruence.
Qed.

Lemma tails_cleaned_insert tails i t :
  tails !! i = None →
  Tailer.cleaned (<[i := t]> tails)
  = ((if Tailer.isOver (Tailer.status t) then 1 else 0) + Tailer.cleaned tails)%nat.
Proof.
  intros Hi. unfold Tailer.cleaned.
  rewrite (tail_count_perm _ _ (map_to_list_insert tails i t Hi)). simpl.
  destruct (Tailer.isOver (Tailer.status t)); reflexivity.
Qed.

Lemma tails_cleanup_insert tails i t :
  tails !! i = None →
  Tailer.cleanupStopped (<[i := t]> tails)
  = if Tailer.isOver (Tailer.status t) then Tailer.cleanupStopped tails
    else <[i := t]> (Tailer.cleanupStopped tails).
Proof.
  intros Hi. unfold Tailer.cleanupStopped.
  destruct (Tailer.isOver (Tailer.status t)) eqn:E.
  - rewrite map_filter_insert_False by (simpl; congruence).
    rewrite delete_id by exact Hi. reflexivity.
  - rewrite map_filter_insert_True by exact E. reflexivity.
Qed.

Lemma tails_cleaned_count tails :
  (Tailer.cleaned tails + size (Tailer.cleanupStopped tails))%nat = size tails.
Proof.
  induction tails as [|i t tails Hi IH] using map_ind.
  - unfold Tailer.cleaned, Tailer.cleanupStopped.
    rewrite map_to_list_empty, map_filter_empty, map_size_empty. reflexivity.
  - rewrite tails_cleaned_insert, tails_cleanup_insert, map_size_insert_None by exact Hi.
    destruct (Tailer.isOver (Tailer.status t)); [lia|].
    rewrite map_size_insert_None; [lia|].
    unfold Tailer.cleanupStopped. apply map_lookup_filter_None. auto.
Qed.

Lemma tails_cleanup_lookup tails i t :
  Tailer.cleanupStopped tails !! i = Some t
  ↔ tails !! i = Some t ∧ Tailer.isOver (Tailer.status t) = false.
Proof. unfold Tailer.cleanupStopped. apply map_lookup_filter_Some. Qed.

Lemma getActiveTails_elem tails t :
  t ∈ Tailer.getActiveTails tails
  ↔ ∃ i, tails !! i = Some t ∧ Tailer.status t = Poller.running.
Proof.
  unfold Tailer.getActiveTails. split.
  - intros Ht. apply list_elem_of_In, filter_In in Ht as [Ht Hrun].
    apply list_elem_of_In, list_elem_of_fmap in Ht as ([i q] & -> & Hq).
    apply elem_of_map_to_list in Hq. simpl in *. exists i. split; [exact Hq|].
    destruct (Tailer.status q); try discriminate. reflexivity.
  - intros (i & Ht & Hrun). apply list_elem_of_In, filter_In. split.
    + apply list_elem_of_In, list_elem_of_fmap. exists (i, t). split; [reflexivity|].
      apply elem_of_map_to_list, Ht.
    + rewrite Hrun. reflexivity.
Qed.

(** The second half of [startTailCommand]: the first lines are read. *)
Lemma initial_lines_tails (tailState t1 : Tailer.LogTailState) (configLines : Z)
    tails w sched :
  tails !! Tailer.id tailState = Some t1 →
  ∃ o tails' w' sched' t',
    (if (0 <? configLines)%Z then
       Tailer.tbind
         (Tailer.lift
            (SessionManager.executeCommand
               {| Manager.sessionId := Tailer.sessionId tailState;
                  Manager.command :=
                    lit "tail -n " ++ showZ configLines ++ lit " "
                    ++ Transfer.quoted (Tailer.filePath tailState);
                  Manager.timeout := Some 10000%Z |}))
         (fun result =>
            if negb (success result) then
              Tailer.updateTail (Tailer.id tailState)
                (Tailer.failed
                   (orStr (resError result) (lit "Failed to read initial log lines")))
            else Tailer.tret tt)
     else Tailer.tret tt) tails w sched
    = (o, tails', w', sched')
    ∧ (∀ k, k ≠ Tailer.id tailState → tails' !! k = tails !! k)
    ∧ tails' !! Tailer.id tailState = Some t'
    ∧ TailSpec.sameTail t1 t'
    ∧ match o with
      | Returned _ =>
          Tailer.status t' = Tailer.status t1
          ∨ (Tailer.status t' = Poller.error ∧ is_Some (Tailer.error_ t'))
      | Thrown _ => Tailer.status t' = Tailer.status t1
      | Diverged => False
      end.
Proof.
  intros Ht1. destruct (0 <? configLines)%Z.
  - unfold Tailer.tbind, Tailer.lift.
    match goal with |- context [SessionManager.executeCommand ?c w sched] =>
      pose proof (executeCommand_settles c w sched) as H2;
      destruct (SessionManager.executeCommand c w sched) as [[[r2|e2|] w2] s2]
    end; simpl in H2; [| |congruence].
    + destruct (negb (success r2)).
      * unfold Tailer.updateTail. eexists _, _, _, _, _. split; [reflexivity|].
        split; [intros k Hk; apply lookup_alter_ne; congruence|].
        split; [rewrite lookup_alter_eq, Ht1; reflexivity|].
        split; [repeat split|]. right. split; [reflexivity | eexists; reflexivity].
      * unfold Tailer.tret. eexists _, _, _, _, t1. split; [reflexivity|].
        split; [reflexivity|]. split; [exact Ht1|]. split; [repeat split|].
        left. reflexivity.
    + eexists _, _, _, _, t1. split; [reflexivity|]. split; [reflexivity|].
      split; [exact Ht1|]. split; [repeat split | reflexivity].
  - unfold Tailer.tret. eexists _, _, _, _, t1. split; [reflexivity|].
    split; [reflexivity|]. split; [exact Ht1|]. split; [repeat split|].
    left. reflexivity.
Qed.

(** What [startTailCommand] does to the tails: only the state of its own
    tail changes, and it is marked as failed only by a call that returns. *)
Lemma startTailCommand_tails (tailState t0 : Tailer.LogTailState) (configLines : Z)
    tails w sched :
  tails !! Tailer.id tailState = Some t0 →
  ∃ o tails' w' sched' t',
    Tailer.startTailCommand tailState configLines tails w sched
    = (o, tails', w', sched')
    ∧ (∀ k, k ≠ Tailer.id tailState → tails' !! k = tails !! k)
    ∧ tails' !! Tailer.id tailState = Some t'
    ∧ TailSpec.sameTail t0 t'
    ∧ match o with
      | Returned _ =>
          Tailer.status t' = Tailer.status t0
          ∨ (Tailer.status t' = Poller.error ∧ is_Some (Tailer.error_ t'))
      | Thrown _ => Tailer.status t' = Tailer.status t0
      | Diverged => False
      end.
Proof.
  intros Ht0. unfold Tailer.startTailCommand, Tailer.tbind at 1, Tailer.lift at 1.
  unfold Tailer.getFileSize, bind.
  match goal with |- context [SessionManager.executeCommand ?c w sched] =>
    pose proof (executeCommand_settles c w sched) as H1;
    destruct (SessionManager.executeCommand c w sched) as [[[r1|e1|] w1] s1]
  end; simpl in H1; [| |congruence].
  2: { eexists _, _, _, _, t0. split; [reflexivity|]. split; [reflexivity|].
       split; [exact Ht0|]. split; [repeat split | reflexivity]. }
  clear H1. destruct (success r1); unfold ret; unfold Tailer.tbind at 1.
  - unfold Tailer.updateTail at 1.
    destruct (initial_lines_tails tailState
                (Tailer.withReadPosition (Tailer.parseInt (trim (output r1))) t0)
                configLines
                (alter (Tailer.withReadPosition (Tailer.parseInt (trim (output r1))))
                   (Tailer.id tailState) tails) w1 s1)
      as (o & tails' & w' & sched' & t' & Hrun & Hk & Ht & Hsame & Ho).
    { rewrite lookup_alter_eq, Ht0. reflexivity. }
    exists o, tails', w', sched', t'. split; [exact Hrun|].
    split; [|split; [exact Ht | split; [exact Hsame | exact Ho]]].
    intros k Hne. rewrite Hk by exact Hne. apply lookup_alter_ne. congruence.
  - unfold Tailer.tret at 1.
    apply (initial_lines_tails tailState t0 configLines tails w1 s1 Ht0).
Qed.

End Tails.

(** X29. [startTailing] registers the tail before it runs its first command.
    For a session that is not in the store it throws "Session <id> not
    found" and registers nothing.  Otherwise the tail is stored under the id
    that was drawn, with the path and the session it was asked for, and no
    other tail changes.  When the call returns, it returns that id, and the
    tail is running or, if the first lines could not be read, in error with a
    message.  When the call throws, because one of its commands did, the tail
    stays registered and listed as running, though the caller was not given
    its id. *)
Theorem startTailing_registers_before_it_can_fail (sid path : list N)
    (options : option Tailer.TailOptions) (tails : Tailer.Tails)
    (w : World) (sched : Schedule) :
  (getSession sid w = None →
   ∃ w', Tailer.startTailing sid path options tails w sched
         = (Thrown (PlainError (lit "Session " ++ sid ++ lit " not found")),
            tails, w', sched))
  ∧ (is_Some (getSession sid w) →
     let tailId := uuidSource w (uuidCount w) in
     ∃ o tails' w' sched' t,
       Tailer.startTailing sid path options tails w sched = (o, tails', w', sched')
       ∧ (∀ k, k ≠ tailId → tails' !! k = tails !! k)
       ∧ tails' !! tailId = Some t
       ∧ TailSpec.fresh tailId sid path (now w) t
       ∧ match o with
         | Returned r =>
             r = tailId
             ∧ (Tailer.status t = Poller.running
                ∨ (Tailer.status t = Poller.error ∧ is_Some (Tailer.error_ t)))
         | Thrown _ =>
             Tailer.status t = Poller.running ∧ t ∈ Tailer.getActiveTails tails'
         | Diverged => False
         end).
Proof.
  split.
  - unfold Tailer.startTailing, Tailer.tbind at 1, Tailer.lift at 1, uuidv4.
    unfold Tailer.tbind at 1, Tailer.lift at 1, getWorld, getSession.
    cbn [sessions now]. intros H. rewrite H. eexists. reflexivity.
  - intros [r H]. cbv zeta.
    unfold Tailer.startTailing, Tailer.tbind at 1, Tailer.lift at 1, uuidv4.
    unfold Tailer.tbind at 1, Tailer.lift at 1, getWorld, getSession.
    cbn [sessions now]. unfold getSession in H. rewrite H.
    unfold Tailer.tbind at 1.
    match goal with
    | |- context [Tailer.startTailCommand ?st ?n] =>
        set (tailState := st); set (configLines := n)
    end.
    match goal with
    | |- context [Tailer.tbind _ _ ?tl ?w0 sched] =>
        destruct (startTailCommand_tails tailState tailState configLines tl w0 sched)
          as (o & tails' & w' & sched' & t' & Hrun & Hk & Ht & Hsame & Ho)
    end.
    { apply lookup_insert_eq. }
    unfold Tailer.tbind. rewrite Hrun.
    destruct Hsame as (Hid & Hpath & Hsid & Hcreated).
    destruct o as [[]|e|]; [| |contradiction].
    + unfold Tailer.tret. eexists _, _, _, _, t'. split; [reflexivity|].
      split; [|split; [exact Ht|split]].
      * intros k Hne. rewrite Hk by exact Hne. apply lookup_insert_ne. congruence.
      * repeat split; assumption.
      * split; [reflexivity|]. exact Ho.
    + eexists _, _, _, _, t'. split; [reflexivity|].
      split; [|split; [exact Ht|split]].
      * intros k Hne. rewrite Hk by exact Hne. apply lookup_insert_ne. congruence.
      * repeat split; assumption.
      * split; [exact Ho|]. apply getActiveTails_elem. eexists. split; [exact Ht|exact Ho].
Qed.

(** A tail started on a busy session: the call throws, the tail stays. *)
Lemma startTailing_registers_before_it_can_fail_witness :
  let w := Examples.worldWith busy 1024 in
  ∃ e tails' w' sched' t,
    Tailer.startTailing (lit "default") (lit "/var/log/syslog") None ∅ w []
    = (Thrown e, tails', w', sched')
    ∧ tails' !! lit "uuid-0" = Some t
    ∧ Tailer.status t = Poller.running
    ∧ t ∈ Tailer.getActiveTails tails'.
Proof.
  intros w.
  destruct (startTailing_registers_before_it_can_fail (lit "default")
              (lit "/var/log/syslog") None ∅ w []) as [_ Hhit].
  destruct (Hhit ltac:(exists 0%nat; reflexivity))
    as (o & tails' & w' & sched' & t & Hrun & _ & Ht & _ & Ho).
  destruct o as [r|e|]; [exfalso; vm_compute in Hrun; discriminate | | contradiction].
  destruct Ho as [Hst Hact]. exists e, tails', w', sched', t.
  split; [exact Hrun|]. split; [exact Ht|]. split; [exact Hst | exact Hact].
Defined.

(** X30. [stopTailing] on a known tail marks it as stopped, whatever its
    status was, and does nothing else: no other tail changes and nothing is
    sent to the session.  The tail is then no longer listed as active and
    [cleanupStopped] removes it, together with every other tail that is
    stopped or in error and with no tail that is not; the number it returns
    is the number of tails removed.  After that, [getLogs] and
    [getIncrementalLogs] for the tail throw "Tail <id> not found" without
    running a command. *)
Theorem stopped_tail_is_cleaned_up (tailId : list N) (tails : Tailer.Tails)
    (t : Tailer.LogTailState) (w : World) (sched : Schedule) :
  tails !! tailId = Some t →
  ∃ tails1,
    Tailer.stopTailing tailId tails w sched = (Returned tt, tails1, w, sched)
    ∧ tails1 !! tailId = Some (Tailer.stoppedAt (now w) t)
    ∧ (∀ k, k ≠ tailId → tails1 !! k = tails !! k)
    ∧ (∀ a, a ∈ Tailer.getActiveTails tails1 →
            a ∈ Tailer.getActiveTails tails ∧ a ≠ Tailer.stoppedAt (now w) t)
    ∧ Tailer.cleanupStopped tails1 !! tailId = None
    ∧ (∀ k a, Tailer.cleanupStopped tails1 !! k = Some a
              ↔ tails1 !! k = Some a ∧ Tailer.isOver (Tailer.status a) = false)
    ∧ (Tailer.cleaned tails1 + size (Tailer.cleanupStopped tails1))%nat = size tails1
    ∧ (∀ dateValue since w2 s2,
         Tailer.getLogs dateValue tailId since (Tailer.cleanupStopped tails1) w2 s2
         = (Thrown (PlainError (lit "Tail " ++ tailId ++ lit " not found")),
            Tailer.cleanupStopped tails1, w2, s2))
    ∧ (∀ w2 s2,
         Tailer.getIncrementalLogs tailId (Tailer.cleanupStopped tails1) w2 s2
         = (Thrown (PlainError (lit "Tail " ++ tailId ++ lit " not found")),
            Tailer.cleanupStopped tails1, w2, s2)).
Proof.
  intros Ht. unfold Tailer.stopTailing. rewrite Ht. eexists. split; [reflexivity|].
  assert (Tailer.cleanupStopped (<[tailId := Tailer.stoppedAt (now w) t]> tails)
            !! tailId = None) as Hgone.
  { destruct (Tailer.cleanupStopped (<[tailId := Tailer.stoppedAt (now w) t]> tails)
                !! tailId) as [q|] eqn:E; [|reflexivity].
    apply tails_cleanup_lookup in E as [E Hq]. rewrite lookup_insert_eq in E.
    injection E as <-. discriminate. }
  split; [apply lookup_insert_eq|].
  split; [intros k Hk; apply lookup_insert_ne; congruence|].
  split; [|split; [exact Hgone|split; [apply tails_cleanup_lookup|split;
                                        [apply tails_cleaned_count|split]]]].
  - intros a Ha. apply getActiveTails_elem in Ha as (i & Hi & Hrun).
    destruct (decide (i = tailId)) as [->|Hne].
    + rewrite lookup_insert_eq in Hi. injection Hi as <-. discriminate.
    + rewrite lookup_insert_ne in Hi by congruence. split.
      * apply getActiveTails_elem. eauto.
      * intros ->. discriminate.
  - intros dateValue since w2 s2. unfold Tailer.getLogs. rewrite Hgone. reflexivity.
  - intros w2 s2. unfold Tailer.getIncrementalLogs. rewrite Hgone. reflexivity.
Qed.

Lemma stopped_tail_is_cleaned_up_witness :
  let w := Examples.worldWith ready 1024 in
  let tails : Tailer.Tails := {[ lit "t1" := TailExamples.syslogTail ]} in
  ∃ tails1,
    Tailer.stopTailing (lit "t1") tails w [] = (Returned tt, tails1, w, [])
    ∧ Tailer.getActiveTails tails1 = []
    ∧ Tailer.cleanupStopped tails1 !! lit "t1" = None.
Proof.
  intros w tails.
  destruct (stopped_tail_is_cleaned_up (lit "t1") tails TailExamples.syslogTail w []
              eq_refl) as (tails1 & Hrun & _ & _ & Hact & Hgone & _).
  exists tails1. split; [exact Hrun|]. split; [|exact Hgone].
  injection Hrun as <-. vm_compute. reflexivity.
Defined.
